(** * Infinite islands: chunk streaming, seeded generation and resource caches

    A shallow embedding of the streaming core of the ship game:
    [ChunkManager] (region streaming, generation queue, placeholders),
    [IslandGenerator] (terrain synthesis, geometry caches, validation) and
    [DataManager] (the record store and its persistence).

    JavaScript numbers that are used as integers (hashes, chunk indices,
    counters) are [Z] with the 32-bit wrap-around of the bit operators
    written out; numbers that are used as reals (positions, sizes, vertex
    coordinates) are binary64 [float]s.  Strings are [string]s: every string
    the program builds is ASCII, so a character is a UTF-16 code unit. *)

From Stdlib Require Import ZArith List String Ascii Bool Lia.
From Stdlib Require Import Uint63 PrimFloat FloatOps SpecFloat.
From Stdlib Require Import Decimal DecimalString.
From Stdlib Require DecimalPos.
From Stdlib Require FloatAxioms.
Import ListNotations.

Set Warnings "-inexact-float,-register-all".
Local Open Scope string_scope.
Local Open Scope Z_scope.

(* ================================================================== *)
(** * JavaScript primitives used by the sources *)
(* ================================================================== *)

Module JS.

(** ** Integers and bit operators *)

(** [ToInt32]: the conversion every bit operator applies to its operands. *)
Definition ToInt32 (z : Z) : Z := (z + 2 ^ 31) mod 2 ^ 32 - 2 ^ 31.

(** [a << n] *)
Definition shl (a n : Z) : Z := ToInt32 (Z.shiftl (ToInt32 a) n).

(** [a & b] *)
Definition band (a b : Z) : Z := Z.land (ToInt32 a) (ToInt32 b).

(** A number that the program uses as an integer: an integer, or [NaN]
    (what [parseInt] yields on text without digits). *)
Inductive num : Type :=
| Int (z : Z)
| NaN.

Definition num_add (a b : num) : num :=
  match a, b with Int x, Int y => Int (x + y) | _, _ => NaN end.

Definition num_sub (a b : num) : num :=
  match a, b with Int x, Int y => Int (x - y) | _, _ => NaN end.

(** [Math.abs] *)
Definition num_abs (a : num) : num :=
  match a with Int x => Int (Z.abs x) | NaN => NaN end.

(** [Math.min], [Math.max]: [NaN] as soon as an argument is. *)
Definition num_min (a b : num) : num :=
  match a, b with Int x, Int y => Int (Z.min x y) | _, _ => NaN end.

Definition num_max (a b : num) : num :=
  match a, b with Int x, Int y => Int (Z.max x y) | _, _ => NaN end.

(** [a <= b]: false when either side is [NaN]. *)
Definition num_le (a b : num) : bool :=
  match a, b with Int x, Int y => x <=? y | _, _ => false end.

(** ** Strings *)

(** [str.charCodeAt(i)] for the character [c] found at index [i]. *)
Definition charCode (c : ascii) : Z := Z.of_N (N_of_ascii c).

Definition chars (s : string) : list ascii := list_ascii_of_string s.

(** The decimal text of an integer, as a template literal prints it. *)
Definition string_of_Z (z : Z) : string :=
  NilZero.string_of_int (Z.to_int z).

Definition toString (n : num) : string :=
  match n with Int z => string_of_Z z | NaN => "NaN" end.

(** [str.startsWith(p)] *)
Definition startsWith (str p : string) : bool := String.prefix p str.

(** [str.split(sep)] for a one-character separator. *)
Fixpoint split (sep : ascii) (str : string) : list string :=
  match str with
  | EmptyString => [EmptyString]
  | String c rest =>
      if Ascii.eqb c sep then EmptyString :: split sep rest
      else
        match split sep rest with
        | h :: t => String c h :: t
        | [] => [String c EmptyString]
        end
  end.

Definition digit_of (c : ascii) : option Z :=
  let n := charCode c in
  if (48 <=? n) && (n <=? 57) then Some (n - 48) else None.

(** The longest run of decimal digits at the front of [s], read as a
    number; [acc] is what was read so far. *)
Fixpoint read_digits (s : string) (acc : option Z) : option Z :=
  match s with
  | EmptyString => acc
  | String c rest =>
      match digit_of c with
      | Some d =>
          read_digits rest
            (Some (10 * match acc with Some a => a | None => 0 end + d))
      | None => acc
      end
  end.

(** [parseInt(s)] on an optional sign followed by digits; anything else,
    [undefined] included ([None]), reads as [NaN].  Leading blanks and the
    [0x] prefix do not occur in chunk keys and are not modelled. *)
Definition parseInt (s : option string) : num :=
  match s with
  | None => NaN
  | Some (String "-" rest) =>
      match read_digits rest None with Some n => Int (- n) | None => NaN end
  | Some (String "+" rest) =>
      match read_digits rest None with Some n => Int n | None => NaN end
  | Some s =>
      match read_digits s None with Some n => Int n | None => NaN end
  end.

(** ** Floating-point numbers *)

(** The float nearest to an integer (exact below [2^53]). *)
Definition float_of_Z (z : Z) : float :=
  if z <? 0 then PrimFloat.opp (PrimFloat.of_uint63 (Uint63.of_Z (- z)))
  else PrimFloat.of_uint63 (Uint63.of_Z z).

Definition toFloat (n : num) : float :=
  match n with Int z => float_of_Z z | NaN => PrimFloat.nan end.

(** [isNaN(x)] *)
Definition isNaN (x : float) : bool := PrimFloat.is_nan x.

(** A finite float as an exact fraction [n / d], [d] a power of two. *)
Definition fraction (x : float) : option (Z * Z) :=
  match Prim2SF x with
  | S754_zero _ => Some (0, 1)
  | S754_finite s m e =>
      let n := if s then Z.neg m else Z.pos m in
      Some (n * 2 ^ Z.max e 0, 2 ^ Z.max (- e) 0)
  | _ => None
  end.

(** [Math.floor(x)], as an integer; [NaN] when [x] is not finite (an
    infinite argument does not occur in the program). *)
Definition Math_floor (x : float) : num :=
  match fraction x with
  | Some (n, d) => Int (n / d)
  | None => NaN
  end.

(** [Math.round(x)]: the integer nearest to [x], ties upwards. *)
Definition Math_round (x : float) : num :=
  match fraction x with
  | Some (n, d) => Int ((2 * n + d) / (2 * d))
  | None => NaN
  end.

(** [Math.PI] *)
Definition Math_PI : float := 3.141592653589793%float.

(** A numeric literal of the source together with the text
    [Number.prototype.toString] yields for it: the seeded generators
    concatenate that text into the string they hash. *)
Record literal : Type := Lit { value : float; text : string }.

End JS.

(* ================================================================== *)
(** * The two string hashes *)
(* ================================================================== *)

Module Hash.
Import JS.

(** One turn of the loop body shared by [hashCode] and [simpleHash]:
    [hash = ((hash << 5) - hash) + char; hash = hash & hash]. *)
Definition hash_step (hash : Z) (c : ascii) : Z :=
  let hash := (shl hash 5 - hash) + charCode c in
  band hash hash.

(** [IslandGenerator.hashCode]: the loop runs over the whole string. *)
Definition hashCode (str : string) : Z :=
  Z.abs (fold_left hash_step (chars str) 0).

(** [ChunkManager.simpleHash]: the loop stops at
    [Math.min(str.length, 10)]. *)
Definition simpleHash (str : string) : Z :=
  if (String.length str =? 0)%nat then 0
  else
    Z.abs (fold_left hash_step
             (firstn (Nat.min (String.length str) 10) (chars str)) 0).

(** The polynomial rolling hash as the specification words it:
    start from 0, [hash = hash*31 + charCode] wrapped to 32 bits for every
    character, magnitude at the end. *)
Definition poly_step (hash : Z) (c : ascii) : Z :=
  ToInt32 (hash * 31 + charCode c).

Definition rolling_hash (str : string) : Z :=
  Z.abs (fold_left poly_step (chars str) 0).

End Hash.

(* ================================================================== *)
(** * Insertion-ordered containers *)
(* ================================================================== *)

(** A JavaScript [Map], a plain object used as a dictionary and a [Set]
    all iterate in insertion order: they are association lists and lists
    here, with the operations the sources use. *)
Module Dict.

Section Keyed.
Context {K V : Type} (eqb : K -> K -> bool).

(** [map.get(k)] / [obj[k]] *)
Fixpoint get (k : K) (m : list (K * V)) : option V :=
  match m with
  | [] => None
  | (k', v) :: rest => if eqb k k' then Some v else get k rest
  end.

(** [map.has(k)] *)
Definition has (k : K) (m : list (K * V)) : bool :=
  match get k m with Some _ => true | None => false end.

(** [map.set(k, v)] / [obj[k] = v]: an existing key keeps its place. *)
Fixpoint set (k : K) (v : V) (m : list (K * V)) : list (K * V) :=
  match m with
  | [] => [(k, v)]
  | (k', v') :: rest =>
      if eqb k k' then (k, v) :: rest else (k', v') :: set k v rest
  end.

(** [map.delete(k)] *)
Fixpoint delete (k : K) (m : list (K * V)) : list (K * V) :=
  match m with
  | [] => []
  | (k', v') :: rest =>
      if eqb k k' then delete k rest else (k', v') :: delete k rest
  end.

(** [set.has(k)] / [array.includes(k)] *)
Fixpoint mem (k : K) (l : list K) : bool :=
  match l with
  | [] => false
  | k' :: rest => if eqb k k' then true else mem k rest
  end.

(** [set.add(k)] *)
Definition add (k : K) (l : list K) : list K :=
  if mem k l then l else (l ++ [k])%list.

(** [set.delete(k)] / [scene.remove(k)] *)
Fixpoint drop (k : K) (l : list K) : list K :=
  match l with
  | [] => []
  | k' :: rest => if eqb k k' then drop k rest else k' :: drop k rest
  end.

End Keyed.

End Dict.

(* ================================================================== *)
(** * Constants of the game *)
(* ================================================================== *)

Module Config.
Import JS.

Definition CHUNK_SIZE : Z := 100.
Definition VIEW_DISTANCE : Z := 2.
Definition ISLANDS_PER_CHUNK_min : Z := 3.
Definition ISLANDS_PER_CHUNK_max : Z := 6.
Definition ISLAND_SIZE_RANGE_min : literal := Lit 5 "5".
Definition ISLAND_SIZE_RANGE_max : literal := Lit 10 "10".

Definition MAX_ADS_PER_CHUNK : Z := 1.
Definition AD_SPAWN_CHANCE : float := 0.15.
Definition STARTING_CHUNK_AD_BOOST : float := 2.
Definition STARTING_AREA_RADIUS : float := 2.

Record AdTier : Type :=
  { rank : Z; sizeBoost : float; tierName : string }.

Definition AD_RANK_TIERS : list AdTier :=
  [ {| rank := 10; sizeBoost := 1.7; tierName := "Premium Plus" |};
    {| rank := 8; sizeBoost := 1.6; tierName := "Premium" |};
    {| rank := 6; sizeBoost := 1.5; tierName := "Plus" |};
    {| rank := 4; sizeBoost := 1.4; tierName := "Standard" |};
    {| rank := 2; sizeBoost := 1.3; tierName := "Basic" |} ].

Record Biome : Type := { biomeName : string; color : Z }.

Definition BIOMES : list Biome :=
  [ {| biomeName := "Jungle"; color := 0x228B22 |};
    {| biomeName := "Desert"; color := 0xC2B280 |};
    {| biomeName := "Snow"; color := 0xFFFFFF |};
    {| biomeName := "Volcano"; color := 0x8B0000 |} ].

End Config.

(* ================================================================== *)
(** * The rendering library and the host, as far as the sources use them *)
(* ================================================================== *)

Module Three.
Import JS.

(** Object identity: every [new] yields a fresh reference. *)
Definition ref : Type := nat.

Record Vector3 : Type := vec3 { vx : float; vy : float; vz : float }.

(** What the host and three.js compute and the repository does not
    define: the vertex positions a geometry constructor lays out, the
    radius [computeBoundingSphere] stores, the transcendental functions
    (implementation-approximated in ECMAScript), the values [Math.random]
    returns in the order of the calls, and [Number.prototype.toString]. *)
Record Platform : Type :=
  { CylinderGeometry :
      float -> float -> float -> num -> num -> bool -> list Vector3;
    SphereGeometry :
      float -> num -> num -> float -> float -> float -> float ->
      list Vector3;
    PlaneGeometry : float -> float -> list Vector3;
    boundingRadius : list Vector3 -> float;
    Math_sin : float -> float;
    Math_cos : float -> float;
    Math_atan2 : float -> float -> float;
    Math_random : nat -> float;
    Number_toString : float -> string }.

(** A [BufferGeometry]: its [position] attribute and the radius of its
    bounding sphere once computed. *)
Record BufferGeometry : Type :=
  { position : list Vector3; boundingSphere : option float }.

(** Which [new THREE.Mesh] of the sources made a mesh (bookkeeping of the
    model: the program itself tags billboards only). *)
Inductive Origin : Type :=
| Terrain
| Billboard
| PlaceholderCone (chunkKey : string) (index : Z).

Inductive Object3D : Type :=
| Mesh (geometry : ref) (origin : Origin)
| Group (userData_id : string) (children : list ref).

(** Everything the island generator can reach: the scene graph and the
    objects it allocates, its two geometry caches, the label container of
    the page, and how many values [Math.random] has handed out. *)
Record Gfx : Type :=
  { scene : list ref;
    objects : list (ref * Object3D);
    geometries : list (ref * BufferGeometry);
    next_ref : ref;
    geometryCache : list (string * ref);
    billboardGeometryCache : list (string * ref);
    islandLabels : option (list ref);
    randoms : nat }.

Definition with_scene (f : list ref -> list ref) (g : Gfx) : Gfx :=
  {| scene := f (scene g); objects := objects g;
     geometries := geometries g; next_ref := next_ref g;
     geometryCache := geometryCache g;
     billboardGeometryCache := billboardGeometryCache g;
     islandLabels := islandLabels g; randoms := randoms g |}.

Definition with_objects
  (f : list (ref * Object3D) -> list (ref * Object3D)) (g : Gfx) : Gfx :=
  {| scene := scene g; objects := f (objects g);
     geometries := geometries g; next_ref := next_ref g;
     geometryCache := geometryCache g;
     billboardGeometryCache := billboardGeometryCache g;
     islandLabels := islandLabels g; randoms := randoms g |}.

Definition with_geometries
  (f : list (ref * BufferGeometry) -> list (ref * BufferGeometry))
  (g : Gfx) : Gfx :=
  {| scene := scene g; objects := objects g;
     geometries := f (geometries g); next_ref := next_ref g;
     geometryCache := geometryCache g;
     billboardGeometryCache := billboardGeometryCache g;
     islandLabels := islandLabels g; randoms := randoms g |}.

Definition with_next_ref (n : ref) (g : Gfx) : Gfx :=
  {| scene := scene g; objects := objects g;
     geometries := geometries g; next_ref := n;
     geometryCache := geometryCache g;
     billboardGeometryCache := billboardGeometryCache g;
     islandLabels := islandLabels g; randoms := randoms g |}.

Definition with_geometryCache
  (f : list (string * ref) -> list (string * ref)) (g : Gfx) : Gfx :=
  {| scene := scene g; objects := objects g;
     geometries := geometries g; next_ref := next_ref g;
     geometryCache := f (geometryCache g);
     billboardGeometryCache := billboardGeometryCache g;
     islandLabels := islandLabels g; randoms := randoms g |}.

Definition with_billboardGeometryCache
  (f : list (string * ref) -> list (string * ref)) (g : Gfx) : Gfx :=
  {| scene := scene g; objects := objects g;
     geometries := geometries g; next_ref := next_ref g;
     geometryCache := geometryCache g;
     billboardGeometryCache := f (billboardGeometryCache g);
     islandLabels := islandLabels g; randoms := randoms g |}.

Definition with_islandLabels
  (f : option (list ref) -> option (list ref)) (g : Gfx) : Gfx :=
  {| scene := scene g; objects := objects g;
     geometries := geometries g; next_ref := next_ref g;
     geometryCache := geometryCache g;
     billboardGeometryCache := billboardGeometryCache g;
     islandLabels := f (islandLabels g); randoms := randoms g |}.

Definition with_randoms (n : nat) (g : Gfx) : Gfx :=
  {| scene := scene g; objects := objects g;
     geometries := geometries g; next_ref := next_ref g;
     geometryCache := geometryCache g;
     billboardGeometryCache := billboardGeometryCache g;
     islandLabels := islandLabels g; randoms := n |}.

(** [new ...]: hand out the next reference. *)
Definition fresh (g : Gfx) : ref * Gfx :=
  (next_ref g, with_next_ref (S (next_ref g)) g).

(** [new THREE.BufferGeometry] with the given content. *)
Definition new_geometry (b : BufferGeometry) (g : Gfx) : ref * Gfx :=
  let (r, g) := fresh g in
  (r, with_geometries (fun m => ((r, b) :: m)%list) g).

(** [new THREE.Mesh(geometry, material)] / [new THREE.Group()] *)
Definition new_object (o : Object3D) (g : Gfx) : ref * Gfx :=
  let (r, g) := fresh g in
  (r, with_objects (fun m => ((r, o) :: m)%list) g).

Definition geometry_at (r : ref) (g : Gfx) : option BufferGeometry :=
  Dict.get Nat.eqb r (geometries g).

Definition object_at (r : ref) (g : Gfx) : option Object3D :=
  Dict.get Nat.eqb r (objects g).

(** The vertex array of the geometry [r] (empty when [r] is no geometry). *)
Definition positions (r : ref) (g : Gfx) : list Vector3 :=
  match geometry_at r g with Some b => position b | None => [] end.

(** Overwrite the geometry stored at [r] (an in-place mutation). *)
Definition put_geometry (r : ref) (b : BufferGeometry) (g : Gfx) : Gfx :=
  with_geometries (Dict.set Nat.eqb r b) g.

(** [geometry.clone()] *)
Definition clone (r : ref) (g : Gfx) : ref * Gfx :=
  match geometry_at r g with
  | Some b => new_geometry b g
  | None => new_geometry {| position := []; boundingSphere := None |} g
  end.

(** [scene.add(o)]: three.js appends [o] to the children, after detaching
    it from its former place. *)
Definition scene_add (o : ref) (g : Gfx) : Gfx :=
  with_scene (fun s => (Dict.drop Nat.eqb o s ++ [o])%list) g.

(** [scene.remove(o)] *)
Definition scene_remove (o : ref) (g : Gfx) : Gfx :=
  with_scene (Dict.drop Nat.eqb o) g.

(** [Math.random()] *)
Definition random (P : Platform) (g : Gfx) : float * Gfx :=
  (Math_random P (randoms g), with_randoms (S (randoms g)) g).

End Three.

(* ================================================================== *)
(** * Island records and their persistence ([types], [DataManager]) *)
(* ================================================================== *)

Module Data.
Import JS Three.

Record Position : Type := { pos_x : float; pos_y : float; pos_z : float }.

(** The value of [outdoor.billboard]: the live billboard mesh, or the
    plain object [JSON.parse] rebuilds from what was stored for one. *)
Inductive BillboardValue : Type :=
| LiveMesh (r : ref)
| Revived (r : ref).

Record Outdoor : Type :=
  { image : string;
    url : string;
    active : bool;
    billboard : option BillboardValue;
    lastInteractionTime : option float;
    adRank : option float }.

Record IslandData : Type :=
  { id : string;
    pos : Position;
    biome : string;
    size : float;
    name : option string;
    chunk : string;
    mesh : option ref;
    label : option ref;
    outdoor : option Outdoor }.

Definition with_mesh (m : option ref) (i : IslandData) : IslandData :=
  {| id := id i; pos := pos i; biome := biome i; size := size i;
     name := name i; chunk := chunk i; mesh := m; label := label i;
     outdoor := outdoor i |}.

Definition with_label (l : option ref) (i : IslandData) : IslandData :=
  {| id := id i; pos := pos i; biome := biome i; size := size i;
     name := name i; chunk := chunk i; mesh := mesh i; label := l;
     outdoor := outdoor i |}.

Definition with_outdoor (o : option Outdoor) (i : IslandData) : IslandData :=
  {| id := id i; pos := pos i; biome := biome i; size := size i;
     name := name i; chunk := chunk i; mesh := mesh i; label := label i;
     outdoor := o |}.

Definition with_billboard (b : option BillboardValue) (o : Outdoor) : Outdoor :=
  {| image := image o; url := url o; active := active o; billboard := b;
     lastInteractionTime := lastInteractionTime o; adRank := adRank o |}.

(** ** JSON values *)

(** What [JSON.stringify] writes and [JSON.parse] reads back.  [JHandle r]
    stands for the object three.js serializes the scene object [r] to
    (through its [toJSON]). *)
Inductive json : Type :=
| JNull
| JBool (b : bool)
| JNumber (f : float)
| JString (s : string)
| JArray (items : list json)
| JObject (fields : list (string * json))
| JHandle (r : ref).

(** One entry of [localStorage]: absent, text that [JSON.parse] rejects,
    or text that parses to a value. *)
Inductive item : Type :=
| Missing
| Garbled
| Parsed (j : json).

Record Storage : Type := { stored_islandData : item; stored_generatedChunks : item }.

(** A number as [JSON.stringify] writes it: [null] unless finite, and
    without the sign of a zero. *)
Definition encode_number (f : float) : json :=
  if PrimFloat.is_finite f
  then (if PrimFloat.is_zero f then JNumber 0%float else JNumber f)
  else JNull.

Definition encode_optional {A} (k : string) (enc : A -> json) (v : option A)
  : list (string * json) :=
  match v with Some a => [(k, enc a)] | None => [] end.

Definition encode_billboard (b : BillboardValue) : json :=
  match b with LiveMesh r => JHandle r | Revived r => JHandle r end.

Definition encode_outdoor (o : Outdoor) : json :=
  JObject
    ([ ("image", JString (image o));
       ("url", JString (url o));
       ("active", JBool (active o)) ]
     ++ encode_optional "adRank" encode_number (adRank o)
     ++ encode_optional "billboard" encode_billboard (billboard o)
     ++ encode_optional "lastInteractionTime" encode_number
          (lastInteractionTime o))%list.

(** [const { mesh, label, ...rest } = island; return rest], as written by
    [JSON.stringify]: every remaining property of the record. *)
Definition encode_island (i : IslandData) : json :=
  JObject
    ([ ("id", JString (id i));
       ("pos",
        JObject [ ("x", encode_number (pos_x (pos i)));
                  ("y", encode_number (pos_y (pos i)));
                  ("z", encode_number (pos_z (pos i))) ]);
       ("biome", JString (biome i));
       ("size", encode_number (size i));
       ("name", match name i with Some n => JString n | None => JNull end);
       ("chunk", JString (chunk i)) ]
     ++ encode_optional "outdoor" encode_outdoor (outdoor i))%list.

Definition field (k : string) (fields : list (string * json)) : option json :=
  Dict.get String.eqb k fields.

(** Reading a stored number back; a stored [null] acts as [0] in every
    later computation. *)
Definition decode_number (j : json) : option float :=
  match j with
  | JNumber f => Some f
  | JNull => Some 0%float
  | _ => None
  end.

Definition decode_string (j : json) : option string :=
  match j with JString s => Some s | _ => None end.

Definition decode_optional {A} (dec : json -> option A) (j : option json)
  : option (option A) :=
  match j with
  | None => Some None
  | Some j => match dec j with Some a => Some (Some a) | None => None end
  end.

Definition decode_billboard (j : json) : option BillboardValue :=
  match j with JHandle r => Some (Revived r) | _ => None end.

Definition decode_outdoor (j : json) : option Outdoor :=
  match j with
  | JObject fs =>
      match field "image" fs, field "url" fs, field "active" fs,
            decode_optional decode_number (field "adRank" fs),
            decode_optional decode_billboard (field "billboard" fs),
            decode_optional decode_number (field "lastInteractionTime" fs)
      with
      | Some (JString im), Some (JString u), Some (JBool a),
        Some r, Some b, Some t =>
          Some {| image := im; url := u; active := a; billboard := b;
                  lastInteractionTime := t; adRank := r |}
      | _, _, _, _, _, _ => None
      end
  | _ => None
  end.

Definition decode_position (j : json) : option Position :=
  match j with
  | JObject fs =>
      match field "x" fs, field "y" fs, field "z" fs with
      | Some jx, Some jy, Some jz =>
          match decode_number jx, decode_number jy, decode_number jz with
          | Some x, Some y, Some z =>
              Some {| pos_x := x; pos_y := y; pos_z := z |}
          | _, _, _ => None
          end
      | _, _, _ => None
      end
  | _ => None
  end.

(** A parsed record as the program goes on to use it.  Shapes the typed
    record cannot hold are read as a failure of the whole load. *)
Definition decode_island (j : json) : option IslandData :=
  match j with
  | JObject fs =>
      match field "id" fs, field "pos" fs, field "biome" fs,
            field "size" fs, field "name" fs, field "chunk" fs,
            decode_optional decode_outdoor (field "outdoor" fs)
      with
      | Some (JString i), Some jp, Some (JString b), Some js, Some jn,
        Some (JString c), Some o =>
          match decode_position jp, decode_number js,
                match jn with
                | JNull => Some None
                | JString n => Some (Some n)
                | _ => None
                end
          with
          | Some p, Some s, Some n =>
              Some {| id := i; pos := p; biome := b; size := s; name := n;
                      chunk := c; mesh := None; label := None;
                      outdoor := o |}
          | _, _, _ => None
          end
      | _, _, _, _, _, _, _ => None
      end
  | _ => None
  end.

Fixpoint decode_all {A} (dec : json -> option A) (l : list json)
  : option (list A) :=
  match l with
  | [] => Some []
  | j :: rest =>
      match dec j, decode_all dec rest with
      | Some a, Some r => Some (a :: r)
      | _, _ => None
      end
  end.

(** ** The store *)

Record DataManager : Type :=
  { islandData : list (string * IslandData);
    generatedChunks : list string }.

(** [Object.values(this.islandData)] *)
Definition values (m : list (string * IslandData)) : list IslandData :=
  map snd m.

(** [this.islandData[island.id] = island] *)
Definition addIsland (island : IslandData) (d : DataManager) : DataManager :=
  {| islandData := Dict.set String.eqb (id island) island (islandData d);
     generatedChunks := generatedChunks d |}.

(** [this.generatedChunks.add(chunkKey)] *)
Definition addGeneratedChunk (chunkKey : string) (d : DataManager)
  : DataManager :=
  {| islandData := islandData d;
     generatedChunks := Dict.add String.eqb chunkKey (generatedChunks d) |}.

(** [getIslandById] *)
Definition getIslandById (i : string) (d : DataManager) : option IslandData :=
  Dict.get String.eqb i (islandData d).

(** [saveData]: both entries are rewritten. *)
Definition saveData (d : DataManager) : Storage :=
  {| stored_islandData :=
       Parsed (JArray (map encode_island (values (islandData d))));
     stored_generatedChunks :=
       Parsed (JArray (map JString (generatedChunks d))) |}.

(** [parsedData.reduce((acc, island) => { acc[island.id] = island; ... }, {})] *)
Definition index_by_id (l : list IslandData) : list (string * IslandData) :=
  fold_left (fun acc island => Dict.set String.eqb (id island) island acc) l [].

(** [new Set(array)] *)
Definition set_of_list (l : list string) : list string :=
  fold_left (fun acc k => Dict.add String.eqb k acc) l [].

(** [loadData]: an absent entry leaves the field as it is, an entry that
    cannot be read resets the field, and the two entries are independent. *)
Definition loadData (st : Storage) (d : DataManager) : DataManager :=
  {| islandData :=
       match stored_islandData st with
       | Missing => islandData d
       | Garbled => []
       | Parsed (JArray l) =>
           match decode_all decode_island l with
           | Some records => index_by_id records
           | None => []
           end
       | Parsed _ => []
       end;
     generatedChunks :=
       match stored_generatedChunks st with
       | Missing => generatedChunks d
       | Garbled => []
       | Parsed (JArray l) =>
           match decode_all decode_string l with
           | Some keys => set_of_list keys
           | None => []
           end
       | Parsed _ => []
       end |}.

(** [new DataManager()]: empty fields, then [loadData]. *)
Definition new_DataManager (st : Storage) : DataManager :=
  loadData st {| islandData := []; generatedChunks := [] |}.

(** The keys of a JSON value, at any depth. *)
Fixpoint keys_of (j : json) : list string :=
  match j with
  | JArray l => flat_map keys_of l
  | JObject fs =>
      flat_map (fun kv => fst kv :: keys_of (snd kv)) fs
  | _ => []
  end.

(** The scene-object handles a JSON value carries, at any depth. *)
Fixpoint handles_of (j : json) : list ref :=
  match j with
  | JHandle r => [r]
  | JArray l => flat_map handles_of l
  | JObject fs => flat_map (fun kv => handles_of (snd kv)) fs
  | _ => []
  end.

End Data.

(* ================================================================== *)
(** * Terrain synthesis, caches and validation ([IslandGenerator]) *)
(* ================================================================== *)

Module IslandGenerator.
Import JS Hash Config Three Data.

(** The loops over a position attribute: [f i v] is what is written back
    at index [i]. *)
Fixpoint update_from {A} (f : nat -> A -> A) (i : nat) (l : list A) : list A :=
  match l with
  | [] => []
  | a :: rest => f i a :: update_from f (S i) rest
  end.

(** The closure [random] of [createProceduralIslandMesh]: every value is
    a function of the seed and of the two bounds. *)
Definition seeded (seed : string) (min max : literal) : float :=
  if isNaN (value min) || isNaN (value max)
  then ((value min + value max) / 2)%float
  else
    let hashInput := seed ++ text min ++ text max in
    let hash := hashCode hashInput in
    let val := (float_of_Z (Z.rem hash 1000) / 1000)%float in
    (value min + PrimFloat.abs val * (value max - value min))%float.

(** The [switch (biome.name)] that picks the shape archetype. *)
Definition shapeTypeOf (biomeName : string) : Z :=
  if String.eqb biomeName "Forest" then 1
  else if String.eqb biomeName "Jungle" then 1
  else if String.eqb biomeName "Desert" then 2
  else if String.eqb biomeName "Volcano" then 3
  else if String.eqb biomeName "Snow" then 0
  else if String.eqb biomeName "Swamp" then 4
  else 1.

Definition getBiomeById (biomeName : string) : option Biome :=
  find (fun b => String.eqb (Config.biomeName b) biomeName) BIOMES.

(** [`${roundedWidth}`] for [roundedWidth = n / 2]. *)
Definition half_text (n : num) : string :=
  match n with
  | NaN => "NaN"
  | Int z =>
      if Z.even z then string_of_Z (z / 2)
      else (if z <? 0 then "-" else "")
           ++ string_of_Z (Z.abs z / 2) ++ ".5"
  end.

Section WithPlatform.
Variable P : Platform.

Local Open Scope float_scope.

(** ** The five archetypes: the position attribute each one returns *)

Definition createJaggedMountain (size : num)
  (random : literal -> literal -> float) : list Vector3 :=
  let sz := toFloat size in
  let baseRadius := sz in
  let height := sz * random (Lit 0.8 "0.8") (Lit 1 "1") in
  let segments := num_min (Int 8) (num_max (Int 6) (Math_floor sz)) in
  let heightSegments :=
    num_min (Int 3) (num_max (Int 2) (Math_floor (sz / 4))) in
  let geometry :=
    CylinderGeometry P 0 baseRadius height segments heightSegments false in
  update_from
    (fun i vertex =>
       if Nat.even i then
         if PrimFloat.abs (vy vertex - height / 2) <? 0.001 then vertex
         else
           let heightFactor := (vy vertex + height / 2) / height in
           let angle := Math_atan2 P (vz vertex) (vx vertex) in
           let noiseFactor :=
             random (Lit 0.8 "0.8") (Lit 1.2 "1.2") * sz * 0.15
             * heightFactor in
           let radius :=
             PrimFloat.sqrt (vx vertex * vx vertex + vz vertex * vz vertex) in
           let newRadius := radius + noiseFactor in
           vec3 (Math_cos P angle * newRadius) (vy vertex)
                (Math_sin P angle * newRadius)
       else vertex)
    0%nat geometry.

Definition createSmoothHill (size : num)
  (random : literal -> literal -> float) : list Vector3 :=
  let sz := toFloat size in
  let baseRadius := sz in
  let segments := num_min (Int 8) (num_max (Int 6) (Math_floor sz)) in
  SphereGeometry P (baseRadius * 0.7) segments
    (num_max (Int 4) (Math_floor (sz / 3)))
    0 (Math_PI * 2) 0 (Math_PI / 2).

Definition createMesa (size : num)
  (random : literal -> literal -> float) : list Vector3 :=
  let sz := toFloat size in
  let baseRadius := sz in
  let height := sz * 0.7 in
  let topRadius := baseRadius * 0.5 in
  CylinderGeometry P topRadius baseRadius height
    (num_max (Int 6) (Math_floor sz)) (Int 1) false.

Definition createVolcano (size : num)
  (random : literal -> literal -> float) : list Vector3 :=
  let sz := toFloat size in
  let baseRadius := sz in
  let height := sz * random (Lit 0.8 "0.8") (Lit 1.2 "1.2") in
  let craterRadius := baseRadius * random (Lit 0.2 "0.2") (Lit 0.4 "0.4") in
  let craterDepth := height * random (Lit 0.15 "0.15") (Lit 0.3 "0.3") in
  let segments := num_max (Int 8) (Math_floor (sz * 1.2)) in
  let heightSegments :=
    num_min (Int 4) (num_max (Int 2) (Math_floor (sz / 2.5))) in
  let geometry :=
    CylinderGeometry P craterRadius baseRadius height segments
      heightSegments false in
  update_from
    (fun _ vertex =>
       let distFromCenter :=
         PrimFloat.sqrt (vx vertex * vx vertex + vz vertex * vz vertex) in
       let y1 :=
         if height / 2 - 0.001 <? vy vertex then
           if distFromCenter <? craterRadius * 0.9
           then vy vertex - craterDepth * (1 - distFromCenter / craterRadius)
           else vy vertex
         else vy vertex in
       if y1 <? height / 2 then
         let heightFactor := (y1 + height / 2) / height in
         let noiseFactor :=
           random (Lit 0.9 "0.9") (Lit 1.1 "1.1") * sz * 0.05
           * heightFactor in
         let angle := Math_atan2 P (vz vertex) (vx vertex) in
         let radius := distFromCenter + noiseFactor in
         vec3 (Math_cos P angle * radius) y1 (Math_sin P angle * radius)
       else vec3 (vx vertex) y1 (vz vertex))
    0%nat geometry.

Definition createArchipelago (size : num)
  (random : literal -> literal -> float) : list Vector3 :=
  let sz := toFloat size in
  let baseRadius := sz in
  let height := sz * random (Lit 0.6 "0.6") (Lit 0.8 "0.8") in
  let segments := num_max (Int 8) (Math_floor sz) in
  let heightSegments := num_max (Int 2) (Math_floor (sz / 4)) in
  let geometry :=
    CylinderGeometry P (sz * 0.3) baseRadius height segments
      heightSegments false in
  update_from
    (fun _ vertex =>
       if PrimFloat.abs (vy vertex + height / 2) <? 0.001 then vertex
       else
         let distFromCenter :=
           PrimFloat.sqrt (vx vertex * vx vertex + vz vertex * vz vertex) in
         let normalizedDist := distFromCenter / baseRadius in
         let angle := Math_atan2 P (vz vertex) (vx vertex) in
         let wave :=
           Math_sin P (angle * 3) * Math_cos P (angle * 2)
           * random (Lit 0.8 "0.8") (Lit 1.2 "1.2") in
         if (- height) / 4 <? vy vertex then
           let heightMod := sz * 0.15 * wave * (1 - normalizedDist) in
           let radiusMod :=
             random (Lit 0.9 "0.9") (Lit 1.1 "1.1") * sz * 0.1 * wave in
           let newRadius := distFromCenter + radiusMod in
           vec3 (vx vertex / distFromCenter * newRadius)
                (vy vertex + heightMod)
                (vz vertex / distFromCenter * newRadius)
         else vertex)
    0%nat geometry.

(** The [switch (shapeType)] of the cache-miss branch. *)
Definition createShape (shapeType : Z) (sizeGroup : num)
  (random : literal -> literal -> float) : list Vector3 :=
  if (shapeType =? 0)%Z then createJaggedMountain sizeGroup random
  else if (shapeType =? 1)%Z then createSmoothHill sizeGroup random
  else if (shapeType =? 2)%Z then createMesa sizeGroup random
  else if (shapeType =? 3)%Z then createVolcano sizeGroup random
  else if (shapeType =? 4)%Z then createArchipelago sizeGroup random
  else
    CylinderGeometry P 0 (toFloat sizeGroup) (toFloat sizeGroup * 0.8)
      (Int 6) (Int 1) false.

(** [`${biome.name}_${shapeType}_${sizeGroup}`] *)
Definition cacheKeyOf (islandData : IslandData) (biome : Biome) : string :=
  let shapeType := shapeTypeOf (Config.biomeName biome) in
  let sizeGroup := Math_round (size islandData) in
  (Config.biomeName biome ++ "_" ++ string_of_Z shapeType ++ "_"
   ++ toString sizeGroup)%string.

(** [islandData.id || Math.random().toString()] *)
Definition seedOf (islandData : IslandData) (g : Gfx) : string * Gfx :=
  if String.eqb (id islandData) "" then
    let (r, g) := random P g in (Number_toString P r, g)
  else (id islandData, g).

(** ** [createProceduralIslandMesh]: the terrain mesh of one island *)
Definition createProceduralIslandMesh (islandData : IslandData)
  (biome : Biome) (g : Gfx) : ref * Gfx :=
  let (seed, g) := seedOf islandData g in
  let random := seeded seed in
  let shapeType := shapeTypeOf (Config.biomeName biome) in
  let sizeGroup := Math_round (size islandData) in
  let cacheKey := cacheKeyOf islandData biome in
  let (geometry, g) :=
    match Dict.get String.eqb cacheKey (geometryCache g) with
    | Some template => clone template g
    | None =>
        let (geometry, g) :=
          new_geometry
            {| position := createShape shapeType sizeGroup random;
               boundingSphere := None |} g in
        let (copy, g) := clone geometry g in
        (geometry,
         with_geometryCache (Dict.set String.eqb cacheKey copy) g)
    end in
  new_object (Mesh geometry Terrain) g.

(** ** Billboard geometry: [getBillboardGeometry] *)
Definition getBillboardGeometry (width height : float) (g : Gfx)
  : ref * Gfx :=
  let roundedWidth := Math_round (width * 2) in
  let roundedHeight := Math_round (height * 2) in
  let key := (half_text roundedWidth ++ "_" ++ half_text roundedHeight)%string in
  match Dict.get String.eqb key (billboardGeometryCache g) with
  | Some cached => (cached, g)
  | None =>
      let (plane, g) :=
        new_geometry
          {| position :=
               PlaneGeometry P (toFloat roundedWidth / 2)
                 (toFloat roundedHeight / 2);
             boundingSphere := None |} g in
      (plane, with_billboardGeometryCache (Dict.set String.eqb key plane) g)
  end.

(** ** Validation and repair *)

(** The body of the repair loop: a vertex with a [NaN] coordinate is
    overwritten with the origin. *)
Definition repair (v : Vector3) : Vector3 :=
  if isNaN (vx v) || isNaN (vy v) || isNaN (vz v) then vec3 0 0 0 else v.

Definition validateSingleMeshGeometry (mesh : ref) (g : Gfx) : bool * Gfx :=
  match object_at mesh g with
  | Some (Mesh geometry _) =>
      match geometry_at geometry g with
      | Some b =>
          let positions := map repair (position b) in
          let radius :=
            match boundingSphere b with
            | Some r => r
            | None => boundingRadius P positions
            end in
          (negb (isNaN radius),
           put_geometry geometry
             {| position := positions; boundingSphere := Some radius |} g)
      | None => (false, g)
      end
  | _ => (false, g)
  end.

Definition validateMeshGeometry (mesh : ref) (g : Gfx) : bool * Gfx :=
  match object_at mesh g with
  | Some (Group _ children) =>
      fold_left
        (fun (acc : bool * Gfx) child =>
           let (isValid, g) := acc in
           match object_at child g with
           | Some (Mesh _ _) =>
               if isValid then (isValid, g)
               else validateSingleMeshGeometry child g
           | _ => (isValid, g)
           end)
        children (false, g)
  | _ => validateSingleMeshGeometry mesh g
  end.

(** [group.add(child)] *)
Definition group_add (group child : ref) (g : Gfx) : Gfx :=
  match object_at group g with
  | Some (Group i children) =>
      with_objects
        (Dict.set Nat.eqb group (Group i (children ++ [child])%list)) g
  | _ => g
  end.

(** [mesh.geometry = geometry] *)
Definition set_geometry (mesh geometry : ref) (g : Gfx) : Gfx :=
  match object_at mesh g with
  | Some (Mesh _ o) =>
      with_objects (Dict.set Nat.eqb mesh (Mesh geometry o)) g
  | _ => g
  end.

(** [geometry.computeBoundingSphere()] *)
Definition computeBoundingSphere (geometry : ref) (g : Gfx) : Gfx :=
  match geometry_at geometry g with
  | Some b =>
      put_geometry geometry
        {| position := position b;
           boundingSphere := Some (boundingRadius P (position b)) |} g
  | None => g
  end.

(** ** [addOutdoorToIsland]: the billboard of an advertisement island.
    Materials, textures, the pedestal and the decorations carry no state
    the streaming core reads and are left out. *)
Definition addOutdoorToIsland (islandData : IslandData) (islandGroup : ref)
  (g : Gfx) : IslandData * Gfx :=
  match outdoor islandData with
  | None => (islandData, g)
  | Some o =>
      let adRank :=
        match Data.adRank o with
        | Some r => if PrimFloat.is_zero r || isNaN r then 1 else r
        | None => 1
        end in
      let rankSizeMultiplier := 1 + adRank / 20 in
      let billboardWidth := size islandData * 1.2 * rankSizeMultiplier in
      let billboardHeight := size islandData * 0.8 * rankSizeMultiplier in
      let (billboardGeometry, g) :=
        getBillboardGeometry billboardWidth billboardHeight g in
      let (billboard, g) := new_object (Mesh billboardGeometry Billboard) g in
      let g := group_add islandGroup billboard g in
      (with_outdoor (Some (with_billboard (Some (LiveMesh billboard)) o))
         islandData, g)
  end.

(** ** [addIslandMesh] *)
Definition addIslandMesh (islandData : IslandData) (g : Gfx)
  : IslandData * Gfx :=
  match getBiomeById (biome islandData) with
  | None => (islandData, g)
  | Some biome =>
      let (islandGroup, g) := new_object (Group (id islandData) []) g in
      let (terrainMesh, g) := createProceduralIslandMesh islandData biome g in
      let (valid, g) := validateMeshGeometry terrainMesh g in
      let g :=
        if valid then g
        else
          let (fallbackGeometry, g) :=
            new_geometry
              {| position :=
                   CylinderGeometry P 0 (size islandData)
                     (size islandData * 0.8) (Int 8) (Int 1) false;
                 boundingSphere := None |} g in
          let g := set_geometry terrainMesh fallbackGeometry g in
          computeBoundingSphere fallbackGeometry g in
      let g := group_add islandGroup terrainMesh g in
      let (islandData, g) :=
        match outdoor islandData with
        | Some o =>
            if active o then addOutdoorToIsland islandData islandGroup g
            else (islandData, g)
        | None => (islandData, g)
        end in
      let g := scene_add islandGroup g in
      (with_mesh (Some islandGroup) islandData, g)
  end.

(** ** [removeIslandMesh]: the group leaves the scene and the record
    forgets it ([outdoor.billboard] is left as it is). *)
Definition removeIslandMesh (islandData : IslandData) (g : Gfx)
  : IslandData * Gfx :=
  match mesh islandData with
  | Some m => (with_mesh None islandData, scene_remove m g)
  | None => (islandData, g)
  end.

(** ** [clearUnusedCaches]: a cache over its ceiling is emptied.  (The
    texture cache is not modelled.) *)
Definition clearUnusedCaches (g : Gfx) : Gfx :=
  let g :=
    if (50 <? List.length (geometryCache g))%nat
    then with_geometryCache (fun _ => []) g else g in
  if (20 <? List.length (billboardGeometryCache g))%nat
  then with_billboardGeometryCache (fun _ => []) g else g.

(** [dispose] *)
Definition dispose (g : Gfx) : Gfx :=
  with_billboardGeometryCache (fun _ => [])
    (with_geometryCache (fun _ => []) g).

End WithPlatform.

End IslandGenerator.

(* ================================================================== *)
(** * Region streaming ([ChunkManager]) *)
(* ================================================================== *)

Module ChunkManager.
Import JS Hash Config Three Data.

(** A callback handed to [setTimeout] by [processNextPendingChunk], with
    what its closure captured. *)
Record Task : Type :=
  { task_chunkKey : string;
    task_chunkX : num;
    task_chunkZ : num;
    task_near : bool;
    task_delay : Z }.

(** The chunk manager together with the collaborators it holds: the
    scene and generator state, the record store, [localStorage], and the
    callbacks waiting in the event loop. *)
Record World : Type :=
  { gfx : Gfx;
    dataManager : DataManager;
    localStorage : Storage;
    loadedChunks : list string;
    pendingChunks : list string;
    isGeneratingChunk : bool;
    lowPolyIslands : list (string * ref);
    chunkUpdateCounter : Z;
    timers : list Task }.

Definition set_gfx (v : Gfx) (w : World) : World :=
  {| gfx := v; dataManager := dataManager w;
     localStorage := localStorage w; loadedChunks := loadedChunks w;
     pendingChunks := pendingChunks w;
     isGeneratingChunk := isGeneratingChunk w;
     lowPolyIslands := lowPolyIslands w;
     chunkUpdateCounter := chunkUpdateCounter w; timers := timers w |}.

Definition set_dataManager (v : DataManager) (w : World) : World :=
  {| gfx := gfx w; dataManager := v; localStorage := localStorage w;
     loadedChunks := loadedChunks w; pendingChunks := pendingChunks w;
     isGeneratingChunk := isGeneratingChunk w;
     lowPolyIslands := lowPolyIslands w;
     chunkUpdateCounter := chunkUpdateCounter w; timers := timers w |}.

Definition set_localStorage (v : Storage) (w : World) : World :=
  {| gfx := gfx w; dataManager := dataManager w; localStorage := v;
     loadedChunks := loadedChunks w; pendingChunks := pendingChunks w;
     isGeneratingChunk := isGeneratingChunk w;
     lowPolyIslands := lowPolyIslands w;
     chunkUpdateCounter := chunkUpdateCounter w; timers := timers w |}.

Definition set_loadedChunks (v : list string) (w : World) : World :=
  {| gfx := gfx w; dataManager := dataManager w;
     localStorage := localStorage w; loadedChunks := v;
     pendingChunks := pendingChunks w;
     isGeneratingChunk := isGeneratingChunk w;
     lowPolyIslands := lowPolyIslands w;
     chunkUpdateCounter := chunkUpdateCounter w; timers := timers w |}.

Definition set_pendingChunks (v : list string) (w : World) : World :=
  {| gfx := gfx w; dataManager := dataManager w;
     localStorage := localStorage w; loadedChunks := loadedChunks w;
     pendingChunks := v; isGeneratingChunk := isGeneratingChunk w;
     lowPolyIslands := lowPolyIslands w;
     chunkUpdateCounter := chunkUpdateCounter w; timers := timers w |}.

Definition set_isGeneratingChunk (v : bool) (w : World) : World :=
  {| gfx := gfx w; dataManager := dataManager w;
     localStorage := localStorage w; loadedChunks := loadedChunks w;
     pendingChunks := pendingChunks w; isGeneratingChunk := v;
     lowPolyIslands := lowPolyIslands w;
     chunkUpdateCounter := chunkUpdateCounter w; timers := timers w |}.

Definition set_lowPolyIslands (v : list (string * ref)) (w : World) : World :=
  {| gfx := gfx w; dataManager := dataManager w;
     localStorage := localStorage w; loadedChunks := loadedChunks w;
     pendingChunks := pendingChunks w;
     isGeneratingChunk := isGeneratingChunk w; lowPolyIslands := v;
     chunkUpdateCounter := chunkUpdateCounter w; timers := timers w |}.

Definition set_chunkUpdateCounter (v : Z) (w : World) : World :=
  {| gfx := gfx w; dataManager := dataManager w;
     localStorage := localStorage w; loadedChunks := loadedChunks w;
     pendingChunks := pendingChunks w;
     isGeneratingChunk := isGeneratingChunk w;
     lowPolyIslands := lowPolyIslands w; chunkUpdateCounter := v;
     timers := timers w |}.

Definition set_timers (v : list Task) (w : World) : World :=
  {| gfx := gfx w; dataManager := dataManager w;
     localStorage := localStorage w; loadedChunks := loadedChunks w;
     pendingChunks := pendingChunks w;
     isGeneratingChunk := isGeneratingChunk w;
     lowPolyIslands := lowPolyIslands w;
     chunkUpdateCounter := chunkUpdateCounter w; timers := v |}.

Definition lowDetailDistance : Z := VIEW_DISTANCE.
Definition highDetailDistance : Z := 1.

(** [`${chunkX}_${chunkZ}`] *)
Definition chunkKeyOf (chunkX chunkZ : num) : string :=
  toString chunkX ++ "_" ++ toString chunkZ.

(** [`placeholder_${chunkKey}_${i}`] *)
Definition placeholderIdOf (chunkKey : string) (i : Z) : string :=
  "placeholder_" ++ chunkKey ++ "_" ++ string_of_Z i.

(** [for (let d = -n; d <= n; d++)] *)
Definition range (n : Z) : list Z :=
  map (fun i => Z.of_nat i - n) (seq 0 (Z.to_nat (2 * n + 1))).

(** The two nested loops over [dx] (outer) and [dz] (inner). *)
Definition offsets (n : Z) : list (Z * Z) := list_prod (range n) (range n).

(** [Math.floor(coordinate / CHUNK_SIZE)].  The ship's position is finite
    throughout a game; a position that is not reads as chunk [0] here. *)
Definition chunkIndex (coordinate : float) : Z :=
  match Math_floor (coordinate / float_of_Z CHUNK_SIZE)%float with
  | Int z => z
  | NaN => 0
  end.

(** [Object.values(islandData).filter(select).forEach(f)]: [f] mutates the
    records it visits in place and threads the state [S] it touches. *)
Fixpoint forEach {S : Type} (select : IslandData -> bool)
  (f : IslandData -> S -> IslandData * S)
  (records : list (string * IslandData)) (s : S)
  : list (string * IslandData) * S :=
  match records with
  | [] => ([], s)
  | (k, island) :: rest =>
      if select island then
        let (island, s) := f island s in
        let (rest, s) := forEach select f rest s in
        ((k, island) :: rest, s)
      else
        let (rest, s) := forEach select f rest s in
        ((k, island) :: rest, s)
  end.

Definition inChunk (key : string) (island : IslandData) : bool :=
  String.eqb (chunk island) key.

(** ** Seeded random functions of [generateChunk] *)

(** [getDetailedSeedRandom(key)] *)
Definition getDetailedSeedRandom (key : string) (min max : literal)
  (salt : string) : float :=
  let combinedSeed := key ++ salt ++ text min ++ text max in
  let hash := simpleHash combinedSeed in
  let val := (float_of_Z (Z.rem hash 1000) / 1000)%float in
  (value min + PrimFloat.abs val * (value max - value min))%float.

(** [getSimpleSeedRandom(key)] *)
Definition getSimpleSeedRandom (key : string) (min max : literal)
  (salt : string) : float :=
  let hash := simpleHash (key ++ salt) in
  (value min
   + float_of_Z (Z.rem hash 100) / 100 * (value max - value min))%float.

(** [array[index]] with a fallback for an index outside the array (the
    seeded bounds keep every index of [generateChunk] inside). *)
Definition at_index {A} (l : list A) (index : num) (fallback : A) : A :=
  match index with
  | Int z => if z <? 0 then fallback else nth (Z.to_nat z) l fallback
  | NaN => fallback
  end.

Section WithPlatform.
Variable P : Platform.

(** ** Island meshes and labels *)

(** [createIslandLabel] *)
Definition createIslandLabel (islandData : IslandData) (g : Gfx)
  : IslandData * Gfx :=
  match label islandData with
  | Some _ => (islandData, g)
  | None =>
      match islandLabels g with
      | None => (islandData, g)
      | Some _ =>
          let (div, g) := fresh g in
          (with_label (Some div) islandData,
           with_islandLabels
             (fun c =>
                match c with
                | Some l => Some (l ++ [div])%list
                | None => None
                end) g)
      end
  end.

(** [if (islandData.name)] *)
Definition hasName (islandData : IslandData) : bool :=
  match name islandData with
  | Some n => negb (String.eqb n "")
  | None => false
  end.

(** [ChunkManager.addIslandMesh] *)
Definition addIslandMesh (islandData : IslandData) (g : Gfx)
  : IslandData * Gfx :=
  let (islandData, g) := IslandGenerator.addIslandMesh P islandData g in
  if hasName islandData then createIslandLabel islandData g
  else (islandData, g).

(** [ChunkManager.removeIslandMesh] *)
Definition removeIslandMesh (islandData : IslandData) (g : Gfx)
  : IslandData * Gfx :=
  let (islandData, g) := IslandGenerator.removeIslandMesh islandData g in
  match label islandData with
  | Some div =>
      (with_label None islandData,
       with_islandLabels (option_map (Dict.drop Nat.eqb div)) g)
  | None => (islandData, g)
  end.

(** Run [f] over the islands of chunk [key]. *)
Definition overChunk (key : string)
  (f : IslandData -> Gfx -> IslandData * Gfx) (w : World) : World :=
  let (records, g) :=
    forEach (inChunk key) f (islandData (dataManager w)) (gfx w) in
  set_gfx g
    (set_dataManager
       {| islandData := records;
          generatedChunks := generatedChunks (dataManager w) |} w).

(** [loadChunk] *)
Definition loadChunk (key : string) (w : World) : World :=
  if Dict.mem String.eqb key (loadedChunks w) then w
  else
    let w := set_loadedChunks (Dict.add String.eqb key (loadedChunks w)) w in
    overChunk key addIslandMesh w.

(** [unloadChunk] *)
Definition unloadChunk (key : string) (w : World) : World :=
  if negb (Dict.mem String.eqb key (loadedChunks w)) then w
  else
    let w := set_loadedChunks (Dict.drop String.eqb key (loadedChunks w)) w in
    overChunk key removeIslandMesh w.

(** ** Placeholders *)

(** [createLowPolyPlaceholder]: a six-sided cone. *)
Definition createLowPolyPlaceholder (size : float) (chunkKey : string)
  (i : Z) (g : Gfx) : ref * Gfx :=
  let (geometry, g) :=
    new_geometry
      {| position :=
           CylinderGeometry P 0 size (size * 0.6)%float (Int 6) (Int 1) false;
         boundingSphere := None |} g in
  new_object (Mesh geometry (PlaceholderCone chunkKey i)) g.

(** One turn of the loop of [createPlaceholdersForChunk]. *)
Definition createPlaceholder (chunkKey : string) (w : World) (i : Z)
  : World :=
  let placeholderId := placeholderIdOf chunkKey i in
  if Dict.has String.eqb placeholderId (lowPolyIslands w) then w
  else
    let (r, g) := random P (gfx w) in
    let size := (5 + r * 5)%float in
    let (placeholder, g) := createLowPolyPlaceholder size chunkKey i g in
    let g := scene_add placeholder g in
    set_lowPolyIslands
      (Dict.set String.eqb placeholderId placeholder (lowPolyIslands w))
      (set_gfx g w).

(** [createPlaceholdersForChunk]: one or two cones per chunk.  Where a
    cone stands and its colour (computed from [chunkX], [chunkZ]) do not
    enter the state modelled here. *)
Definition createPlaceholdersForChunk (chunkKey : string) (w : World)
  : World :=
  let (r, g) := random P (gfx w) in
  let islandCount :=
    num_min (Int 3) (num_add (Int 1) (Math_floor (r * 2)%float)) in
  let w := set_gfx g w in
  match islandCount with
  | Int n =>
      fold_left (createPlaceholder chunkKey)
        (map Z.of_nat (seq 0 (Z.to_nat n))) w
  | NaN => w
  end.

(** [removePlaceholdersForChunk]: every entry whose id starts with
    [`placeholder_${chunkKey}`] leaves the scene and the map. *)
Definition removePlaceholdersForChunk (chunkKey : string) (w : World)
  : World :=
  fold_left
    (fun w (entry : string * ref) =>
       let (i, placeholder) := entry in
       if startsWith i ("placeholder_" ++ chunkKey) then
         set_lowPolyIslands (Dict.delete String.eqb i (lowPolyIslands w))
           (set_gfx (scene_remove placeholder (gfx w)) w)
       else w)
    (lowPolyIslands w) w.

(** ** [generateChunk] *)

(** What the loop over the islands of a chunk carries along. *)
Record GenLoop : Type :=
  { gen_data : DataManager;
    adIslandPositions : list (float * float);
    adIslandsCreated : Z }.

Definition literal_of_Z (z : Z) : literal := Lit (float_of_Z z) (string_of_Z z).

(** One turn of the loop [for (let i = 0; i < islandCount; i++)]. *)
Definition generateIsland (chunkX chunkZ : num) (key : string)
  (seedFunction : literal -> literal -> string -> float)
  (isStartingArea : bool) (st : GenLoop) (i : Z) : GenLoop :=
  let n := string_of_Z i in
  let zero := Lit 0 "0" in
  let posX :=
    (toFloat chunkX * float_of_Z CHUNK_SIZE
     + seedFunction zero (literal_of_Z CHUNK_SIZE) ("posX_" ++ n))%float in
  let posZ :=
    (toFloat chunkZ * float_of_Z CHUNK_SIZE
     + seedFunction zero (literal_of_Z CHUNK_SIZE) ("posZ_" ++ n))%float in
  let size :=
    seedFunction ISLAND_SIZE_RANGE_min ISLAND_SIZE_RANGE_max ("size_" ++ n) in
  let biomeIndex :=
    Math_floor
      (seedFunction zero (literal_of_Z (Z.of_nat (List.length BIOMES)))
         ("biome_" ++ n)) in
  let biome :=
    biomeName (at_index BIOMES biomeIndex {| biomeName := ""; color := 0 |}) in
  let canBeAdIsland := adIslandsCreated st <? MAX_ADS_PER_CHUNK in
  let canBeAdIsland :=
    if canBeAdIsland
       && negb (Nat.eqb (List.length (adIslandPositions st)) 0)
    then
      negb
        (existsb
           (fun adPos : float * float =>
              let (ax, az) := adPos in
              let distanceSquared :=
                ((posX - ax) * (posX - ax) + (posZ - az) * (posZ - az))%float
              in
              (distanceSquared
               <? float_of_Z CHUNK_SIZE / 3 * (float_of_Z CHUNK_SIZE / 3))%float)
           (adIslandPositions st))
    else canBeAdIsland in
  let adChance :=
    if isStartingArea then (AD_SPAWN_CHANCE * STARTING_CHUNK_AD_BOOST)%float
    else AD_SPAWN_CHANCE in
  let adRandom := seedFunction zero (Lit 1 "1") ("adRoll_" ++ n) in
  let hasOutdoor := canBeAdIsland && (adRandom <? adChance)%float in
  let tiers := literal_of_Z (Z.of_nat (List.length AD_RANK_TIERS)) in
  if hasOutdoor then
    let adTierIndex :=
      if isStartingArea then
        num_min (Int (Z.of_nat (List.length AD_RANK_TIERS) - 1))
          (Math_floor
             (seedFunction zero tiers ("adTier_" ++ n) * 0.7 + 1)%float)
      else Math_floor (seedFunction zero tiers ("adTier_" ++ n)) in
    let adTier :=
      at_index AD_RANK_TIERS adTierIndex
        {| rank := 0; sizeBoost := 1; tierName := "" |} in
    let size := (size * sizeBoost adTier)%float in
    let biome :=
      if (seedFunction zero (Lit 1 "1") ("adBiomeType_" ++ n) <? 0.5)%float
      then "Desert" else "Volcano" in
    let adIndex :=
      num_add (Int 1)
        (num_min (Int 5)
           (Math_floor (seedFunction zero (Lit 6 "6") ("adImage_" ++ n)))) in
    let islandData :=
      {| id :=
           "ad_island_" ++ toString chunkX ++ "_" ++ toString chunkZ ++ "_"
           ++ n ++ "_rank" ++ string_of_Z (rank adTier);
         pos := {| pos_x := posX; pos_y := 0; pos_z := posZ |};
         biome := biome;
         size := size;
         name := None;
         chunk := key;
         mesh := None;
         label := None;
         outdoor :=
           Some
             {| image :=
                  "https://picsum.photos/seed/" ++ toString adIndex
                  ++ "/300/200";
                url :=
                  "https://example.com/ad/" ++ toString adIndex ++ "_tier_"
                  ++ tierName adTier;
                active := true;
                billboard := None;
                lastInteractionTime := None;
                adRank := Some (float_of_Z (rank adTier)) |} |} in
    {| gen_data := addIsland islandData (gen_data st);
       adIslandPositions := (adIslandPositions st ++ [(posX, posZ)])%list;
       adIslandsCreated := adIslandsCreated st + 1 |}
  else
    let islandData :=
      {| id :=
           "island_" ++ toString chunkX ++ "_" ++ toString chunkZ ++ "_" ++ n;
         pos := {| pos_x := posX; pos_y := 0; pos_z := posZ |};
         biome := biome;
         size := size;
         name := None;
         chunk := key;
         mesh := None;
         label := None;
         outdoor := None |} in
    {| gen_data := addIsland islandData (gen_data st);
       adIslandPositions := adIslandPositions st;
       adIslandsCreated := adIslandsCreated st |}.

Definition generateChunk (chunkX chunkZ : num) (highDetail : bool)
  (w : World) : World :=
  let key := chunkKeyOf chunkX chunkZ in
  if Dict.mem String.eqb key (generatedChunks (dataManager w)) then w
  else
    let seedFunction :=
      if highDetail then getDetailedSeedRandom key
      else getSimpleSeedRandom key in
    let distanceFromOrigin :=
      PrimFloat.sqrt
        (toFloat chunkX * toFloat chunkX + toFloat chunkZ * toFloat chunkZ)%float
    in
    let isStartingArea :=
      (distanceFromOrigin <=? STARTING_AREA_RADIUS)%float in
    let minIslands :=
      if highDetail then ISLANDS_PER_CHUNK_min
      else Z.max 1 (ISLANDS_PER_CHUNK_min - 1) in
    let maxIslands :=
      if highDetail then ISLANDS_PER_CHUNK_max
      else Z.max 2 (ISLANDS_PER_CHUNK_max - 2) in
    let islandCount :=
      Math_floor
        (seedFunction (literal_of_Z minIslands)
           (Lit (float_of_Z maxIslands + 0.99)%float
              (string_of_Z maxIslands ++ ".99"))
           "") in
    let turns :=
      match islandCount with
      | Int n => map Z.of_nat (seq 0 (Z.to_nat n))
      | NaN => []
      end in
    let st :=
      fold_left (generateIsland chunkX chunkZ key seedFunction isStartingArea)
        turns
        {| gen_data := dataManager w;
           adIslandPositions := [];
           adIslandsCreated := 0 |} in
    let w := set_dataManager (addGeneratedChunk key (gen_data st)) w in
    let w := removePlaceholdersForChunk key w in
    let (r, g) := random P (gfx w) in
    let w := set_gfx g w in
    if (r <? 0.2)%float then set_localStorage (saveData (dataManager w)) w
    else w.

(** ** The generation queue *)

(** [processNextPendingChunk]: the synchronous part; the generation
    itself is left to the callback registered with [setTimeout]. *)
Definition processNextPendingChunk (playerPosition : Vector3) (w : World)
  : World :=
  if isGeneratingChunk w || Nat.eqb (List.length (pendingChunks w)) 0 then w
  else
    let w := set_isGeneratingChunk true w in
    match pendingChunks w with
    | [] => set_isGeneratingChunk false w
    | chunkKey :: rest =>
        let w := set_pendingChunks rest w in
        if String.eqb chunkKey "" then set_isGeneratingChunk false w
        else
          let parts := split "_" chunkKey in
          let chunkX := parseInt (nth_error parts 0) in
          let chunkZ := parseInt (nth_error parts 1) in
          let playerChunkX := chunkIndex (vx playerPosition) in
          let playerChunkZ := chunkIndex (vz playerPosition) in
          let distanceToPlayer :=
            num_add (num_abs (num_sub chunkX (Int playerChunkX)))
              (num_abs (num_sub chunkZ (Int playerChunkZ))) in
          let near := num_le distanceToPlayer (Int highDetailDistance) in
          let delay := if near then 0 else 100 in
          set_timers
            (timers w
             ++ [ {| task_chunkKey := chunkKey;
                     task_chunkX := chunkX;
                     task_chunkZ := chunkZ;
                     task_near := near;
                     task_delay := delay |} ])%list w
    end.

(** The callback of [setTimeout]: generate, load at once when the chunk
    was near, and lower the busy flag whatever happened. *)
Definition runTask (t : Task) (w : World) : World :=
  let w := generateChunk (task_chunkX t) (task_chunkZ t) (task_near t) w in
  let w :=
    if task_near t then
      let key := chunkKeyOf (task_chunkX t) (task_chunkZ t) in
      if negb (Dict.mem String.eqb key (loadedChunks w)) then loadChunk key w
      else w
    else w in
  set_isGeneratingChunk false w.

(** ** [updateChunks]: one tick *)

(** The keys added by the first pair of loops. *)
Definition highDetailChunks (currentChunkX currentChunkZ : Z) : list string :=
  fold_left
    (fun acc (d : Z * Z) =>
       let (dx, dz) := d in
       Dict.add String.eqb
         (chunkKeyOf (Int (currentChunkX + dx)) (Int (currentChunkZ + dz)))
         acc)
    (offsets highDetailDistance) [].

Definition isHighOffset (d : Z * Z) : bool :=
  let (dx, dz) := d in
  (Z.abs dx <=? highDetailDistance) && (Z.abs dz <=? highDetailDistance).

(** The keys added by both pairs of loops. *)
Definition lowDetailChunks (currentChunkX currentChunkZ : Z) : list string :=
  fold_left
    (fun acc (d : Z * Z) =>
       let (dx, dz) := d in
       if isHighOffset d then acc
       else
         Dict.add String.eqb
           (chunkKeyOf (Int (currentChunkX + dx)) (Int (currentChunkZ + dz)))
           acc)
    (offsets lowDetailDistance)
    (highDetailChunks currentChunkX currentChunkZ).

(** [if (!generatedChunks.has(key) && !pendingChunks.includes(key)) push] *)
Definition enqueue (key : string) (w : World) : World :=
  if negb (Dict.mem String.eqb key (generatedChunks (dataManager w)))
     && negb (Dict.mem String.eqb key (pendingChunks w))
  then set_pendingChunks (pendingChunks w ++ [key])%list w
  else w.

(** The effects of the first pair of loops. *)
Definition trackHigh (currentChunkX currentChunkZ : Z) (w : World) : World :=
  fold_left
    (fun w (d : Z * Z) =>
       let (dx, dz) := d in
       enqueue
         (chunkKeyOf (Int (currentChunkX + dx)) (Int (currentChunkZ + dz))) w)
    (offsets highDetailDistance) w.

(** The effects of the second pair of loops. *)
Definition trackLow (currentChunkX currentChunkZ : Z) (w : World) : World :=
  fold_left
    (fun w (d : Z * Z) =>
       let (dx, dz) := d in
       if isHighOffset d then w
       else
         let key :=
           chunkKeyOf (Int (currentChunkX + dx)) (Int (currentChunkZ + dz)) in
         let w := enqueue key w in
         if negb (Dict.mem String.eqb key (loadedChunks w))
            && negb (Dict.mem String.eqb key (generatedChunks (dataManager w)))
         then createPlaceholdersForChunk key w
         else w)
    (offsets lowDetailDistance) w.

(** What the callback of the loading loop threads through the islands of
    a chunk: the scene, the placeholder map and the visible ids. *)
Definition Loading : Type := (Gfx * list (string * ref) * list string)%type.

Definition showIsland (island : IslandData) (s : Loading)
  : IslandData * Loading :=
  let '(g, placeholders, visible) := s in
  let (island, g) := addIslandMesh island g in
  let visible := Dict.add String.eqb (id island) visible in
  let placeholderId := "placeholder_" ++ id island in
  match Dict.get String.eqb placeholderId placeholders with
  | Some placeholder =>
      (island,
       (scene_remove placeholder g,
        Dict.delete String.eqb placeholderId placeholders, visible))
  | None => (island, (g, placeholders, visible))
  end.

Definition noteVisible (island : IslandData) (visible : list string)
  : IslandData * list string :=
  (island, Dict.add String.eqb (id island) visible).

(** One turn of [for (const key of highDetailChunks)]. *)
Definition loadHigh (acc : list string * World) (key : string)
  : list string * World :=
  let (visible, w) := acc in
  if negb (Dict.mem String.eqb key (loadedChunks w))
     && Dict.mem String.eqb key (generatedChunks (dataManager w))
  then
    let '(records, (g, placeholders, visible)) :=
      forEach (inChunk key) showIsland (islandData (dataManager w))
        (gfx w, lowPolyIslands w, visible) in
    let w :=
      set_lowPolyIslands placeholders
        (set_gfx g
           (set_dataManager
              {| islandData := records;
                 generatedChunks := generatedChunks (dataManager w) |} w)) in
    (visible, set_loadedChunks (Dict.add String.eqb key (loadedChunks w)) w)
  else if Dict.mem String.eqb key (loadedChunks w) then
    let (_, visible) :=
      forEach (inChunk key) noteVisible (islandData (dataManager w)) visible in
    (visible, w)
  else (visible, w).

(** One turn of [for (const key of [...this.loadedChunks])]. *)
Definition unloadFar (low : list string) (w : World) (key : string) : World :=
  if negb (Dict.mem String.eqb key low) then unloadChunk key w else w.

(** The periodic cache sweep at the end of a tick. *)
Definition sweepCaches (w : World) : World :=
  let w := set_chunkUpdateCounter (chunkUpdateCounter w + 1) w in
  if 50 <? chunkUpdateCounter w then
    set_chunkUpdateCounter 0
      (set_gfx (IslandGenerator.clearUnusedCaches (gfx w)) w)
  else w.

Definition updateChunks (playerPosition : Vector3) (w : World)
  : list string * World :=
  let currentChunkX := chunkIndex (vx playerPosition) in
  let currentChunkZ := chunkIndex (vz playerPosition) in
  let high := highDetailChunks currentChunkX currentChunkZ in
  let low := lowDetailChunks currentChunkX currentChunkZ in
  let w := trackHigh currentChunkX currentChunkZ w in
  let w := trackLow currentChunkX currentChunkZ w in
  let (visibleIslandIds, w) := fold_left loadHigh high ([], w) in
  let w := fold_left (unloadFar low) (loadedChunks w) w in
  let w := processNextPendingChunk playerPosition w in
  let w := sweepCaches w in
  (visibleIslandIds, w).

End WithPlatform.

End ChunkManager.

(* ================================================================== *)
(** * The event loop: ticks and timer callbacks *)
(* ================================================================== *)

Module EventLoop.
Import JS Three Data ChunkManager.

(** What the host can do next: run one frame with the ship at
    [playerPosition], or run the [n]-th callback waiting in [timers]. *)
Inductive Event : Type :=
| Tick (playerPosition : Vector3)
| Timeout (n : nat).

(** The list without its [n]-th element. *)
Fixpoint without {A} (n : nat) (l : list A) : list A :=
  match l, n with
  | [], _ => []
  | _ :: rest, O => rest
  | a :: rest, S n => a :: without n rest
  end.

Definition step (P : Platform) (w : World) (e : Event) : World :=
  match e with
  | Tick playerPosition => snd (updateChunks P playerPosition w)
  | Timeout n =>
      match nth_error (timers w) n with
      | Some t => runTask P t (set_timers (without n (timers w)) w)
      | None => w
      end
  end.

Definition run (P : Platform) (events : list Event) (w : World) : World :=
  fold_left (step P) events w.

(** A fresh page: an empty scene, empty caches, the label container
    present, and a store filled from [localStorage]. *)
Definition emptyGfx : Gfx :=
  {| scene := []; objects := []; geometries := []; next_ref := 0%nat;
     geometryCache := []; billboardGeometryCache := [];
     islandLabels := Some []; randoms := 0%nat |}.

Definition initial (st : Storage) : World :=
  {| gfx := emptyGfx;
     dataManager := new_DataManager st;
     localStorage := st;
     loadedChunks := [];
     pendingChunks := [];
     isGeneratingChunk := false;
     lowPolyIslands := [];
     chunkUpdateCounter := 0;
     timers := [] |}.

Definition emptyStorage : Storage :=
  {| stored_islandData := Missing; stored_generatedChunks := Missing |}.

End EventLoop.

(* ================================================================== *)
(** * A small platform to run examples on *)
(* ================================================================== *)

(** The sources do not define what three.js and the host compute.  To
    evaluate concrete runs we use this stand-in: geometries are laid out
    on the four quarter turns only (where sine and cosine are [0], [1] or
    [-1]), with the apex, rim and base heights of the real constructors. *)
Module Standin.
Import JS Three.
Local Open Scope float_scope.

Definition quarter : float := Math_PI / 2.

Definition cos (a : float) : float :=
  if a =? 0 then 1
  else if a =? quarter then 0
  else if a =? Math_PI then -1
  else if a =? - quarter then 0
  else nan.

Definition sin (a : float) : float :=
  if a =? 0 then 0
  else if a =? quarter then 1
  else if a =? Math_PI then 0
  else if a =? - quarter then -1
  else nan.

Definition atan2 (b a : float) : float :=
  if (b =? 0) && (0 <? a) then 0
  else if (0 <? b) && (a =? 0) then quarter
  else if (b =? 0) && (a <? 0) then Math_PI
  else if (b <? 0) && (a =? 0) then - quarter
  else if (b =? 0) && (a =? 0) then 0
  else nan.

(** A ring of four vertices of the given radius at height [h]. *)
Definition ring (radius h : float) : list Vector3 :=
  [ vec3 0 h radius; vec3 radius h 0; vec3 0 h (- radius);
    vec3 (- radius) h 0 ].

Definition cylinder (radiusTop radiusBottom height : float)
  (radialSegments heightSegments : num) (openEnded : bool) : list Vector3 :=
  (ring radiusTop (height / 2) ++ ring radiusBottom (- height / 2))%list.

Definition sphere (radius : float) (widthSegments heightSegments : num)
  (phiStart phiLength thetaStart thetaLength : float) : list Vector3 :=
  (vec3 0 radius 0 :: ring radius 0)%list.

Definition plane (width height : float) : list Vector3 :=
  [ vec3 (- width / 2) (height / 2) 0; vec3 (width / 2) (height / 2) 0;
    vec3 (- width / 2) (- height / 2) 0; vec3 (width / 2) (- height / 2) 0 ].

Definition norm (v : Vector3) : float :=
  PrimFloat.sqrt (vx v * vx v + vy v * vy v + vz v * vz v).

Definition radiusOf (l : list Vector3) : float :=
  fold_left
    (fun acc v =>
       if is_nan acc then acc
       else if is_nan (norm v) then nan
       else if acc <? norm v then norm v else acc)
    l 0.

Definition randomAt (n : nat) : float := if Nat.even n then 0.25 else 0.75.

Definition showNumber (f : float) : string :=
  if f =? 0.25 then "0.25" else "0.75".

Definition platform : Platform :=
  {| CylinderGeometry := cylinder;
     SphereGeometry := sphere;
     PlaneGeometry := plane;
     boundingRadius := radiusOf;
     Math_sin := sin;
     Math_cos := cos;
     Math_atan2 := atan2;
     Math_random := randomAt;
     Number_toString := showNumber |}.

(** The same platform with a [Math.random] that always returns [0.125]:
    under it [generateChunk] saves after every region. *)
Definition saving : Platform :=
  {| CylinderGeometry := cylinder;
     SphereGeometry := sphere;
     PlaneGeometry := plane;
     boundingRadius := radiusOf;
     Math_sin := sin;
     Math_cos := cos;
     Math_atan2 := atan2;
     Math_random := fun _ => 0.125;
     Number_toString := fun _ => "0.125"%string |}.

(** A tick with the ship at the south-west corner of chunk [(cx, cz)]. *)
Definition at_chunk (cx cz : Z) : EventLoop.Event :=
  EventLoop.Tick (vec3 (float_of_Z (cx * 100)) 0 (float_of_Z (cz * 100))).

End Standin.

(* ================================================================== *)
(** * Properties *)
(* ================================================================== *)

(* ------------------------------------------------------------------ *)
(** ** Facts about the hashes *)

Module HashFacts.
Import JS Hash.

Lemma ToInt32_range z : - 2 ^ 31 <= ToInt32 z < 2 ^ 31.
Proof.
  unfold ToInt32.
  pose proof (Z.mod_pos_bound (z + 2 ^ 31) (2 ^ 32) ltac:(lia)). lia.
Qed.

Lemma ToInt32_small z : - 2 ^ 31 <= z < 2 ^ 31 -> ToInt32 z = z.
Proof.
  intros H. unfold ToInt32. rewrite Z.mod_small; lia.
Qed.

Lemma ToInt32_idem z : ToInt32 (ToInt32 z) = ToInt32 z.
Proof. apply ToInt32_small, ToInt32_range. Qed.

(** [ToInt32] only looks at the residue modulo [2^32]. *)
Lemma ToInt32_congr a b :
  (a mod 2 ^ 32 = b mod 2 ^ 32) -> ToInt32 a = ToInt32 b.
Proof.
  intros H. unfold ToInt32. f_equal.
  rewrite <- (Zplus_mod_idemp_l a), <- (Zplus_mod_idemp_l b), H.
  reflexivity.
Qed.

Lemma ToInt32_mod z : ToInt32 z mod 2 ^ 32 = z mod 2 ^ 32.
Proof.
  unfold ToInt32.
  rewrite Zminus_mod, Z.mod_mod by lia.
  rewrite <- Zminus_mod. f_equal. lia.
Qed.

Lemma band_diag z : band z z = ToInt32 z.
Proof. unfold band. apply Z.land_diag. Qed.

(** The shift-and-subtract body is multiplication by 31 modulo [2^32]. *)
Lemma hash_step_poly h c : hash_step h c = poly_step h c.
Proof.
  unfold hash_step, poly_step. cbv zeta. rewrite band_diag.
  apply ToInt32_congr.
  unfold shl. rewrite Z.shiftl_mul_pow2 by lia.
  rewrite <- Z.add_sub_swap, Zminus_mod, Zplus_mod, ToInt32_mod.
  rewrite Zmult_mod, ToInt32_mod, <- Zmult_mod, <- Zplus_mod, <- Zminus_mod.
  f_equal. change (2 ^ 5) with 32. lia.
Qed.

Lemma fold_hash_step_poly l h :
  fold_left hash_step l h = fold_left poly_step l h.
Proof.
  revert h. induction l as [|c l IH]; intros h; simpl.
  - reflexivity.
  - rewrite hash_step_poly. apply IH.
Qed.

Lemma chars_length s : List.length (chars s) = String.length s.
Proof.
  unfold chars. induction s as [|c s IH]; simpl; [reflexivity | now rewrite IH].
Qed.

Lemma chars_substring_prefix n s :
  chars (substring 0 n s) = firstn n (chars s).
Proof.
  unfold chars. revert s. induction n as [|n IH]; intros s.
  - destruct s; reflexivity.
  - destruct s as [|c s]; simpl; [reflexivity | now rewrite IH].
Qed.

Lemma firstn_min_length {A} n (l : list A) :
  firstn (Nat.min (List.length l) n) l = firstn n l.
Proof.
  destruct (Nat.le_ge_cases (List.length l) n) as [H|H].
  - rewrite Nat.min_l by exact H.
    rewrite firstn_all, firstn_all2 by exact H. reflexivity.
  - rewrite Nat.min_r by exact H. reflexivity.
Qed.

(** [hashCode] is the rolling hash of the whole string. *)
Lemma hashCode_rolling s : hashCode s = rolling_hash s.
Proof. unfold hashCode, rolling_hash. now rewrite fold_hash_step_poly. Qed.

(** [simpleHash] is [hashCode] of the first ten characters. *)
Lemma simpleHash_prefix s : simpleHash s = hashCode (substring 0 10 s).
Proof.
  unfold simpleHash, hashCode.
  rewrite chars_substring_prefix, <- chars_length, firstn_min_length.
  destruct (List.length (chars s) =? 0)%nat eqn:E; [|reflexivity].
  apply Nat.eqb_eq in E. destruct (chars s); [reflexivity | discriminate].
Qed.

End HashFacts.

(* ------------------------------------------------------------------ *)
(** ** Facts about the containers *)

Module DictFacts.
Import Dict.

Lemma fold_left_keeps {A B C} (proj : A -> C) (f : A -> B -> A) :
  (forall a b, proj (f a b) = proj a) ->
  forall l a, proj (fold_left f l a) = proj a.
Proof.
  intros Hf l. induction l as [|b l IH]; intros a; simpl.
  - reflexivity.
  - rewrite IH. apply Hf.
Qed.

(** An invariant of the loop body is an invariant of the loop. *)
Lemma fold_left_invariant {A B} (I : A -> Prop) (f : A -> B -> A) :
  (forall a b, I a -> I (f a b)) ->
  forall l a, I a -> I (fold_left f l a).
Proof.
  intros Hf l. induction l as [|b l IH]; intros a Ha; simpl.
  - exact Ha.
  - apply IH, Hf, Ha.
Qed.

Section Keyed.
Context {K V : Type} (eqb : K -> K -> bool).
Hypothesis eqb_eq : forall a b, eqb a b = true <-> a = b.

Lemma eqb_same a : eqb a a = true.
Proof. now apply eqb_eq. Qed.

Lemma eqb_other a b : a <> b -> eqb a b = false.
Proof.
  intros H. destruct (eqb a b) eqn:E; [|reflexivity].
  now apply eqb_eq in E.
Qed.

Lemma eqb_false a b : eqb a b = false -> a <> b.
Proof. intros E H. apply eqb_eq in H. congruence. Qed.

Lemma mem_In k (l : list K) : mem eqb k l = true <-> In k l.
Proof.
  induction l as [|a l IH]; simpl.
  - split; [discriminate | contradiction].
  - destruct (eqb k a) eqn:E.
    + apply eqb_eq in E. subst. tauto.
    + apply eqb_false in E. rewrite IH. split; [tauto|].
      intros [H|H]; [congruence | exact H].
Qed.

Lemma mem_false k (l : list K) : mem eqb k l = false <-> ~ In k l.
Proof.
  rewrite <- mem_In. destruct (mem eqb k l); split; congruence.
Qed.

Lemma In_add x k (l : list K) : In x (add eqb k l) <-> In x l \/ x = k.
Proof.
  unfold add. destruct (mem eqb k l) eqn:E.
  - apply mem_In in E. split; [tauto|]. intros [H|H]; [exact H | now subst].
  - rewrite in_app_iff. simpl. split; intros [H|H]; auto.
    + destruct H as [H|[]]; auto.
Qed.

Lemma mem_add k (l : list K) : mem eqb k (add eqb k l) = true.
Proof. apply mem_In, In_add. now right. Qed.

Lemma In_drop x k (l : list K) : In x (drop eqb k l) <-> In x l /\ x <> k.
Proof.
  induction l as [|a l IH]; simpl.
  - tauto.
  - destruct (eqb k a) eqn:E.
    + apply eqb_eq in E. subst a. rewrite IH. split.
      * intros [H1 H2]. auto.
      * intros [[H|H] H2]; [congruence | auto].
    + apply eqb_false in E. simpl. rewrite IH. split.
      * intros [H|[H1 H2]]; [subst; split; auto | auto].
      * intros [[H|H] H2]; auto.
Qed.

Lemma get_In k v (m : list (K * V)) : get eqb k m = Some v -> In (k, v) m.
Proof.
  induction m as [|[k' v'] m IH]; simpl; [discriminate|].
  destruct (eqb k k') eqn:E.
  - apply eqb_eq in E. intros [= <-]. subst. now left.
  - intros H. right. now apply IH.
Qed.

Lemma get_None k (m : list (K * V)) :
  get eqb k m = None <-> forall v, ~ In (k, v) m.
Proof.
  induction m as [|[k' v'] m IH]; simpl.
  - split; [intros _ v [] | reflexivity].
  - destruct (eqb k k') eqn:E.
    + apply eqb_eq in E. subst. split; [discriminate|].
      intros H. exfalso. apply (H v'). now left.
    + apply eqb_false in E. rewrite IH. split.
      * intros H v [[= -> ->]|H']; [congruence | now apply (H v)].
      * intros H v H'. apply (H v). now right.
Qed.

Lemma get_set_same k v (m : list (K * V)) : get eqb k (set eqb k v m) = Some v.
Proof.
  induction m as [|[k' v'] m IH]; simpl.
  - now rewrite eqb_same.
  - destruct (eqb k k') eqn:E; simpl.
    + now rewrite eqb_same.
    + now rewrite E.
Qed.

Lemma get_set_other k k' v (m : list (K * V)) :
  k' <> k -> get eqb k' (set eqb k v m) = get eqb k' m.
Proof.
  intros Hne. induction m as [|[k0 v0] m IH]; simpl.
  - now rewrite (eqb_other k' k).
  - destruct (eqb k k0) eqn:E; simpl.
    + apply eqb_eq in E. subst k0. now rewrite !(eqb_other k' k).
    + destruct (eqb k' k0); [reflexivity | exact IH].
Qed.

Lemma In_set_inv k v x (m : list (K * V)) :
  In x (set eqb k v m) -> x = (k, v) \/ In x m.
Proof.
  induction m as [|[k' v'] m IH]; simpl.
  - intros [H|[]]; auto.
  - destruct (eqb k k'); simpl.
    + intros [H|H]; auto.
    + intros [H|H]; auto. destruct (IH H); auto.
Qed.

Lemma In_delete x k (m : list (K * V)) :
  In x (delete eqb k m) <-> In x m /\ fst x <> k.
Proof.
  induction m as [|[k' v'] m IH]; simpl.
  - tauto.
  - destruct (eqb k k') eqn:E.
    + apply eqb_eq in E. subst k'. rewrite IH. split.
      * intros [H1 H2]. auto.
      * intros [[H|H] H2]; [subst x; simpl in H2; congruence | auto].
    + apply eqb_false in E. simpl. rewrite IH. split.
      * intros [H|[H1 H2]]; [subst x; simpl; split; auto | auto].
      * intros [[H|H] H2]; auto.
Qed.

Lemma In_set_absent k v x (m : list (K * V)) :
  get eqb k m = None -> (In x (set eqb k v m) <-> x = (k, v) \/ In x m).
Proof.
  induction m as [|[k' v'] m IH]; simpl.
  - intros _. split; intros [H|H]; auto; contradiction.
  - destruct (eqb k k') eqn:E; [discriminate|]. intros Hn. simpl.
    rewrite (IH Hn). tauto.
Qed.

Lemma set_keys_absent k v (m : list (K * V)) :
  get eqb k m = None ->
  map fst (set eqb k v m) = (map fst m ++ [k])%list.
Proof.
  induction m as [|[k' v'] m IH]; simpl; [reflexivity|].
  destruct (eqb k k') eqn:E; [discriminate|]. intros Hn. simpl.
  now rewrite (IH Hn).
Qed.

Lemma get_None_keys k (m : list (K * V)) :
  get eqb k m = None -> ~ In k (map fst m).
Proof.
  intros Hn H. apply in_map_iff in H. destruct H as ([k' v'] & E & H).
  simpl in E. subst k'. apply (proj1 (get_None k m) Hn v' H).
Qed.

End Keyed.

Definition string_eqb_eq := String.eqb_eq.
Definition nat_eqb_eq := Nat.eqb_eq.

End DictFacts.

(* ------------------------------------------------------------------ *)
(** ** Region generation *)

Module GenerationFacts.
Import JS Hash Config Three Data ChunkManager.
Import DictFacts.

Section WithPlatform.
Variable P : Platform.

Lemma removePlaceholders_dataManager k w :
  dataManager (removePlaceholdersForChunk k w) = dataManager w.
Proof.
  unfold removePlaceholdersForChunk. apply fold_left_keeps.
  intros a [i r]. destruct (startsWith i _); reflexivity.
Qed.

Lemma removePlaceholders_loadedChunks k w :
  loadedChunks (removePlaceholdersForChunk k w) = loadedChunks w.
Proof.
  unfold removePlaceholdersForChunk. apply fold_left_keeps.
  intros a [i r]. destruct (startsWith i _); reflexivity.
Qed.


(** A region that is already generated is left alone. *)
Lemma generateChunk_generated x z hd w :
  Dict.mem String.eqb (chunkKeyOf x z) (generatedChunks (dataManager w)) = true ->
  generateChunk P x z hd w = w.
Proof. intros H. unfold generateChunk. now rewrite H. Qed.

(** Generation records the key of the region. *)
Lemma generateChunk_marks x z hd w :
  Dict.mem String.eqb (chunkKeyOf x z)
    (generatedChunks (dataManager (generateChunk P x z hd w))) = true.
Proof.
  unfold generateChunk.
  destruct (Dict.mem String.eqb (chunkKeyOf x z)
              (generatedChunks (dataManager w))) eqn:E; [exact E|].
  cbv zeta.
  match goal with
  | |- context [random P ?g] => destruct (random P g) as [r g']
  end.
  match goal with
  | |- context [if ?c then _ else _] => destruct c
  end; simpl; rewrite removePlaceholders_dataManager; simpl;
    apply (mem_add String.eqb String.eqb_eq).
Qed.

Lemma generateChunk_loadedChunks x z hd w :
  loadedChunks (generateChunk P x z hd w) = loadedChunks w.
Proof.
  unfold generateChunk.
  destruct (Dict.mem String.eqb _ _); [reflexivity|]. cbv zeta.
  match goal with
  | |- context [random P ?g] => destruct (random P g) as [r g']
  end.
  match goal with
  | |- context [if ?c then _ else _] => destruct c
  end; simpl; now rewrite removePlaceholders_loadedChunks.
Qed.


End WithPlatform.

End GenerationFacts.

(* ------------------------------------------------------------------ *)
(** ** The hash behind the seeded random functions *)

Module HashClaims.
Import JS Hash HashFacts.

(** [simpleHash] cannot tell apart two strings that agree on their first
    ten characters. *)
Lemma simpleHash_first_ten s t :
  substring 0 10 s = substring 0 10 t -> simpleHash s = simpleHash t.
Proof. intros H. now rewrite !simpleHash_prefix, H. Qed.

(** C9, as stated, fails for [ChunkManager.simpleHash]: on the seed that
    [generateChunk] builds for the x-position of island 0 of chunk
    (-1,-1) it differs from the rolling hash of the whole string, and it
    returns the same value for island 1, whose seed differs in the
    eleventh character. *)
Lemma simpleHash_is_not_the_whole_input_hash :
  simpleHash "-1_-1posX_00100" <> rolling_hash "-1_-1posX_00100"
  /\ simpleHash "-1_-1posX_00100" = simpleHash "-1_-1posX_10100"
  /\ rolling_hash "-1_-1posX_00100" <> rolling_hash "-1_-1posX_10100".
Proof.
  repeat split; vm_compute; congruence.
Qed.

(** C9, amended: [IslandGenerator.hashCode] is the polynomial rolling hash
    ([hash*31 + charCode] wrapped to a signed 32-bit integer at every
    character, magnitude at the end) of its whole input;
    [ChunkManager.simpleHash] is that hash of the first ten characters of
    its input. *)
Theorem hashes_are_rolling_hashes (s : string) :
  hashCode s = rolling_hash s
  /\ simpleHash s = rolling_hash (substring 0 10 s).
Proof.
  split.
  - apply hashCode_rolling.
  - rewrite simpleHash_prefix. apply hashCode_rolling.
Qed.

End HashClaims.

(* ------------------------------------------------------------------ *)
(** ** Idempotent region generation *)

Module Idempotence.
Import JS Three Data ChunkManager GenerationFacts.

(** C2: generating a region a second time changes nothing: the world after
    the second run is the world after the first, so the set of generated
    regions is the same and no island record was added. *)
Theorem generateChunk_twice (P : Platform) (chunkX chunkZ : num)
  (highDetail highDetail' : bool) (w : World) :
  let w1 := generateChunk P chunkX chunkZ highDetail w in
  let w2 := generateChunk P chunkX chunkZ highDetail' w1 in
  w2 = w1
  /\ generatedChunks (dataManager w2) = generatedChunks (dataManager w1)
  /\ List.length (islandData (dataManager w2))
     = List.length (islandData (dataManager w1)).
Proof.
  intros w1 w2.
  assert (E : w2 = w1).
  { unfold w2. apply generateChunk_generated. unfold w1.
    apply generateChunk_marks. }
  rewrite E. auto.
Qed.

End Idempotence.

(* ------------------------------------------------------------------ *)
(** ** The object heap: allocation and framing *)

Module GfxFacts.
Import JS Config Three Data.
Import DictFacts.

(** [grows n g g']: going from [g] to [g'] allocated references only, left
    every object and geometry below [n] as it was, did not touch the
    scene or the label container, and kept every cache entry. *)
Record grows (n : nat) (g g' : Gfx) : Prop :=
  { grows_next : (next_ref g <= next_ref g')%nat;
    grows_objects :
      forall r, (r < n)%nat -> object_at r g' = object_at r g;
    grows_geometries :
      forall r, (r < n)%nat -> geometry_at r g' = geometry_at r g;
    grows_scene : scene g' = scene g;
    grows_labels : islandLabels g' = islandLabels g;
    grows_geometryCache :
      forall key t,
        Dict.get String.eqb key (geometryCache g) = Some t ->
        Dict.get String.eqb key (geometryCache g') = Some t;
    grows_billboardCache :
      forall key t,
        Dict.get String.eqb key (billboardGeometryCache g) = Some t ->
        Dict.get String.eqb key (billboardGeometryCache g') = Some t }.

Lemma grows_refl n g : grows n g g.
Proof. constructor; auto. Qed.

Lemma grows_trans n g1 g2 g3 : grows n g1 g2 -> grows n g2 g3 -> grows n g1 g3.
Proof.
  intros [A1 A2 A3 A4 A5 A6 A7] [B1 B2 B3 B4 B5 B6 B7]. constructor.
  - lia.
  - intros r Hr. now rewrite B2, A2.
  - intros r Hr. now rewrite B3, A3.
  - congruence.
  - congruence.
  - auto.
  - auto.
Qed.

Lemma grows_weaken n m g g' : (m <= n)%nat -> grows n g g' -> grows m g g'.
Proof.
  intros Hle [A1 A2 A3 A4 A5 A6 A7]. constructor; auto.
  - intros r Hr. apply A2. lia.
  - intros r Hr. apply A3. lia.
Qed.

(** Every reference the caches hold has been allocated. *)
Definition cache_bounded (g : Gfx) : Prop :=
  (forall key t,
     Dict.get String.eqb key (geometryCache g) = Some t ->
     (t < next_ref g)%nat)
  /\ (forall key t,
        Dict.get String.eqb key (billboardGeometryCache g) = Some t ->
        (t < next_ref g)%nat).

Definition same_caches (g g' : Gfx) : Prop :=
  geometryCache g' = geometryCache g
  /\ billboardGeometryCache g' = billboardGeometryCache g.

Lemma same_caches_refl g : same_caches g g.
Proof. split; reflexivity. Qed.

Lemma same_caches_trans g1 g2 g3 :
  same_caches g1 g2 -> same_caches g2 g3 -> same_caches g1 g3.
Proof. intros [A B] [C D]. split; congruence. Qed.

Lemma cache_bounded_same g g' :
  same_caches g g' -> (next_ref g <= next_ref g')%nat ->
  cache_bounded g -> cache_bounded g'.
Proof.
  intros [A B] Hn [C D]. split; intros key t H.
  - rewrite A in H. specialize (C _ _ H). lia.
  - rewrite B in H. specialize (D _ _ H). lia.
Qed.

Lemma nat_get_cons {V} r r' (v : V) m :
  Dict.get Nat.eqb r ((r', v) :: m)
  = if Nat.eqb r r' then Some v else Dict.get Nat.eqb r m.
Proof. reflexivity. Qed.

(** *** Allocation *)

Lemma new_geometry_grows b g n :
  (n <= next_ref g)%nat -> grows n g (snd (new_geometry b g)).
Proof.
  intros Hn. constructor; simpl; auto.
  intros r Hr. unfold geometry_at. simpl.
  destruct (Nat.eqb r (next_ref g)) eqn:E; [|reflexivity].
  apply Nat.eqb_eq in E. lia.
Qed.

Lemma new_object_grows o g n :
  (n <= next_ref g)%nat -> grows n g (snd (new_object o g)).
Proof.
  intros Hn. constructor; simpl; auto.
  intros r Hr. unfold object_at. simpl.
  destruct (Nat.eqb r (next_ref g)) eqn:E; [|reflexivity].
  apply Nat.eqb_eq in E. lia.
Qed.

Lemma new_geometry_spec b g r g' n :
  new_geometry b g = (r, g') -> (n <= next_ref g)%nat ->
  r = next_ref g /\ next_ref g' = S (next_ref g)
  /\ geometry_at r g' = Some b /\ grows n g g'
  /\ objects g' = objects g /\ randoms g' = randoms g
  /\ same_caches g g'.
Proof.
  intros H Hn. pose proof (new_geometry_grows b g n Hn) as G.
  rewrite H in G. revert H. unfold new_geometry, fresh.
  intros [= <- <-]. simpl in *.
  split; [reflexivity|]. split; [reflexivity|].
  split; [unfold geometry_at; simpl; now rewrite Nat.eqb_refl|].
  split; [exact G|]. split; [reflexivity|]. split; [reflexivity|].
  split; reflexivity.
Qed.

Lemma new_object_spec o g r g' n :
  new_object o g = (r, g') -> (n <= next_ref g)%nat ->
  r = next_ref g /\ next_ref g' = S (next_ref g)
  /\ object_at r g' = Some o /\ grows n g g'
  /\ geometries g' = geometries g /\ randoms g' = randoms g
  /\ same_caches g g'
  /\ (forall r', r' <> r -> object_at r' g' = object_at r' g).
Proof.
  intros H Hn. pose proof (new_object_grows o g n Hn) as G.
  rewrite H in G. revert H. unfold new_object, fresh.
  intros [= <- <-]. simpl in *.
  split; [reflexivity|]. split; [reflexivity|].
  split; [unfold object_at; simpl; now rewrite Nat.eqb_refl|].
  split; [exact G|]. split; [reflexivity|]. split; [reflexivity|].
  split; [split; reflexivity|].
  intros r' Hr'. unfold object_at. simpl.
  destruct (Nat.eqb r' (next_ref g)) eqn:E; [|reflexivity].
  apply Nat.eqb_eq in E. congruence.
Qed.

Lemma clone_spec t g r g' n :
  clone t g = (r, g') -> (n <= next_ref g)%nat ->
  r = next_ref g /\ next_ref g' = S (next_ref g)
  /\ positions r g' = positions t g /\ grows n g g'
  /\ objects g' = objects g /\ randoms g' = randoms g
  /\ same_caches g g'
  /\ (forall r', r' <> r -> geometry_at r' g' = geometry_at r' g).
Proof.
  unfold clone. intros H Hn.
  assert (K : forall b, new_geometry b g = (r, g') ->
              positions t g = position b ->
              r = next_ref g /\ next_ref g' = S (next_ref g)
              /\ positions r g' = positions t g /\ grows n g g'
              /\ objects g' = objects g /\ randoms g' = randoms g
              /\ same_caches g g'
              /\ (forall r', r' <> r -> geometry_at r' g' = geometry_at r' g)).
  { intros b Hb Hp.
    destruct (new_geometry_spec _ _ _ _ n Hb Hn)
      as (-> & H2 & H3 & H4 & H5 & H6 & H7).
    split; [reflexivity|]. split; [exact H2|].
    split; [unfold positions at 1; now rewrite H3, Hp|].
    split; [exact H4|]. split; [exact H5|]. split; [exact H6|].
    split; [exact H7|].
    intros r' Hr'. revert Hb. unfold new_geometry, fresh.
    intros [= <-]. unfold geometry_at. simpl.
    destruct (Nat.eqb r' (next_ref g)) eqn:E; [|reflexivity].
    apply Nat.eqb_eq in E. congruence. }
  unfold positions in K |- *.
  destruct (geometry_at t g) as [b|]; eapply K; eauto.
Qed.

(** *** In-place updates of objects allocated at or above [n] *)

Lemma put_geometry_grows n r b g :
  (n <= r)%nat -> grows n g (put_geometry r b g).
Proof.
  intros Hr. constructor; simpl; auto.
  intros r' Hr'. unfold geometry_at, put_geometry. simpl.
  apply (get_set_other Nat.eqb Nat.eqb_eq). lia.
Qed.

Lemma put_geometry_same r b g :
  geometry_at r (put_geometry r b g) = Some b.
Proof.
  unfold geometry_at, put_geometry. simpl.
  apply (get_set_same Nat.eqb Nat.eqb_eq).
Qed.

Lemma put_geometry_other r r' b g :
  r' <> r -> geometry_at r' (put_geometry r b g) = geometry_at r' g.
Proof.
  intros H. unfold geometry_at, put_geometry. simpl.
  now apply (get_set_other Nat.eqb Nat.eqb_eq).
Qed.

Lemma with_objects_set_grows n r o g :
  (n <= r)%nat -> grows n g (with_objects (Dict.set Nat.eqb r o) g).
Proof.
  intros Hr. constructor; simpl; auto.
  intros r' Hr'. unfold object_at. simpl.
  apply (get_set_other Nat.eqb Nat.eqb_eq). lia.
Qed.

Lemma with_randoms_grows n k g : grows n g (with_randoms k g).
Proof. constructor; simpl; auto. Qed.

(** Adding a cache entry under a key that is not there yet. *)
Lemma with_geometryCache_set_grows n key r g :
  Dict.get String.eqb key (geometryCache g) = None ->
  grows n g (with_geometryCache (Dict.set String.eqb key r) g).
Proof.
  intros Hk. constructor; simpl; auto.
  intros key' t Hg.
  rewrite (get_set_other String.eqb String.eqb_eq); [exact Hg|].
  intros ->. congruence.
Qed.

Lemma with_billboardCache_set_grows n key r g :
  Dict.get String.eqb key (billboardGeometryCache g) = None ->
  grows n g (with_billboardGeometryCache (Dict.set String.eqb key r) g).
Proof.
  intros Hk. constructor; simpl; auto.
  intros key' t Hg.
  rewrite (get_set_other String.eqb String.eqb_eq); [exact Hg|].
  intros ->. congruence.
Qed.

End GfxFacts.

(* ------------------------------------------------------------------ *)
(** ** The island generator on the heap *)

Module GeneratorFacts.
Import JS Config Three Data IslandGenerator.
Import DictFacts GfxFacts.

Section WithPlatform.
Variable P : Platform.

Lemma random_spec g r g1 n :
  random P g = (r, g1) ->
  grows n g g1 /\ next_ref g1 = next_ref g /\ same_caches g g1
  /\ objects g1 = objects g /\ geometries g1 = geometries g.
Proof.
  unfold random. intros [= <- <-].
  split; [apply with_randoms_grows|]. split; [reflexivity|].
  split; [split; reflexivity|]. split; reflexivity.
Qed.

Lemma seedOf_spec island g seed g1 n :
  seedOf P island g = (seed, g1) ->
  grows n g g1 /\ next_ref g1 = next_ref g /\ same_caches g g1
  /\ objects g1 = objects g /\ geometries g1 = geometries g
  /\ (id island <> "" -> seed = id island /\ g1 = g).
Proof.
  unfold seedOf. destruct (String.eqb (id island) "") eqn:E.
  - destruct (random P g) as [r g2] eqn:Er. intros [= <- <-].
    destruct (random_spec _ _ _ n Er) as (A & B & C & D & F).
    repeat (split; [assumption|]).
    apply String.eqb_eq in E. congruence.
  - intros [= <- <-].
    split; [apply grows_refl|]. split; [reflexivity|].
    split; [apply same_caches_refl|]. split; [reflexivity|].
    split; [reflexivity|]. auto.
Qed.

(** What [createProceduralIslandMesh] returns: a new mesh over a new
    geometry that no cache entry refers to, whose vertex array equals the
    template the cache holds for the content key. *)
Lemma createProceduralIslandMesh_spec island biome g m g' :
  createProceduralIslandMesh P island biome g = (m, g') ->
  cache_bounded g ->
  exists geo t,
    object_at m g' = Some (Mesh geo Terrain)
    /\ (next_ref g <= geo)%nat /\ (geo < m)%nat /\ next_ref g' = S m
    /\ grows (next_ref g) g g'
    /\ cache_bounded g'
    /\ Dict.get String.eqb (cacheKeyOf island biome) (geometryCache g')
       = Some t
    /\ positions geo g' = positions t g'
    /\ (forall key t',
          Dict.get String.eqb key (geometryCache g') = Some t' -> t' <> geo)
    /\ (forall r, r <> m -> object_at r g' = object_at r g)
    /\ (forall t0,
          Dict.get String.eqb (cacheKeyOf island biome) (geometryCache g)
          = Some t0 -> t = t0)
    /\ billboardGeometryCache g' = billboardGeometryCache g
    /\ (Dict.get String.eqb (cacheKeyOf island biome) (geometryCache g)
        = None ->
        id island <> "" ->
        positions geo g'
        = createShape P (shapeTypeOf (biomeName biome))
            (Math_round (size island)) (seeded (id island))).
Proof.
  unfold createProceduralIslandMesh. intros H Hb.
  destruct (seedOf P island g) as [seed g1] eqn:Es.
  destruct (seedOf_spec _ _ _ _ (next_ref g) Es)
    as (G1 & N1 & [C1 C1'] & O1 & Q1 & S1).
  cbv zeta in H.
  destruct (Dict.get String.eqb (cacheKeyOf island biome) (geometryCache g1))
    as [t|] eqn:Ec.
  - (* cache hit: the caller receives a clone *)
    destruct (clone t g1) as [geo g2] eqn:E2.
    destruct (clone_spec _ _ _ _ (next_ref g) E2 ltac:(lia))
      as (R2 & N2 & P2 & G2 & O2 & _ & [C2 C2'] & F2).
    destruct (new_object_spec _ _ _ _ (next_ref g) H ltac:(lia))
      as (R3 & N3 & A3 & G3 & Q3 & _ & [C3 C3'] & F3).
    assert (Ht : (t < next_ref g)%nat).
    { destruct Hb as [Hb _]. apply (Hb (cacheKeyOf island biome)).
      now rewrite <- C1. }
    exists geo, t.
    split; [exact A3|]. split; [lia|]. split; [lia|]. split; [lia|].
    split; [eapply grows_trans; [exact G1|];
            eapply grows_trans; [exact G2 | exact G3]|].
    split.
    { apply (cache_bounded_same g); [split; congruence | lia | exact Hb]. }
    split; [now rewrite C3, C2|].
    split.
    { unfold positions at 1 2. unfold geometry_at. rewrite Q3.
      fold (geometry_at geo g2). fold (geometry_at t g2).
      fold (positions geo g2). rewrite P2.
      unfold positions. rewrite (F2 t) by lia. reflexivity. }
    split.
    { intros key t' Hk. rewrite C3, C2, C1 in Hk.
      destruct Hb as [Hb _]. specialize (Hb _ _ Hk). lia. }
    split.
    { intros r Hr. rewrite (F3 r) by congruence.
      unfold object_at. now rewrite O2, O1. }
    split; [intros t0 H0; rewrite <- C1 in H0; congruence|].
    split; [congruence|].
    intros H0. rewrite <- C1 in H0. congruence.
  - (* cache miss: the shape is built and a clone of it is cached *)
    destruct (new_geometry _ g1) as [geo g2] eqn:E2 in H.
    destruct (clone geo g2) as [copy g3] eqn:E3.
    destruct (new_geometry_spec _ _ _ _ (next_ref g) E2 ltac:(lia))
      as (R2 & N2 & A2 & G2 & O2 & _ & [C2 C2']).
    destruct (clone_spec _ _ _ _ (next_ref g) E3 ltac:(lia))
      as (R3 & N3 & P3 & G3 & O3 & _ & [C3 C3'] & F3).
    destruct (new_object_spec _ _ _ _ (next_ref g) H ltac:(simpl; lia))
      as (R4 & N4 & A4 & G4 & Q4 & _ & [C4 C4'] & F4).
    simpl in *.
    assert (Hnone :
      Dict.get String.eqb (cacheKeyOf island biome) (geometryCache g3) = None).
    { now rewrite C3, C2. }
    exists geo, copy.
    split; [exact A4|]. split; [lia|]. split; [lia|]. split; [lia|].
    split.
    { eapply grows_trans; [exact G1|].
      eapply grows_trans; [exact G2|].
      eapply grows_trans; [exact G3|].
      eapply grows_trans; [|exact G4].
      now apply with_geometryCache_set_grows. }
    split.
    { split; intros key t' Hk.
      - rewrite C4 in Hk.
        destruct (String.eqb key (cacheKeyOf island biome)) eqn:Ek.
        + apply String.eqb_eq in Ek. subst key.
          rewrite (get_set_same String.eqb String.eqb_eq) in Hk.
          injection Hk as <-. lia.
        + apply String.eqb_neq in Ek.
          rewrite (get_set_other String.eqb String.eqb_eq) in Hk by exact Ek.
          rewrite C3, C2, C1 in Hk.
          destruct Hb as [Hb _]. specialize (Hb _ _ Hk). lia.
      - rewrite C4' in Hk. simpl in Hk. rewrite C3', C2', C1' in Hk.
        destruct Hb as [_ Hb]. specialize (Hb _ _ Hk). lia. }
    split.
    { rewrite C4. apply (get_set_same String.eqb String.eqb_eq). }
    split.
    { unfold positions at 1 2. unfold geometry_at. rewrite Q4. simpl.
      fold (geometry_at geo g3). fold (geometry_at copy g3).
      fold (positions copy g3). rewrite P3.
      unfold positions. rewrite (F3 geo) by lia. reflexivity. }
    split.
    { intros key t' Hk. rewrite C4 in Hk.
      destruct (String.eqb key (cacheKeyOf island biome)) eqn:Ek.
      + apply String.eqb_eq in Ek. subst key.
        rewrite (get_set_same String.eqb String.eqb_eq) in Hk.
        injection Hk as <-. lia.
      + apply String.eqb_neq in Ek.
        rewrite (get_set_other String.eqb String.eqb_eq) in Hk by exact Ek.
        rewrite C3, C2, C1 in Hk.
        destruct Hb as [Hb _]. specialize (Hb _ _ Hk). lia. }
    split.
    { intros r Hr. rewrite (F4 r) by congruence.
      unfold object_at. simpl. now rewrite O3, O2, O1. }
    split; [intros t0 H0; rewrite <- C1 in H0; congruence|].
    split; [rewrite C4'; simpl; congruence|].
    intros _ Hid. destruct (S1 Hid) as [-> _].
    unfold positions, geometry_at. rewrite Q4. simpl.
    fold (geometry_at geo g3). rewrite (F3 geo) by lia.
    now rewrite A2.
Qed.

(** Validation rewrites the private geometry of the mesh and nothing
    else. *)
Lemma validateSingleMeshGeometry_spec m geo o g ok g' n :
  object_at m g = Some (Mesh geo o) -> (n <= geo)%nat ->
  validateSingleMeshGeometry P m g = (ok, g') ->
  grows n g g' /\ next_ref g' = next_ref g /\ same_caches g g'
  /\ objects g' = objects g
  /\ (forall r, r <> geo -> geometry_at r g' = geometry_at r g)
  /\ positions geo g' = map repair (positions geo g).
Proof.
  intros Hm Hn. unfold validateSingleMeshGeometry. rewrite Hm.
  unfold positions.
  destruct (geometry_at geo g) as [b|] eqn:Eb.
  - intros [= <- <-].
    split; [now apply put_geometry_grows|]. split; [reflexivity|].
    split; [split; reflexivity|]. split; [reflexivity|].
    split; [intros r Hr; now apply put_geometry_other|].
    now rewrite put_geometry_same.
  - intros [= <- <-].
    split; [apply grows_refl|]. split; [reflexivity|].
    split; [apply same_caches_refl|]. split; [reflexivity|].
    split; [reflexivity|]. now rewrite Eb.
Qed.

Lemma validateMeshGeometry_mesh m geo o g :
  object_at m g = Some (Mesh geo o) ->
  validateMeshGeometry P m g = validateSingleMeshGeometry P m g.
Proof. intros H. unfold validateMeshGeometry. now rewrite H. Qed.

Lemma group_add_spec grp child g n :
  (n <= grp)%nat ->
  grows n g (group_add grp child g)
  /\ next_ref (group_add grp child g) = next_ref g
  /\ same_caches g (group_add grp child g)
  /\ geometries (group_add grp child g) = geometries g
  /\ (forall r, r <> grp ->
        object_at r (group_add grp child g) = object_at r g)
  /\ (forall i c, object_at grp g = Some (Group i c) ->
        object_at grp (group_add grp child g)
        = Some (Group i (c ++ [child])%list)).
Proof.
  intros Hn. unfold group_add.
  destruct (object_at grp g) as [[geo o|i c]|] eqn:E.
  - split; [apply grows_refl|]. split; [reflexivity|].
    split; [apply same_caches_refl|]. split; [reflexivity|].
    split; [reflexivity|]. discriminate.
  - split; [now apply with_objects_set_grows|]. split; [reflexivity|].
    split; [split; reflexivity|]. split; [reflexivity|].
    split.
    + intros r Hr. unfold object_at. simpl.
      now apply (get_set_other Nat.eqb Nat.eqb_eq).
    + intros i' c' [= <- <-]. unfold object_at. simpl.
      apply (get_set_same Nat.eqb Nat.eqb_eq).
  - split; [apply grows_refl|]. split; [reflexivity|].
    split; [apply same_caches_refl|]. split; [reflexivity|].
    split; [reflexivity|]. discriminate.
Qed.

Lemma set_geometry_spec m geo g n :
  (n <= m)%nat ->
  grows n g (set_geometry m geo g)
  /\ next_ref (set_geometry m geo g) = next_ref g
  /\ same_caches g (set_geometry m geo g)
  /\ geometries (set_geometry m geo g) = geometries g
  /\ (forall r, r <> m ->
        object_at r (set_geometry m geo g) = object_at r g).
Proof.
  intros Hn. unfold set_geometry.
  destruct (object_at m g) as [[geo0 o|i c]|] eqn:E.
  - split; [now apply with_objects_set_grows|]. split; [reflexivity|].
    split; [split; reflexivity|]. split; [reflexivity|].
    intros r Hr. unfold object_at. simpl.
    now apply (get_set_other Nat.eqb Nat.eqb_eq).
  - split; [apply grows_refl|]. split; [reflexivity|].
    split; [apply same_caches_refl|]. split; reflexivity.
  - split; [apply grows_refl|]. split; [reflexivity|].
    split; [apply same_caches_refl|]. split; reflexivity.
Qed.

Lemma computeBoundingSphere_spec r g n :
  (n <= r)%nat ->
  grows n g (computeBoundingSphere P r g)
  /\ next_ref (computeBoundingSphere P r g) = next_ref g
  /\ same_caches g (computeBoundingSphere P r g)
  /\ objects (computeBoundingSphere P r g) = objects g.
Proof.
  intros Hn. unfold computeBoundingSphere.
  destruct (geometry_at r g) as [b|].
  - split; [now apply put_geometry_grows|]. split; [reflexivity|].
    split; [split; reflexivity|]. reflexivity.
  - split; [apply grows_refl|]. split; [reflexivity|].
    split; [apply same_caches_refl|]. reflexivity.
Qed.

(** The billboard cache hands out the reference it stores. *)
Lemma getBillboardGeometry_spec width height g r g' n :
  getBillboardGeometry P width height g = (r, g') ->
  (n <= next_ref g)%nat -> cache_bounded g ->
  grows n g g' /\ cache_bounded g'
  /\ geometryCache g' = geometryCache g /\ objects g' = objects g
  /\ (exists key,
        Dict.get String.eqb key (billboardGeometryCache g') = Some r
        /\ forall r0,
             Dict.get String.eqb key (billboardGeometryCache g) = Some r0 ->
             r = r0 /\ g' = g).
Proof.
  unfold getBillboardGeometry. intros H Hn Hb. cbv zeta in H.
  match type of H with
  | context [Dict.get String.eqb ?k _] => set (key := k) in *
  end.
  destruct (Dict.get String.eqb key (billboardGeometryCache g))
    as [cached|] eqn:Ec.
  - injection H as <- <-.
    split; [apply grows_refl|]. split; [exact Hb|].
    split; [reflexivity|]. split; [reflexivity|].
    exists key. split; [exact Ec|].
    intros r0 H0. split; congruence.
  - destruct (new_geometry _ g) as [plane g1] eqn:E1 in H.
    injection H as <- <-.
    destruct (new_geometry_spec _ _ _ _ n E1 Hn)
      as (R1 & N1 & A1 & G1 & O1 & _ & [C1 C1']).
    split.
    { eapply grows_trans; [exact G1|].
      apply with_billboardCache_set_grows. now rewrite C1'. }
    split.
    { destruct Hb as [Hb1 Hb2]. split; intros k t Hk; simpl in *.
      - rewrite C1 in Hk. specialize (Hb1 _ _ Hk). lia.
      - destruct (String.eqb k key) eqn:Ek.
        + apply String.eqb_eq in Ek. subst k.
          rewrite (get_set_same String.eqb String.eqb_eq) in Hk.
          injection Hk as <-. lia.
        + apply String.eqb_neq in Ek.
          rewrite (get_set_other String.eqb String.eqb_eq) in Hk by exact Ek.
          rewrite C1' in Hk. specialize (Hb2 _ _ Hk). lia. }
    split; [exact C1|]. split; [exact O1|].
    exists key. split.
    + simpl. apply (get_set_same String.eqb String.eqb_eq).
    + intros r0 H0. congruence.
Qed.

(** The fields of a record that materializing it never touches. *)
Definition same_record (a b : IslandData) : Prop :=
  id b = id a /\ chunk b = chunk a /\ name b = name a /\ label b = label a
  /\ biome b = biome a /\ size b = size a /\ pos b = pos a.

Lemma same_record_refl a : same_record a a.
Proof. repeat split. Qed.

Lemma same_record_trans a b c :
  same_record a b -> same_record b c -> same_record a c.
Proof.
  intros (A1 & A2 & A3 & A4 & A5 & A6 & A7) (B1 & B2 & B3 & B4 & B5 & B6 & B7).
  repeat split; congruence.
Qed.

Lemma addOutdoorToIsland_spec island grp g island' g' n :
  IslandGenerator.addOutdoorToIsland P island grp g = (island', g') ->
  (n <= grp)%nat -> (grp < next_ref g)%nat -> cache_bounded g ->
  grows n g g' /\ cache_bounded g'
  /\ geometryCache g' = geometryCache g
  /\ same_record island island' /\ mesh island' = mesh island
  /\ (forall i c, object_at grp g = Some (Group i c) ->
        exists c', object_at grp g' = Some (Group i c')).
Proof.
  unfold IslandGenerator.addOutdoorToIsland. intros H Hn Hg Hb.
  destruct (outdoor island) as [o|].
  - cbv zeta in H.
    destruct (getBillboardGeometry P _ _ g) as [bg g1] eqn:E1 in H.
    destruct (new_object (Mesh bg Billboard) g1) as [bb g2] eqn:E2 in H.
    injection H as <- <-.
    destruct (getBillboardGeometry_spec _ _ _ _ _ n E1 ltac:(lia) Hb)
      as (G1 & B1 & C1 & O1 & _).
    pose proof (grows_next _ _ _ G1) as N1.
    destruct (new_object_spec _ _ _ _ n E2 ltac:(lia))
      as (R2 & N2 & A2 & G2 & Q2 & _ & S2 & F2).
    destruct (group_add_spec grp bb g2 n Hn) as (G3 & N3 & S3 & Q3 & F3 & A3).
    split; [eapply grows_trans; [exact G1|];
            eapply grows_trans; [exact G2 | exact G3]|].
    split.
    { apply (cache_bounded_same g1); [|lia|exact B1].
      eapply same_caches_trans; eassumption. }
    split; [destruct S2, S3; congruence|].
    split; [repeat split|]. split; [reflexivity|].
    intros i c Hgrp. eexists. apply A3.
    rewrite (F2 grp) by lia. unfold object_at. rewrite O1. exact Hgrp.
  - injection H as <- <-.
    split; [apply grows_refl|]. split; [exact Hb|]. split; [reflexivity|].
    split; [apply same_record_refl|]. split; [reflexivity|]. eauto.
Qed.

(** [IslandGenerator.addIslandMesh]: either the biome is unknown and
    nothing happens, or the heap grows, one new group enters the scene
    and the record points at it. *)
Lemma generator_addIslandMesh_spec island g island' g' :
  IslandGenerator.addIslandMesh P island g = (island', g') ->
  cache_bounded g ->
  (island' = island /\ g' = g)
  \/ (exists g1,
        grows (next_ref g) g g1 /\ g' = scene_add (next_ref g) g1
        /\ cache_bounded g1 /\ (next_ref g < next_ref g1)%nat
        /\ (exists i c, object_at (next_ref g) g1 = Some (Group i c))
        /\ mesh island' = Some (next_ref g) /\ same_record island island').
Proof.
  unfold IslandGenerator.addIslandMesh. intros H Hb.
  destruct (getBiomeById (biome island)) as [b|]; [|left; now injection H].
  right.
  destruct (new_object (Group (id island) []) g) as [grp g1] eqn:E1 in H.
  destruct (createProceduralIslandMesh P island b g1) as [tm g2] eqn:E2 in H.
  destruct (validateMeshGeometry P tm g2) as [valid g3] eqn:E3 in H.
  set (n := next_ref g) in *.
  destruct (new_object_spec _ _ _ _ n E1 ltac:(lia))
    as (R1 & N1 & A1 & G1 & Q1 & _ & S1 & F1).
  assert (B1 : cache_bounded g1)
    by (apply (cache_bounded_same g); [exact S1 | lia | exact Hb]).
  destruct (createProceduralIslandMesh_spec _ _ _ _ _ E2 B1)
    as (geo & t & A2 & L2 & L2' & N2 & G2 & B2 & _ & _ & _ & F2 & _).
  apply (grows_weaken _ n) in G2; [|lia].
  rewrite (validateMeshGeometry_mesh _ _ _ _ A2) in E3.
  destruct (validateSingleMeshGeometry_spec _ _ _ _ _ _ n A2 ltac:(lia) E3)
    as (G3 & N3 & S3 & O3 & _).
  assert (B3 : cache_bounded g3)
    by (apply (cache_bounded_same g2); [exact S3 | lia | exact B2]).
  (* the fallback, when validation fails *)
  match type of H with
  | context [group_add grp tm ?gf] => set (g4 := gf) in *
  end.
  assert (K4 : grows n g3 g4 /\ cache_bounded g4
               /\ (next_ref g3 <= next_ref g4)%nat
               /\ (forall r, (r < tm)%nat -> object_at r g4 = object_at r g3)).
  { subst g4. destruct valid.
    - split; [apply grows_refl|]. split; [exact B3|]. split; [lia|]. auto.
    - destruct (new_geometry _ g3) as [fb g3a] eqn:Ef.
      destruct (new_geometry_spec _ _ _ _ n Ef ltac:(lia))
        as (Rf & Nf & Af & Gf & Of & _ & Sf).
      destruct (set_geometry_spec tm fb g3a n ltac:(lia))
        as (Gs & Ns & Ss & Qs & Fs).
      destruct (computeBoundingSphere_spec fb (set_geometry tm fb g3a) n
                  ltac:(lia)) as (Gc & Nc & Sc & Oc).
      split; [eapply grows_trans; [exact Gf|];
              eapply grows_trans; [exact Gs | exact Gc]|].
      split.
      { apply (cache_bounded_same g3); [|lia|exact B3].
        eapply same_caches_trans; [exact Sf|].
        eapply same_caches_trans; [exact Ss | exact Sc]. }
      split; [lia|].
      intros r Hr. unfold object_at at 1. rewrite Oc.
      fold (object_at r (set_geometry tm fb g3a)).
      rewrite (Fs r) by lia. unfold object_at. now rewrite Of. }
  destruct K4 as (G4 & B4 & N4 & F4).
  destruct (group_add_spec grp tm g4 n ltac:(lia))
    as (G5 & N5 & S5 & Q5 & F5 & A5).
  set (g5 := group_add grp tm g4) in *.
  assert (B5 : cache_bounded g5)
    by (apply (cache_bounded_same g4); [exact S5 | lia | exact B4]).
  assert (Hgrp : exists c, object_at grp g5 = Some (Group (id island) c)).
  { eexists. apply A5. rewrite (F4 grp) by lia.
    unfold object_at. rewrite O3. fold (object_at grp g2).
    rewrite (F2 grp) by lia. exact A1. }
  destruct Hgrp as [c5 Hgrp].
  assert (K6 : forall isl6 g6,
             (isl6, g6) =
             match outdoor island with
             | Some o =>
                 if active o
                 then IslandGenerator.addOutdoorToIsland P island grp g5
                 else (island, g5)
             | None => (island, g5)
             end ->
             grows n g5 g6 /\ cache_bounded g6
             /\ same_record island isl6
             /\ exists c, object_at grp g6 = Some (Group (id island) c)).
  { intros isl6 g6 E6.
    assert (Triv : (isl6, g6) = (island, g5) ->
                   grows n g5 g6 /\ cache_bounded g6
                   /\ same_record island isl6
                   /\ exists c, object_at grp g6 = Some (Group (id island) c)).
    { intros [= -> ->]. split; [apply grows_refl|]. split; [exact B5|].
      split; [apply same_record_refl|]. eauto. }
    destruct (outdoor island) as [o|]; [|now apply Triv].
    destruct (active o); [|now apply Triv].
    symmetry in E6.
    destruct (addOutdoorToIsland_spec _ _ _ _ _ n E6 ltac:(lia) ltac:(lia) B5)
      as (G6 & B6 & _ & R6 & _ & A6).
    split; [exact G6|]. split; [exact B6|]. split; [exact R6|].
    exact (A6 _ _ Hgrp). }
  match type of H with
  | context [match outdoor island with _ => _ end] =>
      destruct (match outdoor island with
                | Some o =>
                    if active o
                    then IslandGenerator.addOutdoorToIsland P island grp g5
                    else (island, g5)
                | None => (island, g5)
                end) as [isl6 g6] eqn:E6 in H
  end.
  injection H as <- <-.
  destruct (K6 _ _ (eq_sym E6)) as (G6 & B6 & R6 & [c6 A6]).
  exists g6. subst grp.
  split.
  { eapply grows_trans; [exact G1|].
    eapply grows_trans; [exact G2|].
    eapply grows_trans; [exact G3|].
    eapply grows_trans; [exact G4|].
    eapply grows_trans; [exact G5 | exact G6]. }
  split; [reflexivity|]. split; [exact B6|].
  split; [pose proof (grows_next _ _ _ G6); lia|].
  split; [eauto|]. split; [reflexivity|].
  destruct R6 as (R61 & R62 & R63 & R64 & R65 & R66 & R67).
  repeat split; assumption.
Qed.

End WithPlatform.

End GeneratorFacts.

(* ------------------------------------------------------------------ *)
(** ** Materializing and dematerializing the islands of a region *)

Module ChunkFacts.
Import JS Config Three Data ChunkManager.
Import DictFacts GfxFacts GeneratorFacts.

(** [staged g g']: what showing islands may do to the scene graph: it
    allocates, leaves older objects as they were, and every new member of
    the scene is a freshly made group. *)
Record staged (g g' : Gfx) : Prop :=
  { staged_next : (next_ref g <= next_ref g')%nat;
    staged_objects :
      forall r, (r < next_ref g)%nat -> object_at r g' = object_at r g;
    staged_scene :
      forall r, In r (scene g') ->
        In r (scene g)
        \/ ((next_ref g <= r < next_ref g')%nat
            /\ exists i c, object_at r g' = Some (Group i c));
    staged_caches : cache_bounded g' }.

Lemma staged_refl g : cache_bounded g -> staged g g.
Proof. intros H. constructor; auto. Qed.

Lemma staged_trans g1 g2 g3 : staged g1 g2 -> staged g2 g3 -> staged g1 g3.
Proof.
  intros [A1 A2 A3 A4] [B1 B2 B3 B4]. constructor.
  - lia.
  - intros r Hr. rewrite B2 by lia. now apply A2.
  - intros r Hr. destruct (B3 r Hr) as [H|[H1 H2]].
    + destruct (A3 r H) as [H'|[H1 (i & c & H2)]]; [now left|].
      right. split; [lia|]. exists i, c. rewrite B2 by lia. exact H2.
    + right. split; [lia | exact H2].
  - exact B4.
Qed.

Lemma In_scene_add r o g :
  In r (scene (scene_add o g)) <-> (In r (scene g) /\ r <> o) \/ r = o.
Proof.
  unfold scene_add. simpl. rewrite in_app_iff.
  rewrite (In_drop Nat.eqb Nat.eqb_eq). simpl. intuition.
Qed.

Lemma In_scene_remove r o g :
  In r (scene (scene_remove o g)) <-> In r (scene g) /\ r <> o.
Proof. unfold scene_remove. simpl. apply (In_drop Nat.eqb Nat.eqb_eq). Qed.

Section WithPlatform.
Variable P : Platform.

Lemma createIslandLabel_spec island g island' g' :
  createIslandLabel island g = (island', g') ->
  (next_ref g <= next_ref g')%nat /\ objects g' = objects g
  /\ scene g' = scene g /\ same_caches g g'
  /\ geometries g' = geometries g
  /\ id island' = id island /\ chunk island' = chunk island
  /\ mesh island' = mesh island.
Proof.
  unfold createIslandLabel.
  destruct (label island); [intros [= <- <-]; repeat split; auto|].
  destruct (islandLabels g); [|intros [= <- <-]; repeat split; auto].
  unfold fresh. intros [= <- <-]. simpl. repeat split; auto.
Qed.

(** [ChunkManager.addIslandMesh] *)
Lemma addIslandMesh_spec island g island' g' :
  addIslandMesh P island g = (island', g') ->
  cache_bounded g ->
  staged g g'
  /\ id island' = id island /\ chunk island' = chunk island
  /\ (forall r, r <> next_ref g -> In r (scene g) -> In r (scene g'))
  /\ (forall t, (t < next_ref g)%nat -> geometry_at t g' = geometry_at t g)
  /\ (forall key t,
        Dict.get String.eqb key (geometryCache g) = Some t ->
        Dict.get String.eqb key (geometryCache g') = Some t).
Proof.
  unfold addIslandMesh. intros H Hb.
  destruct (IslandGenerator.addIslandMesh P island g) as [isl1 g1] eqn:E1.
  assert (K : staged g g1 /\ id isl1 = id island /\ chunk isl1 = chunk island
              /\ (forall r, r <> next_ref g -> In r (scene g) ->
                            In r (scene g1))
              /\ (forall t, (t < next_ref g)%nat ->
                            geometry_at t g1 = geometry_at t g)
              /\ (forall key t,
                    Dict.get String.eqb key (geometryCache g) = Some t ->
                    Dict.get String.eqb key (geometryCache g1) = Some t)).
  { destruct (generator_addIslandMesh_spec P _ _ _ _ E1 Hb)
      as [[-> ->]|(g0 & G & -> & B & N & (i & c & A) & M & R)].
    - split; [now apply staged_refl|]. auto.
    - destruct G as [Gn Go Gg Gs Gl Gc Gb].
      destruct R as (R1 & R2 & _).
      split; [|split; [exact R1|split; [exact R2|split; [|split]]]].
      + constructor; simpl.
        * exact Gn.
        * intros r Hr. unfold object_at. simpl. now apply Go.
        * intros r Hr. apply In_scene_add in Hr.
          destruct Hr as [[Hr _] | ->].
          -- left. now rewrite <- Gs.
          -- right. split; [lia|]. exists i, c. exact A.
        * exact B.
      + intros r Hr Hin. apply In_scene_add. left. rewrite Gs. auto.
      + intros t Ht. unfold geometry_at. simpl. now apply Gg.
      + intros key t Hk. simpl. now apply Gc. }
  destruct K as (S1 & I1 & C1 & F1 & Q1 & K1).
  destruct (hasName isl1).
  - destruct (createIslandLabel_spec _ _ _ _ H)
      as (N2 & O2 & S2 & [C2 C2'] & Q2 & I2 & Ch2 & _).
    destruct S1 as [A1 A2 A3 A4].
    split.
    { constructor.
      * lia.
      * intros r Hr. unfold object_at. rewrite O2. now apply A2.
      * intros r Hr. rewrite S2 in Hr.
        destruct (A3 r Hr) as [Hin|[Hn (i & c & Ho)]]; [now left|].
        right. split; [lia|]. exists i, c. unfold object_at.
        now rewrite O2.
      * apply (cache_bounded_same g1); [split; assumption | lia | exact A4]. }
    split; [congruence|]. split; [congruence|].
    split; [intros r Hr Hin; rewrite S2; auto|].
    split; [intros t Ht; unfold geometry_at; rewrite Q2; now apply Q1|].
    intros key t Hk. rewrite C2. now apply K1.
  - injection H as <- <-.
    split; [exact S1|]. split; [exact I1|]. split; [exact C1|].
    split; [exact F1|]. split; [exact Q1 | exact K1].
Qed.

(** [ChunkManager.removeIslandMesh] *)
Lemma removeIslandMesh_spec island g island' g' :
  removeIslandMesh island g = (island', g') ->
  mesh island' = None
  /\ id island' = id island /\ chunk island' = chunk island
  /\ next_ref g' = next_ref g /\ objects g' = objects g
  /\ geometries g' = geometries g /\ same_caches g g'
  /\ (forall r, In r (scene g') <->
        In r (scene g) /\ mesh island <> Some r).
Proof.
  unfold removeIslandMesh, IslandGenerator.removeIslandMesh.
  destruct (mesh island) as [m|] eqn:Em; simpl;
    destruct (label island) as [div|]; intros [= <- <-]; simpl;
    (split; [first [reflexivity | exact Em]|]);
    do 5 (split; [reflexivity|]);
    (split; [split; reflexivity|]);
    intros r; rewrite ?(In_drop Nat.eqb Nat.eqb_eq); intuition congruence.
Qed.

End WithPlatform.

End ChunkFacts.

(* ------------------------------------------------------------------ *)
(** ** Placeholders, the scene and the generated regions *)

Module PlaceholderFacts.
Import JS Config Three Data ChunkManager.
Import DictFacts GfxFacts GeneratorFacts ChunkFacts.

(** [r] is a placeholder cone made for region [k]. *)
Definition placeholder_of (k : string) (r : ref) (g : Gfx) : Prop :=
  exists geo i, object_at r g = Some (Mesh geo (PlaceholderCone k i)).

(** The placeholder map and the scene agree: the map has one entry per
    id, every entry is a cone registered under its own id, and every cone
    in the scene is in the map. *)
Record tidy (g : Gfx) (m : list (string * ref)) : Prop :=
  { tidy_caches : cache_bounded g;
    tidy_map_bound : forall i r, In (i, r) m -> (r < next_ref g)%nat;
    tidy_scene_bound : forall r, In r (scene g) -> (r < next_ref g)%nat;
    tidy_keys : NoDup (map fst m);
    tidy_kind :
      forall i r, In (i, r) m ->
        exists k n geo,
          object_at r g = Some (Mesh geo (PlaceholderCone k n))
          /\ i = placeholderIdOf k n;
    tidy_scene :
      forall r k n geo, In r (scene g) ->
        object_at r g = Some (Mesh geo (PlaceholderCone k n)) ->
        In (placeholderIdOf k n, r) m }.

(** No entry of the map is a cone of region [k]. *)
Definition unmarked (g : Gfx) (m : list (string * ref)) (k : string) : Prop :=
  forall i r, In (i, r) m -> ~ placeholder_of k r g.

(** Showing or hiding islands keeps the map tidy. *)
Lemma staged_tidy g g' m : staged g g' -> tidy g m -> tidy g' m.
Proof.
  intros [S1 S2 S3 S4] [T1 T2 T3 T4 T5 T6]. constructor.
  - exact S4.
  - intros i r H. specialize (T2 _ _ H). lia.
  - intros r H. destruct (S3 r H) as [H'|[H' _]]; [|lia].
    specialize (T3 _ H'). lia.
  - exact T4.
  - intros i r H. rewrite S2 by eauto. eauto.
  - intros r k n geo H Ho. destruct (S3 r H) as [H'|[_ (i & c & H')]].
    + rewrite S2 in Ho by eauto. eauto.
    + congruence.
Qed.

Lemma staged_unmarked g g' m k :
  staged g g' -> tidy g m -> unmarked g m k -> unmarked g' m k.
Proof.
  intros [S1 S2 S3 S4] T U i r H (geo & n & Ho).
  apply (U i r H). exists geo, n.
  rewrite <- Ho. symmetry. apply S2. eapply tidy_map_bound; eauto.
Qed.

(** Taking an entry out of the map together with its cone out of the
    scene keeps the map tidy. *)
Lemma remove_entry_tidy g m i r :
  tidy g m -> In (i, r) m ->
  tidy (scene_remove r g) (Dict.delete String.eqb i m).
Proof.
  intros [T1 T2 T3 T4 T5 T6] Hin. constructor; simpl.
  - exact T1.
  - intros i' r' H. apply (In_delete String.eqb String.eqb_eq) in H.
    destruct H as [H _]. eauto.
  - intros r' H. apply (In_drop Nat.eqb Nat.eqb_eq) in H. destruct H. eauto.
  - clear -T4. induction m as [|[k v] m IH]; simpl; [constructor|].
    inversion T4 as [|? ? Hk Hm]; subst.
    destruct (String.eqb i k); [auto|]. simpl. constructor; [|auto].
    intros H. apply Hk. apply in_map_iff in H. destruct H as ([k' v'] & <- & H).
    apply (In_delete String.eqb String.eqb_eq) in H. destruct H as [H _].
    apply in_map_iff. now exists (k', v').
  - intros i' r' H. apply (In_delete String.eqb String.eqb_eq) in H.
    destruct H as [H _]. apply (T5 _ _ H).
  - intros r' k n geo H Ho.
    apply (In_drop Nat.eqb Nat.eqb_eq) in H. destruct H as [H Hne].
    specialize (T6 _ _ _ _ H Ho).
    apply (In_delete String.eqb String.eqb_eq). split; [exact T6|]. simpl.
    intros E. apply Hne. subst i.
    (* one entry per id: [r'] is [r] *)
    clear -T4 T6 Hin. induction m as [|[k' v] m IH]; [contradiction|].
    simpl in T4. inversion T4 as [|? ? Hk Hm]; subst.
    destruct T6 as [T6|T6], Hin as [Hin|Hin].
    + congruence.
    + exfalso. apply Hk. injection T6 as -> _.
      apply in_map_iff. now exists (placeholderIdOf k n, r).
    + exfalso. apply Hk. injection Hin as -> _.
      apply in_map_iff. now exists (placeholderIdOf k n, r').
    + auto.
Qed.

Lemma remove_entry_unmarked g m i r k :
  unmarked g m k -> unmarked (scene_remove r g) (Dict.delete String.eqb i m) k.
Proof.
  intros U i' r' H Hp.
  apply (In_delete String.eqb String.eqb_eq) in H. destruct H as [H _].
  exact (U _ _ H Hp).
Qed.

End PlaceholderFacts.

(* ------------------------------------------------------------------ *)
(** ** The streaming invariant *)

Module StreamFacts.
Import JS Config Three Data ChunkManager.
Import DictFacts GfxFacts GeneratorFacts ChunkFacts PlaceholderFacts.
Import GenerationFacts.

(** What holds of every world the game can reach: the placeholder map is
    tidy, no generated region has a placeholder left, and only generated
    regions are materialized. *)
Record Inv (w : World) : Prop :=
  { inv_tidy : tidy (gfx w) (lowPolyIslands w);
    inv_generated :
      forall k, In k (generatedChunks (dataManager w)) ->
        unmarked (gfx w) (lowPolyIslands w) k;
    inv_loaded :
      forall k, In k (loadedChunks w) ->
        In k (generatedChunks (dataManager w)) }.

Lemma forEach_invariant {S : Type} (I : S -> Prop)
  (select : IslandData -> bool) (f : IslandData -> S -> IslandData * S) :
  (forall island s, I s -> I (snd (f island s))) ->
  forall records s, I s -> I (snd (forEach select f records s)).
Proof.
  intros Hf records. induction records as [|[k island] rest IH]; intros s Hs.
  - exact Hs.
  - simpl. destruct (select island).
    + specialize (Hf island s Hs). destruct (f island s) as [island' s1].
      specialize (IH s1 Hf). destruct (forEach select f rest s1). exact IH.
    + specialize (IH s Hs). destruct (forEach select f rest s). exact IH.
Qed.

Lemma prefix_app p s : String.prefix p (p ++ s) = true.
Proof.
  induction p as [|c p IH]; simpl.
  - destruct s; reflexivity.
  - destruct (ascii_dec c c); [exact IH | congruence].
Qed.

Lemma placeholderId_prefix k n :
  startsWith (placeholderIdOf k n) ("placeholder_" ++ k) = true.
Proof.
  unfold startsWith, placeholderIdOf.
  change ("placeholder_" ++ k ++ "_" ++ string_of_Z n)
    with ("placeholder_" ++ (k ++ ("_" ++ string_of_Z n))).
  assert (A : forall a b c : string, (a ++ (b ++ c) = (a ++ b) ++ c)%string).
  { intros a b c. induction a as [|x a IH]; simpl; [reflexivity|].
    now rewrite IH. }
  rewrite A. apply prefix_app.
Qed.

Section WithPlatform.
Variable P : Platform.

(** *** Showing and hiding the islands of a region *)

Lemma addIslandMesh_tidy m island g :
  tidy g m -> tidy (snd (addIslandMesh P island g)) m.
Proof.
  intros T. destruct (addIslandMesh P island g) as [i' g'] eqn:E.
  destruct (addIslandMesh_spec P _ _ _ _ E (tidy_caches _ _ T)) as (S & _).
  simpl. eapply staged_tidy; eauto.
Qed.

Lemma addIslandMesh_unmarked m k island g :
  tidy g m -> unmarked g m k -> unmarked (snd (addIslandMesh P island g)) m k.
Proof.
  intros T U. destruct (addIslandMesh P island g) as [i' g'] eqn:E.
  destruct (addIslandMesh_spec P _ _ _ _ E (tidy_caches _ _ T)) as (S & _).
  simpl. eapply staged_unmarked; eauto.
Qed.

Lemma removeIslandMesh_staged island g island' g' :
  removeIslandMesh island g = (island', g') -> cache_bounded g -> staged g g'.
Proof.
  intros E Hb.
  destruct (removeIslandMesh_spec _ _ _ _ E) as (_ & _ & _ & N & O & _ & C & Sc).
  constructor.
  - lia.
  - intros r _. unfold object_at. now rewrite O.
  - intros r H. left. now apply Sc.
  - apply (cache_bounded_same g); [exact C | lia | exact Hb].
Qed.

(** The part of the invariant that speaks of the scene and the map, for
    a fixed set [G] of generated regions. *)
Definition clean (G : list string) (g : Gfx) (m : list (string * ref)) : Prop :=
  tidy g m /\ forall k, In k G -> unmarked g m k.

Lemma addIslandMesh_clean G m island g :
  clean G g m -> clean G (snd (addIslandMesh P island g)) m.
Proof.
  intros [T U]. split; [now apply addIslandMesh_tidy|].
  intros k Hk. apply addIslandMesh_unmarked; auto.
Qed.

Lemma removeIslandMesh_clean G m island g :
  clean G g m -> clean G (snd (removeIslandMesh island g)) m.
Proof.
  intros [T U]. destruct (removeIslandMesh island g) as [i' g'] eqn:E.
  pose proof (removeIslandMesh_staged _ _ _ _ E (tidy_caches _ _ T)) as S.
  simpl. split; [eapply staged_tidy; eauto|].
  intros k Hk. eapply staged_unmarked; eauto.
Qed.

Lemma overChunk_fields key f w :
  localStorage (overChunk key f w) = localStorage w
  /\ loadedChunks (overChunk key f w) = loadedChunks w
  /\ pendingChunks (overChunk key f w) = pendingChunks w
  /\ isGeneratingChunk (overChunk key f w) = isGeneratingChunk w
  /\ lowPolyIslands (overChunk key f w) = lowPolyIslands w
  /\ chunkUpdateCounter (overChunk key f w) = chunkUpdateCounter w
  /\ timers (overChunk key f w) = timers w
  /\ generatedChunks (dataManager (overChunk key f w))
     = generatedChunks (dataManager w)
  /\ gfx (overChunk key f w)
     = snd (forEach (inChunk key) f (islandData (dataManager w)) (gfx w)).
Proof.
  unfold overChunk.
  destruct (forEach (inChunk key) f (islandData (dataManager w)) (gfx w)).
  simpl. repeat split.
Qed.

Lemma overChunk_Inv key f w :
  (forall G m island g, clean G g m -> clean G (snd (f island g)) m) ->
  Inv w -> Inv (overChunk key f w).
Proof.
  intros Hf [T U L].
  destruct (overChunk_fields key f w)
    as (_ & E1 & _ & _ & E2 & _ & _ & E3 & E4).
  assert (C : clean (generatedChunks (dataManager w))
                (gfx (overChunk key f w)) (lowPolyIslands w)).
  { rewrite E4. apply forEach_invariant; [intros; now apply Hf|]. now split. }
  destruct C as [T' U'].
  constructor; rewrite ?E1, ?E2, ?E3; auto.
Qed.

Lemma loadChunk_Inv key w :
  Inv w -> In key (generatedChunks (dataManager w)) -> Inv (loadChunk P key w).
Proof.
  intros I Hk. unfold loadChunk.
  destruct (Dict.mem String.eqb key (loadedChunks w)); [exact I|].
  apply overChunk_Inv; [intros; now apply addIslandMesh_clean|].
  destruct I as [T U L]. constructor; simpl; auto.
  intros k H. apply (In_add String.eqb String.eqb_eq) in H.
  destruct H as [H| ->]; auto.
Qed.

Lemma unloadChunk_Inv key w : Inv w -> Inv (unloadChunk key w).
Proof.
  intros I. unfold unloadChunk.
  destruct (negb (Dict.mem String.eqb key (loadedChunks w))); [exact I|].
  apply overChunk_Inv; [intros; now apply removeIslandMesh_clean|].
  destruct I as [T U L]. constructor; simpl; auto.
  intros k H. apply (In_drop String.eqb String.eqb_eq) in H.
  destruct H as [H _]. auto.
Qed.

(** *** Creating placeholders *)

Lemma createPlaceholder_fields chunkKey w i :
  dataManager (createPlaceholder P chunkKey w i) = dataManager w
  /\ localStorage (createPlaceholder P chunkKey w i) = localStorage w
  /\ loadedChunks (createPlaceholder P chunkKey w i) = loadedChunks w
  /\ pendingChunks (createPlaceholder P chunkKey w i) = pendingChunks w
  /\ isGeneratingChunk (createPlaceholder P chunkKey w i) = isGeneratingChunk w
  /\ chunkUpdateCounter (createPlaceholder P chunkKey w i)
     = chunkUpdateCounter w
  /\ timers (createPlaceholder P chunkKey w i) = timers w.
Proof.
  unfold createPlaceholder.
  destruct (Dict.has String.eqb _ _); [repeat split|].
  destruct (random P (gfx w)) as [r g].
  destruct (createLowPolyPlaceholder P _ chunkKey i g) as [p g'].
  simpl. repeat split.
Qed.

Lemma createPlaceholder_Inv chunkKey w i :
  Inv w -> ~ In chunkKey (generatedChunks (dataManager w)) ->
  Inv (createPlaceholder P chunkKey w i).
Proof.
  intros I Hng.
  destruct (createPlaceholder_fields chunkKey w i)
    as (E1 & _ & E2 & _).
  unfold createPlaceholder in *.
  destruct (Dict.has String.eqb (placeholderIdOf chunkKey i)
              (lowPolyIslands w)) eqn:Eh; [exact I|].
  assert (Hnone : Dict.get String.eqb (placeholderIdOf chunkKey i)
                    (lowPolyIslands w) = None).
  { unfold Dict.has in Eh.
    destruct (Dict.get String.eqb _ _); [discriminate | reflexivity]. }
  destruct (random P (gfx w)) as [r g1] eqn:Er.
  unfold createLowPolyPlaceholder in *.
  destruct (new_geometry _ g1) as [geo g2] eqn:Eg.
  destruct (new_object (Mesh geo (PlaceholderCone chunkKey i)) g2)
    as [p g3] eqn:Eo.
  simpl in *.
  destruct I as [[T1 T2 T3 T4 T5 T6] U L].
  destruct (random_spec P _ _ _ 0%nat Er) as (_ & N1 & S1 & O1 & _).
  destruct (new_geometry_spec _ _ _ _ 0%nat Eg ltac:(lia))
    as (R2 & N2 & _ & G2 & O2 & _ & S2).
  destruct (new_object_spec _ _ _ _ 0%nat Eo ltac:(lia))
    as (R3 & N3 & A3 & G3 & _ & _ & S3 & F3).
  assert (Sc : scene g3 = scene (gfx w)).
  { rewrite (grows_scene _ _ _ G3), (grows_scene _ _ _ G2).
    unfold random in Er. injection Er as _ <-. reflexivity. }
  assert (Old : forall r', (r' < next_ref (gfx w))%nat ->
                  object_at r' g3 = object_at r' (gfx w)).
  { intros r' Hr'. rewrite (F3 r') by lia.
    unfold object_at. now rewrite O2, O1. }
  assert (T' : tidy (scene_add p g3)
                 (Dict.set String.eqb (placeholderIdOf chunkKey i) p
                    (lowPolyIslands w))).
  { constructor.
    - apply (cache_bounded_same (gfx w)); [|simpl; lia|exact T1].
      eapply same_caches_trans; [exact S1|].
      eapply same_caches_trans; [exact S2|].
      eapply same_caches_trans; [exact S3|]. split; reflexivity.
    - intros i' r' H. simpl.
      apply (In_set_absent String.eqb _ _ _ _ Hnone) in H.
      destruct H as [[= -> ->]|H]; [lia|]. specialize (T2 _ _ H). lia.
    - intros r' H. apply In_scene_add in H. simpl.
      destruct H as [[H _] | ->]; [|lia].
      rewrite Sc in H. specialize (T3 _ H). lia.
    - rewrite (set_keys_absent String.eqb _ _ _ Hnone).
      apply NoDup_app; [exact T4 | repeat constructor; auto |].
      intros x Hx [<-|[]].
      now apply (get_None_keys String.eqb String.eqb_eq _ _ Hnone).
    - intros i' r' H.
      apply (In_set_absent String.eqb _ _ _ _ Hnone) in H.
      destruct H as [[= -> ->]|H].
      + exists chunkKey, i, geo. split; [exact A3 | reflexivity].
      + destruct (T5 _ _ H) as (k & n & geo' & Ho & Ei).
        exists k, n, geo'. split; [|exact Ei].
        change (object_at r' (scene_add p g3)) with (object_at r' g3).
        rewrite Old; [exact Ho | eauto].
    - intros r' k n geo' H Ho.
      change (object_at r' (scene_add p g3)) with (object_at r' g3) in Ho.
      apply (In_set_absent String.eqb _ _ _ _ Hnone).
      apply In_scene_add in H. destruct H as [[H Hne] | ->].
      + right. rewrite Sc in H. rewrite Old in Ho by eauto. eauto.
      + left. rewrite A3 in Ho. now injection Ho as _ <- <-. }
  constructor; simpl.
  - exact T'.
  - intros k Hk i' r' H (geo' & n & Ho).
    change (object_at r' (scene_add p g3)) with (object_at r' g3) in Ho.
    apply (In_set_absent String.eqb _ _ _ _ Hnone) in H.
    destruct H as [[= -> ->]|H].
    + rewrite A3 in Ho. injection Ho as _ <- _. auto.
    + apply (U k Hk i' r' H). exists geo', n.
      rewrite <- Ho. symmetry. apply Old. eauto.
  - exact L.
Qed.

Lemma createPlaceholdersForChunk_fields chunkKey w :
  dataManager (createPlaceholdersForChunk P chunkKey w) = dataManager w
  /\ loadedChunks (createPlaceholdersForChunk P chunkKey w) = loadedChunks w
  /\ pendingChunks (createPlaceholdersForChunk P chunkKey w) = pendingChunks w
  /\ isGeneratingChunk (createPlaceholdersForChunk P chunkKey w)
     = isGeneratingChunk w
  /\ timers (createPlaceholdersForChunk P chunkKey w) = timers w.
Proof.
  unfold createPlaceholdersForChunk.
  destruct (random P (gfx w)) as [r g].
  destruct (num_min _ _); [|repeat split].
  repeat split;
    (rewrite (fold_left_keeps _ (createPlaceholder P chunkKey));
     [reflexivity|]);
    intros a b; destruct (createPlaceholder_fields chunkKey a b)
      as (F1 & F2 & F3 & F4 & F5 & F6 & F7); assumption.
Qed.

Lemma with_randoms_Inv n w :
  Inv w -> Inv (set_gfx (with_randoms n (gfx w)) w).
Proof.
  intros [[T1 T2 T3 T4 T5 T6] U L].
  constructor; [constructor|..]; simpl; auto.
Qed.

Lemma createPlaceholdersForChunk_Inv chunkKey w :
  Inv w -> ~ In chunkKey (generatedChunks (dataManager w)) ->
  Inv (createPlaceholdersForChunk P chunkKey w).
Proof.
  intros I Hng. unfold createPlaceholdersForChunk.
  destruct (random P (gfx w)) as [r g] eqn:Er.
  unfold random in Er. injection Er as _ <-.
  pose proof (with_randoms_Inv (S (randoms (gfx w))) w I) as I1.
  destruct (num_min _ _); [|exact I1].
  apply (fold_left_invariant
           (fun w0 => Inv w0 /\ dataManager w0 = dataManager w)).
  - intros a b [Ia Ea]. split.
    + apply createPlaceholder_Inv; [exact Ia | now rewrite Ea].
    + destruct (createPlaceholder_fields chunkKey a b) as (-> & _).
      exact Ea.
  - split; [exact I1 | reflexivity].
Qed.

(** *** Removing placeholders *)

(** The loop of [removePlaceholdersForChunk], from any point of the
    snapshot it iterates over. *)
Lemma removePlaceholders_loop prefix (G : list string) l :
  forall w,
    NoDup (map fst l) ->
    (forall e, In e l -> In e (lowPolyIslands w)) ->
    clean G (gfx w) (lowPolyIslands w) ->
    let w' :=
      fold_left
        (fun w (entry : string * ref) =>
           let (i, placeholder) := entry in
           if startsWith i prefix then
             set_lowPolyIslands (Dict.delete String.eqb i (lowPolyIslands w))
               (set_gfx (scene_remove placeholder (gfx w)) w)
           else w)
        l w in
    clean G (gfx w') (lowPolyIslands w')
    /\ (forall i r, In (i, r) (lowPolyIslands w') ->
          In (i, r) (lowPolyIslands w)
          /\ (In (i, r) l -> startsWith i prefix = false)).
Proof.
  induction l as [|[i p] l IH]; intros w Hnd Hin C; simpl.
  - split; [exact C|]. intros i r H. split; [exact H | contradiction].
  - simpl in Hnd. inversion Hnd as [|? ? Hi Hl]; subst.
    destruct (startsWith i prefix) eqn:Ep.
    + set (w1 := set_lowPolyIslands _ _).
      assert (C1 : clean G (gfx w1) (lowPolyIslands w1)).
      { destruct C as [T U]. subst w1. simpl. split.
        - apply remove_entry_tidy; [exact T|]. apply Hin. now left.
        - intros k Hk. apply remove_entry_unmarked. auto. }
      assert (Hin1 : forall e, In e l -> In e (lowPolyIslands w1)).
      { intros [i' r'] He. subst w1. simpl.
        apply (In_delete String.eqb String.eqb_eq). split.
        - apply Hin. now right.
        - simpl. intros ->. apply Hi. apply in_map_iff. now exists (i, r'). }
      destruct (IH w1 Hl Hin1 C1) as [C2 R2]. split; [exact C2|].
      intros i' r' H. destruct (R2 _ _ H) as [H1 H2].
      subst w1. simpl in H1.
      apply (In_delete String.eqb String.eqb_eq) in H1.
      destruct H1 as [H1 Hne]. simpl in Hne. split; [exact H1|].
      intros [[= -> ->]|H']; [congruence | auto].
    + assert (Hin1 : forall e, In e l -> In e (lowPolyIslands w))
        by (intros e He; apply Hin; now right).
      destruct (IH w Hl Hin1 C) as [C2 R2]. split; [exact C2|].
      intros i' r' H. destruct (R2 _ _ H) as [H1 H2]. split; [exact H1|].
      intros [[= -> ->]|H']; [exact Ep | auto].
Qed.

Lemma removePlaceholders_clean G key w :
  clean G (gfx w) (lowPolyIslands w) ->
  let w' := removePlaceholdersForChunk key w in
  clean G (gfx w') (lowPolyIslands w')
  /\ unmarked (gfx w') (lowPolyIslands w') key.
Proof.
  intros C w'.
  destruct (removePlaceholders_loop ("placeholder_" ++ key) G
              (lowPolyIslands w) w
              (tidy_keys _ _ (proj1 C)) (fun e H => H) C) as [C' R].
  fold (removePlaceholdersForChunk key w) in C', R. fold w' in C', R.
  split; [exact C'|].
  intros i r H (geo & n & Ho).
  destruct (R _ _ H) as [H1 H2]. specialize (H2 H1).
  destruct (tidy_kind _ _ (proj1 C') _ _ H) as (k' & n' & geo' & Ho' & ->).
  rewrite Ho in Ho'. injection Ho' as _ <- <-.
  rewrite placeholderId_prefix in H2. discriminate.
Qed.

(** *** Generating a region *)

Lemma generateIsland_generated x z key seed start st i :
  generatedChunks (gen_data (generateIsland x z key seed start st i))
  = generatedChunks (gen_data st).
Proof.
  unfold generateIsland. cbv zeta.
  match goal with
  | |- context [if ?c then _ else _] => destruct c
  end; reflexivity.
Qed.

Lemma generateChunk_Inv x z hd w : Inv w -> Inv (generateChunk P x z hd w).
Proof.
  intros I. unfold generateChunk.
  destruct (Dict.mem String.eqb (chunkKeyOf x z)
              (generatedChunks (dataManager w))) eqn:E; [exact I|].
  cbv zeta.
  match goal with
  | |- context [fold_left ?f ?l ?a] => set (st := fold_left f l a)
  end.
  assert (Eg : generatedChunks (gen_data st) = generatedChunks (dataManager w)).
  { subst st.
    rewrite (fold_left_keeps (fun s => generatedChunks (gen_data s)));
      [reflexivity|].
    intros a b. apply generateIsland_generated. }
  set (w1 := set_dataManager (addGeneratedChunk (chunkKeyOf x z) (gen_data st)) w).
  destruct I as [T U L].
  assert (C1 : clean (generatedChunks (dataManager w)) (gfx w1)
                 (lowPolyIslands w1)) by (split; assumption).
  destruct (removePlaceholders_clean _ (chunkKeyOf x z) w1 C1) as [[T2 U2] M2].
  set (w2 := removePlaceholdersForChunk (chunkKeyOf x z) w1) in *.
  assert (I2 : Inv w2).
  { constructor.
    - exact T2.
    - intros k Hk. unfold w2 in Hk.
      rewrite removePlaceholders_dataManager in Hk. simpl in Hk.
      apply (In_add String.eqb String.eqb_eq) in Hk. rewrite Eg in Hk.
      destruct Hk as [Hk| ->]; auto.
    - intros k Hk. unfold w2 in *.
      rewrite removePlaceholders_loadedChunks in Hk.
      rewrite removePlaceholders_dataManager. simpl.
      apply (In_add String.eqb String.eqb_eq). left. rewrite Eg. auto. }
  destruct (random P (gfx w2)) as [r g] eqn:Er.
  unfold random in Er. injection Er as _ <-.
  pose proof (with_randoms_Inv (S (randoms (gfx w2))) w2 I2) as I3.
  match goal with
  | |- context [if ?c then _ else _] => destruct c
  end; [|exact I3].
  destruct I3 as [T3 U3 L3]. constructor; simpl; auto.
Qed.

(** *** One tick *)

Lemma enqueue_Inv key w : Inv w -> Inv (enqueue key w).
Proof.
  intros [T U L]. unfold enqueue.
  destruct (_ && _); constructor; simpl; auto.
Qed.

Lemma enqueue_fields key w :
  dataManager (enqueue key w) = dataManager w
  /\ loadedChunks (enqueue key w) = loadedChunks w
  /\ isGeneratingChunk (enqueue key w) = isGeneratingChunk w
  /\ timers (enqueue key w) = timers w
  /\ gfx (enqueue key w) = gfx w
  /\ lowPolyIslands (enqueue key w) = lowPolyIslands w.
Proof. unfold enqueue. destruct (_ && _); repeat split. Qed.

Lemma trackHigh_Inv cx cz w : Inv w -> Inv (trackHigh cx cz w).
Proof.
  unfold trackHigh. apply fold_left_invariant.
  intros a [dx dz] Ia. now apply enqueue_Inv.
Qed.

Lemma trackLow_Inv cx cz w : Inv w -> Inv (trackLow P cx cz w).
Proof.
  unfold trackLow. apply fold_left_invariant.
  intros a [dx dz] Ia. destruct (isHighOffset (dx, dz)); [exact Ia|].
  cbv zeta.
  set (key := chunkKeyOf (Int (cx + dx)) (Int (cz + dz))).
  pose proof (enqueue_Inv key a Ia) as I1.
  destruct (enqueue_fields key a) as (E1 & E2 & _).
  destruct (negb (Dict.mem String.eqb key (loadedChunks (enqueue key a))));
    [|exact I1].
  destruct (Dict.mem String.eqb key
              (generatedChunks (dataManager (enqueue key a)))) eqn:Eg;
    [exact I1|].
  simpl. apply createPlaceholdersForChunk_Inv; [exact I1|].
  now apply (mem_false String.eqb String.eqb_eq).
Qed.

Lemma showIsland_clean G island s :
  (let '(g, m, _) := s in clean G g m) ->
  (let '(g, m, _) := snd (showIsland P island s) in clean G g m).
Proof.
  destruct s as [[g m] visible]. intros C. unfold showIsland.
  pose proof (addIslandMesh_clean G m island g C) as C1.
  destruct (addIslandMesh P island g) as [island' g1]. simpl in C1.
  destruct (Dict.get String.eqb ("placeholder_" ++ id island') m)
    as [placeholder|] eqn:E; simpl; [|exact C1].
  destruct C1 as [T U]. split.
  - apply remove_entry_tidy; [exact T|].
    now apply (get_In String.eqb String.eqb_eq).
  - intros k Hk. apply remove_entry_unmarked. auto.
Qed.

Lemma loadHigh_Inv acc key : Inv (snd acc) -> Inv (snd (loadHigh P acc key)).
Proof.
  destruct acc as [visible w]. simpl. intros I. unfold loadHigh.
  destruct (negb (Dict.mem String.eqb key (loadedChunks w))
            && Dict.mem String.eqb key (generatedChunks (dataManager w)))
    eqn:E.
  - apply andb_prop in E. destruct E as [_ Eg].
    apply (mem_In String.eqb String.eqb_eq) in Eg.
    pose proof (forEach_invariant
                  (fun s : Loading =>
                     let '(g, m, _) := s in
                     clean (generatedChunks (dataManager w)) g m)
                  (inChunk key) (showIsland P)
                  (fun island s => showIsland_clean _ island s)
                  (islandData (dataManager w))
                  (gfx w, lowPolyIslands w, visible)) as C.
    destruct I as [T U L]. specialize (C (conj T U)).
    destruct (forEach (inChunk key) (showIsland P) _ _)
      as [records [[g m] visible']].
    simpl in C. destruct C as [T' U']. simpl.
    constructor; simpl; auto.
    intros k Hk. apply (In_add String.eqb String.eqb_eq) in Hk.
    destruct Hk as [Hk| ->]; auto.
  - destruct (Dict.mem String.eqb key (loadedChunks w)); [|exact I].
    destruct (forEach (inChunk key) noteVisible _ _). exact I.
Qed.

Lemma unloadFar_Inv low w key : Inv w -> Inv (unloadFar low w key).
Proof.
  intros I. unfold unloadFar.
  destruct (negb (Dict.mem String.eqb key low)); [|exact I].
  now apply unloadChunk_Inv.
Qed.

Lemma processNextPendingChunk_Inv p w :
  Inv w -> Inv (processNextPendingChunk p w).
Proof.
  intros [T U L]. unfold processNextPendingChunk.
  destruct (_ || _); [constructor; auto|].
  simpl. destruct (pendingChunks w) as [|k rest];
    [constructor; simpl; auto|].
  destruct (String.eqb k ""); constructor; simpl; auto.
Qed.

Lemma clearUnusedCaches_spec g :
  scene (IslandGenerator.clearUnusedCaches g) = scene g
  /\ objects (IslandGenerator.clearUnusedCaches g) = objects g
  /\ next_ref (IslandGenerator.clearUnusedCaches g) = next_ref g
  /\ geometries (IslandGenerator.clearUnusedCaches g) = geometries g
  /\ (cache_bounded g -> cache_bounded (IslandGenerator.clearUnusedCaches g)).
Proof.
  unfold IslandGenerator.clearUnusedCaches.
  destruct (50 <? List.length (geometryCache g))%nat;
    destruct (20 <? List.length (billboardGeometryCache _))%nat; simpl;
    (repeat (split; [reflexivity|])); intros [B1 B2]; split; simpl;
    auto; discriminate.
Qed.

Lemma sweepCaches_Inv w : Inv w -> Inv (sweepCaches w).
Proof.
  intros [[T1 T2 T3 T4 T5 T6] U L]. unfold sweepCaches. simpl.
  destruct (50 <? chunkUpdateCounter w + 1).
  - destruct (clearUnusedCaches_spec (gfx w)) as (E1 & E2 & E3 & _ & E5).
    constructor; [constructor|..]; simpl;
      unfold unmarked, placeholder_of, object_at; rewrite ?E1, ?E2, ?E3;
      auto.
  - constructor; [constructor|..]; simpl; auto.
Qed.

Lemma updateChunks_Inv p w : Inv w -> Inv (snd (updateChunks P p w)).
Proof.
  intros I. unfold updateChunks. cbv zeta.
  set (cx := chunkIndex (vx p)). set (cz := chunkIndex (vz p)).
  pose proof (trackLow_Inv cx cz _ (trackHigh_Inv cx cz w I)) as I1.
  set (w1 := trackLow P cx cz (trackHigh cx cz w)) in *.
  assert (I2 : Inv (snd (fold_left (loadHigh P) (highDetailChunks cx cz)
                           ([], w1)))).
  { apply (fold_left_invariant (fun acc => Inv (snd acc))).
    - intros a b. apply loadHigh_Inv.
    - exact I1. }
  destruct (fold_left (loadHigh P) (highDetailChunks cx cz) ([], w1))
    as [visible w2].
  simpl in *.
  apply sweepCaches_Inv, processNextPendingChunk_Inv.
  apply fold_left_invariant; [|exact I2].
  intros a b. apply unloadFar_Inv.
Qed.

(** *** Timer callbacks and runs *)

Lemma runTask_Inv t w : Inv w -> Inv (runTask P t w).
Proof.
  intros I. unfold runTask.
  pose proof (generateChunk_Inv (task_chunkX t) (task_chunkZ t)
                (task_near t) w I) as I1.
  pose proof (generateChunk_marks P (task_chunkX t) (task_chunkZ t)
                (task_near t) w) as M.
  apply (mem_In String.eqb String.eqb_eq) in M.
  set (w1 := generateChunk P _ _ _ w) in *.
  assert (I2 : Inv (if task_near t then
                      if negb (Dict.mem String.eqb
                                 (chunkKeyOf (task_chunkX t) (task_chunkZ t))
                                 (loadedChunks w1))
                      then loadChunk P
                             (chunkKeyOf (task_chunkX t) (task_chunkZ t)) w1
                      else w1
                    else w1)).
  { destruct (task_near t); [|exact I1].
    destruct (negb _); [|exact I1]. now apply loadChunk_Inv. }
  cbv zeta. destruct I2 as [T U L]. constructor; simpl; auto.
Qed.

End WithPlatform.

End StreamFacts.

(* ------------------------------------------------------------------ *)
(** ** Unloading far regions *)

Module UnloadFacts.
Import JS Config Three Data ChunkManager.
Import DictFacts GfxFacts GeneratorFacts ChunkFacts StreamFacts.

(** Region [k] is dematerialized in [w]: none of its island records has a
    mesh, and the meshes its records had in [w0] are not in the scene. *)
Definition gone (k : string) (w0 w : World) : Prop :=
  (forall i island, In (i, island) (islandData (dataManager w)) ->
     chunk island = k -> mesh island = None)
  /\ (forall i island m, In (i, island) (islandData (dataManager w0)) ->
        chunk island = k -> mesh island = Some m ->
        ~ In m (scene (gfx w))).

(** The records of region [k] are still as they were in [w0]. *)
Definition kept (k : string) (w0 w : World) : Prop :=
  forall i island, In (i, island) (islandData (dataManager w0)) ->
    chunk island = k -> In (i, island) (islandData (dataManager w)).

Lemma inChunk_true key island : inChunk key island = true <-> chunk island = key.
Proof. unfold inChunk. apply String.eqb_eq. Qed.

(** A pass over the islands of another region leaves those of [k] alone. *)
Lemma forEach_other {S} key k (f : IslandData -> S -> IslandData * S)
  records s :
  key <> k ->
  forall i island, In (i, island) records -> chunk island = k ->
    In (i, island) (fst (forEach (inChunk key) f records s)).
Proof.
  intros Hne. revert s.
  induction records as [|[i0 isl0] rest IH]; intros s i island Hin Hc;
    [contradiction|].
  simpl. destruct (inChunk key isl0) eqn:E.
  - destruct (f isl0 s) as [isl1 s1].
    specialize (IH s1 i island).
    destruct (forEach (inChunk key) f rest s1) as [rest' s2]. simpl in *.
    destruct Hin as [[= -> ->]|Hin]; [|right; auto].
    apply inChunk_true in E. congruence.
  - specialize (IH s i island).
    destruct (forEach (inChunk key) f rest s) as [rest' s2]. simpl in *.
    destruct Hin as [Hin|Hin]; [now left | right; auto].
Qed.

(** A removal pass: where each record of the result comes from, and what
    is left of the scene. *)
Lemma forEach_remove key records g :
  let (records', g') := forEach (inChunk key) removeIslandMesh records g in
  (forall i island', In (i, island') records' ->
     (chunk island' = key -> mesh island' = None)
     /\ exists island,
          In (i, island) records /\ chunk island' = chunk island
          /\ (mesh island' = None \/ island' = island))
  /\ (forall r, In r (scene g') -> In r (scene g))
  /\ (forall i island m, In (i, island) records -> chunk island = key ->
        mesh island = Some m -> ~ In m (scene g')).
Proof.
  revert g. induction records as [|[i0 isl0] rest IH]; intros g; simpl.
  - split; [contradiction|]. split; [auto|]. contradiction.
  - destruct (inChunk key isl0) eqn:E.
    + destruct (removeIslandMesh isl0 g) as [isl1 g1] eqn:E1.
      destruct (removeIslandMesh_spec _ _ _ _ E1)
        as (M1 & _ & C1 & _ & _ & _ & _ & S1).
      specialize (IH g1).
      destruct (forEach (inChunk key) removeIslandMesh rest g1)
        as [rest' g2].
      destruct IH as (A & B & C). split; [|split].
      * intros i island' [[= -> ->]|H].
        -- split; [auto|]. exists isl0. split; [now left|]. auto.
        -- destruct (A _ _ H) as (A1 & isl & A2 & A3). split; [exact A1|].
           exists isl. split; [now right | exact A3].
      * intros r H. apply S1. auto.
      * intros i island m [[= -> ->]|H] Hc Hm.
        -- intros Hin. apply B, S1 in Hin. tauto.
        -- eauto.
    + specialize (IH g).
      destruct (forEach (inChunk key) removeIslandMesh rest g) as [rest' g2].
      destruct IH as (A & B & C). split; [|split].
      * intros i island' [[= -> ->]|H].
        -- split.
           ++ intros Hc. apply inChunk_true in Hc. congruence.
           ++ exists island'. split; [now left|]. auto.
        -- destruct (A _ _ H) as (A1 & isl & A2 & A3). split; [exact A1|].
           exists isl. split; [now right | exact A3].
      * exact B.
      * intros i island m [[= -> ->]|H] Hc Hm.
        -- apply inChunk_true in Hc. congruence.
        -- eauto.
Qed.

Lemma unloadChunk_loaded key w k :
  In k (loadedChunks (unloadChunk key w)) <-> In k (loadedChunks w) /\ k <> key.
Proof.
  unfold unloadChunk.
  destruct (Dict.mem String.eqb key (loadedChunks w)) eqn:E; simpl.
  - destruct (overChunk_fields key removeIslandMesh
                (set_loadedChunks (Dict.drop String.eqb key (loadedChunks w)) w))
      as (_ & -> & _).
    simpl. apply (In_drop String.eqb String.eqb_eq).
  - apply (mem_false String.eqb String.eqb_eq) in E.
    split; [|tauto]. intros H. split; [exact H|]. congruence.
Qed.

(** Unloading the region [k] itself. *)
Lemma unloadChunk_gone k w0 w :
  In k (loadedChunks w) -> kept k w0 w -> gone k w0 (unloadChunk k w).
Proof.
  intros Hl Hk. unfold unloadChunk.
  apply (mem_In String.eqb String.eqb_eq) in Hl. rewrite Hl. simpl.
  unfold overChunk. simpl.
  pose proof (forEach_remove k (islandData (dataManager w)) (gfx w)) as F.
  destruct (forEach (inChunk k) removeIslandMesh (islandData (dataManager w))
              (gfx w)) as [records' g'].
  destruct F as (A & B & C). split; simpl.
  - intros i island H Hc. now apply (A _ _ H).
  - intros i island m H Hc Hm. eapply C; eauto.
Qed.

(** Unloading any region keeps a dematerialized region dematerialized. *)
Lemma unloadChunk_keeps_gone key k w0 w :
  gone k w0 w -> gone k w0 (unloadChunk key w).
Proof.
  intros [G1 G2]. unfold unloadChunk.
  destruct (negb (Dict.mem String.eqb key (loadedChunks w))); [now split|].
  unfold overChunk. simpl.
  pose proof (forEach_remove key (islandData (dataManager w)) (gfx w)) as F.
  destruct (forEach (inChunk key) removeIslandMesh (islandData (dataManager w))
              (gfx w)) as [records' g'].
  destruct F as (A & B & C). split; simpl.
  - intros i island H Hc.
    destruct (A _ _ H) as (_ & isl & H1 & H2 & [H3| ->]); [exact H3|].
    eauto.
  - intros i island m H Hc Hm Hin. apply (G2 _ _ _ H Hc Hm). auto.
Qed.

(** Unloading another region leaves the records of [k] alone. *)
Lemma unloadChunk_kept key k w0 w :
  key <> k -> kept k w0 w -> kept k w0 (unloadChunk key w).
Proof.
  intros Hne Hk. unfold unloadChunk.
  destruct (negb (Dict.mem String.eqb key (loadedChunks w))); [exact Hk|].
  unfold overChunk, kept. simpl. intros i island H Hc.
  pose proof (forEach_other key k removeIslandMesh
                (islandData (dataManager w)) (gfx w) Hne i island
                (Hk _ _ H Hc) Hc) as F.
  destruct (forEach (inChunk key) removeIslandMesh _ _). exact F.
Qed.

(** The unloading loop of a tick. *)
Lemma unload_loop_loaded low l :
  forall w k,
    In k (loadedChunks (fold_left (unloadFar low) l w)) ->
    In k (loadedChunks w) /\ (In k l -> In k low).
Proof.
  induction l as [|key l IH]; intros w k H; simpl in *.
  - split; [exact H | contradiction].
  - destruct (IH _ _ H) as [H1 H2]. unfold unloadFar in H1.
    destruct (Dict.mem String.eqb key low) eqn:E; simpl in H1.
    + split; [exact H1|]. intros [<-|H']; [|auto].
      now apply (mem_In String.eqb String.eqb_eq).
    + apply unloadChunk_loaded in H1. destruct H1 as [H1 Hne].
      split; [exact H1|]. intros [->|H']; [congruence | auto].
Qed.

Lemma unload_loop_keeps_gone low k w0 l :
  forall w, gone k w0 w -> gone k w0 (fold_left (unloadFar low) l w).
Proof.
  induction l as [|key l IH]; intros w G; simpl; [exact G|].
  apply IH. unfold unloadFar. destruct (negb _); [|exact G].
  now apply unloadChunk_keeps_gone.
Qed.

Lemma unload_loop_gone low k w0 l :
  ~ In k low ->
  forall w, In k l -> In k (loadedChunks w) -> kept k w0 w ->
    gone k w0 (fold_left (unloadFar low) l w).
Proof.
  intros Hlow. induction l as [|key l IH]; intros w Hin Hl Hk;
    [contradiction|].
  simpl. destruct (String.eqb key k) eqn:E.
  - apply String.eqb_eq in E. subst key.
    apply unload_loop_keeps_gone. unfold unloadFar.
    apply (mem_false String.eqb String.eqb_eq) in Hlow. rewrite Hlow. simpl.
    now apply unloadChunk_gone.
  - apply String.eqb_neq in E.
    destruct Hin as [Hin|Hin]; [congruence|].
    apply IH; [exact Hin | |].
    + unfold unloadFar. destruct (negb _); [|exact Hl].
      apply unloadChunk_loaded. split; [exact Hl | congruence].
    + unfold unloadFar. destruct (negb _); [|exact Hk].
      now apply unloadChunk_kept.
Qed.

End UnloadFacts.

(* ------------------------------------------------------------------ *)
(** ** The generation queue and the busy flag *)

Module QueueFacts.
Import JS Config Three Data ChunkManager EventLoop.
Import DictFacts StreamFacts GenerationFacts.

(** The part of the world the queue discipline is about. *)
Definition queue_of (w : World) : list string * bool * list Task :=
  (pendingChunks w, isGeneratingChunk w, timers w).


Section WithPlatform.
Variable P : Platform.

Lemma overChunk_queue key f w : queue_of (overChunk key f w) = queue_of w.
Proof.
  destruct (overChunk_fields key f w) as (_ & _ & E1 & E2 & _ & _ & E3 & _).
  unfold queue_of. now rewrite E1, E2, E3.
Qed.


Lemma unloadChunk_queue key w : queue_of (unloadChunk key w) = queue_of w.
Proof.
  unfold unloadChunk. destruct (negb _); [reflexivity|].
  now rewrite overChunk_queue.
Qed.


Lemma loadHigh_queue acc key :
  queue_of (snd (loadHigh P acc key)) = queue_of (snd acc).
Proof.
  destruct acc as [visible w]. unfold loadHigh.
  destruct (_ && _).
  - destruct (forEach (inChunk key) (showIsland P) _ _)
      as [records [[g m] v]]. reflexivity.
  - destruct (Dict.mem _ _ _); [|reflexivity].
    destruct (forEach (inChunk key) noteVisible _ _). reflexivity.
Qed.

Lemma unloadFar_queue low w key : queue_of (unloadFar low w key) = queue_of w.
Proof.
  unfold unloadFar. destruct (negb _); [|reflexivity].
  apply unloadChunk_queue.
Qed.

Lemma sweepCaches_queue w : queue_of (sweepCaches w) = queue_of w.
Proof. unfold sweepCaches. simpl. destruct (_ <? _); reflexivity. Qed.

(** Tracking the needed regions only appends to the queue. *)
Definition appended (w w' : World) : Prop :=
  (exists queued, pendingChunks w' = (pendingChunks w ++ queued)%list)
  /\ isGeneratingChunk w' = isGeneratingChunk w /\ timers w' = timers w.

Lemma appended_refl w : appended w w.
Proof. split; [exists []; now rewrite app_nil_r | auto]. Qed.

Lemma appended_trans w1 w2 w3 :
  appended w1 w2 -> appended w2 w3 -> appended w1 w3.
Proof.
  intros ([q1 E1] & B1 & T1) ([q2 E2] & B2 & T2). split.
  - exists (q1 ++ q2)%list. now rewrite E2, E1, app_assoc.
  - split; congruence.
Qed.

Lemma queue_eq w w' :
  queue_of w' = queue_of w ->
  pendingChunks w' = pendingChunks w
  /\ isGeneratingChunk w' = isGeneratingChunk w
  /\ timers w' = timers w.
Proof.
  unfold queue_of. intros E. split; [|split].
  - exact (f_equal (fun q => fst (fst q)) E).
  - exact (f_equal (fun q => snd (fst q)) E).
  - exact (f_equal snd E).
Qed.

Lemma appended_same w w' : queue_of w' = queue_of w -> appended w w'.
Proof.
  intros E. apply queue_eq in E. destruct E as (E1 & E2 & E3). split.
  - exists []. now rewrite app_nil_r.
  - auto.
Qed.

Lemma enqueue_appended key w : appended w (enqueue key w).
Proof.
  unfold enqueue. destruct (_ && _); [|apply appended_refl].
  split; [now exists [key] | auto].
Qed.

Lemma fold_appended {B} (f : World -> B -> World) :
  (forall a b, appended a (f a b)) ->
  forall l w, appended w (fold_left f l w).
Proof.
  intros Hf l. induction l as [|b l IH]; intros w; simpl.
  - apply appended_refl.
  - eapply appended_trans; [apply Hf | apply IH].
Qed.

Lemma trackHigh_appended cx cz w : appended w (trackHigh cx cz w).
Proof.
  unfold trackHigh. apply fold_appended.
  intros a [dx dz]. apply enqueue_appended.
Qed.

Lemma trackLow_appended cx cz w : appended w (trackLow P cx cz w).
Proof.
  unfold trackLow. apply fold_appended.
  intros a [dx dz]. destruct (isHighOffset (dx, dz)); [apply appended_refl|].
  cbv zeta.
  set (key := chunkKeyOf (Int (cx + dx)) (Int (cz + dz))).
  eapply appended_trans; [apply (enqueue_appended key)|].
  set (w1 := enqueue key a).
  destruct (negb (Dict.mem String.eqb key (loadedChunks w1))
            && negb (Dict.mem String.eqb key
                       (generatedChunks (dataManager w1))));
    [|apply appended_refl].
  apply appended_same.
  destruct (createPlaceholdersForChunk_fields P key w1)
    as (_ & _ & E1 & E2 & E3).
  unfold queue_of. rewrite E1, E2, E3. reflexivity.
Qed.

(** Everything a tick does before it looks at the queue. *)
Definition beforeQueue (p : Vector3) (w : World) : World :=
  let cx := chunkIndex (vx p) in
  let cz := chunkIndex (vz p) in
  let w := trackLow P cx cz (trackHigh cx cz w) in
  let w := snd (fold_left (loadHigh P) (highDetailChunks cx cz) ([], w)) in
  fold_left (unloadFar (lowDetailChunks cx cz)) (loadedChunks w) w.

Lemma updateChunks_unfold p w :
  snd (updateChunks P p w)
  = sweepCaches (processNextPendingChunk p (beforeQueue p w)).
Proof.
  unfold updateChunks, beforeQueue. cbv zeta.
  destruct (fold_left (loadHigh P) _ _) as [visible w2]. reflexivity.
Qed.

Lemma loadHigh_fold_queue l visible w :
  queue_of (snd (fold_left (loadHigh P) l (visible, w))) = queue_of w.
Proof.
  exact (fold_left_keeps (fun acc => queue_of (snd acc)) (loadHigh P)
           loadHigh_queue l (visible, w)).
Qed.

Lemma unloadFar_fold_queue low l w :
  queue_of (fold_left (unloadFar low) l w) = queue_of w.
Proof.
  exact (fold_left_keeps queue_of (unloadFar low)
           (unloadFar_queue low) l w).
Qed.









End WithPlatform.

End QueueFacts.

(* ------------------------------------------------------------------ *)
(** ** What one tick leaves loaded *)

Module TickFacts.
Import JS Config Three Data ChunkManager EventLoop.
Import DictFacts StreamFacts UnloadFacts QueueFacts.

(** Key [k] names a region at most [n] chunks from [(cx, cz)] on each
    axis. *)
Definition within (n cx cz : Z) (k : string) : Prop :=
  exists dx dz,
    - n <= dx <= n /\ - n <= dz <= n
    /\ k = chunkKeyOf (Int (cx + dx)) (Int (cz + dz)).

Lemma fold_left_invariant_In {A B} (I : A -> Prop) (f : A -> B -> A) l :
  (forall a b, In b l -> I a -> I (f a b)) ->
  forall a, I a -> I (fold_left f l a).
Proof.
  induction l as [|b l IH]; intros Hf a Ha; simpl; [exact Ha|].
  apply IH.
  - intros a' b' Hb. apply Hf. now right.
  - apply Hf; [now left | exact Ha].
Qed.

Lemma In_range n d : In d (range n) -> - n <= d <= n.
Proof.
  unfold range. rewrite in_map_iff. intros (i & <- & Hi).
  apply in_seq in Hi. lia.
Qed.

Lemma In_offsets n dx dz :
  In (dx, dz) (offsets n) -> - n <= dx <= n /\ - n <= dz <= n.
Proof.
  unfold offsets. rewrite in_prod_iff. intros [Hx Hz].
  split; now apply In_range.
Qed.

Lemma within_weaken n m cx cz k : n <= m -> within n cx cz k -> within m cx cz k.
Proof.
  intros Hnm (dx & dz & Hx & Hz & E). exists dx, dz. repeat split; try lia.
  exact E.
Qed.

Lemma high_within cx cz k :
  In k (highDetailChunks cx cz) -> within highDetailDistance cx cz k.
Proof.
  unfold highDetailChunks.
  apply (fold_left_invariant_In
           (fun acc => In k acc -> within highDetailDistance cx cz k)).
  - intros acc [dx dz] Hd IH Hk.
    apply (In_add String.eqb String.eqb_eq) in Hk.
    destruct Hk as [Hk| ->]; [auto|].
    exists dx, dz. apply In_offsets in Hd. tauto.
  - contradiction.
Qed.

Lemma high_in_low cx cz k :
  In k (highDetailChunks cx cz) -> In k (lowDetailChunks cx cz).
Proof.
  intros Hk. unfold lowDetailChunks.
  apply (fold_left_invariant (fun acc => In k acc)); [|exact Hk].
  intros acc [dx dz] Ha. destruct (isHighOffset (dx, dz)); [exact Ha|].
  apply (In_add String.eqb String.eqb_eq). now left.
Qed.

Lemma low_within cx cz k :
  In k (lowDetailChunks cx cz) -> within lowDetailDistance cx cz k.
Proof.
  unfold lowDetailChunks.
  apply (fold_left_invariant_In
           (fun acc => In k acc -> within lowDetailDistance cx cz k)).
  - intros acc [dx dz] Hd IH Hk.
    destruct (isHighOffset (dx, dz)); [auto|].
    apply (In_add String.eqb String.eqb_eq) in Hk.
    destruct Hk as [Hk| ->]; [auto|].
    exists dx, dz. apply In_offsets in Hd. tauto.
  - intros Hk. apply (within_weaken highDetailDistance).
    + unfold highDetailDistance, lowDetailDistance, VIEW_DISTANCE. lia.
    + now apply high_within.
Qed.

Section WithPlatform.
Variable P : Platform.

(** The store and the set of loaded regions, which the tracking loops and
    the queue leave alone. *)
Definition stock (w : World) : DataManager * list string :=
  (dataManager w, loadedChunks w).

Lemma stock_eq w w' :
  stock w' = stock w ->
  dataManager w' = dataManager w /\ loadedChunks w' = loadedChunks w.
Proof.
  unfold stock. intros E.
  split; [exact (f_equal fst E) | exact (f_equal snd E)].
Qed.

Lemma enqueue_stock key w : stock (enqueue key w) = stock w.
Proof.
  destruct (enqueue_fields key w) as (E1 & E2 & _).
  unfold stock. rewrite E1, E2. reflexivity.
Qed.

Lemma trackHigh_stock cx cz w : stock (trackHigh cx cz w) = stock w.
Proof.
  unfold trackHigh. apply (fold_left_keeps stock).
  intros a [dx dz]. apply enqueue_stock.
Qed.

Lemma trackLow_stock cx cz w : stock (trackLow P cx cz w) = stock w.
Proof.
  unfold trackLow. apply (fold_left_keeps stock).
  intros a [dx dz]. destruct (isHighOffset (dx, dz)); [reflexivity|].
  cbv zeta.
  set (key := chunkKeyOf (Int (cx + dx)) (Int (cz + dz))).
  set (w1 := enqueue key a).
  transitivity (stock w1); [|apply enqueue_stock].
  destruct (negb (Dict.mem String.eqb key (loadedChunks w1))
            && negb (Dict.mem String.eqb key
                       (generatedChunks (dataManager w1))));
    [|reflexivity].
  destruct (createPlaceholdersForChunk_fields P key w1) as (E1 & E2 & _).
  unfold stock. rewrite E1, E2. reflexivity.
Qed.

Lemma processNextPendingChunk_stock p w :
  stock (processNextPendingChunk p w) = stock w
  /\ gfx (processNextPendingChunk p w) = gfx w.
Proof.
  unfold processNextPendingChunk.
  destruct (isGeneratingChunk w); simpl; [auto|].
  destruct (pendingChunks w) as [|first rest]; simpl; [auto|].
  destruct (String.eqb first ""); simpl; auto.
Qed.

Lemma sweepCaches_stock w :
  stock (sweepCaches w) = stock w
  /\ scene (gfx (sweepCaches w)) = scene (gfx w).
Proof.
  unfold sweepCaches. simpl. destruct (_ <? _); simpl; [|auto].
  split; [reflexivity|]. apply clearUnusedCaches_spec.
Qed.

Lemma loadHigh_loaded acc key k :
  In k (loadedChunks (snd acc)) ->
  In k (loadedChunks (snd (loadHigh P acc key))).
Proof.
  destruct acc as [visible w]. unfold loadHigh. simpl. intros Hk.
  destruct (_ && _).
  - destruct (forEach (inChunk key) (showIsland P) _ _)
      as [records [[g m] v]]. simpl.
    apply (In_add String.eqb String.eqb_eq). now left.
  - destruct (Dict.mem _ _ _); [|exact Hk].
    destruct (forEach (inChunk key) noteVisible _ _). exact Hk.
Qed.

Lemma loadHigh_kept k w0 acc key :
  key <> k -> kept k w0 (snd acc) -> kept k w0 (snd (loadHigh P acc key)).
Proof.
  destruct acc as [visible w]. unfold loadHigh. simpl. intros Hne Hk.
  destruct (_ && _).
  - pose proof (forEach_other key k (showIsland P)
                  (islandData (dataManager w))
                  (gfx w, lowPolyIslands w, visible) Hne) as F.
    destruct (forEach (inChunk key) (showIsland P) _ _)
      as [records [[g m] v]]. simpl in *.
    intros i island Hin Hc. simpl. apply F; auto.
  - destruct (Dict.mem _ _ _); [|exact Hk].
    destruct (forEach (inChunk key) noteVisible _ _). exact Hk.
Qed.

Lemma kept_refl k w : kept k w w.
Proof. intros i island H _. exact H. Qed.

Lemma kept_same k w0 w w' :
  dataManager w' = dataManager w -> kept k w0 w -> kept k w0 w'.
Proof. unfold kept. intros ->. auto. Qed.

Lemma gone_same k w0 w w' :
  dataManager w' = dataManager w -> scene (gfx w') = scene (gfx w) ->
  gone k w0 w -> gone k w0 w'.
Proof. unfold gone. intros -> ->. auto. Qed.

(** The state a tick's unloading loop starts from. *)
Definition beforeUnload (p : Vector3) (w : World) : World :=
  let cx := chunkIndex (vx p) in
  let cz := chunkIndex (vz p) in
  snd (fold_left (loadHigh P) (highDetailChunks cx cz)
         ([], trackLow P cx cz (trackHigh cx cz w))).

Lemma beforeQueue_unfold p w :
  beforeQueue P p w
  = fold_left
      (unloadFar (lowDetailChunks (chunkIndex (vx p)) (chunkIndex (vz p))))
      (loadedChunks (beforeUnload p w)) (beforeUnload p w).
Proof. reflexivity. Qed.

Lemma tracked_stock p w :
  stock (trackLow P (chunkIndex (vx p)) (chunkIndex (vz p))
           (trackHigh (chunkIndex (vx p)) (chunkIndex (vz p)) w))
  = stock w.
Proof. now rewrite trackLow_stock, trackHigh_stock. Qed.

Lemma loadHigh_fold_loaded k l acc :
  In k (loadedChunks (snd acc)) ->
  In k (loadedChunks (snd (fold_left (loadHigh P) l acc))).
Proof.
  apply (fold_left_invariant (fun acc => In k (loadedChunks (snd acc)))).
  intros a key. apply loadHigh_loaded.
Qed.

Lemma loadHigh_fold_kept k w0 l acc :
  ~ In k l -> kept k w0 (snd acc) ->
  kept k w0 (snd (fold_left (loadHigh P) l acc)).
Proof.
  intros Hk.
  apply (fold_left_invariant_In (fun acc => kept k w0 (snd acc))).
  intros a key Hkey. apply loadHigh_kept. congruence.
Qed.

Lemma beforeUnload_loaded p w k :
  In k (loadedChunks w) -> In k (loadedChunks (beforeUnload p w)).
Proof.
  intros Hk. unfold beforeUnload. cbv zeta.
  apply loadHigh_fold_loaded. cbn [snd].
  destruct (stock_eq _ _ (tracked_stock p w)) as [_ E].
  rewrite E. exact Hk.
Qed.

Lemma beforeUnload_kept p w k :
  ~ In k (lowDetailChunks (chunkIndex (vx p)) (chunkIndex (vz p))) ->
  kept k w (beforeUnload p w).
Proof.
  intros Hk. unfold beforeUnload. cbv zeta.
  apply loadHigh_fold_kept.
  - intros H. apply Hk. now apply high_in_low.
  - cbn [snd]. destruct (stock_eq _ _ (tracked_stock p w)) as [E _].
    eapply kept_same; [exact E | apply kept_refl].
Qed.

Lemma beforeQueue_unloads p w :
  let low := lowDetailChunks (chunkIndex (vx p)) (chunkIndex (vz p)) in
  (forall k, In k (loadedChunks (beforeQueue P p w)) -> In k low)
  /\ (forall k, In k (loadedChunks w) -> ~ In k low ->
        gone k w (beforeQueue P p w)).
Proof.
  intros low.
  pose proof (beforeUnload_loaded p w) as HL.
  pose proof (beforeUnload_kept p w) as HK. fold low in HK.
  rewrite beforeQueue_unfold. fold low.
  generalize dependent (beforeUnload p w). intros w2 HL HK. split.
  - intros k Hk. destruct (unload_loop_loaded low _ _ _ Hk) as [H1 H2].
    exact (H2 H1).
  - intros k Hk Hlow.
    exact (unload_loop_gone low k w _ Hlow w2 (HL k Hk) (HL k Hk)
             (HK k Hlow)).
Qed.

(** After a tick only regions of the low-detail set are loaded, and the
    meshes of every other region that was loaded are out of the scene. *)
Lemma updateChunks_unloads p w :
  let low := lowDetailChunks (chunkIndex (vx p)) (chunkIndex (vz p)) in
  (forall k, In k (loadedChunks (snd (updateChunks P p w))) -> In k low)
  /\ (forall k, In k (loadedChunks w) -> ~ In k low ->
        gone k w (snd (updateChunks P p w))).
Proof.
  intros low. rewrite updateChunks_unfold.
  pose proof (beforeQueue_unloads p w) as H. fold low in H.
  generalize dependent (beforeQueue P p w). intros w3 [A B].
  destruct (processNextPendingChunk_stock p w3) as [E1 G1].
  destruct (sweepCaches_stock (processNextPendingChunk p w3)) as [E2 G2].
  apply stock_eq in E1, E2. destruct E1 as [D1 L1], E2 as [D2 L2].
  split.
  - intros k Hk. rewrite L2, L1 in Hk. exact (A k Hk).
  - intros k Hk Hlow.
    apply (gone_same k w w3);
      [now rewrite D2, D1 | now rewrite G2, G1 | exact (B k Hk Hlow)].
Qed.

End WithPlatform.

End TickFacts.

(* ------------------------------------------------------------------ *)
(** ** Worlds reached from a fresh page *)

Module RunFacts.
Import JS Config Three Data ChunkManager EventLoop.
Import DictFacts GfxFacts PlaceholderFacts StreamFacts QueueFacts.

Section WithPlatform.
Variable P : Platform.

Lemma initial_Inv st : Inv (initial st).
Proof.
  constructor; simpl.
  - constructor; simpl; try contradiction.
    + split; intros key t H; discriminate.
    + constructor.
  - intros k _ i r H. contradiction.
  - contradiction.
Qed.

Lemma set_timers_Inv v w : Inv w -> Inv (set_timers v w).
Proof. intros [T U L]. constructor; simpl; auto. Qed.

Lemma step_Inv w e : Inv w -> Inv (step P w e).
Proof.
  intros I. destruct e as [p|n]; cbn [step].
  - now apply updateChunks_Inv.
  - destruct (nth_error (timers w) n) as [t|]; [|exact I].
    now apply runTask_Inv, set_timers_Inv.
Qed.

Lemma run_Inv events : forall w, Inv w -> Inv (run P events w).
Proof.
  unfold run. induction events as [|e events IH]; intros w I; simpl.
  - exact I.
  - apply IH. now apply step_Inv.
Qed.

Lemma run_app events events' w :
  run P (events ++ events') w = run P events' (run P events w).
Proof. unfold run. apply fold_left_app. Qed.

(** No trace of the placeholders of a generated region, in the scene or
    in the placeholder map. *)
Lemma Inv_no_placeholder w k r :
  Inv w -> In k (generatedChunks (dataManager w)) ->
  placeholder_of k r (gfx w) ->
  ~ In r (scene (gfx w)) /\ forall i, ~ In (i, r) (lowPolyIslands w).
Proof.
  intros [T U L] Hk Hr.
  assert (M : forall i, ~ In (i, r) (lowPolyIslands w)).
  { intros i Hin. exact (U k Hk i r Hin Hr). }
  split; [|exact M].
  intros Hs. destruct Hr as (geo & n & Hr).
  exact (M _ (tidy_scene _ _ T r k n geo Hs Hr)).
Qed.

End WithPlatform.

End RunFacts.

(* ------------------------------------------------------------------ *)
(** ** Only loaded regions have meshes *)

Module MeshFacts.
Import JS Config Three Data ChunkManager EventLoop.
Import DictFacts GenerationFacts StreamFacts UnloadFacts TickFacts.

(** Every island record that points at a mesh belongs to a loaded
    region. *)
Definition meshed (w : World) : Prop :=
  forall i island, In (i, island) (islandData (dataManager w)) ->
    mesh island <> None -> In (chunk island) (loadedChunks w).

(** Where the records of a pass come from. *)
Lemma forEach_origin {S} select (f : IslandData -> S -> IslandData * S)
  records :
  forall s i island',
    In (i, island') (fst (forEach select f records s)) ->
    In (i, island') records
    \/ exists island s0,
         In (i, island) records /\ select island = true
         /\ island' = fst (f island s0).
Proof.
  induction records as [|[i0 isl0] rest IH]; intros s i island' Hin;
    [contradiction|].
  simpl in Hin. destruct (select isl0) eqn:E.
  - destruct (f isl0 s) as [isl1 s1] eqn:Ef.
    specialize (IH s1 i island').
    destruct (forEach select f rest s1) as [rest' s2]. simpl in *.
    destruct Hin as [[= <- <-]|Hin].
    + right. exists isl0, s. split; [now left|]. split; [exact E|].
      now rewrite Ef.
    + destruct (IH Hin) as [H|(isl & s0 & H1 & H2 & H3)];
        [left; now right|].
      right. exists isl, s0. split; [now right | auto].
  - specialize (IH s i island').
    destruct (forEach select f rest s) as [rest' s2]. simpl in *.
    destruct Hin as [Hin|Hin]; [left; now left|].
    destruct (IH Hin) as [H|(isl & s0 & H1 & H2 & H3)]; [left; now right|].
    right. exists isl, s0. split; [now right | auto].
Qed.

Section WithPlatform.
Variable P : Platform.

Lemma addOutdoorToIsland_chunk island group g :
  chunk (fst (IslandGenerator.addOutdoorToIsland P island group g))
  = chunk island.
Proof.
  unfold IslandGenerator.addOutdoorToIsland.
  destruct (outdoor island) as [o|]; [|reflexivity]. cbv zeta.
  destruct (IslandGenerator.getBillboardGeometry P _ _ g) as [geo g1].
  destruct (new_object _ g1) as [b g2]. reflexivity.
Qed.

Lemma generator_addIslandMesh_chunk island g :
  chunk (fst (IslandGenerator.addIslandMesh P island g)) = chunk island.
Proof.
  unfold IslandGenerator.addIslandMesh.
  destruct (IslandGenerator.getBiomeById (biome island)) as [b|];
    [|reflexivity].
  destruct (new_object _ g) as [grp g1].
  destruct (IslandGenerator.createProceduralIslandMesh P island b g1)
    as [tm g2].
  destruct (IslandGenerator.validateMeshGeometry P tm g2) as [valid g3].
  match goal with
  | |- context [IslandGenerator.group_add grp tm ?x] =>
      generalize (IslandGenerator.group_add grp tm x)
  end.
  intros g4.
  destruct (outdoor island) as [o|] eqn:Eo; [|reflexivity].
  destruct (active o); [|reflexivity].
  pose proof (addOutdoorToIsland_chunk island grp g4) as K.
  destruct (IslandGenerator.addOutdoorToIsland P island grp g4) as [i5 g5].
  exact K.
Qed.

Lemma addIslandMesh_chunk island g :
  chunk (fst (addIslandMesh P island g)) = chunk island.
Proof.
  unfold addIslandMesh.
  pose proof (generator_addIslandMesh_chunk island g) as K.
  destruct (IslandGenerator.addIslandMesh P island g) as [i1 g1].
  simpl in K. destruct (hasName i1); [|exact K].
  unfold createIslandLabel. destruct (label i1); [exact K|].
  destruct (islandLabels g1); [|exact K].
  destruct (fresh g1) as [div g2]. exact K.
Qed.

Lemma showIsland_chunk island s :
  chunk (fst (showIsland P island s)) = chunk island.
Proof.
  destruct s as [[g m] visible]. unfold showIsland.
  pose proof (addIslandMesh_chunk island g) as K.
  destruct (addIslandMesh P island g) as [i1 g1]. simpl in K.
  destruct (Dict.get _ _ _); exact K.
Qed.

Lemma overChunk_add_meshed key w :
  In key (loadedChunks w) -> meshed w ->
  meshed (overChunk key (addIslandMesh P) w).
Proof.
  intros Hk M. unfold overChunk.
  pose proof (forEach_origin (inChunk key) (addIslandMesh P)
                (islandData (dataManager w)) (gfx w)) as O.
  destruct (forEach (inChunk key) (addIslandMesh P) _ _) as [records g].
  simpl in O. intros i island Hin Hm. simpl in Hin |- *.
  destruct (O _ _ Hin) as [H|(isl & s0 & H1 & H2 & ->)]; [now apply (M i)|].
  rewrite addIslandMesh_chunk. apply inChunk_true in H2. now rewrite H2.
Qed.

Lemma loadChunk_meshed key w : meshed w -> meshed (loadChunk P key w).
Proof.
  intros M. unfold loadChunk.
  destruct (Dict.mem String.eqb key (loadedChunks w)); [exact M|].
  apply overChunk_add_meshed.
  - simpl. apply (In_add String.eqb String.eqb_eq). now right.
  - intros i island Hin Hm. simpl.
    apply (In_add String.eqb String.eqb_eq). left. now apply (M i).
Qed.

Lemma unloadChunk_meshed key w : meshed w -> meshed (unloadChunk key w).
Proof.
  intros M. unfold unloadChunk.
  destruct (negb _); [exact M|]. unfold overChunk. simpl.
  pose proof (forEach_remove key (islandData (dataManager w)) (gfx w)) as R.
  destruct (forEach (inChunk key) removeIslandMesh _ _) as [records g].
  destruct R as (A & _). intros i island Hin Hm. simpl in Hin |- *.
  destruct (A _ _ Hin) as (A1 & isl & A2 & A3 & [A4| ->]); [contradiction|].
  apply (In_drop String.eqb String.eqb_eq). split.
  - now apply (M i).
  - intros E. now apply Hm, A1.
Qed.

Lemma loadHigh_meshed acc key :
  meshed (snd acc) -> meshed (snd (loadHigh P acc key)).
Proof.
  destruct acc as [visible w]. unfold loadHigh. simpl. intros M.
  destruct (_ && _).
  - pose proof (forEach_origin (inChunk key) (showIsland P)
                  (islandData (dataManager w))
                  (gfx w, lowPolyIslands w, visible)) as O.
    destruct (forEach (inChunk key) (showIsland P) _ _)
      as [records [[g m] v]]. simpl in O.
    intros i island Hin Hm. simpl in Hin |- *.
    apply (In_add String.eqb String.eqb_eq).
    destruct (O _ _ Hin) as [H|(isl & s0 & H1 & H2 & ->)].
    + left. now apply (M i).
    + right. rewrite showIsland_chunk. now apply inChunk_true.
  - destruct (Dict.mem _ _ _); [|exact M].
    destruct (forEach (inChunk key) noteVisible _ _). exact M.
Qed.

Lemma meshed_same w w' :
  dataManager w' = dataManager w -> loadedChunks w' = loadedChunks w ->
  meshed w -> meshed w'.
Proof. unfold meshed. intros -> ->. auto. Qed.

Lemma meshed_stock w w' : stock w' = stock w -> meshed w -> meshed w'.
Proof.
  intros E. apply stock_eq in E. destruct E. now apply meshed_same.
Qed.

Lemma generateIsland_meshless x z key seed start st i :
  forall j island,
    In (j, island) (islandData (gen_data (generateIsland x z key seed start st i))) ->
    In (j, island) (islandData (gen_data st)) \/ mesh island = None.
Proof.
  intros j island. unfold generateIsland. cbv zeta.
  match goal with
  | |- context [if ?c then _ else _] => destruct c
  end; simpl; intros H;
    apply (In_set_inv String.eqb) in H;
    (destruct H as [[= _ ->]|H]; [right; reflexivity | left; exact H]).
Qed.

Lemma generateChunk_meshed x z hd w :
  meshed w -> meshed (generateChunk P x z hd w).
Proof.
  intros M i island Hin Hm.
  rewrite generateChunk_loadedChunks. revert Hin.
  unfold generateChunk.
  destruct (Dict.mem String.eqb _ _); [intros Hin; now apply (M i)|].
  cbv zeta.
  match goal with
  | |- context [fold_left ?f ?l ?a] => set (st := fold_left f l a)
  end.
  assert (Q : forall j isl, In (j, isl) (islandData (gen_data st)) ->
                In (j, isl) (islandData (dataManager w)) \/ mesh isl = None).
  { subst st.
    match goal with
    | |- context [fold_left ?f ?l ?a] =>
        apply (fold_left_invariant
                 (fun s => forall j isl,
                    In (j, isl) (islandData (gen_data s)) ->
                    In (j, isl) (islandData (dataManager w))
                    \/ mesh isl = None) f)
    end.
    - intros s b IH j isl H.
      destruct (generateIsland_meshless _ _ _ _ _ _ _ _ _ H) as [H'|H'];
        auto.
    - simpl. auto. }
  match goal with
  | |- context [random P ?g] => destruct (random P g) as [r g']
  end.
  match goal with
  | |- context [if ?c then _ else _] => destruct c
  end; simpl; rewrite removePlaceholders_dataManager; simpl; intros Hin;
    (destruct (Q _ _ Hin) as [H|H]; [now apply (M i) | contradiction]).
Qed.

Lemma loadHigh_fold_meshed l acc :
  meshed (snd acc) -> meshed (snd (fold_left (loadHigh P) l acc)).
Proof.
  apply (fold_left_invariant (fun acc => meshed (snd acc))).
  intros a key. apply loadHigh_meshed.
Qed.

Lemma unloadFar_fold_meshed low l w :
  meshed w -> meshed (fold_left (unloadFar low) l w).
Proof.
  apply (fold_left_invariant meshed).
  intros a key M. unfold unloadFar.
  destruct (negb _); [now apply unloadChunk_meshed | exact M].
Qed.

Lemma updateChunks_meshed p w :
  meshed w -> meshed (snd (updateChunks P p w)).
Proof.
  intros M. rewrite QueueFacts.updateChunks_unfold, beforeQueue_unfold.
  assert (M2 : meshed (beforeUnload P p w)).
  { unfold beforeUnload. cbv zeta. apply loadHigh_fold_meshed. cbn [snd].
    exact (meshed_stock _ _ (tracked_stock P p w) M). }
  revert M2. generalize (beforeUnload P p w). intros w2 M2.
  pose proof (unloadFar_fold_meshed
                (lowDetailChunks (chunkIndex (vx p)) (chunkIndex (vz p)))
                (loadedChunks w2) w2 M2) as M3.
  revert M3.
  generalize (fold_left
                (unloadFar
                   (lowDetailChunks (chunkIndex (vx p)) (chunkIndex (vz p))))
                (loadedChunks w2) w2).
  intros w3 M3.
  destruct (processNextPendingChunk_stock p w3) as [E1 _].
  destruct (sweepCaches_stock (processNextPendingChunk p w3)) as [E2 _].
  exact (meshed_stock _ _ E2 (meshed_stock _ _ E1 M3)).
Qed.

Lemma runTask_meshed t w : meshed w -> meshed (runTask P t w).
Proof.
  intros M. unfold runTask. cbv zeta.
  pose proof (generateChunk_meshed (task_chunkX t) (task_chunkZ t)
                (task_near t) w M) as M1.
  revert M1.
  generalize (generateChunk P (task_chunkX t) (task_chunkZ t)
                (task_near t) w).
  intros w1 M1.
  apply (meshed_same
           (if task_near t then
              if negb (Dict.mem String.eqb
                         (chunkKeyOf (task_chunkX t) (task_chunkZ t))
                         (loadedChunks w1))
              then loadChunk P (chunkKeyOf (task_chunkX t) (task_chunkZ t)) w1
              else w1
            else w1)); [reflexivity | reflexivity |].
  destruct (task_near t); [|exact M1].
  destruct (negb _); [now apply loadChunk_meshed | exact M1].
Qed.

End WithPlatform.

(** Records read from storage have no mesh. *)
Lemma decode_island_meshless j r : decode_island j = Some r -> mesh r = None.
Proof.
  unfold decode_island. intros H.
  repeat match type of H with
         | match ?x with _ => _ end = Some _ => destruct x; try discriminate H
         end.
  injection H as <-. reflexivity.
Qed.

Lemma decode_all_meshless l :
  forall records, decode_all decode_island l = Some records ->
    forall r, In r records -> mesh r = None.
Proof.
  induction l as [|j l IH]; simpl; intros records H r Hr.
  - injection H as <-. contradiction.
  - destruct (decode_island j) as [a|] eqn:Ea; [|discriminate].
    destruct (decode_all decode_island l) as [rest|]; [|discriminate].
    injection H as <-. destruct Hr as [<-|Hr].
    + now apply (decode_island_meshless j).
    + now apply (IH rest).
Qed.

Lemma index_by_id_In l i r : In (i, r) (index_by_id l) -> In r l.
Proof.
  unfold index_by_id.
  apply (fold_left_invariant_In
           (fun acc : list (string * IslandData) => In (i, r) acc -> In r l)).
  - intros acc b Hb IH H.
    apply (In_set_inv String.eqb) in H.
    destruct H as [[= _ ->]|H]; auto.
  - contradiction.
Qed.

Lemma initial_meshed st : meshed (initial st).
Proof.
  intros i island Hin Hm. exfalso. apply Hm. clear Hm. simpl in Hin.
  destruct (stored_islandData st) as [| |j]; try contradiction.
  destruct j as [ | b | f | s | l | fs | h ]; try contradiction.
  destruct (decode_all decode_island l) as [records|] eqn:E;
    [|contradiction].
  apply index_by_id_In in Hin.
  now apply (decode_all_meshless l records E).
Qed.

Lemma step_meshed P w e : meshed w -> meshed (step P w e).
Proof.
  intros M. destruct e as [p|n]; cbn [step].
  - now apply updateChunks_meshed.
  - destruct (nth_error (timers w) n) as [t|]; [|exact M].
    apply runTask_meshed. exact M.
Qed.

Lemma run_meshed P events : forall w, meshed w -> meshed (run P events w).
Proof.
  unfold run. induction events as [|e events IH]; intros w M; simpl.
  - exact M.
  - apply IH. now apply step_meshed.
Qed.

End MeshFacts.

(* ------------------------------------------------------------------ *)
(** ** Streaming: the queue, unloading and placeholders *)

Module StreamingClaims.
Import JS Config Three Data ChunkManager EventLoop.
Import DictFacts PlaceholderFacts StreamFacts UnloadFacts QueueFacts.
Import TickFacts RunFacts MeshFacts.

(** The stored data of a player who has seen the nine regions around the
    origin generated. *)
Definition visitedOrigin : Storage :=
  {| stored_islandData := Missing;
     stored_generatedChunks :=
       Parsed (JArray (map JString (highDetailChunks 0 0))) |}.

(** [n] frames with the ship at rest in chunk [(cx, cz)], the pending
    callback running after each. *)
Fixpoint rounds (n : nat) (cx cz : Z) : list Event :=
  match n with
  | O => []
  | S n => Standin.at_chunk cx cz :: Timeout 0 :: rounds n cx cz
  end.



(** C7: after a tick only regions of the low-detail set around the
    ship's chunk are loaded; every region that was loaded and is outside
    that set is no longer loaded, its islands have no mesh and the meshes
    they had are out of the scene; the low-detail set holds only regions
    at most [lowDetailDistance] chunks away on each axis.  So whatever
    happened on the way, after the tick that ends a walk with the ship in
    chunk (5,5) no region further than that from (5,5) is loaded, and in
    a game started from a fresh page no island of such a region has a
    mesh. *)
Theorem far_regions_are_unloaded (P : Platform) (playerPosition : Vector3)
  (w : World) :
  let cx := chunkIndex (vx playerPosition) in
  let cz := chunkIndex (vz playerPosition) in
  let w' := step P w (Tick playerPosition) in
  (forall k, In k (loadedChunks w') -> In k (lowDetailChunks cx cz))
  /\ (forall k, In k (loadedChunks w) -> ~ In k (lowDetailChunks cx cz) ->
        ~ In k (loadedChunks w') /\ gone k w w')
  /\ (forall k, In k (lowDetailChunks cx cz) ->
        within lowDetailDistance cx cz k)
  /\ (forall events w0 p k,
        chunkIndex (vx p) = 5 -> chunkIndex (vz p) = 5 ->
        In k (loadedChunks (run P (events ++ [Tick p]) w0)) ->
        within lowDetailDistance 5 5 k)
  /\ (forall events st p i island,
        chunkIndex (vx p) = 5 -> chunkIndex (vz p) = 5 ->
        In (i, island)
          (islandData (dataManager (run P (events ++ [Tick p]) (initial st)))) ->
        mesh island <> None ->
        within lowDetailDistance 5 5 (chunk island)).
Proof.
  intros cx cz w'.
  destruct (updateChunks_unloads P playerPosition w) as [A B].
  assert (S : forall events w0 p k,
            chunkIndex (vx p) = 5 -> chunkIndex (vz p) = 5 ->
            In k (loadedChunks (run P (events ++ [Tick p]) w0)) ->
            within lowDetailDistance 5 5 k).
  { intros events w0 p k Hx Hz. rewrite run_app.
    generalize (run P events w0). intros w1 Hk.
    unfold run in Hk. cbn [fold_left step] in Hk.
    destruct (updateChunks_unloads P p w1) as [A5 _].
    rewrite Hx, Hz in A5. exact (low_within 5 5 k (A5 k Hk)). }
  split; [exact A|]. split; [|split; [|split; [exact S|]]].
  - intros k Hk Hlow. split; [|exact (B k Hk Hlow)].
    intros H. exact (Hlow (A k H)).
  - intros k Hk. exact (low_within cx cz k Hk).
  - intros events st p i island Hx Hz Hin Hm.
    apply (S events (initial st) p _ Hx Hz).
    exact (run_meshed P _ _ (initial_meshed st) i island Hin Hm).
Qed.

(** Nine rounds at the origin load the regions around it; the ship then
    moves on, and the tick in chunk (2,2) unloads region (-1,-1). *)
Lemma far_regions_are_unloaded_witness :
  let w := run Standin.platform
             (rounds 9 0 0 ++ [Standin.at_chunk 1 1])%list
             (initial emptyStorage) in
  let w' := step Standin.platform w (Standin.at_chunk 2 2) in
  ~ In "-1_-1" (loadedChunks w') /\ gone "-1_-1" w w'.
Proof.
  intros w w'.
  apply (far_regions_are_unloaded Standin.platform
           (vec3 (float_of_Z (2 * 100)) 0 (float_of_Z (2 * 100))) w).
  - vm_compute. left. reflexivity.
  - intros H. vm_compute in H.
    repeat (destruct H as [H|H]; [discriminate H|]). exact H.
Defined.

(** C8: in any world reached from a fresh page, no placeholder made for
    a generated region is left in the scene or in the placeholder map;
    every loaded region is a generated one, and a region one of whose
    islands has a mesh is loaded: once an island of the region is in the
    scene, no placeholder of the region is in the scene or in the map. *)
Theorem placeholders_leave_with_generation (P : Platform) (st : Storage)
  (events : list Event) (k : string) (r : ref) :
  let w := run P events (initial st) in
  (In k (loadedChunks w) -> In k (generatedChunks (dataManager w)))
  /\ (In k (generatedChunks (dataManager w)) ->
      placeholder_of k r (gfx w) ->
      ~ In r (scene (gfx w)) /\ forall i, ~ In (i, r) (lowPolyIslands w))
  /\ (forall i island,
        In (i, island) (islandData (dataManager w)) ->
        mesh island <> None -> chunk island = k ->
        placeholder_of k r (gfx w) ->
        ~ In r (scene (gfx w)) /\ forall j, ~ In (j, r) (lowPolyIslands w)).
Proof.
  intros w.
  assert (I : Inv w) by apply run_Inv, initial_Inv.
  assert (M : meshed w) by apply run_meshed, initial_meshed.
  split; [apply (inv_loaded w I)|]. split.
  - now apply Inv_no_placeholder.
  - intros i island Hin Hm <- Hr.
    apply (Inv_no_placeholder w (chunk island) r I); [|exact Hr].
    apply (inv_loaded w I). exact (M i island Hin Hm).
Qed.

(** Region (-2,-2) is shown as a placeholder, generated by the callback
    and loaded when the ship comes near: its cone is gone by then. *)
Lemma placeholders_leave_with_generation_witness :
  let w := run Standin.platform
             [Standin.at_chunk 0 0; Timeout 0; Standin.at_chunk (-1) (-1)]
             (initial visitedOrigin) in
  In "-2_-2" (loadedChunks w)
  /\ ~ In 1%nat (scene (gfx w))
  /\ forall i, ~ In (i, 1%nat) (lowPolyIslands w).
Proof.
  intros w.
  assert (L : In "-2_-2" (loadedChunks w))
    by (vm_compute; repeat (first [left; reflexivity | right])).
  split; [exact L|].
  destruct (placeholders_leave_with_generation Standin.platform
              visitedOrigin
              [Standin.at_chunk 0 0; Timeout 0; Standin.at_chunk (-1) (-1)]
              "-2_-2" 1%nat) as (G & N & _).
  apply N.
  - exact (G L).
  - exists 0%nat, 0. vm_compute. reflexivity.
Defined.

(** X4: in any world reached from a fresh page, every island record that
    points at a mesh belongs to a loaded region and every loaded region is
    a generated one. *)
Theorem only_loaded_regions_have_meshes (P : Platform) (st : Storage)
  (events : list Event) :
  let w := run P events (initial st) in
  (forall i island, In (i, island) (islandData (dataManager w)) ->
     mesh island <> None -> In (chunk island) (loadedChunks w))
  /\ (forall k, In k (loadedChunks w) ->
        In k (generatedChunks (dataManager w))).
Proof.
  intros w. split.
  - exact (run_meshed P events _ (initial_meshed st)).
  - exact (inv_loaded w (run_Inv P events _ (initial_Inv st))).
Qed.

(** After nine rounds at the origin island [island_0_0_0] has a mesh, so
    region (0,0) is loaded. *)
Lemma only_loaded_regions_have_meshes_witness :
  let w := run Standin.platform (rounds 9 0 0) (initial emptyStorage) in
  In "0_0" (loadedChunks w).
Proof.
  intros w.
  destruct (only_loaded_regions_have_meshes Standin.platform emptyStorage
              (rounds 9 0 0)) as [M _].
  assert (E : exists island,
            Dict.get String.eqb "island_0_0_0" (islandData (dataManager w))
            = Some island
            /\ chunk island = "0_0" /\ mesh island <> None).
  { vm_compute. eexists. split; [reflexivity|].
    split; [reflexivity | discriminate]. }
  destruct E as (island & E1 & E2 & E3).
  rewrite <- E2. apply (M "island_0_0_0" island); [|exact E3].
  apply (DictFacts.get_In String.eqb String.eqb_eq). exact E1.
Defined.

End StreamingClaims.

(* ------------------------------------------------------------------ *)
(** ** Sessions of the generator: caches, clones and determinism *)

Module GeneratorClaims.
Import JS Config Three Data IslandGenerator EventLoop.
Import DictFacts GfxFacts GeneratorFacts StreamFacts.

(** The public calls of [IslandGenerator]. *)
Inductive Call : Type :=
| Show (island : IslandData)       (* [addIslandMesh] *)
| Hide (island : IslandData)       (* [removeIslandMesh] *)
| Sweep.                           (* [clearUnusedCaches] *)

Definition call (P : Platform) (g : Gfx) (c : Call) : Gfx :=
  match c with
  | Show island => snd (IslandGenerator.addIslandMesh P island g)
  | Hide island => snd (IslandGenerator.removeIslandMesh island g)
  | Sweep => clearUnusedCaches g
  end.













Section WithPlatform.
Variable P : Platform.










End WithPlatform.







End GeneratorClaims.

(* ------------------------------------------------------------------ *)
(** ** Two runs where the code departs from what it sets out to do *)

Module FindingClaims.
Import JS Config Three Data ChunkManager EventLoop.
Import StreamingClaims.

(** Membership in the lists of a concrete run, decided by evaluation. *)
Ltac found eqb eqb_eq :=
  apply (proj1 (DictFacts.mem_In eqb eqb_eq _ _)); vm_compute; reflexivity.
Ltac absent eqb eqb_eq :=
  apply (proj1 (DictFacts.mem_false eqb eqb_eq _ _)); vm_compute;
  reflexivity.

(** What [saveData] left under the islands' key. *)
Definition written (st : Storage) : json :=
  match stored_islandData st with
  | Parsed j => j
  | _ => JNull
  end.

(** C10, evaluated: the ship starts in chunk (1,-1), which queues region
    (1,1), and sails to chunk (1,8), where region (1,10) gets placeholder
    cones.  When the callback that generates region (1,1) runs, the cones
    of region (1,10) leave the placeholder map and the scene with those
    of region (1,1), although region (1,10) is not generated: the id
    [placeholder_1_10_0] starts with [placeholder_1_1]. *)
Theorem removing_placeholders_reaches_other_regions :
  let w :=
    run Standin.platform
      (Standin.at_chunk 1 (-1) :: rounds 17 1 8 ++ [Standin.at_chunk 1 8])%list
      (initial emptyStorage) in
  let w' := step Standin.platform w (Timeout 0) in
  map task_chunkKey (timers w) = ["1_1"]
  /\ Dict.get String.eqb "placeholder_1_10_0" (lowPolyIslands w) = Some 49%nat
  /\ object_at 49%nat (gfx w) = Some (Mesh 48%nat (PlaceholderCone "1_10" 0))
  /\ In 49%nat (scene (gfx w))
  /\ Dict.get String.eqb "placeholder_1_10_0" (lowPolyIslands w') = None
  /\ ~ In 49%nat (scene (gfx w'))
  /\ In "1_1" (generatedChunks (dataManager w'))
  /\ ~ In "1_10" (generatedChunks (dataManager w'))
  /\ startsWith "placeholder_1_10_0" "placeholder_1_1" = true.
Proof.
  intros w w'.
  split; [vm_compute; reflexivity|].
  split; [vm_compute; reflexivity|].
  split; [vm_compute; reflexivity|].
  split; [found Nat.eqb Nat.eqb_eq|].
  split; [vm_compute; reflexivity|].
  split; [absent Nat.eqb Nat.eqb_eq|].
  split; [found String.eqb String.eqb_eq|].
  split; [absent String.eqb String.eqb_eq|].
  reflexivity.
Qed.

(** C4, evaluated: three rounds at the origin on a platform whose
    [Math.random] makes [generateChunk] save every time.  The
    advertisement island of region (-1,0) is in the scene and its record
    points at the billboard mesh.  What [saveData] writes for this store
    has no [mesh] or [label] entry but has a [billboard] entry holding
    that mesh, a store loaded from it has the entry in the island's
    record, and this is what the game itself left in [localStorage]. *)
Theorem saveData_writes_the_billboard :
  let w := run Standin.saving (rounds 3 0 0) (initial emptyStorage) in
  let st := saveData (dataManager w) in
  let billboardOf (d : DataManager) :=
    option_map (fun i => option_map billboard (outdoor i))
      (getIslandById "ad_island_-1_0_0_rank4" d) in
  billboardOf (dataManager w) = Some (Some (Some (LiveMesh 47%nat)))
  /\ object_at 47%nat (gfx w) = Some (Mesh 46%nat Billboard)
  /\ In "billboard" (keys_of (written st))
  /\ ~ In "mesh" (keys_of (written st))
  /\ ~ In "label" (keys_of (written st))
  /\ handles_of (written st) = [47%nat]
  /\ billboardOf (new_DataManager st) = Some (Some (Some (Revived 47%nat)))
  /\ handles_of (written (localStorage w)) = [47%nat]
  /\ billboardOf (dataManager (initial (localStorage w)))
     = Some (Some (Some (Revived 47%nat))).
Proof.
  intros w st billboardOf.
  split; [vm_compute; reflexivity|].
  split; [vm_compute; reflexivity|].
  split; [found String.eqb String.eqb_eq|].
  split; [absent String.eqb String.eqb_eq|].
  split; [absent String.eqb String.eqb_eq|].
  split; [vm_compute; reflexivity|].
  split; [vm_compute; reflexivity|].
  split; vm_compute; reflexivity.
Qed.

End FindingClaims.

(* ------------------------------------------------------------------ *)
(** ** What the ten-character hash does to the seeds *)

Module SeedFacts.
Import JS Hash Config Three Data ChunkManager EventLoop.
Import HashFacts HashClaims.

Lemma substring_prefix_app n a b :
  (n <= String.length a)%nat ->
  substring 0 n (a ++ b) = substring 0 n a.
Proof.
  revert a. induction n as [|n IH]; intros a H.
  - destruct a; destruct b; reflexivity.
  - destruct a as [|c a]; simpl in *; [lia|].
    rewrite IH by lia. reflexivity.
Qed.

Lemma append_length a b :
  String.length (a ++ b) = (String.length a + String.length b)%nat.
Proof. induction a as [|c a IH]; simpl; [reflexivity | now rewrite IH]. Qed.

Lemma append_assoc a b c : (a ++ (b ++ c) = (a ++ b) ++ c)%string.
Proof. induction a as [|x a IH]; simpl; [reflexivity | now rewrite IH]. Qed.

(** The hash of a seed that starts with ten characters of key and salt
    is the hash of those. *)
Lemma simpleHash_long_prefix key salt rest :
  (10 <= String.length key + String.length salt)%nat ->
  simpleHash (key ++ salt ++ rest) = simpleHash (key ++ salt).
Proof.
  intros H. apply simpleHash_first_ten.
  rewrite append_assoc. apply substring_prefix_app.
  rewrite append_length. exact H.
Qed.

(** X1: when the chunk key and the fixed part of the salt make up ten
    characters or more, both seeded random functions of [generateChunk]
    return the same value whatever follows the salt: the index of the
    island does not reach the hash. *)
Theorem seeded_values_ignore_the_island_index (key salt : string)
  (min max : literal) (n m : string) :
  (10 <= String.length key + String.length salt)%nat ->
  getDetailedSeedRandom key min max (salt ++ n)
  = getDetailedSeedRandom key min max (salt ++ m)
  /\ getSimpleSeedRandom key min max (salt ++ n)
     = getSimpleSeedRandom key min max (salt ++ m).
Proof.
  intros H. unfold getDetailedSeedRandom, getSimpleSeedRandom. cbv zeta.
  assert (E : forall rest rest',
            simpleHash (key ++ salt ++ rest)
            = simpleHash (key ++ salt ++ rest')).
  { intros rest rest'. now rewrite !simpleHash_long_prefix. }
  split.
  - rewrite <- !append_assoc.
    rewrite (E (n ++ text min ++ text max) (m ++ text min ++ text max)).
    reflexivity.
  - now rewrite (E n m).
Qed.

(** The x-positions of islands 0 and 1 of chunk (-1,-1) are drawn from
    the same value. *)
Lemma seeded_values_ignore_the_island_index_witness :
  getDetailedSeedRandom "-1_-1" (Lit 0 "0") (Lit 100 "100") "posX_0"
  = getDetailedSeedRandom "-1_-1" (Lit 0 "0") (Lit 100 "100") "posX_1"
  /\ getSimpleSeedRandom "-1_-1" (Lit 0 "0") (Lit 100 "100") "posX_0"
     = getSimpleSeedRandom "-1_-1" (Lit 0 "0") (Lit 100 "100") "posX_1".
Proof.
  apply (seeded_values_ignore_the_island_index "-1_-1" "posX_"
           (Lit 0 "0") (Lit 100 "100") "0" "1").
  simpl. lia.
Defined.

(** All six islands generated for chunk (-1,-1) in high detail stand at
    one point. *)
Lemma islands_of_chunk_minus_one_coincide :
  let w :=
    generateChunk Standin.platform (Int (-1)) (Int (-1)) true
      (initial emptyStorage) in
  let places := map pos (values (islandData (dataManager w))) in
  places
  = repeat (hd {| pos_x := 0; pos_y := 0; pos_z := 0 |} places) 6.
Proof. vm_compute. reflexivity. Qed.

End SeedFacts.

(* ------------------------------------------------------------------ *)
(** ** What validation guarantees *)

Module ValidationFacts.
Import JS Config Three Data IslandGenerator.
Import DictFacts GfxFacts GeneratorFacts.

(** No coordinate of the vertex is [NaN]. *)
Definition numeric (v : Vector3) : Prop :=
  isNaN (vx v) = false /\ isNaN (vy v) = false /\ isNaN (vz v) = false.

Lemma repair_numeric v : numeric (repair v).
Proof.
  unfold repair, numeric.
  destruct (isNaN (vx v)) eqn:Ex; simpl; [repeat split|].
  destruct (isNaN (vy v)) eqn:Ey; simpl; [repeat split|].
  destruct (isNaN (vz v)) eqn:Ez; simpl; [repeat split|].
  auto.
Qed.

(** X2: when [validateSingleMeshGeometry] accepts a mesh, no vertex of
    the mesh's geometry has a [NaN] coordinate and the radius recorded
    for its bounding sphere is not [NaN]. *)
Theorem validated_mesh_is_numeric (P : Platform) (mesh : ref) (g : Gfx) :
  fst (validateSingleMeshGeometry P mesh g) = true ->
  let g' := snd (validateSingleMeshGeometry P mesh g) in
  exists geometry origin b radius,
    object_at mesh g' = Some (Mesh geometry origin)
    /\ geometry_at geometry g' = Some b
    /\ Forall numeric (position b)
    /\ boundingSphere b = Some radius
    /\ isNaN radius = false.
Proof.
  unfold validateSingleMeshGeometry.
  destruct (object_at mesh g) as [[geo o|i c]|] eqn:Eo;
    [|discriminate|discriminate].
  destruct (geometry_at geo g) as [b|] eqn:Eb; [|discriminate].
  cbn [fst snd]. intros H. apply negb_true_iff in H.
  eexists geo, o, _, _.
  split; [exact Eo|]. split; [apply put_geometry_same|].
  cbn [position boundingSphere].
  split; [|split; [reflexivity | exact H]].
  apply Forall_map, Forall_forall. intros v _. apply repair_numeric.
Qed.

(** A mesh with a vertex that has a [NaN] coordinate passes validation
    on the stand-in platform, repaired. *)
Lemma validated_mesh_is_numeric_witness :
  let g0 :=
    snd (new_geometry
           {| position := [vec3 nan 1 2; vec3 3 4 5];
              boundingSphere := None |} EventLoop.emptyGfx) in
  let g := snd (new_object (Mesh 0%nat Terrain) g0) in
  let g' := snd (validateSingleMeshGeometry Standin.platform 1%nat g) in
  exists geometry origin b radius,
    object_at 1%nat g' = Some (Mesh geometry origin)
    /\ geometry_at geometry g' = Some b
    /\ Forall numeric (position b)
    /\ boundingSphere b = Some radius
    /\ isNaN radius = false.
Proof.
  intros g0 g.
  apply (validated_mesh_is_numeric Standin.platform 1%nat g).
  vm_compute. reflexivity.
Defined.

End ValidationFacts.

(* ------------------------------------------------------------------ *)
(** ** What comes back from storage *)

Module PersistenceFacts.
Import JS Config Three Data.
Import DictFacts.

(** A number after [JSON.stringify] and [JSON.parse]: itself when finite
    (a zero without its sign); a value that is not finite is written as
    [null], which the program then computes with as [0]. *)
Definition revive_number (f : float) : float :=
  if PrimFloat.is_finite f then (if PrimFloat.is_zero f then 0 else f)
  else 0.

Definition revive_billboard (b : BillboardValue) : BillboardValue :=
  match b with LiveMesh r => Revived r | Revived r => Revived r end.

Definition revive_outdoor (o : Outdoor) : Outdoor :=
  {| image := image o; url := url o; active := active o;
     billboard := option_map revive_billboard (billboard o);
     lastInteractionTime := option_map revive_number (lastInteractionTime o);
     adRank := option_map revive_number (adRank o) |}.

(** A record after [saveData] and [loadData]. *)
Definition revive (i : IslandData) : IslandData :=
  {| id := id i;
     pos := {| pos_x := revive_number (pos_x (pos i));
               pos_y := revive_number (pos_y (pos i));
               pos_z := revive_number (pos_z (pos i)) |};
     biome := biome i;
     size := revive_number (size i);
     name := name i;
     chunk := chunk i;
     mesh := None;
     label := None;
     outdoor := option_map revive_outdoor (outdoor i) |}.

(** The store indexes its records by their ids and its two collections
    have no repeated key, as a JavaScript object and a [Set] have none. *)
Record keyed (d : DataManager) : Prop :=
  { keyed_ids : forall k r, In (k, r) (islandData d) -> k = id r;
    keyed_records : NoDup (map fst (islandData d));
    keyed_chunks : NoDup (generatedChunks d) }.

Lemma decode_encode_number f :
  decode_number (encode_number f) = Some (revive_number f).
Proof.
  unfold encode_number, revive_number.
  destruct (PrimFloat.is_finite f); [|reflexivity].
  destruct (PrimFloat.is_zero f); reflexivity.
Qed.

Lemma decode_encode_billboard b :
  decode_billboard (encode_billboard b) = Some (revive_billboard b).
Proof. destruct b; reflexivity. Qed.

Lemma decode_encode_outdoor o :
  decode_outdoor (encode_outdoor o) = Some (revive_outdoor o).
Proof.
  destruct o as [im u a b t r]. unfold encode_outdoor, revive_outdoor.
  destruct b as [b|], t as [t|], r as [r|]; simpl;
    rewrite ?decode_encode_number, ?decode_encode_billboard; reflexivity.
Qed.

Local Opaque encode_outdoor encode_number.

Lemma decode_encode_island r :
  decode_island (encode_island r) = Some (revive r).
Proof.
  destruct r as [i p b s n c m l o]. destruct p as [x y z].
  unfold encode_island, revive.
  destruct o as [o|], n as [n|]; simpl;
    rewrite ?decode_encode_number, ?decode_encode_outdoor; simpl;
    rewrite ?decode_encode_number; reflexivity.
Qed.

Local Transparent encode_outdoor encode_number.

Lemma decode_all_islands l :
  decode_all decode_island (map encode_island l) = Some (map revive l).
Proof.
  induction l as [|r l IH]; cbn [map decode_all]; [reflexivity|].
  now rewrite decode_encode_island, IH.
Qed.

Lemma decode_all_strings l :
  decode_all decode_string (map JString l) = Some l.
Proof. induction l as [|k l IH]; simpl; [reflexivity | now rewrite IH]. Qed.

Lemma get_app_None {V} k (a b : list (string * V)) :
  Dict.get String.eqb k a = None -> Dict.get String.eqb k b = None ->
  Dict.get String.eqb k (a ++ b) = None.
Proof.
  intros Ha Hb. induction a as [|[k' v'] a IH]; simpl in *; [exact Hb|].
  destruct (String.eqb k k'); [discriminate | auto].
Qed.

Lemma set_absent {V} k (v : V) m :
  Dict.get String.eqb k m = None ->
  Dict.set String.eqb k v m = (m ++ [(k, v)])%list.
Proof.
  induction m as [|[k' v'] m IH]; simpl; [reflexivity|].
  destruct (String.eqb k k'); [discriminate|].
  intros H. now rewrite IH.
Qed.

(** Re-indexing the revived records of a keyed store gives the store's
    own order and keys. *)
Lemma index_by_id_revived m :
  (forall k r, In (k, r) m -> k = id r) -> NoDup (map fst m) ->
  forall acc,
    (forall k, In k (map fst m) -> Dict.get String.eqb k acc = None) ->
    fold_left (fun acc island => Dict.set String.eqb (id island) island acc)
      (map revive (map snd m)) acc
    = (acc ++ map (fun kr => (fst kr, revive (snd kr))) m)%list.
Proof.
  induction m as [|[k r] m IH]; intros Hid Hnd acc Hacc; simpl.
  - now rewrite app_nil_r.
  - assert (Ek : k = id r) by (apply Hid; now left).
    inversion Hnd as [|? ? Hk Hnd']; subst.
    rewrite set_absent by (apply Hacc; now left).
    rewrite IH.
    + now rewrite <- app_assoc.
    + intros k' r' H. apply Hid. now right.
    + exact Hnd'.
    + intros k' Hk'. apply get_app_None.
      * apply Hacc. now right.
      * simpl. destruct (String.eqb k' (id r)) eqn:E; [|reflexivity].
        apply String.eqb_eq in E. subst k'. contradiction.
Qed.

Lemma set_of_list_NoDup l :
  NoDup l -> forall acc, (forall k, In k l -> ~ In k acc) ->
  fold_left (fun acc k => Dict.add String.eqb k acc) l acc = (acc ++ l)%list.
Proof.
  induction 1 as [|k l Hk Hnd IH]; intros acc Hacc; simpl.
  - now rewrite app_nil_r.
  - unfold Dict.add at 2.
    assert (E : Dict.mem String.eqb k acc = false).
    { apply (mem_false String.eqb String.eqb_eq). apply Hacc. now left. }
    rewrite E, IH.
    + now rewrite <- app_assoc.
    + intros k' Hk' Hin. apply in_app_or in Hin.
      destruct Hin as [Hin|[<-|[]]]; [|contradiction].
      apply (Hacc k'); [now right | exact Hin].
Qed.

(** X3: [saveData] followed by a fresh [loadData] gives back the records
    of a keyed store under the same ids and in the same order, each with
    its id, biome, name and chunk, with its numbers as JSON carries them
    and without its mesh and label, and gives back the set of generated
    regions as it was. *)
Theorem save_then_load (d : DataManager) :
  keyed d ->
  new_DataManager (saveData d)
  = {| islandData :=
         map (fun kr => (fst kr, revive (snd kr))) (islandData d);
       generatedChunks := generatedChunks d |}.
Proof.
  intros [Hid Hnd Hch]. unfold new_DataManager, loadData, saveData. simpl.
  rewrite decode_all_islands, decode_all_strings. f_equal.
  - unfold index_by_id, values.
    rewrite (index_by_id_revived _ Hid Hnd []); [reflexivity|].
    reflexivity.
  - unfold set_of_list. rewrite (set_of_list_NoDup _ Hch []); [reflexivity|].
    intros k _ [].
Qed.

(** Finite numbers other than a negative zero come back as they were. *)
Lemma revive_number_finite f :
  PrimFloat.is_finite f = true -> PrimFloat.is_zero f = false ->
  revive_number f = f.
Proof. unfold revive_number. now intros -> ->. Qed.

(** A store of one island and one generated region. *)
Lemma save_then_load_witness :
  let island :=
    {| id := "island_0_0_0";
       pos := {| pos_x := 12.5; pos_y := 0; pos_z := 40 |};
       biome := "Snow"; size := 7.5; name := Some "Thule"; chunk := "0_0";
       mesh := Some 3%nat; label := Some 4%nat; outdoor := None |} in
  let d :=
    {| islandData := [("island_0_0_0", island)];
       generatedChunks := ["0_0"] |} in
  new_DataManager (saveData d)
  = {| islandData :=
         [("island_0_0_0", with_label None (with_mesh None island))];
       generatedChunks := ["0_0"] |}.
Proof.
  intros island d.
  rewrite (save_then_load d); [reflexivity|].
  constructor; simpl.
  - intros k r [[= <- <-]|[]]. reflexivity.
  - constructor; [intros [] | constructor].
  - constructor; [intros [] | constructor].
Defined.

End PersistenceFacts.

Module KeyFacts.
Import JS Hash Config Three Data ChunkManager.
Import HashFacts DictFacts.

(** ** The range of the two hashes *)

Lemma hash_step_range h c : - 2 ^ 31 <= hash_step h c < 2 ^ 31.
Proof. unfold hash_step. cbv zeta. rewrite band_diag. apply ToInt32_range. Qed.

Lemma fold_hash_step_range l h :
  - 2 ^ 31 <= h < 2 ^ 31 -> - 2 ^ 31 <= fold_left hash_step l h < 2 ^ 31.
Proof.
  revert h. induction l as [|c l IH]; intros h Hh; simpl.
  - exact Hh.
  - apply IH, hash_step_range.
Qed.

Lemma hashCode_range s : 0 <= hashCode s <= 2 ^ 31.
Proof.
  unfold hashCode.
  pose proof (fold_hash_step_range (chars s) 0 ltac:(lia)). lia.
Qed.

Lemma simpleHash_range s : 0 <= simpleHash s <= 2 ^ 31.
Proof. rewrite simpleHash_prefix. apply hashCode_range. Qed.

(** ** Decimal text of an integer *)













(** ** Chunk keys *)







Lemma chunkKey_not_empty x z : chunkKeyOf (Int x) (Int z) <> "".
Proof.
  unfold chunkKeyOf. cbn [toString]. destruct (string_of_Z x); discriminate.
Qed.



End KeyFacts.

(* ------------------------------------------------------------------ *)
(** ** What the generation queue holds *)
(* ------------------------------------------------------------------ *)

Module QueueOrder.
Import JS Config Three Data ChunkManager EventLoop.
Import DictFacts StreamFacts GenerationFacts QueueFacts TickFacts KeyFacts.







Section WithPlatform.
Variable P : Platform.












End WithPlatform.

End QueueOrder.

(* ------------------------------------------------------------------ *)
(** ** What a tick achieves for the regions around the ship *)
(* ------------------------------------------------------------------ *)

Module TickCover.
Import JS Config Three Data ChunkManager EventLoop.
Import DictFacts StreamFacts GenerationFacts UnloadFacts QueueFacts TickFacts.
Import KeyFacts QueueOrder.

Lemma range_In n d : 0 <= n -> - n <= d <= n -> In d (range n).
Proof.
  intros Hn Hd. unfold range. apply in_map_iff.
  exists (Z.to_nat (d + n)). split; [lia|]. apply in_seq. lia.
Qed.

Lemma offsets_In n dx dz :
  0 <= n -> - n <= dx <= n -> - n <= dz <= n -> In (dx, dz) (offsets n).
Proof.
  intros Hn Hx Hz. unfold offsets. apply in_prod; now apply range_In.
Qed.

Lemma fold_collects {A B} (f : list A -> B -> list A) (key : B -> A)
  (good : B -> Prop) l :
  (forall acc b k, In k acc -> In k (f acc b)) ->
  (forall acc b, good b -> In (key b) (f acc b)) ->
  forall acc b, In b l -> good b -> In (key b) (fold_left f l acc).
Proof.
  intros Hkeep Hadd. induction l as [|b0 l IH]; intros acc b Hb Hg;
    [contradiction|].
  simpl. destruct Hb as [->|Hb]; [|now apply IH].
  apply (fold_left_invariant (fun acc => In (key b) acc)).
  - intros a b'. apply Hkeep.
  - now apply Hadd.
Qed.

Lemma isHighOffset_true dx dz :
  isHighOffset (dx, dz) = true <-> (- 1 <= dx <= 1 /\ - 1 <= dz <= 1).
Proof.
  unfold isHighOffset, highDetailDistance.
  rewrite andb_true_iff, !Z.leb_le. lia.
Qed.

(** The keys of the two windows, from their description. *)
Lemma within_high cx cz k :
  within highDetailDistance cx cz k -> In k (highDetailChunks cx cz).
Proof.
  intros (dx & dz & Hx & Hz & ->). unfold highDetailChunks.
  apply (fold_collects _
           (fun d : Z * Z =>
              chunkKeyOf (Int (cx + fst d)) (Int (cz + snd d)))
           (fun _ => True) _) with (b := (dx, dz)).
  - intros acc [ax az] k Hk. apply (In_add String.eqb String.eqb_eq).
    now left.
  - intros acc [ax az] _. apply (In_add String.eqb String.eqb_eq).
    now right.
  - apply offsets_In; [unfold highDetailDistance; lia | exact Hx | exact Hz].
  - exact I.
Qed.

Lemma within_low cx cz k :
  within lowDetailDistance cx cz k -> In k (lowDetailChunks cx cz).
Proof.
  intros (dx & dz & Hx & Hz & ->).
  destruct (isHighOffset (dx, dz)) eqn:E.
  - apply high_in_low, within_high. apply isHighOffset_true in E.
    exists dx, dz. unfold highDetailDistance. tauto.
  - unfold lowDetailChunks.
    apply (fold_collects _
             (fun d : Z * Z =>
                chunkKeyOf (Int (cx + fst d)) (Int (cz + snd d)))
             (fun d => isHighOffset d = false) _) with (b := (dx, dz)).
    + intros acc [ax az] k Hk. destruct (isHighOffset (ax, az)); [exact Hk|].
      apply (In_add String.eqb String.eqb_eq). now left.
    + intros acc [ax az] Hd. rewrite Hd.
      apply (In_add String.eqb String.eqb_eq). now right.
    + apply offsets_In;
        [unfold lowDetailDistance, VIEW_DISTANCE; lia | exact Hx | exact Hz].
    + exact E.
Qed.

(** Region [k] is generated or waits in the queue. *)
Definition covered (k : string) (w : World) : Prop :=
  In k (generatedChunks (dataManager w)) \/ In k (pendingChunks w).

Lemma enqueue_covers key w : covered key (enqueue key w).
Proof.
  unfold enqueue, covered.
  destruct (Dict.mem String.eqb key (generatedChunks (dataManager w))) eqn:G;
    cbn [negb andb].
  - left. now apply (mem_In String.eqb String.eqb_eq).
  - destruct (Dict.mem String.eqb key (pendingChunks w)) eqn:Q; cbn [negb].
    + right. now apply (mem_In String.eqb String.eqb_eq).
    + right. cbn [pendingChunks set_pendingChunks]. apply in_or_app.
      right. now left.
Qed.

Lemma covered_later k w w' :
  generatedChunks (dataManager w') = generatedChunks (dataManager w) ->
  appended w w' -> covered k w -> covered k w'.
Proof.
  intros G ([queued Q] & _) [H|H]; [left; now rewrite G|].
  right. rewrite Q. apply in_or_app. now left.
Qed.

Lemma fold_covers {B} (f : World -> B -> World) (key : B -> string)
  (good : B -> Prop) l :
  (forall a b k, covered k a -> covered k (f a b)) ->
  (forall a b, good b -> covered (key b) (f a b)) ->
  forall w b, In b l -> good b -> covered (key b) (fold_left f l w).
Proof.
  intros Hkeep Hadd. induction l as [|b0 l IH]; intros w b Hb Hg;
    [contradiction|].
  simpl. destruct Hb as [->|Hb]; [|now apply IH].
  apply (fold_left_invariant (fun w => covered (key b) w)).
  - intros a b'. apply Hkeep.
  - now apply Hadd.
Qed.

Section WithPlatform.
Variable P : Platform.

Lemma enqueue_keeps k key w : covered k w -> covered k (enqueue key w).
Proof.
  apply covered_later; [|apply enqueue_appended].
  destruct (stock_eq _ _ (enqueue_stock key w)) as [E _]. now rewrite E.
Qed.

Lemma trackHigh_keeps cx cz k w :
  covered k w -> covered k (trackHigh cx cz w).
Proof.
  apply covered_later; [|apply trackHigh_appended].
  destruct (stock_eq _ _ (trackHigh_stock cx cz w)) as [E _]. now rewrite E.
Qed.

Lemma trackLow_keeps cx cz k w :
  covered k w -> covered k (trackLow P cx cz w).
Proof.
  apply covered_later; [|apply trackLow_appended].
  destruct (stock_eq _ _ (trackLow_stock P cx cz w)) as [E _]. now rewrite E.
Qed.

Lemma trackHigh_covers cx cz dx dz w :
  - 1 <= dx <= 1 -> - 1 <= dz <= 1 ->
  covered (chunkKeyOf (Int (cx + dx)) (Int (cz + dz))) (trackHigh cx cz w).
Proof.
  intros Hx Hz. unfold trackHigh.
  apply (fold_covers _
           (fun d : Z * Z =>
              chunkKeyOf (Int (cx + fst d)) (Int (cz + snd d)))
           (fun _ => True) _) with (b := (dx, dz)).
  - intros a [ax az] k. apply enqueue_keeps.
  - intros a [ax az] _. apply enqueue_covers.
  - apply offsets_In; [unfold highDetailDistance; lia | exact Hx | exact Hz].
  - exact I.
Qed.

Lemma trackLow_covers cx cz dx dz w :
  - 2 <= dx <= 2 -> - 2 <= dz <= 2 -> isHighOffset (dx, dz) = false ->
  covered (chunkKeyOf (Int (cx + dx)) (Int (cz + dz))) (trackLow P cx cz w).
Proof.
  intros Hx Hz E. unfold trackLow.
  apply (fold_covers _
           (fun d : Z * Z =>
              chunkKeyOf (Int (cx + fst d)) (Int (cz + snd d)))
           (fun d => isHighOffset d = false) _) with (b := (dx, dz)).
  - intros a [ax az] k Hk. destruct (isHighOffset (ax, az)); [exact Hk|].
    cbv zeta.
    set (key := chunkKeyOf (Int (cx + ax)) (Int (cz + az))).
    pose proof (enqueue_keeps k key a Hk) as H1.
    set (w1 := enqueue key a) in *.
    destruct (negb (Dict.mem String.eqb key (loadedChunks w1))
              && negb (Dict.mem String.eqb key
                         (generatedChunks (dataManager w1))));
      [|exact H1].
    destruct (createPlaceholdersForChunk_fields P key w1)
      as (E1 & _ & E2 & _).
    unfold covered. rewrite E1, E2. exact H1.
  - intros a [ax az] Hd. rewrite Hd. cbv zeta. cbn [fst snd].
    set (key := chunkKeyOf (Int (cx + ax)) (Int (cz + az))).
    pose proof (enqueue_covers key a) as H1.
    set (w1 := enqueue key a) in *.
    destruct (negb (Dict.mem String.eqb key (loadedChunks w1))
              && negb (Dict.mem String.eqb key
                         (generatedChunks (dataManager w1))));
      [|exact H1].
    destruct (createPlaceholdersForChunk_fields P key w1)
      as (E1 & _ & E2 & _).
    unfold covered. rewrite E1, E2. exact H1.
  - apply offsets_In;
      [unfold lowDetailDistance, VIEW_DISTANCE; lia | exact Hx | exact Hz].
  - exact E.
Qed.

(** Once both pairs of loops have run, every region of the low-detail
    window is generated or queued. *)
Lemma tracked_covers cx cz k w :
  within lowDetailDistance cx cz k ->
  covered k (trackLow P cx cz (trackHigh cx cz w)).
Proof.
  intros (dx & dz & Hx & Hz & ->).
  unfold lowDetailDistance, VIEW_DISTANCE in Hx, Hz.
  destruct (isHighOffset (dx, dz)) eqn:E.
  - apply trackLow_keeps. apply isHighOffset_true in E.
    now apply trackHigh_covers.
  - now apply trackLow_covers.
Qed.

Lemma beforeQueue_covers p w k :
  within lowDetailDistance (chunkIndex (vx p)) (chunkIndex (vz p)) k ->
  covered k (beforeQueue P p w).
Proof.
  intros Hk. pose proof (tracked_covers _ _ k w Hk) as H.
  unfold beforeQueue. cbv zeta.
  set (cx := chunkIndex (vx p)) in *. set (cz := chunkIndex (vz p)) in *.
  revert H. generalize (trackLow P cx cz (trackHigh cx cz w)). intros w1 H.
  pose proof (loadHigh_fold_queue P (highDetailChunks cx cz) [] w1) as Q1.
  pose proof (fold_left_keeps
                (fun acc => generatedChunks (dataManager (snd acc)))
                (loadHigh P)) as G1.
  specialize (G1 ltac:(intros [v a] key; unfold loadHigh;
                       destruct (_ && _);
                       [destruct (forEach (inChunk key) (showIsland P) _ _)
                          as [records [[g m] v']]; reflexivity|];
                       destruct (Dict.mem _ _ _); [|reflexivity];
                       destruct (forEach (inChunk key) noteVisible _ _);
                       reflexivity)
                (highDetailChunks cx cz) ([], w1)).
  cbn [snd] in G1.
  revert Q1 G1.
  generalize (snd (fold_left (loadHigh P) (highDetailChunks cx cz) ([], w1))).
  intros w2 Q1 G1.
  pose proof (unloadFar_fold_queue (lowDetailChunks cx cz)
                (loadedChunks w2) w2) as Q2.
  pose proof (fold_left_keeps
                (fun a => generatedChunks (dataManager a))
                (unloadFar (lowDetailChunks cx cz))) as G2.
  specialize (G2 ltac:(intros a key; unfold unloadFar;
                       destruct (negb _); [|reflexivity];
                       unfold unloadChunk; destruct (negb _); [reflexivity|];
                       destruct (overChunk_fields key removeIslandMesh
                                   (set_loadedChunks
                                      (Dict.drop String.eqb key
                                         (loadedChunks a)) a))
                         as (_ & _ & _ & _ & _ & _ & _ & E & _);
                       exact E)
                (loadedChunks w2) w2).
  revert Q2 G2.
  generalize (fold_left (unloadFar (lowDetailChunks cx cz))
                (loadedChunks w2) w2).
  intros w3 Q2 G2.
  apply queue_eq in Q1, Q2. destruct Q1 as (Q1 & _), Q2 as (Q2 & _).
  unfold covered. rewrite G2, G1, Q2, Q1. exact H.
Qed.

(** After a tick every region of the low-detail window is generated,
    queued, or has its callback waiting. *)
Lemma updateChunks_tracks p w k :
  within lowDetailDistance (chunkIndex (vx p)) (chunkIndex (vz p)) k ->
  let w' := snd (updateChunks P p w) in
  In k (generatedChunks (dataManager w'))
  \/ In k (pendingChunks w')
  \/ exists t, In t (timers w') /\ task_chunkKey t = k.
Proof.
  intros Hk. cbv zeta. rewrite updateChunks_unfold.
  pose proof (beforeQueue_covers p w k Hk) as H.
  assert (Hne : k <> "").
  { destruct Hk as (dx & dz & _ & _ & ->). apply chunkKey_not_empty. }
  revert H. generalize (beforeQueue P p w). intros w1 H.
  destruct (queue_eq _ _ (sweepCaches_queue (processNextPendingChunk p w1)))
    as (-> & _ & ->).
  destruct (stock_eq _ _ (proj1 (sweepCaches_stock
                                   (processNextPendingChunk p w1))))
    as [-> _].
  destruct (stock_eq _ _ (proj1 (processNextPendingChunk_stock p w1)))
    as [-> _].
  destruct H as [H|H]; [now left|]. right.
  unfold processNextPendingChunk.
  destruct (isGeneratingChunk w1); simpl; [now left|].
  destruct (pendingChunks w1) as [|first rest]; simpl; [contradiction|].
  destruct H as [->|H].
  - apply String.eqb_neq in Hne. rewrite Hne. simpl. right.
    eexists. split; [apply in_or_app; right; left; reflexivity|].
    reflexivity.
  - left. destruct (String.eqb first ""); exact H.
Qed.

Lemma loadHigh_generated acc key :
  generatedChunks (dataManager (snd (loadHigh P acc key)))
  = generatedChunks (dataManager (snd acc)).
Proof.
  destruct acc as [v a]. unfold loadHigh.
  destruct (_ && _).
  - destruct (forEach (inChunk key) (showIsland P) _ _)
      as [records [[g m] v']]. reflexivity.
  - destruct (Dict.mem _ _ _); [|reflexivity].
    destruct (forEach (inChunk key) noteVisible _ _). reflexivity.
Qed.

(** The turn of the loading loop for a generated region leaves it
    loaded. *)
Lemma loadHigh_loads acc key :
  In key (generatedChunks (dataManager (snd acc))) ->
  In key (loadedChunks (snd (loadHigh P acc key))).
Proof.
  destruct acc as [v a]. cbn [snd]. intros G.
  apply (mem_In String.eqb String.eqb_eq) in G. unfold loadHigh.
  rewrite G, andb_true_r.
  destruct (Dict.mem String.eqb key (loadedChunks a)) eqn:L; cbn [negb].
  - destruct (forEach (inChunk key) noteVisible _ _). cbn [snd].
    now apply (mem_In String.eqb String.eqb_eq).
  - destruct (forEach (inChunk key) (showIsland P) _ _)
      as [records [[g m] v']]. cbn [snd loadedChunks set_loadedChunks].
    apply (In_add String.eqb String.eqb_eq). now right.
Qed.

Lemma loadHigh_fold_loads l :
  forall acc k,
    In k l -> In k (generatedChunks (dataManager (snd acc))) ->
    In k (loadedChunks (snd (fold_left (loadHigh P) l acc))).
Proof.
  induction l as [|key l IH]; intros acc k Hk G; [contradiction|].
  simpl. destruct Hk as [->|Hk].
  - apply loadHigh_fold_loaded. now apply loadHigh_loads.
  - apply IH; [exact Hk|]. now rewrite loadHigh_generated.
Qed.

(** The unloading loop leaves the regions of the low-detail set loaded. *)
Lemma unload_loop_keeps low k l :
  In k low ->
  forall w, In k (loadedChunks w) ->
    In k (loadedChunks (fold_left (unloadFar low) l w)).
Proof.
  intros Hlow. induction l as [|key l IH]; intros w Hk; simpl; [exact Hk|].
  apply IH. unfold unloadFar.
  destruct (Dict.mem String.eqb key low) eqn:E; cbn [negb]; [exact Hk|].
  apply unloadChunk_loaded. split; [exact Hk|]. intros ->.
  apply (mem_false String.eqb String.eqb_eq) in E. contradiction.
Qed.

(** After a tick every generated region of the high-detail window is
    loaded. *)
Lemma updateChunks_loads p w k :
  within highDetailDistance (chunkIndex (vx p)) (chunkIndex (vz p)) k ->
  In k (generatedChunks (dataManager w)) ->
  In k (loadedChunks (snd (updateChunks P p w))).
Proof.
  intros Hk G. rewrite updateChunks_unfold.
  destruct (stock_eq _ _ (proj1 (sweepCaches_stock
                                   (processNextPendingChunk p
                                      (beforeQueue P p w)))))
    as [_ ->].
  destruct (stock_eq _ _ (proj1 (processNextPendingChunk_stock p
                                   (beforeQueue P p w))))
    as [_ ->].
  rewrite beforeQueue_unfold.
  apply unload_loop_keeps; [apply high_in_low, within_high, Hk|].
  unfold beforeUnload. cbv zeta.
  apply loadHigh_fold_loads; [apply within_high, Hk|]. cbn [snd].
  destruct (stock_eq _ _ (tracked_stock P p w)) as [-> _]. exact G.
Qed.

End WithPlatform.

End TickCover.

(* ------------------------------------------------------------------ *)
(** ** The seeded draws of [generateChunk] *)
(* ------------------------------------------------------------------ *)

Module DrawFacts.
Import JS Hash Config Three Data ChunkManager.
Import HashFacts DictFacts KeyFacts.

(** What the two seeded functions return, as a function of the residue
    of the hash. *)
Definition detailed_value (h : Z) (min max : literal) : float :=
  let val := (float_of_Z h / 1000)%float in
  (value min + PrimFloat.abs val * (value max - value min))%float.

Definition simple_value (h : Z) (min max : literal) : float :=
  (value min + float_of_Z h / 100 * (value max - value min))%float.

Definition residues (n : Z) : list Z := map Z.of_nat (seq 0 (Z.to_nat n)).

Lemma residues_In n h : 0 <= h < n -> In h (residues n).
Proof.
  intros H. unfold residues. apply in_map_iff. exists (Z.to_nat h).
  split; [lia|]. apply in_seq. lia.
Qed.

Lemma detailed_residue key min max salt :
  exists h, 0 <= h < 1000
    /\ getDetailedSeedRandom key min max salt = detailed_value h min max.
Proof.
  unfold getDetailedSeedRandom. cbv zeta.
  exists (Z.rem (simpleHash (key ++ salt ++ text min ++ text max)) 1000).
  split; [|reflexivity].
  apply Z.rem_bound_pos; [apply simpleHash_range | lia].
Qed.

Lemma simple_residue key min max salt :
  exists h, 0 <= h < 100
    /\ getSimpleSeedRandom key min max salt = simple_value h min max.
Proof.
  unfold getSimpleSeedRandom. cbv zeta.
  exists (Z.rem (simpleHash (key ++ salt)) 100).
  split; [|reflexivity].
  apply Z.rem_bound_pos; [apply simpleHash_range | lia].
Qed.

(** A test that passes on every residue passes on every draw. *)
Lemma detailed_all (Q : float -> bool) min max :
  forallb (fun h => Q (detailed_value h min max)) (residues 1000) = true ->
  forall key salt, Q (getDetailedSeedRandom key min max salt) = true.
Proof.
  intros H key salt.
  destruct (detailed_residue key min max salt) as (h & Hh & ->).
  rewrite forallb_forall in H. apply H, residues_In, Hh.
Qed.

Lemma simple_all (Q : float -> bool) min max :
  forallb (fun h => Q (simple_value h min max)) (residues 100) = true ->
  forall key salt, Q (getSimpleSeedRandom key min max salt) = true.
Proof.
  intros H key salt.
  destruct (simple_residue key min max salt) as (h & Hh & ->).
  rewrite forallb_forall in H. apply H, residues_In, Hh.
Qed.

(** ** The tests *)

Definition between (lo hi : float) (v : float) : bool :=
  (lo <=? v)%float && (v <? hi)%float.

(** [lo <= n <= hi] for an integer-valued number [n]. *)
Definition index_in (lo hi : Z) (n : num) : bool :=
  match n with Int i => (lo <=? i) && (i <=? hi) | NaN => false end.

Definition plain_size (v : float) : bool :=
  between 5 10 v && index_in 5 10 (Math_round v).

Definition ad_size (v : float) : bool :=
  between 6.5 17 v && index_in 7 17 (Math_round v).

Definition sizes (v : float) : bool :=
  plain_size v
  && forallb (fun tier => ad_size (v * sizeBoost tier)%float) AD_RANK_TIERS.

Definition biome_index (v : float) : bool := index_in 0 3 (Math_floor v).

Definition tier_index (v : float) : bool :=
  index_in 0 4 (Math_floor v)
  && index_in 1 4 (num_min (Int 4) (Math_floor (v * 0.7 + 1)%float)).

Definition image_index (v : float) : bool :=
  index_in 1 6 (num_add (Int 1) (num_min (Int 5) (Math_floor v))).

Definition count_high (v : float) : bool := index_in 3 6 (Math_floor v).
Definition count_low (v : float) : bool := index_in 2 4 (Math_floor v).

(** What [generateIsland] relies on of its seed function. *)
Record draws (seedFunction : literal -> literal -> string -> float) : Prop :=
  { draw_offset :
      forall salt, between 0 100 (seedFunction (Lit 0 "0") (Lit 100 "100") salt) = true;
    draw_size :
      forall salt,
        sizes (seedFunction ISLAND_SIZE_RANGE_min ISLAND_SIZE_RANGE_max salt)
        = true;
    draw_biome :
      forall salt, biome_index (seedFunction (Lit 0 "0") (Lit 4 "4") salt) = true;
    draw_tier :
      forall salt, tier_index (seedFunction (Lit 0 "0") (Lit 5 "5") salt) = true;
    draw_image :
      forall salt, image_index (seedFunction (Lit 0 "0") (Lit 6 "6") salt) = true }.

Lemma detailed_draws key : draws (getDetailedSeedRandom key).
Proof.
  constructor; intros salt.
  - apply (detailed_all (between 0 100)). vm_compute. reflexivity.
  - apply (detailed_all sizes). vm_compute. reflexivity.
  - apply (detailed_all biome_index). vm_compute. reflexivity.
  - apply (detailed_all tier_index). vm_compute. reflexivity.
  - apply (detailed_all image_index). vm_compute. reflexivity.
Qed.

Lemma simple_draws key : draws (getSimpleSeedRandom key).
Proof.
  constructor; intros salt.
  - apply (simple_all (between 0 100)). vm_compute. reflexivity.
  - apply (simple_all sizes). vm_compute. reflexivity.
  - apply (simple_all biome_index). vm_compute. reflexivity.
  - apply (simple_all tier_index). vm_compute. reflexivity.
  - apply (simple_all image_index). vm_compute. reflexivity.
Qed.

Lemma detailed_count key salt :
  count_high
    (getDetailedSeedRandom key (literal_of_Z ISLANDS_PER_CHUNK_min)
       (Lit (float_of_Z ISLANDS_PER_CHUNK_max + 0.99)%float
          (string_of_Z ISLANDS_PER_CHUNK_max ++ ".99")) salt) = true.
Proof. apply (detailed_all count_high). vm_compute. reflexivity. Qed.

Lemma simple_count key salt :
  count_low
    (getSimpleSeedRandom key
       (literal_of_Z (Z.max 1 (ISLANDS_PER_CHUNK_min - 1)))
       (Lit (float_of_Z (Z.max 2 (ISLANDS_PER_CHUNK_max - 2)) + 0.99)%float
          (string_of_Z (Z.max 2 (ISLANDS_PER_CHUNK_max - 2)) ++ ".99")) salt)
  = true.
Proof. apply (simple_all count_low). vm_compute. reflexivity. Qed.

End DrawFacts.

(* ------------------------------------------------------------------ *)
(** ** The records [generateChunk] adds *)
(* ------------------------------------------------------------------ *)

Module RecordFacts.
Import JS Hash Config Three Data ChunkManager.
Import HashFacts DictFacts GenerationFacts KeyFacts DrawFacts.

(** A record as [generateChunk] writes it for the region [(x, z)]. *)
Record generated_for (x z : num) (island : IslandData) : Prop :=
  { gen_chunk : chunk island = chunkKeyOf x z;
    gen_bare : name island = None /\ mesh island = None /\ label island = None;
    gen_biome : IslandGenerator.getBiomeById (biome island) <> None;
    gen_place :
      exists ox oz,
        pos island
        = {| pos_x := (toFloat x * 100 + ox)%float;
             pos_y := 0%float;
             pos_z := (toFloat z * 100 + oz)%float |}
        /\ between 0 100 ox = true /\ between 0 100 oz = true;
    gen_kind :
      match outdoor island with
      | None => plain_size (size island) = true
      | Some o =>
          ad_size (size island) = true
          /\ (biome island = "Desert" \/ biome island = "Volcano")
          /\ active o = true /\ billboard o = None
          /\ lastInteractionTime o = None
          /\ exists tier,
               In tier AD_RANK_TIERS
               /\ adRank o = Some (float_of_Z (rank tier))
      end }.

Lemma at_index_In {A} (l : list A) (n : num) (fallback : A) hi :
  index_in 0 hi n = true -> (Z.to_nat hi < List.length l)%nat ->
  In (at_index l n fallback) l.
Proof.
  destruct n as [i|]; [|discriminate]. simpl. intros H Hl.
  apply andb_prop in H. destruct H as [H1 H2].
  apply Z.leb_le in H1, H2.
  destruct (i <? 0) eqn:E; [apply Z.ltb_lt in E; lia|].
  apply nth_In. lia.
Qed.

Lemma index_in_weaken lo lo' hi n :
  lo' <= lo -> index_in lo hi n = true -> index_in lo' hi n = true.
Proof.
  destruct n as [i|]; [|discriminate]. simpl. intros Hlo H.
  apply andb_prop in H. destruct H as [H1 H2]. apply Z.leb_le in H1.
  rewrite H2, andb_true_r. apply Z.leb_le. lia.
Qed.

Lemma known_biome b : In b BIOMES -> IslandGenerator.getBiomeById (biomeName b) <> None.
Proof.
  intros H. repeat (destruct H as [<-|H]; [discriminate|]). contradiction.
Qed.

Definition is_ad (island : IslandData) : bool :=
  match outdoor island with Some _ => true | None => false end.

(** One turn of the loop writes one record of the expected kind, and an
    advertisement island only while none was written before. *)
Lemma generateIsland_adds x z seedFunction start st i :
  draws seedFunction ->
  exists island,
    gen_data (generateIsland x z (chunkKeyOf x z) seedFunction start st i)
    = addIsland island (gen_data st)
    /\ generated_for x z island
    /\ adIslandsCreated
         (generateIsland x z (chunkKeyOf x z) seedFunction start st i)
       = adIslandsCreated st + (if is_ad island then 1 else 0)
    /\ (is_ad island = true -> adIslandsCreated st < MAX_ADS_PER_CHUNK).
Proof.
  intros [Doff Dsize Dbiome Dtier Dimage].
  unfold generateIsland. cbv zeta.
  change (literal_of_Z CHUNK_SIZE) with (Lit 100 "100").
  change (literal_of_Z (Z.of_nat (List.length BIOMES))) with (Lit 4 "4").
  change (literal_of_Z (Z.of_nat (List.length AD_RANK_TIERS)))
    with (Lit 5 "5").
  change (float_of_Z CHUNK_SIZE) with 100%float.
  set (n := string_of_Z i).
  pose proof (Doff ("posX_" ++ n)) as Hx.
  pose proof (Doff ("posZ_" ++ n)) as Hz.
  pose proof (Dsize ("size_" ++ n)) as Hs.
  pose proof (Dbiome ("biome_" ++ n)) as Hb.
  pose proof (Dtier ("adTier_" ++ n)) as Ht.
  set (ox := seedFunction (Lit 0 "0") (Lit 100 "100") ("posX_" ++ n)) in *.
  set (oz := seedFunction (Lit 0 "0") (Lit 100 "100") ("posZ_" ++ n)) in *.
  set (sz := seedFunction ISLAND_SIZE_RANGE_min ISLAND_SIZE_RANGE_max
               ("size_" ++ n)) in *.
  set (bi := seedFunction (Lit 0 "0") (Lit 4 "4") ("biome_" ++ n)) in *.
  set (ti := seedFunction (Lit 0 "0") (Lit 5 "5") ("adTier_" ++ n)) in *.
  unfold sizes in Hs. apply andb_prop in Hs. destruct Hs as [Hs Ha].
  rewrite forallb_forall in Ha.
  unfold tier_index in Ht. apply andb_prop in Ht. destruct Ht as [Ht Ht'].
  match goal with
  | |- context [gen_data (if ?c then _ else _)] => destruct c eqn:Had
  end.
  - eexists. split; [reflexivity|]. split; [|split].
    + constructor; cbn [chunk name mesh label biome pos size outdoor].
      * reflexivity.
      * auto.
      * match goal with
        | |- IslandGenerator.getBiomeById (if ?c then _ else _) <> None =>
            destruct c
        end; discriminate.
      * exists ox, oz. auto.
      * split; [|split; [|split; [reflexivity|split; [reflexivity|split;
          [reflexivity|]]]]].
        -- apply Ha. destruct start.
           ++ apply (at_index_In _ _ _ 4);
                [apply (index_in_weaken 1); [lia | exact Ht'] | simpl; lia].
           ++ apply (at_index_In _ _ _ 4); [exact Ht | simpl; lia].
        -- match goal with
           | |- (if ?c then _ else _) = _ \/ _ => destruct c
           end; auto.
        -- eexists. split; [|reflexivity]. destruct start.
           ++ apply (at_index_In _ _ _ 4);
                [apply (index_in_weaken 1); [lia | exact Ht'] | simpl; lia].
           ++ apply (at_index_In _ _ _ 4); [exact Ht | simpl; lia].
    + cbn [adIslandsCreated is_ad outdoor]. reflexivity.
    + intros _. apply andb_prop in Had. destruct Had as [Had _].
      destruct (adIslandsCreated st <? MAX_ADS_PER_CHUNK) eqn:E.
      * now apply Z.ltb_lt.
      * cbn [andb] in Had. discriminate.
  - eexists. split; [reflexivity|]. split; [|split].
    + constructor; cbn [chunk name mesh label biome pos size outdoor].
      * reflexivity.
      * auto.
      * apply known_biome. apply (at_index_In _ _ _ 3); [exact Hb|].
        simpl. lia.
      * exists ox, oz. auto.
      * exact Hs.
    + cbn [adIslandsCreated is_ad outdoor]. lia.
    + discriminate.
Qed.


(** The advertisement islands of a store. *)
Definition ads (m : list (string * IslandData)) : nat :=
  List.length (filter (fun kv => is_ad (snd kv)) m).

Lemma set_length k (v : IslandData) m :
  (List.length (Dict.set String.eqb k v m) <= S (List.length m))%nat.
Proof.
  induction m as [|[k' v'] m IH]; simpl; [lia|].
  destruct (String.eqb k k'); simpl; lia.
Qed.

Lemma set_ads k v m :
  (ads (Dict.set String.eqb k v m)
   <= ads m + (if is_ad v then 1 else 0))%nat.
Proof.
  unfold ads. induction m as [|[k' v'] m IH]; simpl.
  - destruct (is_ad v); simpl; lia.
  - destruct (String.eqb k k'); simpl.
    + destruct (is_ad v), (is_ad v'); simpl; lia.
    + destruct (is_ad v'); simpl; lia.
Qed.

(** What the loop of [generateChunk] has made of the store [d0] after
    [turns] turns. *)
Record produced (x z : num) (d0 : DataManager) (turns : nat) (st : GenLoop)
  : Prop :=
  { prod_records :
      forall i island, In (i, island) (islandData (gen_data st)) ->
        In (i, island) (islandData d0)
        \/ (i = id island /\ generated_for x z island);
    prod_generated : generatedChunks (gen_data st) = generatedChunks d0;
    prod_count :
      (List.length (islandData (gen_data st))
       <= List.length (islandData d0) + turns)%nat;
    prod_created : 0 <= adIslandsCreated st <= MAX_ADS_PER_CHUNK;
    prod_ads :
      (ads (islandData (gen_data st))
       <= ads (islandData d0) + Z.to_nat (adIslandsCreated st))%nat }.

Lemma produced_start x z d0 :
  produced x z d0 0
    {| gen_data := d0; adIslandPositions := []; adIslandsCreated := 0 |}.
Proof.
  constructor; cbn [gen_data adIslandsCreated]; auto;
    unfold MAX_ADS_PER_CHUNK; simpl; lia.
Qed.

Lemma produced_turn x z seedFunction start d0 n st i :
  draws seedFunction -> produced x z d0 n st ->
  produced x z d0 (S n)
    (generateIsland x z (chunkKeyOf x z) seedFunction start st i).
Proof.
  intros D [A B C E F].
  destruct (generateIsland_adds x z seedFunction start st i D)
    as (island & Hd & Hg & Hc & Hm).
  constructor; rewrite ?Hd, ?Hc; cbn [addIsland islandData generatedChunks].
  - intros k isl Hin.
    apply (In_set_inv String.eqb) in Hin.
    destruct Hin as [Hin|Hin]; [|now apply A].
    injection Hin as -> ->. right. split; [reflexivity | exact Hg].
  - exact B.
  - pose proof (set_length (id island) island (islandData (gen_data st))).
    lia.
  - destruct (is_ad island); [specialize (Hm eq_refl)|]; lia.
  - pose proof (set_ads (id island) island (islandData (gen_data st))).
    destruct (is_ad island); [specialize (Hm eq_refl)|];
      unfold MAX_ADS_PER_CHUNK in *; lia.
Qed.

Lemma produced_loop x z seedFunction start d0 turns :
  draws seedFunction ->
  forall n st, produced x z d0 n st ->
    produced x z d0 (n + List.length turns)
      (fold_left (generateIsland x z (chunkKeyOf x z) seedFunction start)
         turns st).
Proof.
  intros D. induction turns as [|i turns IH]; intros n st H; simpl.
  - now rewrite Nat.add_0_r.
  - rewrite <- Nat.add_succ_comm. apply IH. now apply produced_turn.
Qed.

(** The most islands one call of [generateChunk] writes:
    [ISLANDS_PER_CHUNK.max] in high detail, two fewer in low detail. *)
Definition budget (highDetail : bool) : nat :=
  if highDetail then Z.to_nat ISLANDS_PER_CHUNK_max
  else Z.to_nat (Z.max 2 (ISLANDS_PER_CHUNK_max - 2)).

Section WithPlatform.
Variable P : Platform.

(** The store after a generation that was not skipped. *)
Lemma generateChunk_store x z hd w :
  Dict.mem String.eqb (chunkKeyOf x z) (generatedChunks (dataManager w))
  = false ->
  exists n st,
    produced x z (dataManager w) n st
    /\ (n <= budget hd)%nat
    /\ dataManager (generateChunk P x z hd w)
       = addGeneratedChunk (chunkKeyOf x z) (gen_data st).
Proof.
  intros E. unfold generateChunk. rewrite E. cbv zeta.
  match goal with
  | |- context [fold_left ?f ?turns ?st0] =>
      set (loop := fold_left f turns st0);
      assert (H : exists n, produced x z (dataManager w) n loop
                            /\ (n <= budget hd)%nat)
  end.
  { subst loop. destruct hd.
    - match goal with
      | |- context [Math_floor ?v] =>
          assert (Hc : count_high v = true) by apply detailed_count;
          unfold count_high in Hc; destruct (Math_floor v) as [c|]; [|discriminate]
      end.
      simpl in Hc. apply andb_prop in Hc. destruct Hc as [_ Hc].
      apply Z.leb_le in Hc.
      eexists. split.
      + apply (produced_loop x z _ _ _ _ (detailed_draws _) 0%nat).
        apply produced_start.
      + rewrite length_map, length_seq. unfold budget. simpl. lia.
    - match goal with
      | |- context [Math_floor ?v] =>
          assert (Hc : count_low v = true) by apply simple_count;
          unfold count_low in Hc; destruct (Math_floor v) as [c|]; [|discriminate]
      end.
      simpl in Hc. apply andb_prop in Hc. destruct Hc as [_ Hc].
      apply Z.leb_le in Hc.
      eexists. split.
      + apply (produced_loop x z _ _ _ _ (simple_draws _) 0%nat).
        apply produced_start.
      + rewrite length_map, length_seq. unfold budget. simpl. lia. }
  destruct H as (n & Hp & Hn). exists n, loop. split; [exact Hp|].
  split; [exact Hn|]. clearbody loop.
  match goal with
  | |- context [random P ?g] => destruct (random P g) as [r g']
  end.
  match goal with
  | |- context [if ?c then _ else _] => destruct c
  end; simpl; rewrite removePlaceholders_dataManager; reflexivity.
Qed.

End WithPlatform.

End RecordFacts.

(* ------------------------------------------------------------------ *)
(** ** The content keys of the terrain cache *)
(* ------------------------------------------------------------------ *)

Module ShapeFacts.
Import JS Hash Config Three Data ChunkManager.
Import HashFacts DictFacts GenerationFacts KeyFacts DrawFacts RecordFacts.

(** [lo, lo + 1, ..., hi] *)
Definition upto (lo hi : Z) : list Z :=
  map (fun i => lo + Z.of_nat i) (seq 0 (Z.to_nat (hi - lo + 1))).

Lemma upto_In lo hi g : lo <= g <= hi -> In g (upto lo hi).
Proof.
  intros H. unfold upto. apply in_map_iff. exists (Z.to_nat (g - lo)).
  split; [lia|]. apply in_seq. lia.
Qed.

(** The biome and size group of every island [generateChunk] can write:
    any biome with a size rounding to 5..10, or an advertisement island,
    [Desert] or [Volcano], with a size rounding to 7..17. *)
Definition shapes : list (string * Z) :=
  (list_prod (map biomeName BIOMES) (upto 5 10)
   ++ list_prod ["Desert"; "Volcano"] (upto 7 17))%list.

Definition num_eqb (a b : num) : bool :=
  match a, b with Int x, Int y => x =? y | _, _ => false end.

Definition fits (island : IslandData) : bool :=
  existsb
    (fun shape : string * Z =>
       String.eqb (biome island) (fst shape)
       && num_eqb (Math_round (size island)) (Int (snd shape)))
    shapes.

(** The cache key of a shape. *)
Definition keyOf (shape : string * Z) : string :=
  fst shape ++ "_" ++ string_of_Z (IslandGenerator.shapeTypeOf (fst shape))
  ++ "_" ++ string_of_Z (snd shape).

Definition allowed_keys : list string := set_of_list (map keyOf shapes).

Lemma set_of_list_In l k : In k l -> In k (set_of_list l).
Proof.
  unfold set_of_list. intros H.
  assert (G : forall (acc : list string),
             In k acc \/ In k l ->
             In k (fold_left (fun acc k => Dict.add String.eqb k acc) l acc)).
  { clear H. induction l as [|a l IH]; intros acc [H|H]; simpl;
      try contradiction; try exact H.
    - apply IH. left. apply (In_add String.eqb String.eqb_eq). now left.
    - apply IH. destruct H as [->|H]; [left|now right].
      apply (In_add String.eqb String.eqb_eq). now right. }
  apply G. now right.
Qed.

Lemma allowed_keys_length : List.length allowed_keys = 38%nat.
Proof. vm_compute. reflexivity. Qed.

Lemma biome_name n b :
  IslandGenerator.getBiomeById n = Some b -> biomeName b = n.
Proof.
  unfold IslandGenerator.getBiomeById. intros H. apply find_some in H.
  destruct H as [_ H]. now apply String.eqb_eq in H.
Qed.

Lemma known_name n :
  IslandGenerator.getBiomeById n <> None -> In n (map biomeName BIOMES).
Proof.
  destruct (IslandGenerator.getBiomeById n) as [b|] eqn:E; [|congruence].
  intros _. pose proof (biome_name n b E) as <-.
  apply in_map. unfold IslandGenerator.getBiomeById in E.
  now apply find_some in E.
Qed.

Lemma fits_known island :
  fits island = true -> IslandGenerator.getBiomeById (biome island) <> None.
Proof.
  unfold fits. rewrite existsb_exists. intros ([n g] & Hin & H).
  apply andb_prop in H. destruct H as [H _]. apply String.eqb_eq in H.
  cbn [fst] in H. rewrite H. clear H.
  assert (K : In n (map biomeName BIOMES)).
  { unfold shapes in Hin. apply in_app_or in Hin.
    destruct Hin as [Hin|Hin]; apply in_prod_iff in Hin; destruct Hin as [Hin _].
    - exact Hin.
    - simpl in Hin |- *. intuition. }
  simpl in K.
  repeat (destruct K as [<-|K]; [discriminate|]). contradiction.
Qed.

Lemma fits_shape island :
  fits island = true ->
  exists n g,
    In (n, g) shapes /\ biome island = n /\ Math_round (size island) = Int g.
Proof.
  unfold fits. rewrite existsb_exists. intros ([n g] & Hin & H).
  exists n, g. split; [exact Hin|]. clear Hin.
  apply andb_prop in H. destruct H as [H1 H2]. apply String.eqb_eq in H1.
  split; [exact H1|]. cbn [snd] in H2. unfold num_eqb in H2.
  destruct (Math_round (size island)) as [r|]; [|discriminate].
  apply Z.eqb_eq in H2. now subst r.
Qed.

(** The cache key of an island that fits is one of the 38. *)
Lemma fits_key island b :
  fits island = true ->
  IslandGenerator.getBiomeById (biome island) = Some b ->
  In (IslandGenerator.cacheKeyOf island b) allowed_keys.
Proof.
  intros H Hb. destruct (fits_shape island H) as (n & g & Hin & H1 & Er).
  apply set_of_list_In.
  replace (IslandGenerator.cacheKeyOf island b) with (keyOf (n, g)).
  - now apply in_map.
  - unfold IslandGenerator.cacheKeyOf, keyOf. cbv zeta. cbn [fst snd].
    rewrite (biome_name _ _ Hb), Er, H1. reflexivity.
Qed.

(** Every record [generateChunk] writes fits. *)
Lemma generated_fits x z island : generated_for x z island -> fits island = true.
Proof.
  intros [_ _ Hb _ Hk]. unfold fits. apply existsb_exists.
  apply known_name in Hb.
  destruct (outdoor island) as [o|].
  - destruct Hk as (Hs & Hd & _).
    unfold ad_size in Hs. apply andb_prop in Hs. destruct Hs as [_ Hs].
    destruct (Math_round (size island)) as [g|] eqn:Er; [|discriminate].
    simpl in Hs. apply andb_prop in Hs. destruct Hs as [H1 H2].
    apply Z.leb_le in H1, H2.
    exists (biome island, g). split.
    + unfold shapes. apply in_or_app. right. apply in_prod.
      * simpl. destruct Hd as [->| ->]; auto.
      * apply upto_In. lia.
    + cbn [fst snd]. rewrite String.eqb_refl. simpl. apply Z.eqb_refl.
  - unfold plain_size in Hk. apply andb_prop in Hk. destruct Hk as [_ Hs].
    destruct (Math_round (size island)) as [g|] eqn:Er; [|discriminate].
    simpl in Hs. apply andb_prop in Hs. destruct Hs as [H1 H2].
    apply Z.leb_le in H1, H2.
    exists (biome island, g). split.
    + unfold shapes. apply in_or_app. left. apply in_prod; [exact Hb|].
      apply upto_In. lia.
    + cbn [fst snd]. rewrite String.eqb_refl. simpl. apply Z.eqb_refl.
Qed.

End ShapeFacts.

(* ------------------------------------------------------------------ *)
(** ** The terrain cache during play *)
(* ------------------------------------------------------------------ *)

Module CacheFacts.
Import JS Config Three Data ChunkManager EventLoop.
Import DictFacts GenerationFacts StreamFacts QueueFacts TickFacts.
Import PersistenceFacts KeyFacts DrawFacts RecordFacts ShapeFacts.

Definition keys (g : Gfx) : list string := map fst (geometryCache g).

(** The terrain cache holds each key once, and only keys of shapes that
    [generateChunk] can write. *)
Record cache_within (g : Gfx) : Prop :=
  { within_once : NoDup (keys g);
    within_keys : forall k, In k (keys g) -> In k allowed_keys }.

(** The terrain cache of [g'] is that of [g] with entries added at the
    end. *)
Definition extends (g g' : Gfx) : Prop :=
  exists added, geometryCache g' = (geometryCache g ++ added)%list.

Lemma extends_refl g : extends g g.
Proof. exists []. now rewrite app_nil_r. Qed.

Lemma extends_trans g1 g2 g3 : extends g1 g2 -> extends g2 g3 -> extends g1 g3.
Proof.
  intros [a1 E1] [a2 E2]. exists (a1 ++ a2)%list.
  now rewrite E2, E1, app_assoc.
Qed.

Lemma extends_same g g' : geometryCache g' = geometryCache g -> extends g g'.
Proof. intros E. exists []. now rewrite app_nil_r. Qed.

Lemma within_same g g' :
  geometryCache g' = geometryCache g -> cache_within g -> cache_within g'.
Proof. intros E [A B]. constructor; unfold keys in *; rewrite E; auto. Qed.

Lemma get_app_Some {V} k (v : V) m added :
  Dict.get String.eqb k m = Some v ->
  Dict.get String.eqb k (m ++ added) = Some v.
Proof.
  induction m as [|[k' v'] m IH]; simpl; [discriminate|].
  destruct (String.eqb k k'); auto.
Qed.

(** Entries of the smaller cache are entries of the larger one. *)
Lemma extends_get g g' k t :
  extends g g' ->
  Dict.get String.eqb k (geometryCache g) = Some t ->
  Dict.get String.eqb k (geometryCache g') = Some t.
Proof. intros [added ->]. apply get_app_Some. Qed.

Lemma within_length g :
  cache_within g -> (List.length (geometryCache g) <= 38)%nat.
Proof.
  intros [A B]. rewrite <- allowed_keys_length.
  replace (List.length (geometryCache g)) with (List.length (keys g))
    by apply length_map.
  apply NoDup_incl_length; [exact A | exact B].
Qed.

(** What showing the island [island] does to the terrain cache: nothing,
    or one entry under the island's content key, which was absent. *)
Definition shown_in (island : IslandData) (g g' : Gfx) : Prop :=
  geometryCache g' = geometryCache g
  \/ exists b copy,
       IslandGenerator.getBiomeById (biome island) = Some b
       /\ Dict.get String.eqb (IslandGenerator.cacheKeyOf island b)
            (geometryCache g) = None
       /\ geometryCache g'
          = (geometryCache g
             ++ [(IslandGenerator.cacheKeyOf island b, copy)])%list.

Lemma shown_in_same island g g1 g' :
  geometryCache g' = geometryCache g1 -> shown_in island g g1 ->
  shown_in island g g'.
Proof.
  intros E [H|(b & copy & H1 & H2 & H3)]; [left; congruence|].
  right. exists b, copy. repeat split; congruence.
Qed.

Lemma shown_in_within island g g' :
  fits island = true -> shown_in island g g' -> cache_within g ->
  cache_within g' /\ extends g g'.
Proof.
  intros Hf [E|(b & copy & Hb & Hn & E)] W.
  - split; [now apply (within_same g) | now apply extends_same].
  - split; [|now exists [(IslandGenerator.cacheKeyOf island b, copy)]].
    destruct W as [A B]. constructor; unfold keys in *; rewrite E, map_app.
    + apply NoDup_app; [exact A | constructor; [simpl; tauto | constructor] |].
      intros k Hk [<-|[]].
      exact (get_None_keys String.eqb String.eqb_eq _ _ Hn Hk).
    + intros k Hk. apply in_app_or in Hk. destruct Hk as [Hk|[<-|[]]].
      * now apply B.
      * now apply fits_key.
Qed.

Section WithPlatform.
Variable P : Platform.

(** *** The generator *)

Lemma seedOf_cache island g :
  geometryCache (snd (IslandGenerator.seedOf P island g)) = geometryCache g.
Proof.
  unfold IslandGenerator.seedOf. destruct (String.eqb _ _); reflexivity.
Qed.

Lemma clone_cache t g : geometryCache (snd (clone t g)) = geometryCache g.
Proof. unfold clone. destruct (geometry_at t g); reflexivity. Qed.

Lemma createProceduralIslandMesh_cache island b g :
  IslandGenerator.getBiomeById (biome island) = Some b ->
  shown_in island g
    (snd (IslandGenerator.createProceduralIslandMesh P island b g)).
Proof.
  intros Hb. unfold IslandGenerator.createProceduralIslandMesh.
  pose proof (seedOf_cache island g) as E1.
  destruct (IslandGenerator.seedOf P island g) as [seed g1]. cbn [snd] in E1.
  cbv zeta.
  destruct (Dict.get String.eqb (IslandGenerator.cacheKeyOf island b)
              (geometryCache g1)) as [t|] eqn:Ec.
  - pose proof (clone_cache t g1) as E2.
    destruct (clone t g1) as [geo g2]. cbn [snd] in E2.
    left. cbn [snd new_object fresh]. cbn [geometryCache with_objects
      with_next_ref]. congruence.
  - match goal with
    | |- context [new_geometry ?rec g1] =>
        assert (E2 : geometryCache (snd (new_geometry rec g1))
                     = geometryCache g1) by reflexivity;
        destruct (new_geometry rec g1) as [geo g2]
    end.
    cbn [snd] in E2.
    pose proof (clone_cache geo g2) as E3.
    destruct (clone geo g2) as [copy g3]. cbn [snd] in E3.
    right. exists b, copy. split; [exact Hb|]. rewrite <- E1.
    split; [exact Ec|].
    cbn [snd new_object fresh]. cbn [geometryCache with_objects
      with_next_ref with_geometryCache].
    rewrite E3, E2. apply set_absent. exact Ec.
Qed.

Lemma validateSingleMeshGeometry_cache m g :
  geometryCache (snd (IslandGenerator.validateSingleMeshGeometry P m g))
  = geometryCache g.
Proof.
  unfold IslandGenerator.validateSingleMeshGeometry.
  destruct (object_at m g) as [[geo o|i c]|]; try reflexivity.
  destruct (geometry_at geo g); reflexivity.
Qed.

Lemma validateMeshGeometry_cache m g :
  geometryCache (snd (IslandGenerator.validateMeshGeometry P m g))
  = geometryCache g.
Proof.
  unfold IslandGenerator.validateMeshGeometry.
  destruct (object_at m g) as [[geo o|i c]|];
    try apply validateSingleMeshGeometry_cache.
  apply (fold_left_keeps (fun acc : bool * Gfx => geometryCache (snd acc))).
  intros [valid g0] child. cbn [snd].
  destruct (object_at child g0) as [[geo o|i' c']|]; try reflexivity.
  destruct valid; [reflexivity|]. apply validateSingleMeshGeometry_cache.
Qed.

Lemma group_add_cache grp child g :
  geometryCache (IslandGenerator.group_add grp child g) = geometryCache g.
Proof.
  unfold IslandGenerator.group_add.
  destruct (object_at grp g) as [[geo o|i c]|]; reflexivity.
Qed.

Lemma set_geometry_cache m geo g :
  geometryCache (IslandGenerator.set_geometry m geo g) = geometryCache g.
Proof.
  unfold IslandGenerator.set_geometry.
  destruct (object_at m g) as [[geo' o|i c]|]; reflexivity.
Qed.

Lemma computeBoundingSphere_cache geo g :
  geometryCache (IslandGenerator.computeBoundingSphere P geo g)
  = geometryCache g.
Proof.
  unfold IslandGenerator.computeBoundingSphere.
  destruct (geometry_at geo g); reflexivity.
Qed.

Lemma getBillboardGeometry_cache width height g :
  geometryCache (snd (IslandGenerator.getBillboardGeometry P width height g))
  = geometryCache g.
Proof.
  unfold IslandGenerator.getBillboardGeometry. cbv zeta.
  destruct (Dict.get String.eqb _ _); reflexivity.
Qed.

(** The fields of a record the cache key is computed from. *)
Definition same_shape (a b : IslandData) : Prop :=
  biome b = biome a /\ size b = size a.

Lemma same_shape_fits a b : same_shape a b -> fits a = true -> fits b = true.
Proof. intros [E1 E2]. unfold fits. now rewrite E1, E2. Qed.

Lemma addOutdoorToIsland_cache island grp g :
  geometryCache (snd (IslandGenerator.addOutdoorToIsland P island grp g))
  = geometryCache g
  /\ same_shape island
       (fst (IslandGenerator.addOutdoorToIsland P island grp g)).
Proof.
  unfold IslandGenerator.addOutdoorToIsland.
  destruct (outdoor island) as [o|]; [|split; [reflexivity | now split]].
  cbv zeta.
  pose proof (getBillboardGeometry_cache
                (size island * 1.2
                 * (1 + match adRank o with
                        | Some r =>
                            if PrimFloat.is_zero r || isNaN r then 1 else r
                        | None => 1
                        end / 20))%float
                (size island * 0.8
                 * (1 + match adRank o with
                        | Some r =>
                            if PrimFloat.is_zero r || isNaN r then 1 else r
                        | None => 1
                        end / 20))%float g) as E1.
  destruct (IslandGenerator.getBillboardGeometry P _ _ g) as [geo g1].
  cbn [snd] in E1.
  destruct (new_object (Mesh geo Billboard) g1) as [bb g2] eqn:E2.
  cbn [fst snd]. split; [|now split].
  rewrite group_add_cache.
  unfold new_object, fresh in E2. injection E2 as _ <-.
  exact E1.
Qed.

Lemma generator_addIslandMesh_cache island g :
  shown_in island g (snd (IslandGenerator.addIslandMesh P island g))
  /\ same_shape island (fst (IslandGenerator.addIslandMesh P island g)).
Proof.
  unfold IslandGenerator.addIslandMesh.
  destruct (IslandGenerator.getBiomeById (biome island)) as [b|] eqn:Hb;
    [|split; [now left | now split]].
  assert (E1 : geometryCache (snd (new_object (Group (id island) []) g))
               = geometryCache g) by reflexivity.
  destruct (new_object (Group (id island) []) g) as [grp g1].
  cbn [snd] in E1.
  pose proof (createProceduralIslandMesh_cache island b g1 Hb) as S2.
  destruct (IslandGenerator.createProceduralIslandMesh P island b g1)
    as [tm g2]. cbn [snd] in S2.
  pose proof (validateMeshGeometry_cache tm g2) as E3.
  destruct (IslandGenerator.validateMeshGeometry P tm g2) as [valid g3].
  cbn [snd] in E3.
  match goal with
  | |- context [IslandGenerator.group_add grp tm ?x] =>
      assert (E4 : geometryCache (IslandGenerator.group_add grp tm x)
                   = geometryCache g3);
      [|generalize dependent (IslandGenerator.group_add grp tm x)]
  end.
  { rewrite group_add_cache. destruct valid; [reflexivity|].
    match goal with
    | |- context [new_geometry ?rec g3] =>
        assert (E5 : geometryCache (snd (new_geometry rec g3))
                     = geometryCache g3) by reflexivity;
        destruct (new_geometry rec g3) as [fb g4]
    end.
    cbn [snd] in E5.
    now rewrite computeBoundingSphere_cache, set_geometry_cache. }
  intros g5 E4.
  assert (S5 : shown_in island g g5).
  { apply (shown_in_same island g g2); [congruence|].
    destruct S2 as [S2|(b' & copy & H1 & H2 & H3)]; [left; congruence|].
    right. exists b', copy. rewrite <- E1. auto. }
  clear S2 E3 E4.
  destruct (outdoor island) as [o|] eqn:Eo.
  - destruct (active o).
    + destruct (addOutdoorToIsland_cache island grp g5) as [E6 S6].
      destruct (IslandGenerator.addOutdoorToIsland P island grp g5)
        as [island6 g6]. cbn [fst snd] in *.
      split; [|exact S6]. apply (shown_in_same island g g5); [|exact S5].
      exact E6.
    + cbn [fst snd]. split; [|now split].
      apply (shown_in_same island g g5); [reflexivity | exact S5].
  - cbn [fst snd]. split; [|now split].
    apply (shown_in_same island g g5); [reflexivity | exact S5].
Qed.

(** *** The chunk manager on one island *)

Lemma createIslandLabel_cache island g :
  geometryCache (snd (createIslandLabel island g)) = geometryCache g
  /\ same_shape island (fst (createIslandLabel island g)).
Proof.
  unfold createIslandLabel.
  destruct (label island); [split; [reflexivity | now split]|].
  destruct (islandLabels g); split; try reflexivity; now split.
Qed.

Lemma addIslandMesh_cache island g :
  shown_in island g (snd (addIslandMesh P island g))
  /\ same_shape island (fst (addIslandMesh P island g)).
Proof.
  unfold addIslandMesh.
  destruct (generator_addIslandMesh_cache island g) as [S1 [B1 Z1]].
  destruct (IslandGenerator.addIslandMesh P island g) as [island1 g1].
  cbn [fst snd] in *.
  destruct (hasName island1); [|split; [exact S1 | now split]].
  destruct (createIslandLabel_cache island1 g1) as [E2 [B2 Z2]].
  destruct (createIslandLabel island1 g1) as [island2 g2]. cbn [fst snd] in *.
  split; [|split; congruence].
  apply (shown_in_same island g g1); [exact E2 | exact S1].
Qed.

Lemma removeIslandMesh_cache island g :
  geometryCache (snd (removeIslandMesh island g)) = geometryCache g
  /\ same_shape island (fst (removeIslandMesh island g)).
Proof.
  unfold removeIslandMesh, IslandGenerator.removeIslandMesh.
  destruct (mesh island); cbn [label with_mesh];
    destruct (label island); split; try reflexivity; now split.
Qed.

Lemma showIsland_cache island s :
  shown_in island (fst (fst s)) (fst (fst (snd (showIsland P island s))))
  /\ same_shape island (fst (showIsland P island s)).
Proof.
  destruct s as [[g m] visible]. unfold showIsland.
  destruct (addIslandMesh_cache island g) as [S1 B1].
  destruct (addIslandMesh P island g) as [island1 g1]. cbn [fst snd] in *.
  destruct (Dict.get String.eqb _ m); cbn [fst snd]; split; try exact B1.
  - apply (shown_in_same island g g1); [reflexivity | exact S1].
  - exact S1.
Qed.

End WithPlatform.

(** *** Passes over the store *)

(** The records of a store all fit. *)
Definition all_fit (records : list (string * IslandData)) : Prop :=
  forall i island, In (i, island) records -> fits island = true.

Lemma forEach_fits {S : Type} (I : S -> Prop) (select : IslandData -> bool)
  (f : IslandData -> S -> IslandData * S) :
  (forall island s, fits island = true -> I s ->
     I (snd (f island s)) /\ fits (fst (f island s)) = true) ->
  forall records s, all_fit records -> I s ->
    I (snd (forEach select f records s))
    /\ all_fit (fst (forEach select f records s)).
Proof.
  intros Hf records.
  induction records as [|[k island] rest IH]; intros s Hr Hs.
  - split; [exact Hs | exact Hr].
  - assert (Hrest : all_fit rest).
    { intros i isl H. apply (Hr i). now right. }
    simpl. destruct (select island).
    + destruct (Hf island s (Hr k island (or_introl eq_refl)) Hs) as [H1 H2].
      destruct (f island s) as [island' s1]. cbn [fst snd] in *.
      destruct (IH s1 Hrest H1) as [H3 H4].
      destruct (forEach select f rest s1) as [rest' s2]. cbn [fst snd] in *.
      split; [exact H3|]. intros i isl [[= <- <-]|H]; [exact H2|].
      now apply (H4 i).
    + destruct (IH s Hrest Hs) as [H3 H4].
      destruct (forEach select f rest s) as [rest' s2]. cbn [fst snd] in *.
      split; [exact H3|]. intros i isl [[= <- <-]|H].
      * apply (Hr k). now left.
      * now apply (H4 i).
Qed.

(** The world has only records that fit, and a terrain cache within the
    allowed keys. *)
Record settled (w : World) : Prop :=
  { settled_records : all_fit (islandData (dataManager w));
    settled_cache : cache_within (gfx w) }.

(** [w'] is settled and its terrain cache extends that of [w]. *)
Definition advance (w w' : World) : Prop :=
  settled w' /\ extends (gfx w) (gfx w').

Lemma advance_refl w : settled w -> advance w w.
Proof. intros H. split; [exact H | apply extends_refl]. Qed.

Lemma advance_trans w1 w2 w3 :
  advance w1 w2 -> advance w2 w3 -> advance w1 w3.
Proof.
  intros [_ E1] [S2 E2]. split; [exact S2|].
  eapply extends_trans; eassumption.
Qed.

Lemma advance_same w w' :
  islandData (dataManager w') = islandData (dataManager w) ->
  geometryCache (gfx w') = geometryCache (gfx w) ->
  settled w -> advance w w'.
Proof.
  intros E1 E2 [A B]. split; [|now apply extends_same].
  constructor; [now rewrite E1 | now apply (within_same (gfx w))].
Qed.

Lemma fold_advance {B} (f : World -> B -> World) :
  (forall a b, settled a -> advance a (f a b)) ->
  forall l w, settled w -> advance w (fold_left f l w).
Proof.
  intros Hf l. induction l as [|b l IH]; intros w Hw; simpl.
  - now apply advance_refl.
  - eapply advance_trans; [apply Hf, Hw|]. apply IH. apply Hf, Hw.
Qed.

Section WithPlatform.
Variable P : Platform.

(** *** The chunk manager on the world *)

Lemma overChunk_advance key (f : IslandData -> Gfx -> IslandData * Gfx) w :
  (forall island g,
     shown_in island g (snd (f island g))
     /\ same_shape island (fst (f island g))) ->
  settled w -> advance w (overChunk key f w).
Proof.
  intros Hf [A B]. unfold overChunk.
  pose proof (forEach_fits
                (fun g => cache_within g /\ extends (gfx w) g)
                (inChunk key) f) as F.
  specialize (F ltac:(intros island g Hi [W E];
                      destruct (Hf island g) as [H1 H2];
                      destruct (shown_in_within island g _ Hi H1 W)
                        as [W' E'];
                      split; [split; [exact W'|]|];
                      [eapply extends_trans; eassumption
                      |exact (same_shape_fits _ _ H2 Hi)])
                (islandData (dataManager w)) (gfx w) A
                (conj B (extends_refl (gfx w)))).
  destruct (forEach (inChunk key) f (islandData (dataManager w)) (gfx w))
    as [records g]. cbn [fst snd] in F. destruct F as [[W E] R].
  split; [constructor|]; cbn [gfx dataManager set_gfx set_dataManager
                               islandData]; assumption.
Qed.

Lemma loadChunk_advance key w : settled w -> advance w (loadChunk P key w).
Proof.
  intros H. unfold loadChunk.
  destruct (Dict.mem String.eqb key (loadedChunks w));
    [now apply advance_refl|].
  apply (overChunk_advance key (addIslandMesh P)
           (set_loadedChunks (Dict.add String.eqb key (loadedChunks w)) w)).
  - apply addIslandMesh_cache.
  - destruct H as [A B]. constructor; assumption.
Qed.

Lemma unloadChunk_advance key w : settled w -> advance w (unloadChunk key w).
Proof.
  intros H. unfold unloadChunk.
  destruct (negb _); [now apply advance_refl|].
  apply (overChunk_advance key removeIslandMesh
           (set_loadedChunks (Dict.drop String.eqb key (loadedChunks w)) w)).
  - intros island g. destruct (removeIslandMesh_cache island g) as [E S].
    split; [now left | exact S].
  - destruct H as [A B]. constructor; assumption.
Qed.

Lemma createPlaceholder_cache chunkKey w i :
  geometryCache (gfx (createPlaceholder P chunkKey w i))
  = geometryCache (gfx w).
Proof.
  unfold createPlaceholder. destruct (Dict.has String.eqb _ _); reflexivity.
Qed.

Lemma createPlaceholdersForChunk_cache chunkKey w :
  geometryCache (gfx (createPlaceholdersForChunk P chunkKey w))
  = geometryCache (gfx w).
Proof.
  unfold createPlaceholdersForChunk.
  assert (E : geometryCache (snd (random P (gfx w))) = geometryCache (gfx w))
    by reflexivity.
  destruct (random P (gfx w)) as [r g]. cbn [snd] in E.
  destruct (num_min _ _); [|exact E].
  rewrite (fold_left_keeps (fun a => geometryCache (gfx a))
             (createPlaceholder P chunkKey)); [exact E|].
  intros a b. apply createPlaceholder_cache.
Qed.

Lemma removePlaceholders_cache k w :
  geometryCache (gfx (removePlaceholdersForChunk k w))
  = geometryCache (gfx w).
Proof.
  unfold removePlaceholdersForChunk.
  apply (fold_left_keeps (fun a => geometryCache (gfx a))).
  intros a [i r]. destruct (startsWith i _); reflexivity.
Qed.

Lemma generateChunk_cache x z hd w :
  geometryCache (gfx (generateChunk P x z hd w)) = geometryCache (gfx w).
Proof.
  unfold generateChunk.
  destruct (Dict.mem String.eqb _ _); [reflexivity|]. cbv zeta.
  match goal with
  | |- context [removePlaceholdersForChunk ?k ?w0] =>
      pose proof (removePlaceholders_cache k w0) as E;
      generalize dependent (removePlaceholdersForChunk k w0)
  end.
  intros w1 E. cbn [gfx set_dataManager] in E.
  destruct (random P (gfx w1)) as [r g'] eqn:Er.
  unfold random in Er. injection Er as _ <-.
  destruct (_ <? _)%float; cbn [gfx set_gfx set_localStorage];
    exact E.
Qed.

Lemma generateChunk_advance x z hd w :
  settled w -> advance w (generateChunk P x z hd w).
Proof.
  intros [A B]. split.
  - constructor.
    + destruct (Dict.mem String.eqb (chunkKeyOf x z)
                  (generatedChunks (dataManager w))) eqn:E.
      * now rewrite generateChunk_generated.
      * destruct (generateChunk_store P x z hd w E)
          as (n & st & [R _ _ _ _] & _ & ->).
        cbn [islandData addGeneratedChunk]. intros i island Hin.
        destruct (R i island Hin) as [H|[_ H]]; [now apply (A i)|].
        now apply (generated_fits x z).
    + apply (within_same (gfx w)); [apply generateChunk_cache | exact B].
  - apply extends_same, generateChunk_cache.
Qed.

Lemma enqueue_gfx key w : gfx (enqueue key w) = gfx w.
Proof. unfold enqueue. destruct (_ && _); reflexivity. Qed.

Lemma trackHigh_advance cx cz w : settled w -> advance w (trackHigh cx cz w).
Proof.
  unfold trackHigh. apply fold_advance.
  intros a [dx dz] Ha. apply advance_same; [| |exact Ha].
  - destruct (stock_eq _ _ (enqueue_stock
                              (chunkKeyOf (Int (cx + dx)) (Int (cz + dz))) a))
      as [E _]. now rewrite E.
  - now rewrite enqueue_gfx.
Qed.

Lemma trackLow_advance cx cz w :
  settled w -> advance w (trackLow P cx cz w).
Proof.
  unfold trackLow. apply fold_advance.
  intros a [dx dz] Ha.
  destruct (isHighOffset (dx, dz)); [now apply advance_refl|]. cbv zeta.
  set (key := chunkKeyOf (Int (cx + dx)) (Int (cz + dz))).
  assert (H1 : islandData (dataManager (enqueue key a))
               = islandData (dataManager a)
               /\ geometryCache (gfx (enqueue key a))
                  = geometryCache (gfx a)).
  { destruct (stock_eq _ _ (enqueue_stock key a)) as [E _].
    now rewrite E, enqueue_gfx. }
  revert H1. generalize (enqueue key a). intros w1 [D1 C1].
  apply advance_same; [| |exact Ha].
  - destruct (_ && _); [|exact D1].
    destruct (createPlaceholdersForChunk_fields P key w1) as (E & _).
    now rewrite E.
  - destruct (_ && _); [|exact C1].
    now rewrite createPlaceholdersForChunk_cache.
Qed.

Lemma loadHigh_advance acc key :
  settled (snd acc) -> advance (snd acc) (snd (loadHigh P acc key)).
Proof.
  destruct acc as [visible w]. cbn [snd]. intros [A B]. unfold loadHigh.
  destruct (_ && _).
  - pose proof (forEach_fits
                  (fun s : Loading =>
                     cache_within (fst (fst s))
                     /\ extends (gfx w) (fst (fst s)))
                  (inChunk key) (showIsland P)) as F.
    specialize (F ltac:(intros island s Hi [W E];
                        destruct (showIsland_cache P island s) as [H1 H2];
                        destruct (shown_in_within island _ _ Hi H1 W)
                          as [W' E'];
                        split; [split; [exact W'|]|];
                        [eapply extends_trans; eassumption
                        |exact (same_shape_fits _ _ H2 Hi)])
                  (islandData (dataManager w))
                  (gfx w, lowPolyIslands w, visible) A
                  (conj B (extends_refl (gfx w)))).
    destruct (forEach (inChunk key) (showIsland P) _ _)
      as [records [[g m] v]]. cbn [fst snd] in F.
    destruct F as [[W E] R].
    split; [constructor|]; cbn [gfx dataManager set_gfx set_dataManager
      set_loadedChunks set_lowPolyIslands islandData]; assumption.
  - destruct (Dict.mem _ _ _);
      [destruct (forEach (inChunk key) noteVisible _ _)|];
      apply advance_refl; now constructor.
Qed.

Lemma loadHigh_fold_advance l acc :
  settled (snd acc) ->
  advance (snd acc) (snd (fold_left (loadHigh P) l acc)).
Proof.
  revert acc. induction l as [|key l IH]; intros acc H; simpl.
  - now apply advance_refl.
  - pose proof (loadHigh_advance acc key H) as H1.
    eapply advance_trans; [exact H1|]. apply IH. apply H1.
Qed.

Lemma unloadFar_advance low w key :
  settled w -> advance w (unloadFar low w key).
Proof.
  intros H. unfold unloadFar.
  destruct (negb _); [now apply unloadChunk_advance | now apply advance_refl].
Qed.

(** A cache within the allowed keys is below the ceiling of the sweep. *)
Lemma clearUnusedCaches_keeps g :
  cache_within g ->
  geometryCache (IslandGenerator.clearUnusedCaches g) = geometryCache g.
Proof.
  intros W. pose proof (within_length g W) as L.
  unfold IslandGenerator.clearUnusedCaches.
  destruct (50 <? List.length (geometryCache g))%nat eqn:E.
  - apply Nat.ltb_lt in E. lia.
  - destruct (20 <? _)%nat; reflexivity.
Qed.

Lemma sweepCaches_advance w : settled w -> advance w (sweepCaches w).
Proof.
  intros H. apply advance_same; [| |exact H].
  - destruct (stock_eq _ _ (proj1 (sweepCaches_stock w))) as [E _].
    now rewrite E.
  - unfold sweepCaches. cbv zeta.
    destruct (50 <? _); [|reflexivity].
    cbn [gfx set_gfx set_chunkUpdateCounter].
    apply clearUnusedCaches_keeps. apply H.
Qed.

Lemma updateChunks_advance p w :
  settled w -> advance w (snd (updateChunks P p w)).
Proof.
  intros H. rewrite updateChunks_unfold.
  assert (H1 : advance w (beforeQueue P p w)).
  { unfold beforeQueue. cbv zeta.
    set (cx := chunkIndex (vx p)). set (cz := chunkIndex (vz p)).
    pose proof (trackHigh_advance cx cz w H) as T1.
    pose proof (trackLow_advance cx cz _ (proj1 T1)) as T2.
    pose proof (advance_trans _ _ _ T1 T2) as T. clear T1 T2.
    revert T. generalize (trackLow P cx cz (trackHigh cx cz w)).
    intros w1 T.
    pose proof (loadHigh_fold_advance (highDetailChunks cx cz) ([], w1)
                  (proj1 T)) as L. cbn [snd] in L.
    pose proof (advance_trans _ _ _ T L) as T'. clear T L.
    revert T'.
    generalize (snd (fold_left (loadHigh P) (highDetailChunks cx cz)
                       ([], w1))).
    intros w2 T.
    eapply advance_trans; [exact T|].
    apply fold_advance; [|apply T].
    intros a key. apply unloadFar_advance. }
  revert H1. generalize (beforeQueue P p w). intros w1 H1.
  eapply advance_trans; [exact H1|].
  assert (H2 : advance w1 (processNextPendingChunk p w1)).
  { destruct (processNextPendingChunk_stock p w1) as [E G].
    apply stock_eq in E. destruct E as [E _].
    apply advance_same; [now rewrite E | now rewrite G | apply H1]. }
  eapply advance_trans; [exact H2|].
  apply sweepCaches_advance. apply H2.
Qed.

Lemma runTask_advance t w : settled w -> advance w (runTask P t w).
Proof.
  intros H. unfold runTask. cbv zeta.
  pose proof (generateChunk_advance (task_chunkX t) (task_chunkZ t)
                (task_near t) w H) as H1.
  revert H1.
  generalize (generateChunk P (task_chunkX t) (task_chunkZ t)
                (task_near t) w).
  intros w1 H1.
  eapply advance_trans; [exact H1|].
  assert (H2 : advance w1
                 (if task_near t then
                    if negb (Dict.mem String.eqb
                               (chunkKeyOf (task_chunkX t) (task_chunkZ t))
                               (loadedChunks w1))
                    then loadChunk P
                           (chunkKeyOf (task_chunkX t) (task_chunkZ t)) w1
                    else w1
                  else w1)).
  { destruct (task_near t); [|apply advance_refl, H1].
    destruct (negb _); [apply loadChunk_advance | apply advance_refl];
      apply H1. }
  eapply advance_trans; [exact H2|].
  apply advance_same; [reflexivity | reflexivity | apply H2].
Qed.

Lemma step_advance w e : settled w -> advance w (step P w e).
Proof.
  intros H. destruct e as [p|n]; cbn [step].
  - now apply updateChunks_advance.
  - destruct (nth_error (timers w) n) as [t|]; [|now apply advance_refl].
    apply (advance_trans w (set_timers (without n (timers w)) w)).
    + now apply advance_same.
    + apply runTask_advance. destruct H as [A B]. now constructor.
Qed.

Lemma run_advance events : forall w, settled w -> advance w (run P events w).
Proof.
  unfold run. induction events as [|e events IH]; intros w H; simpl.
  - now apply advance_refl.
  - pose proof (step_advance w e H) as H1.
    eapply advance_trans; [exact H1|]. apply IH. apply H1.
Qed.

Lemma initial_settled st :
  all_fit (islandData (new_DataManager st)) -> settled (initial st).
Proof.
  intros H. constructor; [exact H|].
  constructor; unfold keys; cbn [gfx initial emptyGfx geometryCache map];
    [constructor | intros k []].
Qed.

End WithPlatform.

End CacheFacts.

(* ------------------------------------------------------------------ *)
(** ** The islands of loaded regions *)
(* ------------------------------------------------------------------ *)

Module ShownFacts.
Import JS Config Three Data ChunkManager EventLoop.
Import DictFacts GenerationFacts StreamFacts UnloadFacts QueueFacts TickFacts.
Import ChunkFacts RunFacts MeshFacts KeyFacts DrawFacts RecordFacts ShapeFacts.
Import CacheFacts.


Definition known (island : IslandData) : Prop :=
  IslandGenerator.getBiomeById (biome island) <> None.



Section WithPlatform.
Variable P : Platform.

Lemma createIslandLabel_mesh island g :
  mesh (fst (createIslandLabel island g)) = mesh island.
Proof.
  unfold createIslandLabel. destruct (label island); [reflexivity|].
  destruct (islandLabels g); reflexivity.
Qed.

Lemma generator_addIslandMesh_shows island g :
  known island ->
  mesh (fst (IslandGenerator.addIslandMesh P island g)) <> None.
Proof.
  unfold known, IslandGenerator.addIslandMesh.
  destruct (IslandGenerator.getBiomeById (biome island)) as [b|];
    [intros _|congruence].
  destruct (new_object _ g) as [grp g1].
  destruct (IslandGenerator.createProceduralIslandMesh P island b g1)
    as [tm g2].
  destruct (IslandGenerator.validateMeshGeometry P tm g2) as [valid g3].
  match goal with
  | |- context [IslandGenerator.group_add grp tm ?x] =>
      generalize (IslandGenerator.group_add grp tm x)
  end.
  intros g4.
  destruct (outdoor island) as [o|]; [|discriminate].
  destruct (active o); [|discriminate].
  destruct (IslandGenerator.addOutdoorToIsland P island grp g4) as [i5 g5].
  discriminate.
Qed.

Lemma addIslandMesh_shows island g :
  known island -> mesh (fst (addIslandMesh P island g)) <> None.
Proof.
  intros K. unfold addIslandMesh.
  pose proof (generator_addIslandMesh_shows island g K) as M.
  destruct (IslandGenerator.addIslandMesh P island g) as [i1 g1].
  cbn [fst] in M. destruct (hasName i1); [|exact M].
  now rewrite createIslandLabel_mesh.
Qed.











End WithPlatform.


End ShownFacts.

(* ------------------------------------------------------------------ *)
(** ** The store during play *)
(* ------------------------------------------------------------------ *)

Module StoreFacts.
Import JS Config Three Data ChunkManager EventLoop.
Import DictFacts GenerationFacts StreamFacts UnloadFacts QueueFacts TickFacts.
Import GeneratorFacts ChunkFacts RunFacts MeshFacts PersistenceFacts.
Import KeyFacts DrawFacts RecordFacts.




Lemma keyed_same d d' :
  islandData d' = islandData d -> generatedChunks d' = generatedChunks d ->
  keyed d -> keyed d'.
Proof. intros E1 E2 [A B C]. constructor; rewrite ?E1, ?E2; assumption. Qed.



Section WithPlatform.
Variable P : Platform.













End WithPlatform.




End StoreFacts.

(* ------------------------------------------------------------------ *)
(** ** Further properties of generation and streaming *)
(* ------------------------------------------------------------------ *)

Module StreamingProperties.
Import JS Hash Config Three Data ChunkManager EventLoop.
Import DictFacts GenerationFacts StreamFacts UnloadFacts QueueFacts TickFacts.
Import RunFacts MeshFacts PersistenceFacts.
Import KeyFacts QueueOrder TickCover DrawFacts RecordFacts ShapeFacts.
Import CacheFacts ShownFacts StoreFacts.
Import StreamingClaims.

(** X5: both hashes return an integer between [0] and [2^31]: the loop
    keeps the hash within 32 signed bits and [Math.abs] of the least such
    integer is [2^31].  The residue the seeded functions take of it is a
    number of thousandths (hundredths) between 0 and 999 (99). *)
Theorem hashes_stay_in_range (s : string) :
  0 <= hashCode s <= 2 ^ 31
  /\ 0 <= simpleHash s <= 2 ^ 31
  /\ 0 <= Z.rem (hashCode s) 1000 < 1000
  /\ 0 <= Z.rem (simpleHash s) 1000 < 1000
  /\ 0 <= Z.rem (simpleHash s) 100 < 100.
Proof.
  pose proof (hashCode_range s) as H. pose proof (simpleHash_range s) as S.
  split; [exact H|]. split; [exact S|].
  repeat split; apply Z.rem_bound_pos; lia.
Qed.







(** X10: after a tick with the ship in chunk [(cx, cz)], every region at
    most two chunks away on each axis is generated, or waits in the
    queue, or has its callback waiting. *)
Theorem tick_tracks_the_window (P : Platform) (playerPosition : Vector3)
  (w : World) (dx dz : Z) :
  - 2 <= dx <= 2 -> - 2 <= dz <= 2 ->
  let w' := snd (updateChunks P playerPosition w) in
  let k :=
    chunkKeyOf (Int (chunkIndex (vx playerPosition) + dx))
      (Int (chunkIndex (vz playerPosition) + dz)) in
  In k (generatedChunks (dataManager w'))
  \/ In k (pendingChunks w')
  \/ exists t, In t (timers w') /\ task_chunkKey t = k.
Proof.
  intros Hx Hz. apply updateChunks_tracks. now exists dx, dz.
Qed.

(** After the first frame at the origin region (2,2) waits in the
    queue. *)
Lemma tick_tracks_the_window_witness :
  let w' := snd (updateChunks Standin.platform (vec3 0 0 0)
                   (initial emptyStorage)) in
  In "2_2" (pendingChunks w').
Proof.
  intros w'.
  destruct (tick_tracks_the_window Standin.platform (vec3 0 0 0)
              (initial emptyStorage) 2 2 ltac:(lia) ltac:(lia))
    as [H|[H|(t & H & E)]].
  - exfalso. revert H. vm_compute. tauto.
  - exact H.
  - exfalso. revert H E. vm_compute. intros [<-|[]]. discriminate.
Defined.

(** X11: after a tick, every generated region at most one chunk away
    from the ship's chunk on each axis is loaded. *)
Theorem tick_loads_generated_neighbours (P : Platform)
  (playerPosition : Vector3) (w : World) (dx dz : Z) :
  - 1 <= dx <= 1 -> - 1 <= dz <= 1 ->
  let k :=
    chunkKeyOf (Int (chunkIndex (vx playerPosition) + dx))
      (Int (chunkIndex (vz playerPosition) + dz)) in
  In k (generatedChunks (dataManager w)) ->
  In k (loadedChunks (snd (updateChunks P playerPosition w))).
Proof.
  intros Hx Hz k G. apply updateChunks_loads; [|exact G].
  now exists dx, dz.
Qed.

(** A returning player whose nine central regions are generated has
    region (1,1) loaded by the first frame. *)
Lemma tick_loads_generated_neighbours_witness :
  In "1_1"
    (loadedChunks (snd (updateChunks Standin.platform (vec3 0 0 0)
                          (initial visitedOrigin)))).
Proof.
  apply (tick_loads_generated_neighbours Standin.platform (vec3 0 0 0)
           (initial visitedOrigin) 1 1); [lia | lia |].
  vm_compute. repeat (first [left; reflexivity | right]).
Defined.

(** X12: every record in the store after [generateChunk] for region
    [(x, z)] was there before or was written by the call, under its own
    id, for that region: without name, mesh or label, with a biome of the
    table, at an offset of at least 0 and less than 100 from the corner
    of the region on both axes, and either without advertisement and
    with a size of at least 5 and less than 10, or with an active
    advertisement of a rank of the tier table, biome Desert or Volcano,
    and a size of at least 6.5 and less than 17. *)
Theorem generated_records_are_well_formed (P : Platform) (x z : num)
  (highDetail : bool) (w : World) :
  Forall
    (fun entry : string * IslandData =>
       In entry (islandData (dataManager w))
       \/ (fst entry = id (snd entry) /\ generated_for x z (snd entry)))
    (islandData (dataManager (generateChunk P x z highDetail w))).
Proof.
  apply Forall_forall. intros [i island] Hin.
  destruct (Dict.mem String.eqb (chunkKeyOf x z)
              (generatedChunks (dataManager w))) eqn:E.
  - rewrite generateChunk_generated in Hin by exact E. now left.
  - destruct (generateChunk_store P x z highDetail w E)
      as (n & st & [R _ _ _ _] & _ & D).
    rewrite D in Hin. exact (R i island Hin).
Qed.

(** X13: one call of [generateChunk] adds at most six records to the
    store (four in low detail), and at most one advertisement island. *)
Theorem generateChunk_stays_within_budget (P : Platform) (x z : num)
  (highDetail : bool) (w : World) :
  let before := islandData (dataManager w) in
  let after := islandData (dataManager (generateChunk P x z highDetail w)) in
  (List.length after
   <= List.length before + (if highDetail then 6 else 4))%nat
  /\ (ads after <= ads before + 1)%nat.
Proof.
  cbv zeta.
  destruct (Dict.mem String.eqb (chunkKeyOf x z)
              (generatedChunks (dataManager w))) eqn:E.
  - rewrite generateChunk_generated by exact E. split; lia.
  - destruct (generateChunk_store P x z highDetail w E)
      as (n & st & [_ _ C L A] & B & ->).
    cbn [islandData addGeneratedChunk].
    unfold MAX_ADS_PER_CHUNK in L. split.
    + unfold budget in B. destruct highDetail; simpl in B; lia.
    + lia.
Qed.

Lemma all_fit_check records :
  forallb (fun entry : string * IslandData => fits (snd entry)) records
  = true ->
  all_fit records.
Proof.
  intros H i island Hin. rewrite forallb_forall in H.
  exact (H (i, island) Hin).
Qed.

(** X14: when every stored record has a biome and a rounded size that
    [generateChunk] can write, the terrain cache never holds more than
    38 templates in a world reached from the fresh page, so the sweep of
    [clearUnusedCaches], whose ceiling is 50, leaves it as it is, and a
    template once cached stays cached under its key. *)
Theorem terrain_cache_stays_below_its_ceiling (P : Platform) (st : Storage)
  (events : list Event) :
  all_fit (islandData (new_DataManager st)) ->
  let w := run P events (initial st) in
  (List.length (geometryCache (gfx w)) <= 38)%nat
  /\ geometryCache (IslandGenerator.clearUnusedCaches (gfx w))
     = geometryCache (gfx w)
  /\ forall later key template,
       Dict.get String.eqb key (geometryCache (gfx w)) = Some template ->
       Dict.get String.eqb key (geometryCache (gfx (run P later w)))
       = Some template.
Proof.
  intros H w.
  destruct (run_advance P events _ (initial_settled st H)) as [S _].
  fold w in S. split; [apply within_length, S|].
  split; [apply clearUnusedCaches_keeps, S|].
  intros later key template.
  destruct (run_advance P later w S) as [_ E]. now apply extends_get.
Qed.

(** The storage written during three rounds at the origin is such a
    storage. *)
Lemma terrain_cache_stays_below_its_ceiling_witness :
  let st :=
    localStorage (run Standin.saving (rounds 3 0 0) (initial emptyStorage)) in
  let w := run Standin.platform (rounds 3 0 0) (initial st) in
  (List.length (geometryCache (gfx w)) <= 38)%nat
  /\ geometryCache (IslandGenerator.clearUnusedCaches (gfx w))
     = geometryCache (gfx w).
Proof.
  intros st w.
  destruct (terrain_cache_stays_below_its_ceiling Standin.platform st
              (rounds 3 0 0)) as (A & B & _).
  - apply all_fit_check. vm_compute. reflexivity.
  - split; [exact A | exact B].
Defined.




End StreamingProperties.

(* ================================================================== *)
(** * The page around the game: clock, dialogs and windows *)
(* ================================================================== *)

Module Host.
Import JS Three.

(** What the browser answers and the repository does not define:
    [Math.hypot] (implementation-approximated in ECMAScript), the value
    of each call of [Date.now], and what the player answers to each
    dialog, in the order of the calls. *)
Record Host : Type :=
  { Math_hypot : float -> float -> float;
    Date_now : nat -> float;
    confirm : nat -> string -> bool;
    prompt : nat -> string -> option string }.

(** What the game has done to the page so far: how often it read the
    clock, the messages of the dialogs it showed, and the addresses it
    opened in a new tab. *)
Record Page : Type :=
  { clockReads : nat;
    dialogs : list string;
    opened : list string }.

Definition freshPage : Page :=
  {| clockReads := 0%nat; dialogs := []; opened := [] |}.

(** [Date.now()] *)
Definition now (H : Host) (page : Page) : float * Page :=
  (Date_now H (clockReads page),
   {| clockReads := S (clockReads page); dialogs := dialogs page;
      opened := opened page |}).

(** [confirm(message)] *)
Definition ask (H : Host) (message : string) (page : Page) : bool * Page :=
  (confirm H (List.length (dialogs page)) message,
   {| clockReads := clockReads page;
      dialogs := (dialogs page ++ [message])%list;
      opened := opened page |}).

(** [prompt(message)] *)
Definition request (H : Host) (message : string) (page : Page)
  : option string * Page :=
  (prompt H (List.length (dialogs page)) message,
   {| clockReads := clockReads page;
      dialogs := (dialogs page ++ [message])%list;
      opened := opened page |}).

(** [window.open(url, '_blank')] *)
Definition window_open (url : string) (page : Page) : Page :=
  {| clockReads := clockReads page; dialogs := dialogs page;
     opened := (opened page ++ [url])%list |}.

(** Whether a number counts as true in a condition. *)
Definition truthy (x : float) : bool :=
  negb (PrimFloat.is_zero x || PrimFloat.is_nan x).

End Host.

(* ================================================================== *)
(** * The remaining methods of [ChunkManager] *)
(* ================================================================== *)

Module ChunkManagerRest.
Import JS Hash Config Three Data ChunkManager Host.

Definition AD_INTERACTION_DISTANCE : float := 5.

Definition with_lastInteractionTime (t : option float) (o : Outdoor)
  : Outdoor :=
  {| image := image o; url := url o; active := active o;
     billboard := billboard o; lastInteractionTime := t;
     adRank := adRank o |}.

(** [island.outdoor && island.outdoor.active] *)
Definition isActiveAd (island : IslandData) : bool :=
  match outdoor island with Some o => active o | None => false end.

(** The callback of the loop of [checkForAdIslandProximity]; the state
    it threads is [hasInteracted] and the page. *)
Definition visitAd (H : Host) (playerPosition : Vector3)
  (island : IslandData) (s : bool * Page) : IslandData * (bool * Page) :=
  match outdoor island with
  | None => (island, s)
  | Some o =>
      let dx := (pos_x (pos island) - vx playerPosition)%float in
      let dz := (pos_z (pos island) - vz playerPosition)%float in
      let distance := Math_hypot H dx dz in
      if (distance <? AD_INTERACTION_DISTANCE)%float then
        let (hasInteracted, page) := s in
        let (due, page) :=
          match lastInteractionTime o with
          | Some t =>
              if truthy t then
                let (time, page) := now H page in
                ((10000 <? time - t)%float, page)
              else (true, page)
          | None => (true, page)
          end in
        if due then
          let (willRedirect, page) :=
            ask H ("Visit advertisement: " ++ url o ++ "?") page in
          let (hasInteracted, page) :=
            if willRedirect then (true, window_open (url o) page)
            else (hasInteracted, page) in
          let (time, page) := now H page in
          (with_outdoor (Some (with_lastInteractionTime (Some time) o))
             island,
           (hasInteracted, page))
        else (island, (hasInteracted, page))
      else (island, s)
  end.

(** [checkForAdIslandProximity] *)
Definition checkForAdIslandProximity (H : Host) (playerPosition : Vector3)
  (w : World) (page : Page) : bool * World * Page :=
  let '(records, (hasInteracted, page)) :=
    forEach isActiveAd (visitAd H playerPosition)
      (islandData (dataManager w)) (false, page) in
  (hasInteracted,
   set_dataManager
     {| islandData := records;
        generatedChunks := generatedChunks (dataManager w) |} w,
   page).

(** [getBiomeColor] *)
Definition getBiomeColor (biomeName : string) : Z :=
  match find (fun b => String.eqb (Config.biomeName b) biomeName) BIOMES with
  | Some biome => color biome
  | None => 0x00FF00
  end.

(** [getChunkKey], for a position that is finite ([Math_floor] reads any
    other as [NaN]). *)
Definition getChunkKey (x z : float) : string :=
  chunkKeyOf (Math_floor (x / float_of_Z CHUNK_SIZE)%float)
    (Math_floor (z / float_of_Z CHUNK_SIZE)%float).

(** [isChunkLoaded] *)
Definition isChunkLoaded (key : string) (w : World) : bool :=
  Dict.mem String.eqb key (loadedChunks w).

(** [dispose]: every loaded chunk is unloaded, every placeholder leaves
    the scene, and the three collections are emptied.  Neither the busy
    flag nor a callback that waits is touched. *)
Definition dispose (w : World) : World :=
  let w := fold_left (fun w key => unloadChunk key w) (loadedChunks w) w in
  let w :=
    fold_left
      (fun w (entry : string * ref) =>
         set_gfx (scene_remove (snd entry) (gfx w)) w)
      (lowPolyIslands w) w in
  let w := set_lowPolyIslands [] w in
  let w := set_loadedChunks [] w in
  set_pendingChunks [] w.

End ChunkManagerRest.

(* ================================================================== *)
(** * Facts about the advertisement check *)
(* ================================================================== *)

Module ProximityFacts.
Import JS Hash Config Three Data ChunkManager Host ChunkManagerRest.

(** The horizontal distance the two checks compare with their limit. *)
Definition inRange (H : Host) (p : Vector3) (limit : float)
  (island : IslandData) : bool :=
  (Math_hypot H (pos_x (pos island) - vx p) (pos_z (pos island) - vz p)
   <? limit)%float.

(** The message of the dialog of an advertisement. *)
Definition adMessage (o : Outdoor) : string :=
  "Visit advertisement: " ++ url o ++ "?".

(** A record after the check: itself, or itself with a new time stamp
    on its advertisement. *)
Definition same_but_time (a b : IslandData) : Prop :=
  b = a
  \/ exists o t, outdoor a = Some o
       /\ b = with_outdoor (Some (with_lastInteractionTime (Some t) o)) a.

(** An active advertisement within reach. *)
Definition reachable_ad (H : Host) (p : Vector3) (island : IslandData)
  : bool :=
  isActiveAd island && inRange H p AD_INTERACTION_DISTANCE island.

(** What a run of the check may add to the page, for advertisements
    taken from [ads]: at most [n] dialogs, and windows only for dialogs. *)
Inductive grew (ads : Outdoor -> Prop) (n : nat) (s s' : bool * Page)
  : Prop :=
| Grew (asked urls : list string)
    (Hdialogs : dialogs (snd s') = (dialogs (snd s) ++ asked)%list)
    (Hopened : opened (snd s') = (opened (snd s) ++ urls)%list)
    (Hclock : (clockReads (snd s) <= clockReads (snd s'))%nat)
    (Hcount : (List.length urls <= List.length asked <= n)%nat)
    (Hmessages : Forall (fun m => exists o, ads o /\ m = adMessage o) asked)
    (Htargets : Forall (fun u => exists o, ads o /\ u = url o) urls)
    (Hresult : fst s' = true <-> fst s = true \/ urls <> []).

Lemma grew_same (ads : Outdoor -> Prop) n (s s' : bool * Page) :
  fst s' = fst s -> dialogs (snd s') = dialogs (snd s) ->
  opened (snd s') = opened (snd s) ->
  (clockReads (snd s) <= clockReads (snd s'))%nat ->
  grew ads n s s'.
Proof.
  intros B D O C. apply (Grew _ _ _ _ [] []).
  - now rewrite app_nil_r.
  - now rewrite app_nil_r.
  - exact C.
  - simpl. lia.
  - constructor.
  - constructor.
  - rewrite B. split; [now left | intros [E | E]; [exact E | now destruct E]].
Qed.

Lemma grew_refl ads s : grew ads 0 s s.
Proof. apply grew_same; reflexivity || lia. Qed.

Lemma grew_trans (ads : Outdoor -> Prop) n m s1 s2 s3 :
  grew ads n s1 s2 -> grew ads m s2 s3 -> grew ads (n + m) s1 s3.
Proof.
  intros [a1 u1 D1 O1 C1 N1 M1 T1 R1] [a2 u2 D2 O2 C2 N2 M2 T2 R2].
  apply (Grew _ _ _ _ (a1 ++ a2)%list (u1 ++ u2)%list).
  - rewrite D2, D1. now rewrite app_assoc.
  - rewrite O2, O1. now rewrite app_assoc.
  - lia.
  - rewrite !length_app. lia.
  - apply Forall_app. now split.
  - apply Forall_app. now split.
  - rewrite R2, R1. split.
    + intros [[E | E] | E]; [now left | right | right].
      * destruct u1; [now destruct E | discriminate].
      * destruct u1; [exact E | discriminate].
    + intros [E | E]; [now left; left|].
      destruct u1 as [|u r]; [now right | left; right; discriminate].
Qed.

Lemma grew_weaken (ads ads' : Outdoor -> Prop) n m s s' :
  (forall o, ads o -> ads' o) -> (n <= m)%nat ->
  grew ads n s s' -> grew ads' m s s'.
Proof.
  intros Hsub Hle [a u D O C N M T R].
  apply (Grew _ _ _ _ a u); try assumption; try lia.
  - eapply Forall_impl; [|exact M]. intros x (o & Ho & E). eauto.
  - eapply Forall_impl; [|exact T]. intros x (o & Ho & E). eauto.
Qed.

Lemma grew_none (ads ads' : Outdoor -> Prop) s s' :
  grew ads 0 s s' -> grew ads' 0 s s'.
Proof.
  intros [a u D O C N M T R].
  assert (a = []) as -> by (destruct a; [reflexivity | simpl in N; lia]).
  assert (u = []) as -> by (destruct u; [reflexivity | simpl in N; lia]).
  apply (Grew _ _ _ _ [] []); try assumption; constructor.
Qed.

Section WithHost.
Variable H : Host.
Variable p : Vector3.

(** One visit of the loop: the record keeps everything but its time
    stamp, and the page grows by at most one dialog, which is about this
    advertisement. *)
Lemma visitAd_spec island o s :
  outdoor island = Some o ->
  let r := visitAd H p island s in
  same_but_time island (fst r)
  /\ grew (fun o' => o' = o)
       (if inRange H p AD_INTERACTION_DISTANCE island then 1 else 0)
       s (snd r).
Proof.
  intros Ho. unfold visitAd, inRange. rewrite Ho.
  destruct (_ <? AD_INTERACTION_DISTANCE)%float;
    [|split; [now left | apply grew_refl]].
  destruct s as [b page].
  assert (Hdue : forall page0 : Page,
            dialogs page0 = dialogs page -> opened page0 = opened page ->
            (clockReads page <= clockReads page0)%nat ->
            let r :=
              (let (willRedirect, page1) :=
                 ask H ("Visit advertisement: " ++ url o ++ "?") page0 in
               let (hasInteracted, page2) :=
                 if willRedirect then (true, window_open (url o) page1)
                 else (b, page1) in
               let (time, page3) := now H page2 in
               (with_outdoor
                  (Some (with_lastInteractionTime (Some time) o)) island,
                (hasInteracted, page3))) in
            same_but_time island (fst r)
            /\ grew (fun o' => o' = o) 1 (b, page) (snd r)).
  { intros page0 D O C. unfold ask, now, window_open. cbv beta iota zeta.
    destruct (confirm H _ _); cbn [fst snd].
    - split; [right; eauto|].
      apply (Grew _ _ _ _ [adMessage o] [url o]);
        cbn [fst snd dialogs opened clockReads List.length].
      + now rewrite D.
      + now rewrite O.
      + lia.
      + lia.
      + repeat constructor. eauto.
      + repeat constructor. eauto.
      + split; [right; discriminate | reflexivity].
    - split; [right; eauto|].
      apply (Grew _ _ _ _ [adMessage o] []);
        cbn [fst snd dialogs opened clockReads List.length].
      + now rewrite D.
      + now rewrite O, app_nil_r.
      + lia.
      + lia.
      + repeat constructor. eauto.
      + constructor.
      + split; [now left | intros [E | E]; [exact E | now destruct E]]. }
  destruct (lastInteractionTime o) as [t|];
    [destruct (truthy t)|]; try (apply Hdue; try reflexivity; lia).
  destruct (now H page) as [time page0] eqn:En.
  assert (dialogs page0 = dialogs page /\ opened page0 = opened page
          /\ (clockReads page <= clockReads page0)%nat) as (D & O & C).
  { unfold now in En. injection En as _ <-. cbn. repeat split. lia. }
  destruct (10000 <? time - t)%float.
  - now apply Hdue.
  - split; [now left|]. now apply grew_same.
Qed.

(** The advertisements of a store that are active and within reach. *)
Definition in_reach (records : list (string * IslandData)) (o : Outdoor)
  : Prop :=
  exists k r, In (k, r) records /\ outdoor r = Some o
    /\ reachable_ad H p r = true.

Lemma forEach_visits records s :
  let r := forEach isActiveAd (visitAd H p) records s in
  Forall2 (fun a b => fst b = fst a /\ same_but_time (snd a) (snd b))
    records (fst r)
  /\ grew (in_reach records)
       (List.length (filter (fun e => reachable_ad H p (snd e)) records))
       s (snd r).
Proof.
  revert s. induction records as [|[k island] rest IH]; intros s.
  - split; [constructor | apply grew_refl].
  - cbn [forEach filter snd]. unfold reachable_ad at 1.
    destruct (isActiveAd island) eqn:Ea.
    + assert (exists o, outdoor island = Some o) as [o Ho].
      { unfold isActiveAd in Ea. destruct (outdoor island); [eauto|discriminate]. }
      pose proof (visitAd_spec island o s Ho) as [V1 V2].
      destruct (visitAd H p island s) as [island' s1]. cbn [fst snd] in V1, V2.
      specialize (IH s1). destruct (forEach isActiveAd (visitAd H p) rest s1)
        as [rest' s2]. cbn [fst snd] in *. destruct IH as [I1 I2].
      split; [constructor; [split; [reflexivity | exact V1] | exact I1]|].
      cbn [andb].
      destruct (inRange H p AD_INTERACTION_DISTANCE island) eqn:Er;
        cbv iota in V2.
      * cbn [List.length].
        apply (grew_trans _ 1 _ s s1 s2).
        -- eapply grew_weaken; [| |exact V2]; [|lia].
           intros o' ->. exists k, island. split; [now left|].
           split; [exact Ho|]. unfold reachable_ad. now rewrite Ea, Er.
        -- eapply grew_weaken; [| |exact I2]; [|apply le_n].
           intros o' (k' & r' & Hin & Ho' & Hr'). exists k', r'.
           split; [now right | now split].
      * apply (grew_trans _ 0 _ s s1 s2).
        -- exact (grew_none _ _ _ _ V2).
        -- eapply grew_weaken; [| |exact I2]; [|apply le_n].
           intros o' (k' & r' & Hin & Ho' & Hr'). exists k', r'.
           split; [now right | now split].
    + specialize (IH s). destruct (forEach isActiveAd (visitAd H p) rest s)
        as [rest' s2]. cbn [fst snd] in *. destruct IH as [I1 I2].
      split; [constructor; [split; [reflexivity | now left] | exact I1]|].
      cbn [andb]. eapply grew_weaken; [| |exact I2]; [|apply le_n].
      intros o' (k' & r' & Hin & Ho' & Hr'). exists k', r'.
      split; [now right | now split].
Qed.

(** ** The ten-second pause *)

(** A time stamp that no reading of the clock is more than ten seconds
    past. *)
Definition cool (t : float) : Prop :=
  truthy t = true
  /\ forall n, (10000 <? Date_now H n - t)%float = false.

(** Every reading of the clock lies within ten seconds of every other,
    and none reads zero. *)
Definition steady : Prop := forall n, cool (Date_now H n).

(** Every time stamp of the store was read from the clock. *)
Definition stamped (records : list (string * IslandData)) : Prop :=
  forall k r o t, In (k, r) records -> outdoor r = Some o ->
    lastInteractionTime o = Some t -> exists n, t = Date_now H n.

(** An advertisement within reach whose pause is running. *)
Definition chilled (r : IslandData) : Prop :=
  reachable_ad H p r = true ->
  exists o t, outdoor r = Some o /\ lastInteractionTime o = Some t /\ cool t.

Lemma visitAd_stamps island s :
  (forall o t, outdoor island = Some o -> lastInteractionTime o = Some t ->
     exists n, t = Date_now H n) ->
  forall o t, outdoor (fst (visitAd H p island s)) = Some o ->
    lastInteractionTime o = Some t -> exists n, t = Date_now H n.
Proof.
  intros Hs. unfold visitAd.
  destruct (outdoor island) as [o0|] eqn:Ho; [|intros o t; cbn; rewrite Ho; discriminate].
  destruct (_ <? AD_INTERACTION_DISTANCE)%float;
    [|intros o t; cbn; rewrite Ho; intros [= <-]; now apply Hs].
  destruct s as [b page].
  assert (Hdue : forall page0 : Page,
            forall o t,
              outdoor
                (fst
                   (let (willRedirect, page1) :=
                      ask H ("Visit advertisement: " ++ url o0 ++ "?") page0 in
                    let (hasInteracted, page2) :=
                      if willRedirect then (true, window_open (url o0) page1)
                      else (b, page1) in
                    let (time, page3) := now H page2 in
                    (with_outdoor
                       (Some (with_lastInteractionTime (Some time) o0)) island,
                     (hasInteracted, page3)))) = Some o ->
              lastInteractionTime o = Some t -> exists n, t = Date_now H n).
  { intros page0 o t. unfold ask, now, window_open. cbv beta iota zeta.
    destruct (confirm H _ _); cbn; intros [= <-]; cbn; intros [= <-]; eauto. }
  destruct (lastInteractionTime o0) as [t0|] eqn:Et;
    [destruct (truthy t0)|]; try apply Hdue.
  destruct (now H page) as [time page0].
  destruct (10000 <? time - t0)%float; [apply Hdue|].
  intros o t. cbn. rewrite Ho. intros [= <-]. now apply Hs.
Qed.

Lemma visitAd_chills island s :
  steady ->
  (forall o t, outdoor island = Some o -> lastInteractionTime o = Some t ->
     exists n, t = Date_now H n) ->
  chilled (fst (visitAd H p island s)).
Proof.
  intros Hsteady Hs. unfold visitAd, chilled, reachable_ad, inRange.
  destruct (outdoor island) as [o0|] eqn:Ho;
    [|cbn; unfold isActiveAd; rewrite Ho; discriminate].
  destruct (_ <? AD_INTERACTION_DISTANCE)%float eqn:Er;
    [|cbn [fst]; rewrite Er, andb_false_r; discriminate].
  destruct s as [b page].
  assert (Hdue : forall page0 : Page,
            let r :=
              fst
                (let (willRedirect, page1) :=
                   ask H ("Visit advertisement: " ++ url o0 ++ "?") page0 in
                 let (hasInteracted, page2) :=
                   if willRedirect then (true, window_open (url o0) page1)
                   else (b, page1) in
                 let (time, page3) := now H page2 in
                 (with_outdoor
                    (Some (with_lastInteractionTime (Some time) o0)) island,
                  (hasInteracted, page3))) in
            exists o t, outdoor r = Some o /\ lastInteractionTime o = Some t
              /\ cool t).
  { intros page0. unfold ask, now, window_open. cbv beta iota zeta.
    destruct (confirm H _ _); cbn; eexists; eexists;
      (split; [reflexivity|]); (split; [reflexivity|]); apply Hsteady. }
  destruct (lastInteractionTime o0) as [t0|] eqn:Et;
    [destruct (truthy t0) eqn:Ett|]; try (intros _; apply Hdue).
  destruct (now H page) as [time page0].
  destruct (10000 <? time - t0)%float; [intros _; apply Hdue|].
  intros _. cbn [fst]. exists o0, t0. split; [exact Ho|]. split; [exact Et|].
  destruct (Hs o0 t0 eq_refl Et) as [n ->]. apply Hsteady.
Qed.

Lemma visitAd_cool island b page :
  isActiveAd island = true -> chilled island ->
  let r := visitAd H p island (b, page) in
  fst r = island /\ fst (snd r) = b
  /\ dialogs (snd (snd r)) = dialogs page
  /\ opened (snd (snd r)) = opened page.
Proof.
  intros Ha Hc. unfold visitAd. unfold chilled, reachable_ad, inRange in Hc.
  rewrite Ha in Hc.
  destruct (outdoor island) as [o0|] eqn:Ho; [|now repeat split].
  destruct (_ <? AD_INTERACTION_DISTANCE)%float; [|now repeat split].
  destruct (Hc eq_refl) as (o & t & [= <-] & Et & Htr & Hcool).
  rewrite Et, Htr. unfold now. cbv beta iota zeta. rewrite Hcool.
  now repeat split.
Qed.

Lemma forEach_stamps records s :
  stamped records ->
  stamped (fst (forEach isActiveAd (visitAd H p) records s)).
Proof.
  revert s. induction records as [|[k island] rest IH]; intros s Hs.
  - exact Hs.
  - assert (Hrest : stamped rest)
      by (intros k' r' o t Hin; apply (Hs k' r' o t); now right).
    cbn [forEach]. destruct (isActiveAd island).
    + pose proof (visitAd_stamps island s
                    (fun o t => Hs k island o t (or_introl eq_refl))) as V.
      destruct (visitAd H p island s) as [island' s1]. cbn [fst] in V.
      specialize (IH s1 Hrest).
      destruct (forEach isActiveAd (visitAd H p) rest s1) as [rest' s2].
      cbn [fst] in *. intros k' r' o t [[= <- <-] | Hin]; [apply V|].
      now apply (IH k' r').
    + specialize (IH s Hrest).
      destruct (forEach isActiveAd (visitAd H p) rest s) as [rest' s2].
      cbn [fst] in *. intros k' r' o t [[= <- <-] | Hin].
      * apply (Hs k island). now left.
      * now apply (IH k' r').
Qed.

Lemma forEach_chills records s :
  steady -> stamped records ->
  Forall (fun e => chilled (snd e))
    (fst (forEach isActiveAd (visitAd H p) records s)).
Proof.
  intros Hsteady. revert s.
  induction records as [|[k island] rest IH]; intros s Hs.
  - constructor.
  - assert (Hrest : stamped rest)
      by (intros k' r' o t Hin; apply (Hs k' r' o t); now right).
    cbn [forEach]. destruct (isActiveAd island) eqn:Ea.
    + pose proof (visitAd_chills island s Hsteady
                    (fun o t => Hs k island o t (or_introl eq_refl))) as V.
      destruct (visitAd H p island s) as [island' s1]. cbn [fst] in V.
      specialize (IH s1 Hrest).
      destruct (forEach isActiveAd (visitAd H p) rest s1) as [rest' s2].
      cbn [fst] in *. now constructor.
    + specialize (IH s Hrest).
      destruct (forEach isActiveAd (visitAd H p) rest s) as [rest' s2].
      cbn [fst] in *. constructor; [|exact IH].
      cbn [snd]. unfold chilled, reachable_ad. rewrite Ea. discriminate.
Qed.

Lemma forEach_cool records b page :
  Forall (fun e => chilled (snd e)) records ->
  let r := forEach isActiveAd (visitAd H p) records (b, page) in
  fst r = records /\ fst (snd r) = b
  /\ dialogs (snd (snd r)) = dialogs page
  /\ opened (snd (snd r)) = opened page.
Proof.
  revert page. induction records as [|[k island] rest IH]; intros page Hc.
  - now repeat split.
  - inversion Hc as [|? ? Hi Hrest]; subst. cbn [snd] in Hi.
    cbn [forEach]. destruct (isActiveAd island) eqn:Ea.
    + pose proof (visitAd_cool island b page Ea Hi) as V.
      destruct (visitAd H p island (b, page)) as [island' [b1 page1]].
      cbn [fst snd] in V. destruct V as (-> & -> & D & O).
      specialize (IH page1 Hrest).
      destruct (forEach isActiveAd (visitAd H p) rest (b, page1))
        as [rest' [b2 page2]].
      cbn [fst snd] in *. destruct IH as (-> & -> & D2 & O2).
      repeat split; congruence.
    + specialize (IH page Hrest).
      destruct (forEach isActiveAd (visitAd H p) rest (b, page))
        as [rest' [b2 page2]].
      cbn [fst snd] in *. destruct IH as (-> & -> & D2 & O2).
      now repeat split.
Qed.


End WithHost.
End ProximityFacts.

(* ================================================================== *)
(** * Facts about [dispose] *)
(* ================================================================== *)

Module DisposeFacts.
Import JS Hash Config Three Data ChunkManager ChunkManagerRest.
Import DictFacts GfxFacts ChunkFacts StreamFacts UnloadFacts QueueFacts.
Import TickFacts MeshFacts.

(** The first loop of [dispose]. *)
Definition unloadAll (l : list string) (w : World) : World :=
  fold_left (fun w key => unloadChunk key w) l w.

(** The second loop of [dispose]. *)
Definition removeAll (m : list (string * ref)) (w : World) : World :=
  fold_left
    (fun w (entry : string * ref) =>
       set_gfx (scene_remove (snd entry) (gfx w)) w) m w.

(** What neither loop touches. *)
Definition untouched (w : World) :=
  (localStorage w, pendingChunks w, isGeneratingChunk w, lowPolyIslands w,
   chunkUpdateCounter w, timers w, generatedChunks (dataManager w)).

Lemma unloadChunk_untouched key w :
  untouched (unloadChunk key w) = untouched w.
Proof.
  unfold unloadChunk.
  destruct (negb (Dict.mem String.eqb key (loadedChunks w))); [reflexivity|].
  unfold untouched.
  destruct (overChunk_fields key removeIslandMesh
              (set_loadedChunks (Dict.drop String.eqb key (loadedChunks w)) w))
    as (-> & _ & -> & -> & -> & -> & -> & -> & _).
  reflexivity.
Qed.

Lemma unloadAll_untouched l w : untouched (unloadAll l w) = untouched w.
Proof.
  revert w. induction l as [|key l IH]; intros w; [reflexivity|].
  unfold unloadAll in *. simpl. rewrite IH. apply unloadChunk_untouched.
Qed.

Lemma unloadAll_loaded l w k :
  In k (loadedChunks (unloadAll l w)) -> In k (loadedChunks w) /\ ~ In k l.
Proof.
  revert w. induction l as [|key l IH]; intros w Hin.
  - split; [exact Hin | intros []].
  - unfold unloadAll in *. simpl in Hin. apply IH in Hin.
    destruct Hin as [Hin Hl]. apply unloadChunk_loaded in Hin.
    destruct Hin as [Hin Hne]. split; [exact Hin|].
    intros [E | E]; [congruence | contradiction].
Qed.

Lemma unloadAll_meshed l w : meshed w -> meshed (unloadAll l w).
Proof.
  revert w. induction l as [|key l IH]; intros w M; [exact M|].
  unfold unloadAll in *. simpl. apply IH. now apply unloadChunk_meshed.
Qed.

Lemma unloadAll_keeps_gone k w0 l :
  forall w, gone k w0 w -> gone k w0 (unloadAll l w).
Proof.
  induction l as [|key l IH]; intros w G; [exact G|].
  unfold unloadAll in *. simpl. apply IH. now apply unloadChunk_keeps_gone.
Qed.

Lemma unloadAll_gone k w0 l :
  forall w, In k l -> In k (loadedChunks w) -> kept k w0 w ->
    gone k w0 (unloadAll l w).
Proof.
  induction l as [|key l IH]; intros w Hin Hl Hk; [contradiction|].
  unfold unloadAll in *. simpl. destruct (String.eqb key k) eqn:E.
  - apply String.eqb_eq in E. subst key.
    apply (unloadAll_keeps_gone k w0 l). now apply unloadChunk_gone.
  - apply String.eqb_neq in E.
    destruct Hin as [Hin | Hin]; [congruence|].
    apply IH; [exact Hin | |].
    + apply unloadChunk_loaded. split; [exact Hl | congruence].
    + now apply unloadChunk_kept.
Qed.

Lemma removeAll_fields m w :
  dataManager (removeAll m w) = dataManager w
  /\ loadedChunks (removeAll m w) = loadedChunks w
  /\ untouched (removeAll m w) = untouched w.
Proof.
  revert w. induction m as [|e m IH]; intros w; [now repeat split|].
  unfold removeAll in *. simpl.
  destruct (IH (set_gfx (scene_remove (snd e) (gfx w)) w)) as (-> & -> & ->).
  now repeat split.
Qed.

Lemma removeAll_scene m w r :
  In r (scene (gfx (removeAll m w)))
  <-> In r (scene (gfx w)) /\ ~ In r (map snd m).
Proof.
  revert w. induction m as [|e m IH]; intros w.
  - simpl. tauto.
  - unfold removeAll in *. cbn [fold_left map]. rewrite IH.
    cbn [gfx set_gfx]. rewrite In_scene_remove. cbn [In]. split.
    + intros [[A B] C]. split; [exact A|]. intros [E | E]; [congruence | auto].
    + intros [A B]. split; [split; [exact A|]|]; intros E; apply B; auto.
Qed.

(** ** A tick writes no region *)

Section WithPlatform.
Variable P : Platform.

Lemma unloadFar_fold_generated low l w :
  generatedChunks (dataManager (fold_left (unloadFar low) l w))
  = generatedChunks (dataManager w).
Proof.
  apply (fold_left_invariant
           (fun a => generatedChunks (dataManager a)
                     = generatedChunks (dataManager w))); [|reflexivity].
  intros a key E. unfold unloadFar. destruct (negb _); [|exact E].
  pose proof (f_equal snd (unloadChunk_untouched key a)) as U.
  cbn [snd untouched] in U. now rewrite U.
Qed.

Lemma loadHigh_fold_generated l acc :
  generatedChunks (dataManager (snd (fold_left (loadHigh P) l acc)))
  = generatedChunks (dataManager (snd acc)).
Proof.
  apply (fold_left_invariant
           (fun a => generatedChunks (dataManager (snd a))
                     = generatedChunks (dataManager (snd acc)))); [|reflexivity].
  intros a key E. now rewrite TickCover.loadHigh_generated.
Qed.

Lemma updateChunks_generated p w :
  generatedChunks (dataManager (snd (updateChunks P p w)))
  = generatedChunks (dataManager w).
Proof.
  rewrite QueueFacts.updateChunks_unfold.
  destruct (stock_eq _ _ (proj1 (sweepCaches_stock
                                   (processNextPendingChunk p
                                      (beforeQueue P p w)))))
    as [-> _].
  destruct (stock_eq _ _ (proj1 (processNextPendingChunk_stock p
                                   (beforeQueue P p w))))
    as [-> _].
  rewrite beforeQueue_unfold, unloadFar_fold_generated.
  unfold beforeUnload. cbv zeta. rewrite loadHigh_fold_generated. cbn [snd].
  destruct (stock_eq _ _ (tracked_stock P p w)) as [-> _]. reflexivity.
Qed.

End WithPlatform.

End DisposeFacts.

(* ================================================================== *)
(** * Properties of the advertisement check, [dispose] and the lookups *)
(* ================================================================== *)

Module ChunkManagerProperties.
Import JS Hash Config Three Data ChunkManager EventLoop Host ChunkManagerRest.
Import DictFacts StreamFacts UnloadFacts TickFacts RunFacts MeshFacts.
Import StreamingClaims TickCover ProximityFacts DisposeFacts.

(** A player who accepts every dialog, on a page whose clock stands
    still. *)
Definition accepting : Host :=
  {| Math_hypot := fun x z => PrimFloat.sqrt (x * x + z * z)%float;
     Date_now := fun _ => 1700000000000%float;
     confirm := fun _ _ => true;
     prompt := fun _ _ => None |}.

(** X17: [checkForAdIslandProximity] changes nothing of the world but
    the time stamps of advertisements: every record stays under its key
    and keeps every other field.  It shows at most one dialog for each
    active advertisement nearer than 5, each naming the address of such
    an advertisement, opens windows only for dialogs and only at such
    addresses, and returns true exactly when it opened one. *)
Theorem ad_check_touches_only_time_stamps (H : Host)
  (playerPosition : Vector3) (w : World) (page : Page) :
  let '(hasInteracted, w', page') :=
    checkForAdIslandProximity H playerPosition w page in
  let before := islandData (dataManager w) in
  (exists records,
     w' = set_dataManager
            {| islandData := records;
               generatedChunks := generatedChunks (dataManager w) |} w
     /\ Forall2
          (fun a b => fst b = fst a /\ same_but_time (snd a) (snd b))
          before records)
  /\ grew (in_reach H playerPosition before)
       (List.length
          (filter (fun e => reachable_ad H playerPosition (snd e)) before))
       (false, page) (hasInteracted, page').
Proof.
  unfold checkForAdIslandProximity.
  pose proof (forEach_visits H playerPosition (islandData (dataManager w))
                (false, page)) as F.
  destruct (forEach isActiveAd (visitAd H playerPosition)
              (islandData (dataManager w)) (false, page))
    as [records [b page']].
  cbn [fst snd] in F. destruct F as [F1 F2].
  split; [|exact F2]. exists records. split; [reflexivity | exact F1].
Qed.

(** X18: while every reading of the clock lies within ten seconds of
    every other and the time stamps of the store were read from that
    clock, a check that follows a check at the same position shows no
    dialog, opens no window, returns false and leaves the world as it
    is; the time stamps of the store are still readings of the clock. *)
Theorem ad_dialog_waits_ten_seconds (H : Host) (playerPosition : Vector3)
  (w : World) (page : Page) :
  steady H -> stamped H (islandData (dataManager w)) ->
  let '(_, w1, page1) :=
    checkForAdIslandProximity H playerPosition w page in
  let '(again, w2, page2) :=
    checkForAdIslandProximity H playerPosition w1 page1 in
  again = false /\ w2 = w1
  /\ dialogs page2 = dialogs page1 /\ opened page2 = opened page1
  /\ stamped H (islandData (dataManager w1)).
Proof.
  intros Hsteady Hstamped. unfold checkForAdIslandProximity at 1.
  pose proof (forEach_chills H playerPosition (islandData (dataManager w))
                (false, page) Hsteady Hstamped) as C.
  pose proof (forEach_stamps H playerPosition (islandData (dataManager w))
                (false, page) Hstamped) as S.
  destruct (forEach isActiveAd (visitAd H playerPosition)
              (islandData (dataManager w)) (false, page))
    as [records [b page1]].
  cbn [fst] in C, S. unfold checkForAdIslandProximity.
  cbn [dataManager set_dataManager islandData].
  pose proof (forEach_cool H playerPosition records false page1 C) as Q.
  destruct (forEach isActiveAd (visitAd H playerPosition) records
              (false, page1)) as [records2 [b2 page2]].
  cbn [fst snd] in Q. destruct Q as (-> & -> & D & O).
  repeat split; assumption.
Qed.

Lemma unstamped_check (H : Host) records :
  forallb
    (fun e : string * IslandData =>
       match outdoor (snd e) with
       | Some o =>
           match lastInteractionTime o with Some _ => false | None => true end
       | None => true
       end) records = true ->
  stamped H records.
Proof.
  intros F k r o t Hin Ho Ht. rewrite forallb_forall in F.
  specialize (F (k, r) Hin). cbn [snd] in F. rewrite Ho, Ht in F.
  discriminate.
Qed.

(** Two checks beside the advertisement of region (-1,0): the first
    shows its dialog, the second shows none. *)
Lemma ad_dialog_waits_ten_seconds_witness :
  let w := run Standin.platform (rounds 2 0 0) (initial emptyStorage) in
  let p := vec3 (-37.8) 0 70 in
  let first := checkForAdIslandProximity accepting p w freshPage in
  let second :=
    checkForAdIslandProximity accepting p (snd (fst first)) (snd first) in
  dialogs (snd first)
  = ["Visit advertisement: https://example.com/ad/5_tier_Standard?"]
  /\ dialogs (snd second) = dialogs (snd first)
  /\ fst (fst second) = false.
Proof.
  intros w p first second.
  split; [vm_compute; reflexivity|].
  pose proof (ad_dialog_waits_ten_seconds accepting p w freshPage) as T.
  fold first in T. subst second.
  destruct first as [[b1 w1] page1]. cbn [fst snd].
  destruct (checkForAdIslandProximity accepting p w1 page1)
    as [[b2 w2] page2].
  cbn [fst snd]. destruct T as (A & _ & D & _).
  - intros n. split; [reflexivity|]. intros m. reflexivity.
  - apply unstamped_check. vm_compute. reflexivity.
  - split; [exact D | exact A].
Defined.

(** X19: in a world reached from the fresh page, [dispose] leaves no
    region loaded, no key queued and no placeholder registered; no
    record points at a mesh any more, and neither the meshes the records
    pointed at nor the placeholders are in the scene.  The busy flag and
    the callbacks that wait are as before, and so are the stored text
    and the set of generated regions. *)
Theorem dispose_clears_what_is_shown (P : Platform) (st : Storage)
  (events : list Event) :
  let w := run P events (initial st) in
  let w' := dispose w in
  loadedChunks w' = [] /\ pendingChunks w' = [] /\ lowPolyIslands w' = []
  /\ (forall i island, In (i, island) (islandData (dataManager w')) ->
        mesh island = None)
  /\ (forall i island m, In (i, island) (islandData (dataManager w)) ->
        mesh island = Some m -> ~ In m (scene (gfx w')))
  /\ (forall i r, In (i, r) (lowPolyIslands w) -> ~ In r (scene (gfx w')))
  /\ timers w' = timers w
  /\ isGeneratingChunk w' = isGeneratingChunk w
  /\ localStorage w' = localStorage w
  /\ generatedChunks (dataManager w') = generatedChunks (dataManager w).
Proof.
  intros w w'.
  pose proof (run_meshed P events _ (initial_meshed st)) as M. fold w in M.
  set (w1 := unloadAll (loadedChunks w) w).
  assert (E : w' = set_pendingChunks []
                     (set_loadedChunks []
                        (set_lowPolyIslands []
                           (removeAll (lowPolyIslands w1) w1))))
    by reflexivity.
  pose proof (unloadAll_untouched (loadedChunks w) w) as U. fold w1 in U.
  destruct (removeAll_fields (lowPolyIslands w1) w1) as (R1 & R2 & R3).
  assert (L : lowPolyIslands w1 = lowPolyIslands w).
  { unfold untouched in U. now injection U. }
  rewrite E. cbn [loadedChunks pendingChunks lowPolyIslands dataManager gfx
                  timers isGeneratingChunk localStorage set_pendingChunks
                  set_loadedChunks set_lowPolyIslands].
  split; [reflexivity|]. split; [reflexivity|]. split; [reflexivity|].
  split; [|split; [|split]].
  - intros i island Hin. rewrite R1 in Hin.
    destruct (mesh island) as [m|] eqn:Em; [exfalso | reflexivity].
    assert (Hm : mesh island <> None) by (rewrite Em; discriminate).
    pose proof (unloadAll_meshed (loadedChunks w) w M i island Hin Hm) as Hl.
    fold w1 in Hl. apply unloadAll_loaded in Hl. tauto.
  - intros i island m Hin Em Hs.
    apply removeAll_scene in Hs. destruct Hs as [Hs _].
    assert (Hm : mesh island <> None) by (rewrite Em; discriminate).
    pose proof (M i island Hin Hm) as Hl.
    destruct (unloadAll_gone (chunk island) w (loadedChunks w) w Hl Hl
                (kept_refl _ _)) as [_ G].
    exact (G i island m Hin eq_refl Em Hs).
  - intros i r Hin Hs. apply removeAll_scene in Hs. destruct Hs as [_ Hs].
    apply Hs. rewrite L. now apply (in_map snd _ (i, r)).
  - unfold untouched in U, R3. rewrite U in R3.
    injection R3 as -> _ -> _ _ -> ->. now repeat split.
Qed.

(** X20: a tick writes no region, and after a tick in a world reached
    from the fresh page [isChunkLoaded] answers true for the key
    [getChunkKey] gives the ship's position exactly when that region has
    been generated. *)
Theorem own_region_loads_once_generated (P : Platform) (st : Storage)
  (events : list Event) (playerPosition : Vector3) (cx cz : Z) :
  Math_floor (vx playerPosition / float_of_Z CHUNK_SIZE)%float = Int cx ->
  Math_floor (vz playerPosition / float_of_Z CHUNK_SIZE)%float = Int cz ->
  let w := run P events (initial st) in
  let w' := snd (updateChunks P playerPosition w) in
  let key := getChunkKey (vx playerPosition) (vz playerPosition) in
  generatedChunks (dataManager w') = generatedChunks (dataManager w)
  /\ (isChunkLoaded key w' = true
      <-> In key (generatedChunks (dataManager w))).
Proof.
  intros Hx Hz w w' key.
  pose proof (updateChunks_generated P playerPosition w) as G. fold w' in G.
  split; [exact G|]. unfold isChunkLoaded.
  rewrite (mem_In String.eqb String.eqb_eq). split.
  - intros Hl. rewrite <- G.
    apply (inv_loaded _ (updateChunks_Inv P playerPosition w
                           (run_Inv P events _ (initial_Inv st)))).
    exact Hl.
  - intros Hg. apply updateChunks_loads; [|exact Hg].
    exists 0, 0. unfold highDetailDistance.
    split; [lia|]. split; [lia|].
    unfold key, getChunkKey, chunkIndex. rewrite Hx, Hz.
    now rewrite !Z.add_0_r.
Qed.

(** The ship at the origin of a page that has seen the nine central
    regions generated. *)
Lemma own_region_loads_once_generated_witness :
  let w := run Standin.platform [] (initial visitedOrigin) in
  isChunkLoaded (getChunkKey 0 0)
    (snd (updateChunks Standin.platform (vec3 0 0 0) w)) = true.
Proof.
  intros w.
  apply (own_region_loads_once_generated Standin.platform visitedOrigin []
           (vec3 0 0 0) 0 0 eq_refl eq_refl).
  vm_compute. repeat (first [left; reflexivity | right]).
Defined.

End ChunkManagerProperties.

(* ================================================================== *)
(** * [Game]: naming the islands *)
(* ================================================================== *)

Module Game.
Import JS Hash Config Three Data ChunkManager Host.

Definition ISLAND_NAME_PROMPT_DISTANCE : float := 3.

Definition with_name (n : option string) (i : IslandData) : IslandData :=
  {| id := id i; pos := pos i; biome := biome i; size := size i;
     name := n; chunk := chunk i; mesh := mesh i; label := label i;
     outdoor := outdoor i |}.

(** What the loop of [checkForIslandNaming] works on besides the
    records: the scene, the stored text and the page. *)
Definition Naming : Type := Gfx * Storage * Page.

Section WithHost.
Variable H : Host.
Variable P : Platform.

(** The callback of the loop of [checkForIslandNaming].  [store] gives
    the data manager as it is when this island is visited, with the
    island in its place. *)
Definition nameIsland (shipPosition : Vector3)
  (store : IslandData -> DataManager) (island : IslandData) (s : Naming)
  : IslandData * Naming :=
  if hasName island then (island, s)
  else
    let dx := (pos_x (pos island) - vx shipPosition)%float in
    let dz := (pos_z (pos island) - vz shipPosition)%float in
    let distance := Math_hypot H dx dz in
    if (distance <? ISLAND_NAME_PROMPT_DISTANCE)%float then
      let '(g, st, page) := s in
      let (newName, page) :=
        request H ("Nome para ilha (" ++ biome island ++ "):") page in
      match newName with
      | Some n =>
          if String.eqb n "" then (island, (g, st, page))
          else
            let island := with_name (Some n) island in
            let st := saveData (store island) in
            let (island, g) :=
              match mesh island with
              | Some _ => removeIslandMesh island g
              | None => (island, g)
              end in
            let (island, g) := addIslandMesh P island g in
            (island, (g, st, page))
      | None => (island, (g, st, page))
      end
    else (island, s).

(** [Object.values(this.dataManager.islandData).forEach(...)]: the
    records before the one visited are in [done] as the loop left them,
    the record visited and those after it are in [todo]. *)
Fixpoint namingLoop (shipPosition : Vector3) (generated : list string)
  (done todo : list (string * IslandData)) (s : Naming)
  : list (string * IslandData) * Naming :=
  match todo with
  | [] => ([], s)
  | (k, island) :: rest =>
      let store island :=
        {| islandData := (done ++ (k, island) :: rest)%list;
           generatedChunks := generated |} in
      let (island, s) := nameIsland shipPosition store island s in
      let (rest, s) :=
        namingLoop shipPosition generated (done ++ [(k, island)])%list rest s
      in
      ((k, island) :: rest, s)
  end.

(** [checkForIslandNaming]; [playerShip] is the position of the ship
    when there is one. *)
Definition checkForIslandNaming (playerShip : option Vector3) (w : World)
  (page : Page) : World * Page :=
  match playerShip with
  | None => (w, page)
  | Some shipPosition =>
      let '(records, (g, st, page)) :=
        namingLoop shipPosition (generatedChunks (dataManager w)) []
          (islandData (dataManager w)) (gfx w, localStorage w, page) in
      (set_gfx g
         (set_localStorage st
            (set_dataManager
               {| islandData := records;
                  generatedChunks := generatedChunks (dataManager w) |} w)),
       page)
  end.

(** [Game.checkForAdIslandProximity] *)
Definition checkForAdIslandProximity (playerShip : option Vector3)
  (w : World) (page : Page) : World * Page :=
  match playerShip with
  | None => (w, page)
  | Some shipPosition =>
      let '(_, w, page) :=
        ChunkManagerRest.checkForAdIslandProximity H shipPosition w page in
      (w, page)
  end.

End WithHost.
End Game.

(* ================================================================== *)
(** * Facts about the naming check *)
(* ================================================================== *)

Module NamingFacts.
Import JS Hash Config Three Data ChunkManager Host Game.
Import DictFacts ProximityFacts ShownFacts.

(** An island the check asks about: without a name and nearer than 3. *)
Definition nameable (H : Host) (p : Vector3) (island : IslandData) : bool :=
  negb (hasName island) && inRange H p ISLAND_NAME_PROMPT_DISTANCE island.

(** The message of the dialog for an island. *)
Definition nameMessage (island : IslandData) : string :=
  "Nome para ilha (" ++ biome island ++ "):".

(** The fields of a record that the check never writes. *)
Definition same_words (a b : IslandData) : Prop :=
  id b = id a /\ chunk b = chunk a /\ biome b = biome a
  /\ size b = size a /\ pos b = pos a.

Lemma same_words_refl a : same_words a a.
Proof. now repeat split. Qed.

Lemma same_words_trans a b c :
  same_words a b -> same_words b c -> same_words a c.
Proof.
  intros (A1 & A2 & A3 & A4 & A5) (B1 & B2 & B3 & B4 & B5).
  repeat split; congruence.
Qed.

(** A record after the check: itself, or an island the check asked
    about, with the name given and, when its biome is of the table, a
    mesh. *)
Definition renamed (H : Host) (p : Vector3) (a b : IslandData) : Prop :=
  b = a
  \/ (nameable H p a = true /\ same_words a b
      /\ (exists n, n <> "" /\ name b = Some n)
      /\ (known a -> mesh b <> None)).

(** Two stores with the same records up to what the scene holds of
    them. *)
Definition agree (l l' : list (string * IslandData)) : Prop :=
  Forall2
    (fun a b => fst b = fst a /\ same_words (snd a) (snd b)
                /\ name (snd b) = name (snd a)) l l'.

Lemma agree_refl l : agree l l.
Proof.
  induction l as [|a l IH]; constructor; [|exact IH].
  split; [reflexivity|]. split; [apply same_words_refl | reflexivity].
Qed.

Lemma agree_app l1 l1' l2 l2' :
  agree l1 l1' -> agree l2 l2' -> agree (l1 ++ l2) (l1' ++ l2').
Proof. apply Forall2_app. Qed.

Section WithHost.
Variable H : Host.
Variable P : Platform.

Lemma removeIslandMesh_words island g :
  same_words island (fst (removeIslandMesh island g))
  /\ name (fst (removeIslandMesh island g)) = name island.
Proof.
  unfold removeIslandMesh, IslandGenerator.removeIslandMesh.
  destruct (mesh island); cbn [label with_mesh];
    destruct (label island); now repeat split.
Qed.

Lemma generator_addIslandMesh_words island g :
  same_words island (fst (IslandGenerator.addIslandMesh P island g))
  /\ name (fst (IslandGenerator.addIslandMesh P island g)) = name island.
Proof.
  unfold IslandGenerator.addIslandMesh.
  destruct (IslandGenerator.getBiomeById (biome island)) as [b|];
    [|now repeat split].
  destruct (new_object _ g) as [grp g0].
  destruct (IslandGenerator.createProceduralIslandMesh P island b g0)
    as [tm g2].
  destruct (IslandGenerator.validateMeshGeometry P tm g2) as [valid g3].
  match goal with
  | |- context [IslandGenerator.group_add grp tm ?x] =>
      generalize (IslandGenerator.group_add grp tm x)
  end.
  intros g4.
  destruct (outdoor island) as [o|] eqn:Eo; [|now repeat split].
  destruct (active o); [|now repeat split].
  unfold IslandGenerator.addOutdoorToIsland. rewrite Eo. cbv zeta.
  destruct (IslandGenerator.getBillboardGeometry P _ _ g4) as [geo g5].
  destruct (new_object _ g5) as [bb g6]. now repeat split.
Qed.

Lemma createIslandLabel_words island g :
  same_words island (fst (createIslandLabel island g))
  /\ name (fst (createIslandLabel island g)) = name island.
Proof.
  unfold createIslandLabel. destruct (label island); [now repeat split|].
  destruct (islandLabels g); [|now repeat split].
  destruct (fresh g). now repeat split.
Qed.

Lemma addIslandMesh_words island g :
  same_words island (fst (addIslandMesh P island g))
  /\ name (fst (addIslandMesh P island g)) = name island.
Proof.
  unfold addIslandMesh.
  pose proof (generator_addIslandMesh_words island g) as [W N].
  destruct (IslandGenerator.addIslandMesh P island g) as [i1 g1].
  cbn [fst] in W, N. destruct (hasName i1); [|now split].
  pose proof (createIslandLabel_words i1 g1) as [W2 N2].
  destruct (createIslandLabel i1 g1) as [i2 g2]. cbn [fst] in *.
  split; [eapply same_words_trans; eassumption | congruence].
Qed.

Lemma same_words_known a b : same_words a b -> known a -> known b.
Proof. intros (_ & _ & E & _). unfold known. now rewrite E. Qed.

(** One visit of the naming loop. *)
Lemma nameIsland_spec p store island g st page :
  let r := nameIsland H P p store island (g, st, page) in
  let '(g', st', page') := snd r in
  renamed H p island (fst r)
  /\ dialogs page'
     = (dialogs page
        ++ (if nameable H p island then [nameMessage island] else []))%list
  /\ opened page' = opened page /\ clockReads page' = clockReads page
  /\ ((fst r = island /\ g' = g /\ st' = st)
      \/ exists named,
           st' = saveData (store named)
           /\ same_words named (fst r) /\ name (fst r) = name named).
Proof.
  unfold nameIsland, nameable, inRange.
  destruct (hasName island) eqn:En; cbn [negb andb fst snd].
  { split; [now left|]. rewrite app_nil_r. repeat split. now left. }
  destruct (_ <? ISLAND_NAME_PROMPT_DISTANCE)%float eqn:Er; cbn [fst snd].
  2:{ split; [now left|]. rewrite app_nil_r. repeat split. now left. }
  unfold request. fold (nameMessage island).
  destruct (prompt H (List.length (dialogs page)) (nameMessage island))
    as [n|]; cbn [fst snd dialogs opened clockReads].
  2:{ split; [now left|]. repeat split. now left. }
  destruct (String.eqb n "") eqn:E0; cbn [fst snd dialogs opened clockReads].
  { split; [now left|]. repeat split. now left. }
  apply String.eqb_neq in E0.
  set (i1 := with_name (Some n) island).
  assert (E1 : exists i2 g2,
            match mesh i1 with
            | Some _ => removeIslandMesh i1 g
            | None => (i1, g)
            end = (i2, g2)
            /\ same_words i1 i2 /\ name i2 = name i1).
  { destruct (mesh i1).
    - pose proof (removeIslandMesh_words i1 g) as [W N].
      destruct (removeIslandMesh i1 g) as [i2 g2]. eauto.
    - exists i1, g. split; [reflexivity|].
      split; [apply same_words_refl | reflexivity]. }
  destruct E1 as (i2 & g2 & -> & W2 & N2).
  pose proof (addIslandMesh_words i2 g2) as [W3 N3].
  pose proof (addIslandMesh_shows P i2 g2) as M3.
  destruct (addIslandMesh P i2 g2) as [i3 g3].
  cbn [fst snd dialogs opened clockReads] in *.
  assert (W1 : same_words island i1) by now repeat split.
  split; [|split; [reflexivity|]; split; [reflexivity|];
           split; [reflexivity|]].
  - right. split; [unfold nameable, inRange; now rewrite En, Er|].
    split; [apply (same_words_trans _ i1); [exact W1|];
            apply (same_words_trans _ i2); assumption|].
    split; [exists n; split; [exact E0 | now rewrite N3, N2]|].
    intros K. apply M3.
    apply (same_words_known island); [|exact K].
    apply (same_words_trans _ i1); assumption.
  - right. exists i1. split; [reflexivity|].
    split; [apply (same_words_trans _ i2); assumption | congruence].
Qed.

(** The whole loop, from any point of it. *)
Lemma namingLoop_spec p generated :
  forall todo done g st page,
    let r := namingLoop H P p generated done todo (g, st, page) in
    let g' := fst (fst (snd r)) in
    let st' := snd (fst (snd r)) in
    let page' := snd (snd r) in
    Forall2 (fun a b => fst b = fst a /\ renamed H p (snd a) (snd b))
      todo (fst r)
    /\ dialogs page'
       = (dialogs page
          ++ map nameMessage (filter (nameable H p) (map snd todo)))%list
    /\ opened page' = opened page /\ clockReads page' = clockReads page
    /\ ((fst r = todo /\ g' = g /\ st' = st)
        \/ exists d,
             st' = saveData d /\ generatedChunks d = generated
             /\ agree (islandData d) (done ++ fst r)).
Proof.
  induction todo as [|[k island] rest IH]; intros done g st page.
  - cbn. rewrite app_nil_r. repeat split; [constructor | now left].
  - cbn [namingLoop].
    pose proof (nameIsland_spec p
                  (fun island0 =>
                     {| islandData := (done ++ (k, island0) :: rest)%list;
                        generatedChunks := generated |})
                  island g st page) as V.
    cbv zeta in V.
    destruct (nameIsland H P p _ island (g, st, page))
      as [island' [[g1 st1] page1]].
    cbn [fst snd] in V. destruct V as (V1 & V2 & V3 & V4 & V5).
    specialize (IH (done ++ [(k, island')])%list g1 st1 page1).
    cbv zeta in IH.
    destruct (namingLoop H P p generated (done ++ [(k, island')]) rest
                (g1, st1, page1)) as [rest' [[g2 st2] page2]].
    cbn [fst snd] in *. destruct IH as (I1 & I2 & I3 & I4 & I5).
    split; [constructor; [split; [reflexivity | exact V1] | exact I1]|].
    split.
    { rewrite I2, V2. cbn [map filter snd].
      destruct (nameable H p island); cbn [map].
      - now rewrite <- app_assoc.
      - now rewrite app_nil_r. }
    split; [congruence|]. split; [congruence|].
    destruct I5 as [(-> & -> & ->) | (d & -> & Hd & A)].
    + destruct V5 as [(-> & -> & ->) | (named & -> & W & N)].
      * now left.
      * right. eexists. split; [reflexivity|]. split; [reflexivity|].
        cbn [islandData]. apply agree_app; [apply agree_refl|].
        constructor; [|apply agree_refl].
        cbn [fst snd]. split; [reflexivity|]. now split.
    + right. exists d. split; [reflexivity|]. split; [exact Hd|].
      now rewrite <- app_assoc in A.
Qed.

(** A player who gives no name: every prompt is cancelled or left
    empty. *)
Definition declines : Prop :=
  forall n message, prompt H n message = None \/ prompt H n message = Some "".

Lemma nameIsland_declined p store island g st page :
  declines ->
  exists page',
    nameIsland H P p store island (g, st, page) = (island, (g, st, page')).
Proof.
  intros D. unfold nameIsland.
  destruct (hasName island); [eauto|].
  destruct (_ <? ISLAND_NAME_PROMPT_DISTANCE)%float; [|eauto].
  unfold request.
  destruct (D (List.length (dialogs page))
              ("Nome para ilha (" ++ biome island ++ "):")) as [-> | ->];
    cbn; eauto.
Qed.

Lemma namingLoop_declined p generated :
  declines ->
  forall todo done g st page,
    exists page',
      namingLoop H P p generated done todo (g, st, page)
      = (todo, (g, st, page')).
Proof.
  intros D. induction todo as [|[k island] rest IH]; intros done g st page.
  - cbn. eauto.
  - cbn [namingLoop].
    destruct (nameIsland_declined p
                (fun island0 =>
                   {| islandData := (done ++ (k, island0) :: rest)%list;
                      generatedChunks := generated |})
                island g st page D) as [page1 ->].
    destruct (IH (done ++ [(k, island)])%list g st page1) as [page2 ->].
    eauto.
Qed.

Lemma naming_dialogs p w page :
  dialogs (snd (checkForIslandNaming H P (Some p) w page))
  = (dialogs page
     ++ map nameMessage
          (filter (nameable H p) (values (islandData (dataManager w)))))%list.
Proof.
  unfold checkForIslandNaming.
  pose proof (namingLoop_spec p (generatedChunks (dataManager w))
                (islandData (dataManager w)) [] (gfx w) (localStorage w)
                page) as L.
  cbv zeta in L.
  destruct (namingLoop H P p (generatedChunks (dataManager w)) []
              (islandData (dataManager w)) (gfx w, localStorage w, page))
    as [records [[g st] page']].
  cbn [fst snd] in *. destruct L as (_ & L & _). exact L.
Qed.

End WithHost.
End NamingFacts.

(* ================================================================== *)
(** * Properties of the naming check *)
(* ================================================================== *)

Module NamingProperties.
Import JS Hash Config Three Data ChunkManager EventLoop Host Game.
Import StreamingClaims ProximityFacts ShownFacts NamingFacts.
Import ChunkManagerProperties.

(** X21: [checkForIslandNaming] shows one prompt for each island
    without a name that is nearer than 3 to the ship, in the order of
    the store, and opens no window.  Every record stays under its key;
    a record is either left as it is or is one of those islands, now
    with a name that is not empty, with its id, region, biome, size and
    position as before, and with a mesh when its biome is of the table.
    What the chunk manager tracks is as before. *)
Theorem naming_asks_about_each_unnamed_island_in_reach (H : Host)
  (P : Platform) (shipPosition : Vector3) (w : World) (page : Page) :
  let '(w', page') := checkForIslandNaming H P (Some shipPosition) w page in
  let before := islandData (dataManager w) in
  dialogs page'
  = (dialogs page
     ++ map nameMessage
          (filter (nameable H shipPosition) (values before)))%list
  /\ opened page' = opened page
  /\ Forall2
       (fun a b => fst b = fst a /\ renamed H shipPosition (snd a) (snd b))
       before (islandData (dataManager w'))
  /\ generatedChunks (dataManager w') = generatedChunks (dataManager w)
  /\ loadedChunks w' = loadedChunks w
  /\ pendingChunks w' = pendingChunks w
  /\ isGeneratingChunk w' = isGeneratingChunk w
  /\ timers w' = timers w
  /\ lowPolyIslands w' = lowPolyIslands w.
Proof.
  unfold checkForIslandNaming.
  pose proof (namingLoop_spec H P shipPosition
                (generatedChunks (dataManager w))
                (islandData (dataManager w)) [] (gfx w) (localStorage w)
                page) as L.
  cbv zeta in L.
  destruct (namingLoop H P shipPosition (generatedChunks (dataManager w)) []
              (islandData (dataManager w)) (gfx w, localStorage w, page))
    as [records [[g st] page']].
  cbn [fst snd] in L. destruct L as (L1 & L2 & L3 & _).
  cbv zeta. unfold values. now repeat split.
Qed.

(** X22: after [checkForIslandNaming] either the world is as it was, or
    the text in [localStorage] was written by [saveData] from a store
    with the generated regions of the final store and the same records
    under the same keys, each with the id, region, biome, size, position
    and name it has in the final store. *)
Theorem a_given_name_is_saved (H : Host) (P : Platform)
  (shipPosition : Vector3) (w : World) (page : Page) :
  let '(w', _) := checkForIslandNaming H P (Some shipPosition) w page in
  w' = w
  \/ exists d,
       localStorage w' = saveData d
       /\ generatedChunks d = generatedChunks (dataManager w')
       /\ agree (islandData d) (islandData (dataManager w')).
Proof.
  unfold checkForIslandNaming.
  pose proof (namingLoop_spec H P shipPosition
                (generatedChunks (dataManager w))
                (islandData (dataManager w)) [] (gfx w) (localStorage w)
                page) as L.
  cbv zeta in L.
  destruct (namingLoop H P shipPosition (generatedChunks (dataManager w)) []
              (islandData (dataManager w)) (gfx w, localStorage w, page))
    as [records [[g st] page']].
  cbn [fst snd] in L. destruct L as (_ & _ & _ & _ & L).
  destruct L as [(-> & -> & ->) | (d & -> & Hd & A)].
  - left. destruct w as [g d st l q b m c t]. now destruct d.
  - right. exists d. cbn. now repeat split.
Qed.

(** X23: when the player cancels every prompt or leaves it empty, the
    check changes nothing of the world, and the next check at the same
    position shows the same prompts once more. *)
Theorem a_declined_prompt_returns (H : Host) (P : Platform)
  (shipPosition : Vector3) (w : World) (page : Page) :
  declines H ->
  let '(w1, page1) := checkForIslandNaming H P (Some shipPosition) w page in
  let '(w2, page2) :=
    checkForIslandNaming H P (Some shipPosition) w1 page1 in
  let asked :=
    map nameMessage
      (filter (nameable H shipPosition)
         (values (islandData (dataManager w)))) in
  w1 = w /\ w2 = w
  /\ dialogs page1 = (dialogs page ++ asked)%list
  /\ dialogs page2 = (dialogs page ++ asked ++ asked)%list.
Proof.
  intros D.
  assert (K : forall page0,
            exists page',
              checkForIslandNaming H P (Some shipPosition) w page0
              = (w, page')
              /\ dialogs page'
                 = (dialogs page0
                    ++ map nameMessage
                         (filter (nameable H shipPosition)
                            (values (islandData (dataManager w)))))%list).
  { intros page0.
    pose proof (naming_dialogs H P shipPosition w page0) as N.
    unfold checkForIslandNaming in *.
    destruct (namingLoop_declined H P shipPosition
                (generatedChunks (dataManager w)) D
                (islandData (dataManager w)) [] (gfx w) (localStorage w)
                page0) as [page' E].
    rewrite E in *. exists page'. split; [|exact N].
    f_equal. destruct w as [g d st l q b m c t]. now destruct d. }
  destruct (K page) as (page1 & -> & D1).
  destruct (K page1) as (page2 & -> & D2).
  cbv zeta. split; [reflexivity|]. split; [reflexivity|].
  split; [exact D1|]. now rewrite D2, D1, app_assoc.
Qed.

(** Beside the four islands of region (-1,0), none of which has a name,
    with a player who cancels every prompt. *)
Lemma a_declined_prompt_returns_witness :
  let w := run Standin.platform (rounds 2 0 0) (initial emptyStorage) in
  let p := vec3 (-37.8) 0 70 in
  let first := checkForIslandNaming accepting Standin.platform (Some p) w
                 freshPage in
  let second := checkForIslandNaming accepting Standin.platform (Some p)
                  (fst first) (snd first) in
  fst second = w
  /\ dialogs (snd second)
     = ["Nome para ilha (Volcano):"; "Nome para ilha (Snow):";
        "Nome para ilha (Snow):"; "Nome para ilha (Snow):";
        "Nome para ilha (Volcano):"; "Nome para ilha (Snow):";
        "Nome para ilha (Snow):"; "Nome para ilha (Snow):"].
Proof.
  intros w p first second.
  pose proof (a_declined_prompt_returns accepting Standin.platform p w
                freshPage) as T.
  fold first in T. subst second. destruct first as [w1 page1].
  cbn [fst snd].
  destruct (checkForIslandNaming accepting Standin.platform (Some p) w1
              page1) as [w2 page2].
  cbn [fst snd]. destruct T as (_ & E & _ & D).
  - intros n message. now left.
  - split; [exact E|]. rewrite D. vm_compute. reflexivity.
Defined.

End NamingProperties.

(* ================================================================== *)
(** * [ShipController] and the key listeners of [Game] *)
(* ================================================================== *)

Module ShipController.
Import JS Three Host.

(** [MoveState]: each field holds a number used as a flag. *)
Record MoveState : Type := { f : float; b : float; l : float; r : float }.

Inductive Direction : Type := Forward | Backward | Left | Right.

(** [moveState[d]] *)
Definition flag (d : Direction) (m : MoveState) : float :=
  match d with
  | Forward => f m
  | Backward => b m
  | Left => l m
  | Right => r m
  end.

(** [moveState[d] = v] *)
Definition set_flag (d : Direction) (v : float) (m : MoveState) : MoveState :=
  match d with
  | Forward => {| f := v; b := b m; l := l m; r := r m |}
  | Backward => {| f := f m; b := v; l := l m; r := r m |}
  | Left => {| f := f m; b := b m; l := v; r := r m |}
  | Right => {| f := f m; b := b m; l := l m; r := v |}
  end.

(** The two properties of a [KeyboardEvent] the listeners read. *)
Record KeyboardEvent : Type := { code : string; key : string }.

Record GamepadButton : Type := { pressed : bool; value : float }.

Record Gamepad : Type :=
  { axes : list float; buttons : list GamepadButton }.

(** The ship as the controller sees it: its position and its rotation
    about the vertical axis. *)
Record ShipObject : Type := { position : Vector3; rotation_y : float }.

(** What three.js and the host compute: [Object3D.translateZ] and
    [Number.prototype.toFixed]. *)
Record Library : Type :=
  { translateZ : float -> ShipObject -> ShipObject;
    toFixed : float -> Z -> string }.

Record ShipController : Type :=
  { ship : ShipObject;
    moveState : MoveState;
    gamepadConnected : bool;
    coordsElement : option string;
    speedForward : float;
    speedReverse : float;
    turnSpeed : float }.

Definition set_moveState (m : MoveState) (c : ShipController)
  : ShipController :=
  {| ship := ship c; moveState := m;
     gamepadConnected := gamepadConnected c;
     coordsElement := coordsElement c; speedForward := speedForward c;
     speedReverse := speedReverse c; turnSpeed := turnSpeed c |}.

Definition set_gamepadConnected (v : bool) (c : ShipController)
  : ShipController :=
  {| ship := ship c; moveState := moveState c; gamepadConnected := v;
     coordsElement := coordsElement c; speedForward := speedForward c;
     speedReverse := speedReverse c; turnSpeed := turnSpeed c |}.

Definition set_ship (s : ShipObject) (c : ShipController) : ShipController :=
  {| ship := s; moveState := moveState c;
     gamepadConnected := gamepadConnected c;
     coordsElement := coordsElement c; speedForward := speedForward c;
     speedReverse := speedReverse c; turnSpeed := turnSpeed c |}.

Definition set_coordsElement (v : option string) (c : ShipController)
  : ShipController :=
  {| ship := ship c; moveState := moveState c;
     gamepadConnected := gamepadConnected c;
     coordsElement := v; speedForward := speedForward c;
     speedReverse := speedReverse c; turnSpeed := turnSpeed c |}.

(** [ShipControllerOptions] *)
Record ShipControllerOptions : Type :=
  { opt_ship : ShipObject;
    opt_speedForward : float;
    opt_speedReverse : float;
    opt_turnSpeed : float;
    opt_coordsElement : option string }.

(** [new ShipController(options)] *)
Definition new_ShipController (options : ShipControllerOptions)
  : ShipController :=
  {| ship := opt_ship options;
     moveState := {| f := 0; b := 0; l := 0; r := 0 |};
     gamepadConnected := false;
     coordsElement := opt_coordsElement options;
     speedForward := opt_speedForward options;
     speedReverse := opt_speedReverse options;
     turnSpeed := opt_turnSpeed options |}.

(** [if (e.code === name) this.moveState[d] = v] *)
Definition onCode (e : KeyboardEvent) (name : string) (d : Direction)
  (v : float) (m : MoveState) : MoveState :=
  if String.eqb (code e) name then set_flag d v m else m.

(** [handleKeyDown] *)
Definition handleKeyDown (e : KeyboardEvent) (c : ShipController)
  : ShipController :=
  let m := moveState c in
  let m := onCode e "ArrowUp" Forward 1 m in
  let m := onCode e "ArrowDown" Backward 1 m in
  let m := onCode e "ArrowLeft" Left 1 m in
  let m := onCode e "ArrowRight" Right 1 m in
  set_moveState m c.

(** [handleKeyUp] *)
Definition handleKeyUp (e : KeyboardEvent) (c : ShipController)
  : ShipController :=
  let m := moveState c in
  let m := onCode e "ArrowUp" Forward 0 m in
  let m := onCode e "ArrowDown" Backward 0 m in
  let m := onCode e "ArrowLeft" Left 0 m in
  let m := onCode e "ArrowRight" Right 0 m in
  set_moveState m c.

(** [handleGamepadConnected], [handleGamepadDisconnected] *)
Definition handleGamepadConnected (c : ShipController) : ShipController :=
  set_gamepadConnected true c.

Definition handleGamepadDisconnected (c : ShipController) : ShipController :=
  set_gamepadConnected false c.

(** How a call ends: it returns, or a [TypeError] leaves it; either way
    with the state as it is at that point. *)
Inductive Outcome (A : Type) : Type :=
| Returned (a : A)
| Threw (a : A).
Arguments Returned {A} a.
Arguments Threw {A} a.

Definition state {A} (o : Outcome A) : A :=
  match o with Returned a => a | Threw a => a end.

Definition threw {A} (o : Outcome A) : bool :=
  match o with Returned _ => false | Threw _ => true end.

(** [gamepad.buttons[i]] followed by a property access, which throws
    when the gamepad has no such button. *)
Definition withButton (gamepad : Gamepad) (i : nat) (m : MoveState)
  (k : GamepadButton -> Outcome MoveState) : Outcome MoveState :=
  match nth_error (buttons gamepad) i with
  | Some button => k button
  | None => Threw m
  end.

(** [if (gamepad.buttons[i].pressed) this.moveState[d] = 1], then the
    rest. *)
Definition onPressed (gamepad : Gamepad) (i : nat) (d : Direction)
  (m : MoveState) (k : MoveState -> Outcome MoveState) : Outcome MoveState :=
  withButton gamepad i m
    (fun button => k (if pressed button then set_flag d 1 m else m)).

(** The move state [handleGamepadInput] computes from the first
    gamepad. *)
Definition readGamepad (gamepad : Gamepad) : Outcome MoveState :=
  let m := {| f := 0; b := 0; l := 0; r := 0 |} in
  let m :=
    match nth_error (axes gamepad) 0 with
    | Some leftStickX =>
        if (0.1 <? PrimFloat.abs leftStickX)%float then
          let m :=
            if (leftStickX <? -0.1)%float
            then set_flag Left (PrimFloat.abs leftStickX) m else m in
          if (0.1 <? leftStickX)%float
          then set_flag Right (PrimFloat.abs leftStickX) m else m
        else m
    | None => m
    end in
  withButton gamepad 7 m (fun button7 =>
  let rightTrigger := value button7 in
  withButton gamepad 6 m (fun button6 =>
  let leftTrigger := value button6 in
  let m := if (0.1 <? rightTrigger)%float
           then set_flag Forward rightTrigger m else m in
  let m := if (0.1 <? leftTrigger)%float
           then set_flag Backward leftTrigger m else m in
  onPressed gamepad 12 Forward m (fun m =>
  onPressed gamepad 13 Backward m (fun m =>
  onPressed gamepad 14 Left m (fun m =>
  onPressed gamepad 15 Right m (fun m =>
  onPressed gamepad 3 Forward m (fun m =>
  onPressed gamepad 0 Backward m (fun m =>
  onPressed gamepad 2 Left m (fun m =>
  onPressed gamepad 1 Right m (fun m => Returned m)))))))))).

(** [handleGamepadInput]; [gamepad] is [navigator.getGamepads()[0]]. *)
Definition handleGamepadInput (gamepad : option Gamepad) (c : ShipController)
  : Outcome ShipController :=
  if negb (gamepadConnected c) then Returned c
  else
    match gamepad with
    | None => Returned c
    | Some gamepad =>
        match readGamepad gamepad with
        | Returned m => Returned (set_moveState m c)
        | Threw m => Threw (set_moveState m c)
        end
    end.

Section WithLibrary.
Variable L : Library.

(** [updatePosition] *)
Definition updatePosition (c : ShipController) : ShipController :=
  let m := moveState c in
  let s := ship c in
  let s := if truthy (f m) then translateZ L (speedForward c) s else s in
  let s := if truthy (b m) then translateZ L (- speedReverse c) s else s in
  let s :=
    if truthy (l m)
    then {| position := position s;
            rotation_y := (rotation_y s + turnSpeed c)%float |}
    else s in
  let s :=
    if truthy (r m)
    then {| position := position s;
            rotation_y := (rotation_y s - turnSpeed c)%float |}
    else s in
  let c := set_ship s c in
  match coordsElement c with
  | Some _ =>
      set_coordsElement
        (Some ("X: " ++ toFixed L (vx (position s)) 1
               ++ ", Z: " ++ toFixed L (vz (position s)) 1)) c
  | None => c
  end.

End WithLibrary.

(** [getPosition], [getRotation] *)
Definition getPosition (c : ShipController) : Vector3 := position (ship c).
Definition getRotation (c : ShipController) : float := rotation_y (ship c).

End ShipController.

Module GameKeys.
Import JS Three Host ShipController.

Definition PLAYER_SPEED : float := 0.5.
Definition PLAYER_REVERSE_SPEED : float := 0.1.
Definition PLAYER_TURN_SPEED : float := 0.03.

(** [keyControls[key]] for the name of a key. *)
Definition keyControls (key : string) : option Direction :=
  if String.eqb key "ArrowUp" then Some Forward
  else if String.eqb key "ArrowDown" then Some Backward
  else if String.eqb key "ArrowLeft" then Some Left
  else if String.eqb key "ArrowRight" then Some Right
  else if String.eqb key "w" then Some Forward
  else if String.eqb key "s" then Some Backward
  else if String.eqb key "a" then Some Left
  else if String.eqb key "d" then Some Right
  else None.

(** [onKeyDown], on the controller of the game when it has one. *)
Definition onKeyDown (e : KeyboardEvent)
  (shipController : option ShipController) : option ShipController :=
  match shipController with
  | None => None
  | Some c =>
      match keyControls (key e) with
      | Some d => Some (set_moveState (set_flag d 1 (moveState c)) c)
      | None => Some c
      end
  end.

(** [onKeyUp] *)
Definition onKeyUp (e : KeyboardEvent)
  (shipController : option ShipController) : option ShipController :=
  match shipController with
  | None => None
  | Some c =>
      match keyControls (key e) with
      | Some d => Some (set_moveState (set_flag d 0 (moveState c)) c)
      | None => Some c
      end
  end.

(** What reaches the window between two frames. *)
Inductive Input : Type :=
| KeyDown (e : KeyboardEvent)
| KeyUp (e : KeyboardEvent)
| GamepadConnected
| GamepadDisconnected.

(** The listeners of the controller and of the game on one event, in
    the order [init] registers them. *)
Definition dispatch (shipController : option ShipController) (i : Input)
  : option ShipController :=
  match i with
  | KeyDown e => onKeyDown e (option_map (handleKeyDown e) shipController)
  | KeyUp e => onKeyUp e (option_map (handleKeyUp e) shipController)
  | GamepadConnected => option_map handleGamepadConnected shipController
  | GamepadDisconnected =>
      option_map handleGamepadDisconnected shipController
  end.

(** The controller [init] creates; there is none without the element
    that shows the coordinates. *)
Definition initialController (playerShip : ShipObject)
  (coordsElement : option string) : option ShipController :=
  match coordsElement with
  | Some text =>
      Some (new_ShipController
              {| opt_ship := playerShip;
                 opt_speedForward := PLAYER_SPEED;
                 opt_speedReverse := PLAYER_REVERSE_SPEED;
                 opt_turnSpeed := PLAYER_TURN_SPEED;
                 opt_coordsElement := Some text |})
  | None => None
  end.

Section WithLibrary.
Variable L : Library.

(** The first step of [animate]: the gamepad is read and the ship
    moved; a [TypeError] of the first ends the frame. *)
Definition steer (gamepad : option Gamepad)
  (shipController : option ShipController)
  : Outcome (option ShipController) :=
  match shipController with
  | None => Returned None
  | Some c =>
      match handleGamepadInput gamepad c with
      | Returned c => Returned (Some (updatePosition L c))
      | Threw c => Threw (Some c)
      end
  end.

End WithLibrary.
End GameKeys.

(* ================================================================== *)
(** * Facts about steering *)
(* ================================================================== *)

Module ControlFacts.
Import JS Three Host ShipController GameKeys.

(** A number above the dead zone counts as true. *)
Lemma above_tenth_truthy (v : float) :
  (0.1 <? v)%float = true -> truthy v = true.
Proof.
  unfold truthy, PrimFloat.is_zero, PrimFloat.is_nan.
  rewrite FloatAxioms.ltb_spec, !FloatAxioms.eqb_spec.
  unfold SFltb, SFeqb.
  replace (Prim2SF 0.1) with (S754_finite false 7205759403792794 (-56))
    by (vm_compute; reflexivity).
  replace (Prim2SF PrimFloat.zero) with (S754_zero false)
    by (vm_compute; reflexivity).
  destruct (Prim2SF v) as [s | s | | s m e]; cbn [SFcompare].
  - discriminate.
  - destruct s; [discriminate | reflexivity].
  - discriminate.
  - destruct s; [discriminate|]. intros _.
    rewrite Z.compare_refl.
    replace (PosDef.Pos.compare_cont Eq m m) with Eq; [reflexivity|].
    symmetry. apply Pos.compare_cont_refl.
Qed.

Lemma abs_truthy (v : float) :
  (0.1 <? PrimFloat.abs v)%float = true -> truthy (PrimFloat.abs v) = true.
Proof. apply above_tenth_truthy. Qed.

Lemma one_truthy : truthy 1 = true.
Proof. reflexivity. Qed.

Lemma zero_falsy : truthy 0 = false.
Proof. reflexivity. Qed.

(** *** When reading the gamepad throws *)

Lemma withButton_threw gamepad i m k :
  threw (withButton gamepad i m k)
  = match nth_error (buttons gamepad) i with
    | Some button => threw (k button)
    | None => true
    end.
Proof. unfold withButton. now destruct (nth_error _ i). Qed.

Lemma nth_error_short {A} (l : list A) i :
  nth_error l i = None <-> (List.length l <= i)%nat.
Proof. apply nth_error_None. Qed.

Lemma readGamepad_threw gamepad :
  threw (readGamepad gamepad)
  = (List.length (buttons gamepad) <? 16)%nat.
Proof.
  unfold readGamepad, onPressed. cbv zeta.
  match goal with
  | |- threw (withButton _ _ ?m _) = _ => generalize m
  end.
  intros m0.
  repeat (rewrite withButton_threw;
          match goal with
          | |- match nth_error (buttons gamepad) ?i with _ => _ end = _ =>
              let E := fresh "E" in
              destruct (nth_error (buttons gamepad) i) eqn:E;
              [|apply nth_error_None in E; symmetry; apply Nat.ltb_lt; lia]
          end).
  cbn [threw]. symmetry. apply Nat.ltb_ge.
  assert (nth_error (buttons gamepad) 15 <> None) as K by congruence.
  apply nth_error_Some in K. lia.
Qed.

Lemma handleGamepadInput_threw gamepad c :
  threw (handleGamepadInput (Some gamepad) c)
  = gamepadConnected c && (List.length (buttons gamepad) <? 16)%nat.
Proof.
  unfold handleGamepadInput. destruct (gamepadConnected c); [|reflexivity].
  cbn [negb andb]. rewrite <- readGamepad_threw.
  now destruct (readGamepad gamepad).
Qed.

Lemma handleGamepadInput_ship gamepad c :
  ship (state (handleGamepadInput gamepad c)) = ship c
  /\ gamepadConnected (state (handleGamepadInput gamepad c))
     = gamepadConnected c
  /\ coordsElement (state (handleGamepadInput gamepad c)) = coordsElement c
  /\ speedForward (state (handleGamepadInput gamepad c)) = speedForward c
  /\ speedReverse (state (handleGamepadInput gamepad c)) = speedReverse c
  /\ turnSpeed (state (handleGamepadInput gamepad c)) = turnSpeed c.
Proof.
  unfold handleGamepadInput. destruct (gamepadConnected c) eqn:E;
    [|now repeat split].
  destruct gamepad as [gamepad|]; [|now repeat split].
  destruct (readGamepad gamepad); now repeat split.
Qed.

(** *** A gamepad at rest *)

(** Nothing pressed, no value and no stick beyond the dead zone, and
    every button the controller reads in place. *)
Definition idle (gamepad : Gamepad) : Prop :=
  (16 <= List.length (buttons gamepad))%nat
  /\ (forall button, In button (buttons gamepad) ->
        pressed button = false /\ (0.1 <? value button)%float = false)
  /\ (forall x, nth_error (axes gamepad) 0 = Some x ->
        (0.1 <? PrimFloat.abs x)%float = false).

Definition still : MoveState := {| f := 0; b := 0; l := 0; r := 0 |}.

Lemma withButton_idle gamepad i m k :
  idle gamepad -> (i < 16)%nat ->
  exists button,
    withButton gamepad i m k = k button
    /\ pressed button = false /\ (0.1 <? value button)%float = false.
Proof.
  intros (Hl & Hb & _) Hi. unfold withButton.
  destruct (nth_error (buttons gamepad) i) as [button|] eqn:E.
  - exists button. split; [reflexivity|]. apply Hb.
    eapply nth_error_In; eassumption.
  - apply nth_error_None in E. lia.
Qed.

Lemma readGamepad_idle gamepad :
  idle gamepad -> readGamepad gamepad = Returned still.
Proof.
  intros I. unfold readGamepad, onPressed. cbv zeta.
  assert (Hm : match nth_error (axes gamepad) 0 with
               | Some leftStickX =>
                   if (0.1 <? PrimFloat.abs leftStickX)%float
                   then
                     if (0.1 <? leftStickX)%float
                     then set_flag Right (PrimFloat.abs leftStickX)
                            (if (leftStickX <? -0.1)%float
                             then set_flag Left (PrimFloat.abs leftStickX)
                                    still
                             else still)
                     else if (leftStickX <? -0.1)%float
                          then set_flag Left (PrimFloat.abs leftStickX) still
                          else still
                   else still
               | None => still
               end = still).
  { destruct I as (_ & _ & Ha).
    destruct (nth_error (axes gamepad) 0) as [x|]; [|reflexivity].
    now rewrite (Ha x eq_refl). }
  fold still. rewrite Hm.
  repeat (match goal with
          | |- withButton gamepad ?i ?m ?k = _ =>
              let button := fresh "button" in
              let E := fresh "E" in
              let P1 := fresh "P" in
              let V1 := fresh "V" in
              destruct (withButton_idle gamepad i m k I ltac:(lia))
                as (button & E & P1 & V1);
              rewrite E; cbv beta; rewrite ?P1, ?V1
          end).
  reflexivity.
Qed.

(** *** Key events *)

Definition isKey (i : Input) : bool :=
  match i with KeyDown _ | KeyUp _ => true | _ => false end.

(** What no key event changes. *)
Definition rig (c : ShipController) :=
  (ship c, gamepadConnected c, coordsElement c, speedForward c,
   speedReverse c, turnSpeed c).

Lemma dispatch_key c i :
  isKey i = true ->
  exists c', dispatch (Some c) i = Some c' /\ rig c' = rig c.
Proof.
  destruct i as [e | e | |]; try discriminate; intros _;
    cbn [dispatch option_map]; unfold onKeyDown, onKeyUp;
    destruct (keyControls (key e)); eexists; split; reflexivity.
Qed.

Lemma dispatch_keys inputs :
  forall c, forallb isKey inputs = true ->
    exists c', fold_left dispatch inputs (Some c) = Some c' /\ rig c' = rig c.
Proof.
  induction inputs as [|i inputs IH]; intros c Hk.
  - exists c. now split.
  - cbn [forallb] in Hk. apply andb_prop in Hk. destruct Hk as [Hi Hk].
    destruct (dispatch_key c i Hi) as (c1 & E1 & R1).
    destruct (IH c1 Hk) as (c2 & E2 & R2).
    exists c2. cbn [fold_left]. rewrite E1. split; [exact E2|]. congruence.
Qed.

(** *** What of the gamepad reaches the ship *)

(** The tests [handleGamepadInput] makes on a gamepad: which buttons are
    pressed, which values exceed the dead zone, and where the stick is
    with respect to it. *)
Definition pushes (gamepad : Gamepad)
  : list bool * list bool * option (bool * bool * bool) :=
  (map pressed (buttons gamepad),
   map (fun button => (0.1 <? value button)%float) (buttons gamepad),
   option_map
     (fun x => ((0.1 <? PrimFloat.abs x)%float, (x <? -0.1)%float,
                (0.1 <? x)%float))
     (nth_error (axes gamepad) 0)).

(** The flags of a move state as [updatePosition] tests them. *)
Definition digital (m : MoveState) : bool * bool * bool * bool :=
  (truthy (f m), truthy (b m), truthy (l m), truthy (r m)).

(** Two outcomes that end alike with the same flags set. *)
Definition alike (o o' : Outcome MoveState) : Prop :=
  threw o = threw o' /\ digital (state o) = digital (state o').

Lemma digital_set d v v' m m' :
  truthy v = truthy v' -> digital m = digital m' ->
  digital (set_flag d v m) = digital (set_flag d v' m').
Proof.
  unfold digital. intros Hv [= E1 E2 E3 E4].
  destruct d; cbn [set_flag f b l r]; congruence.
Qed.

Lemma same_button gamepad gamepad' i :
  pushes gamepad = pushes gamepad' ->
  match nth_error (buttons gamepad) i, nth_error (buttons gamepad') i with
  | Some button, Some button' =>
      pressed button = pressed button'
      /\ (0.1 <? value button)%float = (0.1 <? value button')%float
  | None, None => True
  | _, _ => False
  end.
Proof.
  unfold pushes. intros [= E1 E2 _].
  pose proof (f_equal (fun l => nth_error l i) E1) as N1.
  pose proof (f_equal (fun l => nth_error l i) E2) as N2.
  cbv beta in N1, N2. rewrite !nth_error_map in N1, N2.
  destruct (nth_error (buttons gamepad) i),
    (nth_error (buttons gamepad') i); cbn in *; try discriminate;
    [|exact I].
  split; congruence.
Qed.

Lemma withButton_alike gamepad gamepad' i m m' k k' :
  pushes gamepad = pushes gamepad' ->
  digital m = digital m' ->
  (forall button button',
     pressed button = pressed button' ->
     (0.1 <? value button)%float = (0.1 <? value button')%float ->
     alike (k button) (k' button')) ->
  alike (withButton gamepad i m k) (withButton gamepad' i m' k').
Proof.
  intros E Hm Hk. pose proof (same_button gamepad gamepad' i E) as B.
  unfold withButton.
  destruct (nth_error (buttons gamepad) i) as [button|],
    (nth_error (buttons gamepad') i) as [button'|]; try contradiction.
  - destruct B as [B1 B2]. now apply Hk.
  - split; [reflexivity | exact Hm].
Qed.

Lemma onPressed_alike gamepad gamepad' i d m m' k k' :
  pushes gamepad = pushes gamepad' ->
  digital m = digital m' ->
  (forall n n', digital n = digital n' -> alike (k n) (k' n')) ->
  alike (onPressed gamepad i d m k) (onPressed gamepad' i d m' k').
Proof.
  intros E Hm Hk. pose proof (same_button gamepad gamepad' i E) as B.
  unfold onPressed, withButton.
  destruct (nth_error (buttons gamepad) i) as [button|],
    (nth_error (buttons gamepad') i) as [button'|]; try contradiction.
  - destruct B as [B _]. rewrite <- B. apply Hk.
    destruct (pressed button); [|exact Hm].
    now apply digital_set.
  - split; [reflexivity | exact Hm].
Qed.

Lemma readGamepad_alike gamepad gamepad' :
  pushes gamepad = pushes gamepad' ->
  alike (readGamepad gamepad) (readGamepad gamepad').
Proof.
  intros E. unfold readGamepad. cbv zeta.
  assert (Hm : digital
                 match nth_error (axes gamepad) 0 with
                 | Some leftStickX =>
                     if (0.1 <? PrimFloat.abs leftStickX)%float
                     then
                       if (0.1 <? leftStickX)%float
                       then set_flag Right (PrimFloat.abs leftStickX)
                              (if (leftStickX <? -0.1)%float
                               then set_flag Left (PrimFloat.abs leftStickX)
                                      still
                               else still)
                       else if (leftStickX <? -0.1)%float
                            then set_flag Left (PrimFloat.abs leftStickX)
                                   still
                            else still
                     else still
                 | None => still
                 end
               = digital
                   match nth_error (axes gamepad') 0 with
                   | Some leftStickX =>
                       if (0.1 <? PrimFloat.abs leftStickX)%float
                       then
                         if (0.1 <? leftStickX)%float
                         then set_flag Right (PrimFloat.abs leftStickX)
                                (if (leftStickX <? -0.1)%float
                                 then set_flag Left
                                        (PrimFloat.abs leftStickX) still
                                 else still)
                         else if (leftStickX <? -0.1)%float
                              then set_flag Left (PrimFloat.abs leftStickX)
                                     still
                              else still
                       else still
                   | None => still
                   end).
  { assert (E' : option_map
                   (fun x => ((0.1 <? PrimFloat.abs x)%float,
                              (x <? -0.1)%float, (0.1 <? x)%float))
                   (nth_error (axes gamepad) 0)
                 = option_map
                     (fun x => ((0.1 <? PrimFloat.abs x)%float,
                                (x <? -0.1)%float, (0.1 <? x)%float))
                     (nth_error (axes gamepad') 0)).
    { unfold pushes in E. injection E as _ _ E3. exact E3. }
    destruct (nth_error (axes gamepad) 0) as [x|],
      (nth_error (axes gamepad') 0) as [x'|]; cbn in E'; try discriminate;
      [|reflexivity].
    injection E' as E1 E2 E3. rewrite <- E1, <- E2, <- E3.
    destruct (0.1 <? PrimFloat.abs x)%float eqn:Ea; [|reflexivity].
    assert (Tx : truthy (PrimFloat.abs x) = truthy (PrimFloat.abs x')).
    { rewrite (abs_truthy x Ea). symmetry. apply abs_truthy. congruence. }
    destruct (0.1 <? x)%float, (x <? -0.1)%float;
      repeat (apply digital_set; [exact Tx|]); reflexivity. }
  fold still. revert Hm.
  match goal with
  | |- digital ?a = digital ?b -> _ => generalize a, b
  end.
  intros m m' Hm.
  apply withButton_alike; [exact E | exact Hm |]. intros b7 b7' _ B7.
  apply withButton_alike; [exact E | exact Hm |]. intros b6 b6' _ B6.
  assert (Hm2 : digital
                  (if (0.1 <? value b6)%float
                   then set_flag Backward (value b6)
                          (if (0.1 <? value b7)%float
                           then set_flag Forward (value b7) m else m)
                   else if (0.1 <? value b7)%float
                        then set_flag Forward (value b7) m else m)
                = digital
                    (if (0.1 <? value b6')%float
                     then set_flag Backward (value b6')
                            (if (0.1 <? value b7')%float
                             then set_flag Forward (value b7') m' else m')
                     else if (0.1 <? value b7')%float
                          then set_flag Forward (value b7') m' else m')).
  { rewrite <- B6, <- B7.
    destruct (0.1 <? value b6)%float eqn:E6,
      (0.1 <? value b7)%float eqn:E7;
      repeat (apply digital_set;
              [rewrite !above_tenth_truthy by congruence; reflexivity|]);
      exact Hm. }
  revert Hm2.
  match goal with
  | |- digital ?a = digital ?b -> _ => generalize a, b
  end.
  clear m m' Hm. intros m m' Hm.
  repeat (apply onPressed_alike; [exact E | assumption |];
          clear m m' Hm; intros m m' Hm).
  split; [reflexivity | exact Hm].
Qed.

Section WithLibrary.
Variable L : Library.

Lemma updatePosition_digital c c' :
  rig c = rig c' -> digital (moveState c) = digital (moveState c') ->
  rig (updatePosition L c) = rig (updatePosition L c').
Proof.
  destruct c as [s m g ce sf sr ts], c' as [s' m' g' ce' sf' sr' ts'].
  unfold rig, digital, updatePosition.
  cbn [ship moveState gamepadConnected coordsElement speedForward
       speedReverse turnSpeed].
  intros [= -> -> -> -> -> ->] [= D1 D2 D3 D4]. cbv zeta.
  rewrite D1, D2, D3, D4.
  cbn [ship moveState gamepadConnected coordsElement speedForward
       speedReverse turnSpeed set_ship].
  destruct ce'; reflexivity.
Qed.

End WithLibrary.

End ControlFacts.

(* ================================================================== *)
(** * Properties of steering *)
(* ================================================================== *)

Module ControlProperties.
Import JS Three Host ShipController GameKeys ControlFacts.

(** A stand-in for the library: the ship moves along the z axis
    whatever its heading, and every number prints alike. *)
Definition flat : Library :=
  {| translateZ :=
       fun distance s =>
         {| position :=
              vec3 (vx (position s)) (vy (position s))
                (vz (position s) + distance)%float;
            rotation_y := rotation_y s |};
     toFixed := fun _ _ => "0.0" |}.

(** The ship where [createShip] puts it. *)
Definition atOrigin : ShipObject :=
  {| position := vec3 0 0.25 0; rotation_y := 0 |}.

(** A gamepad with sixteen buttons and its stick at [x], the right
    trigger (button 7) pressed to [trigger]. *)
Definition pad (x trigger : float) : Gamepad :=
  {| axes := [x];
     buttons :=
       (repeat {| pressed := false; value := 0 |} 7
        ++ {| pressed := false; value := trigger |}
        :: repeat {| pressed := false; value := 0 |} 8)%list |}.

(** X24: with a gamepad connected, [handleGamepadInput] throws exactly
    when the first gamepad has fewer than sixteen buttons; the frame
    then ends before [updatePosition], with the ship and the text of
    the coordinates as they were. *)
Theorem short_gamepad_ends_the_frame (L : Library) (gamepad : Gamepad)
  (c : ShipController) :
  let short :=
    gamepadConnected c && (List.length (buttons gamepad) <? 16)%nat in
  threw (handleGamepadInput (Some gamepad) c) = short
  /\ threw (steer L (Some gamepad) (Some c)) = short
  /\ (short = true ->
      exists c',
        state (steer L (Some gamepad) (Some c)) = Some c'
        /\ ship c' = ship c /\ coordsElement c' = coordsElement c).
Proof.
  intros short.
  pose proof (handleGamepadInput_threw gamepad c) as T. fold short in T.
  pose proof (handleGamepadInput_ship (Some gamepad) c)
    as (S1 & _ & S3 & _).
  split; [exact T|]. unfold steer.
  destruct (handleGamepadInput (Some gamepad) c) as [c1 | c1];
    cbn [threw state] in *.
  - split; [exact T|]. intros E. congruence.
  - split; [exact T|]. intros _. exists c1. now repeat split.
Qed.

(** X25: while a gamepad is connected and at rest (sixteen buttons or
    more, none pressed, no value and no stick beyond 0.1), the keys do
    not steer: whatever key events arrived since the last frame, the
    frame clears the move state and leaves the ship where it is. *)
Theorem gamepad_at_rest_overrides_the_keys (L : Library)
  (gamepad : Gamepad) (c : ShipController) (inputs : list Input) :
  gamepadConnected c = true -> idle gamepad ->
  forallb isKey inputs = true ->
  exists c',
    steer L (Some gamepad) (fold_left dispatch inputs (Some c))
    = Returned (Some c')
    /\ ship c' = ship c /\ moveState c' = still.
Proof.
  intros Hc Hi Hk.
  destruct (dispatch_keys inputs c Hk) as (c1 & -> & R).
  unfold rig in R. injection R as R1 R2 R3 R4 R5 R6.
  unfold steer, handleGamepadInput. rewrite R2, Hc. cbn [negb].
  rewrite (readGamepad_idle gamepad Hi).
  eexists. split; [reflexivity|].
  unfold updatePosition, still.
  cbn [moveState set_moveState f b l r ship coordsElement set_ship].
  change (truthy 0) with false. cbv iota.
  rewrite R1. destruct (coordsElement c1); now split.
Qed.

(** The up arrow held down beside a connected gamepad at rest. *)
Lemma gamepad_at_rest_overrides_the_keys_witness :
  let c :=
    handleGamepadConnected
      (new_ShipController
         {| opt_ship := atOrigin; opt_speedForward := PLAYER_SPEED;
            opt_speedReverse := PLAYER_REVERSE_SPEED;
            opt_turnSpeed := PLAYER_TURN_SPEED;
            opt_coordsElement := Some "" |}) in
  let held := [KeyDown {| code := "ArrowUp"; key := "ArrowUp" |}] in
  option_map (fun c => f (moveState c)) (fold_left dispatch held (Some c))
  = Some 1%float
  /\ exists c',
       steer flat (Some (pad 0 0)) (fold_left dispatch held (Some c))
       = Returned (Some c')
       /\ ship c' = atOrigin.
Proof.
  intros c held. split; [reflexivity|].
  destruct (gamepad_at_rest_overrides_the_keys flat (pad 0 0) c held)
    as (c' & E & S & _).
  - reflexivity.
  - split; [cbn; lia|]. split.
    + intros button Hin. cbn in Hin.
      repeat (destruct Hin as [<- | Hin]; [now split|]). contradiction.
    + intros x [= <-]. reflexivity.
  - reflexivity.
  - exists c'. split; [exact E | exact S].
Defined.

(** X26: a frame uses the gamepad only through the tests it makes:
    which buttons are pressed, which values exceed 0.1 and on which
    side of the dead zone the stick is.  Two gamepads that agree on
    those end the frame alike, with the same ship and the same text of
    the coordinates; how far a trigger or the stick is pushed does not
    matter. *)
Theorem analog_values_only_switch (L : Library) (gamepad gamepad' : Gamepad)
  (c : ShipController) :
  pushes gamepad = pushes gamepad' ->
  let o := steer L (Some gamepad) (Some c) in
  let o' := steer L (Some gamepad') (Some c) in
  threw o = threw o'
  /\ option_map rig (state o) = option_map rig (state o').
Proof.
  intros E. unfold steer, handleGamepadInput.
  destruct (gamepadConnected c) eqn:Hc; cbn [negb]; [|now split].
  destruct (readGamepad_alike gamepad gamepad' E) as [T D].
  destruct (readGamepad gamepad) as [m | m],
    (readGamepad gamepad') as [m' | m']; try discriminate;
    cbn [threw state option_map] in *.
  - split; [reflexivity|]. f_equal.
    apply updatePosition_digital; [reflexivity | exact D].
  - split; reflexivity.
Qed.

(** The right trigger pressed a fifth and pressed fully. *)
Lemma analog_values_only_switch_witness :
  let c :=
    handleGamepadConnected
      (new_ShipController
         {| opt_ship := atOrigin; opt_speedForward := PLAYER_SPEED;
            opt_speedReverse := PLAYER_REVERSE_SPEED;
            opt_turnSpeed := PLAYER_TURN_SPEED;
            opt_coordsElement := Some "" |}) in
  option_map ship (state (steer flat (Some (pad 0 0.2)) (Some c)))
  = Some {| position := vec3 0 0.25 0.5; rotation_y := 0 |}
  /\ option_map rig (state (steer flat (Some (pad 0 0.2)) (Some c)))
     = option_map rig (state (steer flat (Some (pad 0 1)) (Some c))).
Proof.
  intros c. split; [reflexivity|].
  apply (analog_values_only_switch flat (pad 0 0.2) (pad 0 1) c).
  reflexivity.
Defined.

End ControlProperties.

(* ================================================================== *)
(** * [Ship]: the parts of the player's ship *)
(* ================================================================== *)

Module Ship.
Import JS.

(** The eight materials of a ship; a mesh holds one of them, and
    several meshes may hold the same. *)
Inductive Material : Type :=
| hullMaterial
| deckMaterial
| cabinMaterial
| mastMaterial
| sailMaterial
| railingMaterial
| flagMaterial
| windowMaterial.

Inductive Geometry : Type :=
| BoxGeometry (width height depth : float)
| CylinderGeometry (radiusTop radiusBottom height : float) (segments : Z)
| PlaneGeometry (width height : float).

(** What the class reads and writes of a [THREE.Mesh]. *)
Record Mesh : Type :=
  { geometry : Geometry;
    material : Material;
    position_x : float;
    position_y : float;
    position_z : float;
    rotation_x : float;
    rotation_y : float;
    scale_z : float;
    visible : bool }.

(** [new THREE.Mesh(geometry, material)] *)
Definition new_Mesh (g : Geometry) (m : Material) : Mesh :=
  {| geometry := g; material := m;
     position_x := 0; position_y := 0; position_z := 0;
     rotation_x := 0; rotation_y := 0; scale_z := 1; visible := true |}.

Definition set_position (x y z : float) (m : Mesh) : Mesh :=
  {| geometry := geometry m; material := material m;
     position_x := x; position_y := y; position_z := z;
     rotation_x := rotation_x m; rotation_y := rotation_y m;
     scale_z := scale_z m; visible := visible m |}.

Definition set_position_y (y : float) (m : Mesh) : Mesh :=
  set_position (position_x m) y (position_z m) m.

Definition set_rotation_x (v : float) (m : Mesh) : Mesh :=
  {| geometry := geometry m; material := material m;
     position_x := position_x m; position_y := position_y m;
     position_z := position_z m;
     rotation_x := v; rotation_y := rotation_y m;
     scale_z := scale_z m; visible := visible m |}.

Definition set_rotation_y (v : float) (m : Mesh) : Mesh :=
  {| geometry := geometry m; material := material m;
     position_x := position_x m; position_y := position_y m;
     position_z := position_z m;
     rotation_x := rotation_x m; rotation_y := v;
     scale_z := scale_z m; visible := visible m |}.

Definition set_scale_z (v : float) (m : Mesh) : Mesh :=
  {| geometry := geometry m; material := material m;
     position_x := position_x m; position_y := position_y m;
     position_z := position_z m;
     rotation_x := rotation_x m; rotation_y := rotation_y m;
     scale_z := v; visible := visible m |}.

Definition set_visible (v : bool) (m : Mesh) : Mesh :=
  {| geometry := geometry m; material := material m;
     position_x := position_x m; position_y := position_y m;
     position_z := position_z m;
     rotation_x := rotation_x m; rotation_y := rotation_y m;
     scale_z := scale_z m; visible := v |}.

(** The fields of the class that hold a mesh; [Window i] is
    [windows[i]]. *)
Inductive Part : Type :=
| Hull
| Deck
| Cabin
| Mast
| Sail
| Bowsprit
| LeftRailing
| RightRailing
| FlagPole
| Flag
| Window (i : nat).

Definition Part_eqb (p q : Part) : bool :=
  match p, q with
  | Hull, Hull | Deck, Deck | Cabin, Cabin | Mast, Mast | Sail, Sail
  | Bowsprit, Bowsprit | LeftRailing, LeftRailing
  | RightRailing, RightRailing | FlagPole, FlagPole | Flag, Flag => true
  | Window i, Window j => Nat.eqb i j
  | _, _ => false
  end.

(** [ShipPartColors] *)
Record ShipPartColors : Type :=
  { c_hull : option Z;
    c_deck : option Z;
    c_cabin : option Z;
    c_mast : option Z;
    c_sail : option Z;
    c_railings : option Z;
    c_flag : option Z;
    c_windows : option Z }.

Record HullSize : Type := { width : float; height : float; length : float }.

(** [ShipOptions] *)
Record ShipOptions : Type :=
  { colors : option ShipPartColors;
    showCabin : option bool;
    showSail : option bool;
    showFlag : option bool;
    showRailings : option bool;
    hullSize : option HullSize }.

(** The ship: the meshes its fields point at, the order in which the
    group holds them, and the colour of each material. *)
Record Ship : Type :=
  { hull : option Mesh;
    deck : option Mesh;
    cabin : option Mesh;
    mast : option Mesh;
    sail : option Mesh;
    bowsprit : option Mesh;
    leftRailing : option Mesh;
    rightRailing : option Mesh;
    flagPole : option Mesh;
    flag : option Mesh;
    windows : list Mesh;
    shipGroup : list Part;
    color : Material -> Z }.

(** The mesh a field points at. *)
Definition mesh_of (p : Part) (s : Ship) : option Mesh :=
  match p with
  | Hull => hull s
  | Deck => deck s
  | Cabin => cabin s
  | Mast => mast s
  | Sail => sail s
  | Bowsprit => bowsprit s
  | LeftRailing => leftRailing s
  | RightRailing => rightRailing s
  | FlagPole => flagPole s
  | Flag => flag s
  | Window i => nth_error (windows s) i
  end.

(** [this.<part> = mesh] *)
Definition set_part (p : Part) (m : option Mesh) (s : Ship) : Ship :=
  {| hull := match p with Hull => m | _ => hull s end;
     deck := match p with Deck => m | _ => deck s end;
     cabin := match p with Cabin => m | _ => cabin s end;
     mast := match p with Mast => m | _ => mast s end;
     sail := match p with Sail => m | _ => sail s end;
     bowsprit := match p with Bowsprit => m | _ => bowsprit s end;
     leftRailing := match p with LeftRailing => m | _ => leftRailing s end;
     rightRailing :=
       match p with RightRailing => m | _ => rightRailing s end;
     flagPole := match p with FlagPole => m | _ => flagPole s end;
     flag := match p with Flag => m | _ => flag s end;
     windows := windows s;
     shipGroup := shipGroup s;
     color := color s |}.

Definition set_windows (l : list Mesh) (s : Ship) : Ship :=
  {| hull := hull s; deck := deck s; cabin := cabin s; mast := mast s;
     sail := sail s; bowsprit := bowsprit s; leftRailing := leftRailing s;
     rightRailing := rightRailing s; flagPole := flagPole s;
     flag := flag s; windows := l; shipGroup := shipGroup s;
     color := color s |}.

Definition set_shipGroup (l : list Part) (s : Ship) : Ship :=
  {| hull := hull s; deck := deck s; cabin := cabin s; mast := mast s;
     sail := sail s; bowsprit := bowsprit s; leftRailing := leftRailing s;
     rightRailing := rightRailing s; flagPole := flagPole s;
     flag := flag s; windows := windows s; shipGroup := l;
     color := color s |}.

Definition set_color (f : Material -> Z) (s : Ship) : Ship :=
  {| hull := hull s; deck := deck s; cabin := cabin s; mast := mast s;
     sail := sail s; bowsprit := bowsprit s; leftRailing := leftRailing s;
     rightRailing := rightRailing s; flagPole := flagPole s;
     flag := flag s; windows := windows s; shipGroup := shipGroup s;
     color := f |}.

(** [this.shipGroup.add(mesh)] for the new mesh of a field. *)
Definition group_add (p : Part) (s : Ship) : Ship :=
  set_shipGroup (shipGroup s ++ [p])%list s.

(** [this.shipGroup.remove(mesh)] *)
Definition group_remove (p : Part) (s : Ship) : Ship :=
  set_shipGroup (filter (fun q => negb (Part_eqb q p)) (shipGroup s)) s.

(** [this.<part> = mesh; this.shipGroup.add(mesh)] *)
Definition install (p : Part) (m : Mesh) (s : Ship) : Ship :=
  group_add p (set_part p (Some m) s).

(** [defaultColors] *)
Definition defaultColors (m : Material) : Z :=
  match m with
  | hullMaterial => 0x6b5b95
  | deckMaterial => 0x9e8b5d
  | cabinMaterial => 0x9e8b5d
  | mastMaterial => 0x8b4513
  | sailMaterial => 0xf5f5f5
  | railingMaterial => 0x8b4513
  | flagMaterial => 0xff0000
  | windowMaterial => 0x87cefa
  end.

(** [{ ...this.defaultColors, ...options.colors }], read per material;
    a colour that [options.colors] does not give is the default one. *)
Definition spread (custom : option ShipPartColors) (m : Material) : Z :=
  let pick (given : ShipPartColors -> option Z) :=
    match custom with
    | Some c =>
        match given c with Some v => v | None => defaultColors m end
    | None => defaultColors m
    end in
  match m with
  | hullMaterial => pick c_hull
  | deckMaterial => pick c_deck
  | cabinMaterial => pick c_cabin
  | mastMaterial => pick c_mast
  | sailMaterial => pick c_sail
  | railingMaterial => pick c_railings
  | flagMaterial => pick c_flag
  | windowMaterial => pick c_windows
  end.

Definition createHull (size : HullSize) (s : Ship) : Ship :=
  let hullGeometry := BoxGeometry (width size) (height size) (length size) in
  install Hull
    (set_position_y (height size / 2) (new_Mesh hullGeometry hullMaterial)) s.

Definition createDeck (hullSize : HullSize) (s : Ship) : Ship :=
  let deckGeometry :=
    BoxGeometry (width hullSize * 0.8) 0.1 (length hullSize * 0.9) in
  install Deck
    (set_position_y (height hullSize + 0.05)
       (new_Mesh deckGeometry deckMaterial)) s.

(** [this.shipGroup.add(window); this.windows.push(window)] *)
Definition pushWindow (m : Mesh) (s : Ship) : Ship :=
  let s := set_windows (windows s ++ [m])%list s in
  group_add (Window (List.length (windows s) - 1)) s.

Definition createWindows (s : Ship) : Ship :=
  let frontWindowGeometry := BoxGeometry 0.5 0.2 0.05 in
  let frontWindow :=
    set_position 0 0.75 1.01 (new_Mesh frontWindowGeometry windowMaterial) in
  let s := pushWindow frontWindow s in
  let sideWindowGeometry := BoxGeometry 0.05 0.2 0.4 in
  let leftWindow :=
    set_position 0.41 0.75 0.5 (new_Mesh sideWindowGeometry windowMaterial) in
  let s := pushWindow leftWindow s in
  let rightWindow :=
    set_position (-0.41) 0.75 0.5
      (new_Mesh sideWindowGeometry windowMaterial) in
  pushWindow rightWindow s.

Definition createCabin (s : Ship) : Ship :=
  let cabinGeometry := BoxGeometry 0.8 0.5 1 in
  let s :=
    install Cabin
      (set_position 0 0.7 0.5 (new_Mesh cabinGeometry cabinMaterial)) s in
  createWindows s.

Definition createMast (s : Ship) : Ship :=
  let mastGeometry := CylinderGeometry 0.05 0.05 2 8 in
  install Mast
    (set_position 0 1.55 (-0.2) (new_Mesh mastGeometry mastMaterial)) s.

Definition createSail (s : Ship) : Ship :=
  let sailGeometry := PlaneGeometry 1.2 1.5 in
  install Sail
    (set_position 0 1.25 (-0.2)
       (set_rotation_y (Math_PI / 2) (new_Mesh sailGeometry sailMaterial))) s.

Definition createBowsprit (s : Ship) : Ship :=
  let bowspritGeometry := CylinderGeometry 0.03 0.03 1.2 8 in
  install Bowsprit
    (set_position 0 0.6 1.8
       (set_rotation_x (Math_PI / 4)
          (new_Mesh bowspritGeometry mastMaterial))) s.

Definition createRailings (s : Ship) : Ship :=
  let leftRailingGeometry := BoxGeometry 0.05 0.1 2.7 in
  let s :=
    install LeftRailing
      (set_position 0.6 0.7 0
         (new_Mesh leftRailingGeometry railingMaterial)) s in
  let rightRailingGeometry := BoxGeometry 0.05 0.1 2.7 in
  install RightRailing
    (set_position (-0.6) 0.7 0
       (new_Mesh rightRailingGeometry railingMaterial)) s.

Definition createFlag (s : Ship) : Ship :=
  let flagPoleGeometry := CylinderGeometry 0.02 0.02 0.4 8 in
  let s :=
    install FlagPole
      (set_position 0 2.65 (-0.2)
         (new_Mesh flagPoleGeometry mastMaterial)) s in
  let flagGeometry := PlaneGeometry 0.3 0.2 in
  install Flag
    (set_rotation_y (Math_PI / 2)
       (set_position 0.15 2.65 (-0.2)
          (new_Mesh flagGeometry flagMaterial))) s.

(** [options.x !== undefined ? options.x : true] *)
Definition orTrue (v : option bool) : bool :=
  match v with Some x => x | None => true end.

Definition buildShip (options : ShipOptions) (s : Ship) : Ship :=
  let showCabin := orTrue (showCabin options) in
  let showSail := orTrue (showSail options) in
  let showFlag := orTrue (showFlag options) in
  let showRailings := orTrue (showRailings options) in
  let hullSize :=
    match hullSize options with
    | Some size => size
    | None => {| width := 1.5; height := 0.6; length := 3 |}
    end in
  let s := createHull hullSize s in
  let s := createDeck hullSize s in
  let s := if showCabin then createCabin s else s in
  let s := if showSail then createSail (createMast s) else s in
  let s := createBowsprit s in
  let s := if showRailings then createRailings s else s in
  if showFlag && showSail then createFlag s else s.

(** [new Ship(options)] *)
Definition new_Ship (options : ShipOptions) : Ship :=
  buildShip options
    {| hull := None; deck := None; cabin := None; mast := None;
       sail := None; bowsprit := None; leftRailing := None;
       rightRailing := None; flagPole := None; flag := None;
       windows := []; shipGroup := [];
       color := spread (colors options) |}.

(** [getObject]: the group, as the order of its children. *)
Definition getObject (s : Ship) : list Part := shipGroup s.

(** [material.color.setHex(color)] *)
Definition setHex (m : Material) (v : Z) (s : Ship) : Ship :=
  set_color
    (fun m' =>
       match m, m' with
       | hullMaterial, hullMaterial | deckMaterial, deckMaterial
       | cabinMaterial, cabinMaterial | mastMaterial, mastMaterial
       | sailMaterial, sailMaterial | railingMaterial, railingMaterial
       | flagMaterial, flagMaterial | windowMaterial, windowMaterial => v
       | _, _ => color s m'
       end) s.

(** [setColor] *)
Definition setColor (part : string) (v : Z) (s : Ship) : Ship :=
  if String.eqb part "hull" then setHex hullMaterial v s
  else if String.eqb part "deck" then setHex deckMaterial v s
  else if String.eqb part "cabin" then setHex cabinMaterial v s
  else if String.eqb part "mast" then setHex mastMaterial v s
  else if String.eqb part "sail" then setHex sailMaterial v s
  else if String.eqb part "railings" then setHex railingMaterial v s
  else if String.eqb part "flag" then setHex flagMaterial v s
  else if String.eqb part "windows" then setHex windowMaterial v s
  else s.

(** [if (this.<part>) this.<part>.<field> = value] *)
Definition adjust (p : Part) (change : Mesh -> Mesh) (s : Ship) : Ship :=
  match mesh_of p s with
  | Some m => set_part p (Some (change m)) s
  | None => s
  end.

(** [this.windows.forEach(window => ...)] *)
Definition adjustWindows (change : Mesh -> Mesh) (s : Ship) : Ship :=
  set_windows (map change (windows s)) s.

(** [togglePart] *)
Definition togglePart (part : string) (v : bool) (s : Ship) : Ship :=
  if String.eqb part "cabin" then
    adjustWindows (set_visible v) (adjust Cabin (set_visible v) s)
  else if String.eqb part "sail" then
    adjust Mast (set_visible v) (adjust Sail (set_visible v) s)
  else if String.eqb part "flag" then
    adjust FlagPole (set_visible v) (adjust Flag (set_visible v) s)
  else if String.eqb part "railings" then
    adjust RightRailing (set_visible v)
      (adjust LeftRailing (set_visible v) s)
  else s.

(** [setHullSize] *)
Definition setHullSize (width height length : float) (s : Ship) : Ship :=
  match hull s with
  | None => s
  | Some _ =>
      let s := group_remove Hull s in
      let hullGeometry := BoxGeometry width height length in
      let s :=
        install Hull
          (set_position_y (height / 2) (new_Mesh hullGeometry hullMaterial))
          s in
      let s :=
        match deck s with
        | Some _ =>
            let s := group_remove Deck s in
            let deckGeometry :=
              BoxGeometry (width * 0.8) 0.1 (length * 0.9) in
            install Deck
              (set_position_y (height + 0.05)
                 (new_Mesh deckGeometry deckMaterial)) s
        | None => s
        end in
      let s := adjust Cabin (set_position_y (height + 0.35)) s in
      let s := adjust Mast (set_position_y (height + 1.0)) s in
      let s := adjust Sail (set_position_y (height + 0.7)) s in
      let s := adjustWindows (set_position_y (height + 0.4)) s in
      let s :=
        adjust LeftRailing
          (fun m =>
             set_scale_z (length * 0.9)
               (set_position (width / 2 + 0.1) (height + 0.05) 0 m)) s in
      adjust RightRailing
        (fun m =>
           set_scale_z (length * 0.9)
             (set_position (- width / 2 - 0.1) (height + 0.05) 0 m)) s
  end.

End Ship.

(* ================================================================== *)
(** * Facts about the ship *)
(* ================================================================== *)

Module ShipFacts.
Import JS Ship.

(** The calls the customization panel makes on a ship. *)
Inductive Call : Type :=
| SetColor (part : string) (v : Z)
| TogglePart (part : string) (v : bool)
| SetHullSize (width height length : float).

Definition call (s : Ship) (c : Call) : Ship :=
  match c with
  | SetColor part v => setColor part v s
  | TogglePart part v => togglePart part v s
  | SetHullSize w h l => setHullSize w h l s
  end.

(** The material the constructor gives the mesh of each field. *)
Definition materialOf (p : Part) : Material :=
  match p with
  | Hull => hullMaterial
  | Deck => deckMaterial
  | Cabin => cabinMaterial
  | Mast | Bowsprit | FlagPole => mastMaterial
  | Sail => sailMaterial
  | LeftRailing | RightRailing => railingMaterial
  | Flag => flagMaterial
  | Window _ => windowMaterial
  end.

(** The parts [buildShip] creates for the given options. *)
Definition built (options : ShipOptions) (p : Part) : bool :=
  match p with
  | Hull | Deck | Bowsprit => true
  | Cabin => orTrue (showCabin options)
  | Window i => orTrue (showCabin options) && (i <? 3)%nat
  | Mast | Sail => orTrue (showSail options)
  | LeftRailing | RightRailing => orTrue (showRailings options)
  | FlagPole | Flag =>
      orTrue (showFlag options) && orTrue (showSail options)
  end.

Lemma Part_eqb_eq p q : Part_eqb p q = true <-> p = q.
Proof.
  destruct p, q; cbn; split; try discriminate; try reflexivity;
    try (intros E; apply Nat.eqb_eq in E; now subst);
    try (intros [= ->]; apply Nat.eqb_refl).
Qed.

(** A ship whose fields, group and materials fit together: the group
    holds the meshes of the fields, each once, and every mesh has the
    material of its field. *)
Record sound (s : Ship) : Prop :=
  { sound_group : forall p, In p (shipGroup s) <-> mesh_of p s <> None;
    sound_once : NoDup (shipGroup s);
    sound_material :
      forall p m, mesh_of p s = Some m -> material m = materialOf p }.

(** The fields that hold a mesh. *)
Definition present (s : Ship) (p : Part) : bool :=
  match mesh_of p s with Some _ => true | None => false end.

(** A field other than the list of windows. *)
Definition single (p : Part) : Prop :=
  match p with Window _ => False | _ => True end.

Lemma mesh_of_set_part p q m s :
  single p ->
  mesh_of q (set_part p m s) = if Part_eqb q p then m else mesh_of q s.
Proof. destruct p; try contradiction; intros _; destruct q; reflexivity. Qed.

Lemma Part_eqb_refl p : Part_eqb p p = true.
Proof. now apply Part_eqb_eq. Qed.

Lemma Part_eqb_neq p q : Part_eqb p q = false <-> p <> q.
Proof.
  split.
  - intros E ->. rewrite Part_eqb_refl in E. discriminate.
  - intros N. destruct (Part_eqb p q) eqn:E; [|reflexivity].
    apply Part_eqb_eq in E. contradiction.
Qed.

(** Two ships with meshes in the same fields. *)
Definition same_parts (s s' : Ship) : Prop :=
  forall p, present s' p = present s p.

Lemma same_parts_refl s : same_parts s s.
Proof. intros p. reflexivity. Qed.

Lemma same_parts_trans s1 s2 s3 :
  same_parts s1 s2 -> same_parts s2 s3 -> same_parts s1 s3.
Proof. intros A B p. now rewrite B, A. Qed.

(** A change of a mesh that keeps its material. *)
Definition gentle (change : Mesh -> Mesh) : Prop :=
  forall m, material (change m) = material m.

Lemma adjust_sound p change s :
  single p -> gentle change -> sound s ->
  sound (adjust p change s) /\ same_parts s (adjust p change s).
Proof.
  intros Hp Hg [G N M]. unfold adjust.
  destruct (mesh_of p s) as [m|] eqn:E;
    [|split; [now constructor | apply same_parts_refl]].
  assert (K : forall q,
            mesh_of q (set_part p (Some (change m)) s)
            = if Part_eqb q p then Some (change m) else mesh_of q s)
    by (intros q; now apply mesh_of_set_part).
  split.
  - constructor.
    + intros q. rewrite K. cbn [shipGroup set_part]. rewrite G.
      destruct (Part_eqb q p) eqn:Eq; [|tauto].
      apply Part_eqb_eq in Eq. subst q. rewrite E.
      split; discriminate.
    + exact N.
    + intros q m'. rewrite K. destruct (Part_eqb q p) eqn:Eq; [|apply M].
      apply Part_eqb_eq in Eq. subst q. intros [= <-].
      rewrite Hg. now apply M.
  - intros q. unfold present. rewrite K.
    destruct (Part_eqb q p) eqn:Eq; [|reflexivity].
    apply Part_eqb_eq in Eq. subst q. now rewrite E.
Qed.

Lemma mesh_of_adjustWindows change q s :
  mesh_of q (adjustWindows change s)
  = match q with
    | Window i => option_map change (nth_error (windows s) i)
    | _ => mesh_of q s
    end.
Proof.
  destruct q; try reflexivity. cbn [mesh_of adjustWindows set_windows windows].
  apply nth_error_map.
Qed.

Lemma adjustWindows_sound change s :
  gentle change -> sound s ->
  sound (adjustWindows change s) /\ same_parts s (adjustWindows change s).
Proof.
  intros Hg [G N M].
  assert (P : forall q,
            present (adjustWindows change s) q = present s q).
  { intros q. unfold present. rewrite mesh_of_adjustWindows.
    destruct q; try reflexivity. cbn [mesh_of].
    now destruct (nth_error (windows s) i). }
  split; [|exact P]. constructor.
  - intros q. cbn [shipGroup adjustWindows set_windows]. rewrite G.
    specialize (P q). unfold present in P.
    destruct (mesh_of q (adjustWindows change s)), (mesh_of q s);
      try discriminate; split; congruence.
  - exact N.
  - intros q m. rewrite mesh_of_adjustWindows.
    destruct q; try apply M. cbn [mesh_of].
    destruct (nth_error (windows s) i) as [m0|] eqn:E; [|discriminate].
    intros [= <-]. rewrite Hg. apply (M (Window i)). exact E.
Qed.

Lemma setHex_sound k v s :
  sound s -> sound (setHex k v s) /\ same_parts s (setHex k v s).
Proof.
  intros [G N M]. split; [now constructor|].
  intros p. now destruct p.
Qed.

(** [remove] and [add] of the mesh of a field in turn: the field gets
    a new mesh and goes to the end of the group. *)
Lemma replace_sound p m s :
  single p -> material m = materialOf p -> mesh_of p s <> None ->
  sound s ->
  sound (install p m (group_remove p s))
  /\ same_parts s (install p m (group_remove p s)).
Proof.
  intros Hp Hm Hin [G N M].
  assert (K : forall q,
            mesh_of q (install p m (group_remove p s))
            = if Part_eqb q p then Some m else mesh_of q s).
  { intros q. unfold install, group_add, group_remove.
    destruct p; try contradiction; destruct q; reflexivity. }
  split.
  - constructor.
    + intros q. rewrite K.
      unfold install, group_add, group_remove.
      assert (E : shipGroup
                    (set_shipGroup
                       (shipGroup
                          (set_part p (Some m)
                             (set_shipGroup
                                (filter (fun q0 => negb (Part_eqb q0 p))
                                   (shipGroup s)) s)) ++ [p]) 
                       (set_part p (Some m)
                          (set_shipGroup
                             (filter (fun q0 => negb (Part_eqb q0 p))
                                (shipGroup s)) s)))
                  = (filter (fun q0 => negb (Part_eqb q0 p)) (shipGroup s)
                     ++ [p])%list)
        by (destruct p; reflexivity).
      rewrite E, in_app_iff, filter_In, G. cbn [In].
      destruct (Part_eqb q p) eqn:Eq.
      * apply Part_eqb_eq in Eq. subst q. split; [discriminate | auto].
      * apply Part_eqb_neq in Eq. cbn [negb]. split.
        -- intros [[A _] | [A | []]]; [exact A | congruence].
        -- intros A. left. now split.
    + unfold install, group_add, group_remove.
      assert (E : shipGroup
                    (set_shipGroup
                       (shipGroup
                          (set_part p (Some m)
                             (set_shipGroup
                                (filter (fun q0 => negb (Part_eqb q0 p))
                                   (shipGroup s)) s)) ++ [p]) 
                       (set_part p (Some m)
                          (set_shipGroup
                             (filter (fun q0 => negb (Part_eqb q0 p))
                                (shipGroup s)) s)))
                  = (filter (fun q0 => negb (Part_eqb q0 p)) (shipGroup s)
                     ++ [p])%list)
        by (destruct p; reflexivity).
      rewrite E.
      apply NoDup_app; [now apply NoDup_filter | repeat constructor; auto|].
      intros q Hq [<- | []]. apply filter_In in Hq. destruct Hq as [_ Hq].
      rewrite Part_eqb_refl in Hq. discriminate.
    + intros q m'. rewrite K. destruct (Part_eqb q p) eqn:Eq; [|apply M].
      apply Part_eqb_eq in Eq. subst q. now intros [= <-].
  - intros q. unfold present. rewrite K.
    destruct (Part_eqb q p) eqn:Eq; [|reflexivity].
    apply Part_eqb_eq in Eq. subst q.
    destruct (mesh_of p s); [reflexivity | contradiction].
Qed.

(** A call that keeps a ship sound, with meshes in the same fields. *)
Definition keeps (F : Ship -> Ship) : Prop :=
  forall s, sound s -> sound (F s) /\ same_parts s (F s).

Lemma keeps_id : keeps (fun s => s).
Proof. intros s H. split; [exact H | apply same_parts_refl]. Qed.

Lemma keeps_comp F G : keeps F -> keeps G -> keeps (fun s => G (F s)).
Proof.
  intros HF HG s H. destruct (HF s H) as [A B].
  destruct (HG (F s) A) as [C D]. split; [exact C|].
  eapply same_parts_trans; eassumption.
Qed.

Lemma keeps_adjust p change :
  single p -> gentle change -> keeps (adjust p change).
Proof. intros Hp Hg s H. now apply adjust_sound. Qed.

Lemma keeps_adjustWindows change :
  gentle change -> keeps (adjustWindows change).
Proof. intros Hg s H. now apply adjustWindows_sound. Qed.

Lemma gentle_visible v : gentle (set_visible v).
Proof. intros m. reflexivity. Qed.

Lemma gentle_position_y y : gentle (set_position_y y).
Proof. intros m. reflexivity. Qed.

Lemma keeps_setColor part v : keeps (setColor part v).
Proof.
  intros s H. unfold setColor.
  repeat (destruct (String.eqb part _); [now apply setHex_sound|]).
  split; [exact H | apply same_parts_refl].
Qed.

Lemma keeps_togglePart part v : keeps (togglePart part v).
Proof.
  unfold togglePart. intros s H.
  destruct (String.eqb part "cabin").
  { apply (keeps_comp (adjust Cabin (set_visible v))
             (adjustWindows (set_visible v)));
      [apply keeps_adjust | apply keeps_adjustWindows | exact H];
      first [exact I | apply gentle_visible]. }
  destruct (String.eqb part "sail").
  { apply (keeps_comp (adjust Sail (set_visible v))
             (adjust Mast (set_visible v)));
      [apply keeps_adjust | apply keeps_adjust | exact H];
      first [exact I | apply gentle_visible]. }
  destruct (String.eqb part "flag").
  { apply (keeps_comp (adjust Flag (set_visible v))
             (adjust FlagPole (set_visible v)));
      [apply keeps_adjust | apply keeps_adjust | exact H];
      first [exact I | apply gentle_visible]. }
  destruct (String.eqb part "railings").
  { apply (keeps_comp (adjust LeftRailing (set_visible v))
             (adjust RightRailing (set_visible v)));
      [apply keeps_adjust | apply keeps_adjust | exact H];
      first [exact I | apply gentle_visible]. }
  split; [exact H | apply same_parts_refl].
Qed.

Lemma keeps_setHullSize w h l : keeps (setHullSize w h l).
Proof.
  intros s H. unfold setHullSize.
  destruct (hull s) as [m|] eqn:Eh;
    [|split; [exact H | apply same_parts_refl]].
  cbv zeta.
  set (s1 := install Hull _ (group_remove Hull s)).
  assert (H1 : sound s1 /\ same_parts s s1).
  { apply replace_sound; [exact I | reflexivity | | exact H].
    cbn [mesh_of]. rewrite Eh. discriminate. }
  destruct H1 as [H1 P1].
  set (s2 := match deck s1 with Some _ => _ | None => s1 end).
  assert (H2 : sound s2 /\ same_parts s1 s2).
  { subst s2. destruct (deck s1) as [d|] eqn:Ed;
      [|split; [exact H1 | apply same_parts_refl]].
    apply replace_sound; [exact I | reflexivity | | exact H1].
    cbn [mesh_of]. rewrite Ed. discriminate. }
  destruct H2 as [H2 P2].
  assert (G1 : forall x, gentle (fun m => set_scale_z (l * 0.9)
                              (set_position x (h + 0.05) 0 m)))
    by (intros x m0; reflexivity).
  pose proof (keeps_adjust Cabin (set_position_y (h + 0.35)) I
                (gentle_position_y _)) as K1.
  pose proof (keeps_adjust Mast (set_position_y (h + 1.0)) I
                (gentle_position_y _)) as K2.
  pose proof (keeps_adjust Sail (set_position_y (h + 0.7)) I
                (gentle_position_y _)) as K3.
  pose proof (keeps_adjustWindows (set_position_y (h + 0.4))
                (gentle_position_y _)) as K4.
  pose proof (keeps_adjust LeftRailing _ I (G1 (w / 2 + 0.1)%float)) as K5.
  pose proof (keeps_adjust RightRailing _ I (G1 (- w / 2 - 0.1)%float))
    as K6.
  pose proof (keeps_comp _ _
                (keeps_comp _ _
                   (keeps_comp _ _
                      (keeps_comp _ _ (keeps_comp _ _ K1 K2) K3) K4) K5) K6)
    as K.
  cbv beta in K.
  destruct (K s2 H2) as [H3 P3]. split; [exact H3|].
  eapply same_parts_trans; [exact P1|].
  eapply same_parts_trans; [exact P2 | exact P3].
Qed.

Lemma keeps_call c : keeps (fun s => call s c).
Proof.
  destruct c; cbn [call];
    [apply keeps_setColor | apply keeps_togglePart | apply keeps_setHullSize].
Qed.

Lemma keeps_calls calls : keeps (fun s => fold_left call calls s).
Proof.
  induction calls as [|c calls IH]; [apply keeps_id|].
  cbn [fold_left]. apply (keeps_comp (fun s => call s c)); [|exact IH].
  apply keeps_call.
Qed.

(** *** What the constructor builds *)

(** A sound ship with meshes exactly in the fields [f] marks. *)
Definition track (s : Ship) (f : Part -> bool) : Prop :=
  sound s /\ forall q, present s q = f q.

Lemma track_install p m s f :
  single p -> material m = materialOf p -> mesh_of p s = None ->
  track s f -> track (install p m s) (fun q => Part_eqb q p || f q).
Proof.
  intros Hp Hm A [[G N M] P].
  assert (K : forall q,
            mesh_of q (install p m s)
            = if Part_eqb q p then Some m else mesh_of q s).
  { intros q. unfold install, group_add.
    destruct p; try contradiction; destruct q; reflexivity. }
  assert (E : shipGroup (install p m s) = (shipGroup s ++ [p])%list)
    by (destruct p; reflexivity).
  split; [constructor|].
  - intros q. rewrite K, E, in_app_iff, G. cbn [In].
    destruct (Part_eqb q p) eqn:Eq.
    + apply Part_eqb_eq in Eq. subst q. split; [discriminate | auto].
    + apply Part_eqb_neq in Eq. split.
      * intros [B | [B | []]]; [exact B | congruence].
      * auto.
  - rewrite E. apply NoDup_app; [exact N | repeat constructor; auto|].
    intros q Hq [<- | []]. apply G in Hq. contradiction.
  - intros q m'. rewrite K. destruct (Part_eqb q p) eqn:Eq; [|apply M].
    apply Part_eqb_eq in Eq. subst q. now intros [= <-].
  - intros q. unfold present. rewrite K.
    destruct (Part_eqb q p) eqn:Eq; [reflexivity|].
    cbn [orb]. apply P.
Qed.

Lemma track_pushWindow m s f :
  material m = windowMaterial -> track s f ->
  track (pushWindow m s)
    (fun q => Part_eqb q (Window (List.length (windows s))) || f q).
Proof.
  intros Hm [[G N M] P]. unfold pushWindow. cbv zeta.
  cbn [windows set_windows]. rewrite length_app. cbn [List.length].
  replace (List.length (windows s) + 1 - 1)%nat
    with (List.length (windows s)) by lia.
  set (n := List.length (windows s)).
  assert (K : forall q,
            mesh_of q
              (group_add (Window n) (set_windows (windows s ++ [m]) s))
            = if Part_eqb q (Window n) then Some m else mesh_of q s).
  { intros q. destruct q; try reflexivity.
    cbn [mesh_of group_add set_shipGroup set_windows windows Part_eqb].
    destruct (Nat.eqb i n) eqn:Ei.
    - apply Nat.eqb_eq in Ei. subst i. unfold n.
      rewrite nth_error_app2 by lia. now rewrite Nat.sub_diag.
    - apply Nat.eqb_neq in Ei.
      destruct (Nat.lt_ge_cases i n) as [Hlt | Hge].
      + now rewrite nth_error_app1.
      + rewrite nth_error_app2 by exact Hge.
        assert (nth_error (windows s) i = None) as ->
          by (apply nth_error_None; exact Hge).
        apply nth_error_None. cbn [List.length]. unfold n in *. lia. }
  assert (A : mesh_of (Window n) s = None)
    by (cbn [mesh_of]; apply nth_error_None; unfold n; lia).
  split; [constructor|].
  - intros q. rewrite K.
    cbn [shipGroup group_add set_shipGroup set_windows].
    rewrite in_app_iff, G. cbn [In].
    destruct (Part_eqb q (Window n)) eqn:Eq.
    + apply Part_eqb_eq in Eq. subst q. split; [discriminate | auto].
    + apply Part_eqb_neq in Eq. split.
      * intros [B | [B | []]]; [exact B | congruence].
      * auto.
  - cbn [shipGroup group_add set_shipGroup set_windows].
    apply NoDup_app; [exact N | repeat constructor; auto|].
    intros q Hq [<- | []]. apply G in Hq. contradiction.
  - intros q m'. rewrite K.
    destruct (Part_eqb q (Window n)) eqn:Eq; [|apply M].
    apply Part_eqb_eq in Eq. subst q. now intros [= <-].
  - intros q. unfold present. rewrite K.
    destruct (Part_eqb q (Window n)) eqn:Eq; [reflexivity|].
    cbn [orb]. apply P.
Qed.

Lemma track_ext s f g : (forall q, f q = g q) -> track s f -> track s g.
Proof. intros E [A B]. split; [exact A|]. intros q. now rewrite B. Qed.

Definition bare (k : Material -> Z) : Ship :=
  {| hull := None; deck := None; cabin := None; mast := None;
     sail := None; bowsprit := None; leftRailing := None;
     rightRailing := None; flagPole := None; flag := None;
     windows := []; shipGroup := [];
     color := k |}.

Lemma track_bare k : track (bare k) (fun _ => false).
Proof.
  split; [constructor|].
  - intros p. cbn [shipGroup bare In]. split; [contradiction|].
    intros H. apply H. destruct p; try reflexivity. now destruct i.
  - constructor.
  - intros p m. destruct p; try discriminate. now destruct i.
  - intros p. unfold present. destruct p; try reflexivity. now destruct i.
Qed.

Lemma new_Ship_track options :
  track (new_Ship options) (built options).
Proof.
  unfold new_Ship, buildShip, built. cbv zeta.
  generalize (match hullSize options with
              | Some size => size
              | None => {| width := 1.5; height := 0.6; length := 3 |}
              end).
  fold (bare (spread (colors options))).
  generalize (spread (colors options)).
  intros k size.
  destruct (orTrue (showCabin options)), (orTrue (showSail options)),
    (orTrue (showRailings options)), (orTrue (showFlag options));
    cbn [andb];
    unfold createFlag, createRailings, createBowsprit, createSail,
      createMast, createCabin, createWindows, createDeck, createHull;
    cbv zeta;
    (eapply track_ext;
     [|repeat (match goal with
               | |- track (install _ _ _) _ =>
                   eapply track_install;
                   [exact I | reflexivity | vm_compute; reflexivity |]
               | |- track (pushWindow _ _) _ =>
                   eapply track_pushWindow; [reflexivity|]
               end);
       apply track_bare]);
    intros q; destruct q as [| | | | | | | | | |i];
    try (vm_compute; reflexivity);
    destruct i as [|[|[|i]]]; vm_compute; reflexivity.
Qed.

(** *** Colours *)

(** The colour a part shows: that of the material its mesh holds. *)
Definition shown (p : Part) (s : Ship) : option Z :=
  option_map (fun m => color s (material m)) (mesh_of p s).

Definition Material_eqb (a b : Material) : bool :=
  match a, b with
  | hullMaterial, hullMaterial | deckMaterial, deckMaterial
  | cabinMaterial, cabinMaterial | mastMaterial, mastMaterial
  | sailMaterial, sailMaterial | railingMaterial, railingMaterial
  | flagMaterial, flagMaterial | windowMaterial, windowMaterial => true
  | _, _ => false
  end.

Lemma shown_setHex k v p s :
  sound s ->
  shown p (setHex k v s)
  = if Material_eqb k (materialOf p)
    then option_map (fun _ => v) (mesh_of p s)
    else shown p s.
Proof.
  intros [_ _ M]. unfold shown.
  assert (E : mesh_of p (setHex k v s) = mesh_of p s) by now destruct p.
  rewrite E. destruct (mesh_of p s) as [m|] eqn:Em;
    [|now destruct (Material_eqb k (materialOf p))].
  cbn [option_map]. rewrite (M p m Em).
  destruct k, (materialOf p); reflexivity.
Qed.

(** *** Resizing the hull *)

Lemma filter_twice {A} (f g : A -> bool) l :
  filter f (filter g l) = filter g (filter f l).
Proof.
  induction l as [|a l IH]; [reflexivity|]. cbn.
  destruct (g a) eqn:Eg, (f a) eqn:Ef; cbn; rewrite ?Eg, ?Ef, ?IH;
    reflexivity.
Qed.

Lemma filter_again {A} (f : A -> bool) l :
  filter f (filter f l) = filter f l.
Proof.
  induction l as [|a l IH]; [reflexivity|]. cbn.
  destruct (f a) eqn:Ef; cbn; rewrite ?Ef, ?IH; reflexivity.
Qed.

Lemma setHullSize_twice w h l w' h' l' s :
  setHullSize w' h' l' (setHullSize w h l s) = setHullSize w' h' l' s.
Proof.
  destruct s as [hu de ca ma sa bo lr rr fp fl ws G k].
  unfold setHullSize. cbn [hull].
  destruct hu as [hu|]; [|reflexivity].
  destruct de as [de|], ca as [ca|], ma as [ma|], sa as [sa|],
    lr as [lr|], rr as [rr|];
    cbv beta iota zeta delta
      [adjust adjustWindows install group_add group_remove set_part
       set_windows set_shipGroup mesh_of hull deck cabin mast sail
       bowsprit leftRailing rightRailing flagPole flag windows shipGroup
       color];
    f_equal;
    rewrite ?map_map, ?filter_app; cbn [filter Part_eqb negb app];
    rewrite ?app_nil_r, ?filter_again;
    try reflexivity;
    rewrite (filter_twice (fun q => negb (Part_eqb q Hull)));
    rewrite ?filter_again; reflexivity.
Qed.

End ShipFacts.

(* ================================================================== *)
(** * Properties of the ship *)
(* ================================================================== *)

Module ShipProperties.
Import JS Ship ShipFacts.

(** X27: the options of the constructor decide once and for all which
    parts a ship has.  After any calls of [setColor], [togglePart] and
    [setHullSize] the fields that hold a mesh are those [buildShip]
    filled: hull, deck and bowsprit always, the cabin and its three
    windows with [showCabin], mast and sail with [showSail], the
    railings with [showRailings], and flag and flag pole only with both
    [showFlag] and [showSail]; the group holds exactly these meshes,
    each once. *)
Theorem parts_are_fixed_at_construction (options : ShipOptions)
  (calls : list Call) :
  let s := fold_left call calls (new_Ship options) in
  (forall p, mesh_of p s <> None <-> built options p = true)
  /\ (forall p, In p (getObject s) <-> built options p = true)
  /\ NoDup (getObject s).
Proof.
  intros s. destruct (new_Ship_track options) as [S0 P0].
  destruct (keeps_calls calls (new_Ship options) S0) as [[G N M] P].
  fold s in G, N, M, P.
  assert (K : forall p, mesh_of p s <> None <-> built options p = true).
  { intros p. specialize (P p). rewrite P0 in P. unfold present in P.
    rewrite <- P. destruct (mesh_of p s); split; congruence. }
  split; [exact K|]. split; [|exact N].
  intros p. unfold getObject. rewrite G. apply K.
Qed.

(** X28: the bowsprit and the flag pole hold the material of the mast.
    On a ship built by the constructor and changed by any calls,
    [setColor('mast', v)] gives the colour [v] to the mast, the
    bowsprit and the flag pole, as far as the ship has them, and leaves
    the colour every other part shows as it is. *)
Theorem mast_colour_reaches_bowsprit_and_flag_pole (options : ShipOptions)
  (calls : list Call) (v : Z) (p : Part) :
  let s := fold_left call calls (new_Ship options) in
  shown p (setColor "mast" v s)
  = match p with
    | Mast | Bowsprit | FlagPole => option_map (fun _ => v) (mesh_of p s)
    | _ => shown p s
    end.
Proof.
  intros s. destruct (new_Ship_track options) as [S0 _].
  destruct (keeps_calls calls (new_Ship options) S0) as [S _].
  fold s in S.
  change (setColor "mast" v s) with (setHex mastMaterial v s).
  rewrite (shown_setHex mastMaterial v p s S). now destruct p.
Qed.

(** X29: of two calls of [setHullSize] in a row only the second
    counts, on any ship.  The call puts the cabin 0.35 above the height
    it is given, while the constructor puts the cabin at 0.7 whatever
    hull size its options give. *)
Theorem setHullSize_last_call_wins (s : Ship) (options : ShipOptions)
  (w h l w' h' l' : float) :
  setHullSize w' h' l' (setHullSize w h l s) = setHullSize w' h' l' s
  /\ option_map position_y (cabin (setHullSize w h l (new_Ship options)))
     = option_map (fun _ => (h + 0.35)%float) (cabin (new_Ship options))
  /\ option_map position_y (cabin (new_Ship options))
     = if orTrue (showCabin options) then Some 0.7%float else None.
Proof.
  split; [apply setHullSize_twice|].
  unfold new_Ship, buildShip. cbv zeta.
  generalize (match hullSize options with
              | Some size => size
              | None => {| width := 1.5; height := 0.6; length := 3 |}
              end).
  generalize (spread (colors options)).
  intros k size.
  destruct (orTrue (showCabin options)), (orTrue (showSail options)),
    (orTrue (showRailings options)), (orTrue (showFlag options));
    split; vm_compute; reflexivity.
Qed.

End ShipProperties.

(* ================================================================== *)
(** * [Game.dispose] *)
(* ================================================================== *)

Module GameDispose.
Import JS Hash Config Three Data ChunkManager EventLoop.
Import DictFacts RunFacts PersistenceFacts StoreFacts DisposeFacts.

(** [Game.dispose], as far as the store, the chunk manager, the
    generator and the label container go: the data is saved first, then
    the chunk manager and the generator are disposed of, and the label
    container is emptied.  (The call also removes the listeners of the
    window, takes the water and the ship out of the scene, cancels the
    animation frame and disposes of the renderer.) *)
Definition dispose (w : World) : World :=
  let w := set_localStorage (saveData (dataManager w)) w in
  let w := ChunkManagerRest.dispose w in
  let w := set_gfx (IslandGenerator.dispose (gfx w)) w in
  set_gfx (with_islandLabels (option_map (fun _ => [])) (gfx w)) w.


End GameDispose.
